(** * A uniprocessor scheduling simulator: process manager and memory allocator

    Shallow embedding of [process_manager.c] (scheduler, admission stage,
    best-fit allocator, logging) and of the record-reading loop of [main.c],
    followed by the properties established about them.

    Conventions of the embedding:
    - [uint32_t] and [uint16_t] values are integers of [Z]; every C operation
      that can wrap is written with [u32] (reduction modulo 2^32);
    - a linked list is a Rocq [list]; a [node*] into a list is a position;
    - the processes are heap objects shared between [list_active],
      [list_ready] and [pRunningProcess]: [list_active] is the store, the two
      others hold positions of that store;
    - [assert] failures and dereferences of [NULL] are the [Fault] outcome of
      a small error monad. *)

From Stdlib Require Import ZArith List Lia Bool String Ascii DecimalString.
From Stdlib Require Import Permutation NArith DecimalN DecimalPos.
Import ListNotations.
Open Scope Z_scope.

Set Implicit Arguments.

(* ================================================================== *)
(** * Part I: the embedding                                            *)
(* ================================================================== *)

(** ** defines.h *)

Definition MAX_NAME_LEN : Z := 8.
Definition BUFFER_SIZE : Z := 2048.
Definition SHA_HASH_SIZE : Z := 64.
Definition PID_NULL_HANDLE : Z := -2.
Definition EOF : Z := -1.

(** Arithmetic of [uint32_t] and [uint16_t]. *)
Definition u32 (z : Z) : Z := z mod 2 ^ 32.
Definition u16 (z : Z) : Z := z mod 2 ^ 16.
Definition in_u32 (z : Z) : Prop := 0 <= z < 2 ^ 32.

(** ** Outcomes of fallible code *)

Inductive result (A : Type) : Type :=
| Ok (a : A)
| Fault.
Arguments Fault {A}.

Definition bind {A B : Type} (r : result A) (k : A -> result B) : result B :=
  match r with
  | Ok a => k a
  | Fault => Fault
  end.

Notation "x <- c1 ;; c2" := (bind c1 (fun x => c2))
  (at level 61, c1 at next level, right associativity).
Notation "' pat <- c1 ;; c2" := (bind c1 (fun x => match x with pat => c2 end))
  (at level 61, pat pattern, c1 at next level, right associativity).

Definition of_option {A : Type} (o : option A) : result A :=
  match o with
  | Some a => Ok a
  | None => Fault
  end.

(** ** process_manager.h and the types of process_manager.c *)

Inductive MEMORY_STRATEGY : Type := INFINITE | BEST_FIT.
Inductive SCHEDULER_TYPE : Type := SJF | RR.
Inductive PROCESS_STATE : Type := READY | RUNNING | FINISHED.

Record program : Type := mk_program {
  name : string;
  time_arrived : Z;
  service_time : Z;
  memory_required : Z
}.

Record memory_block : Type := mk_block {
  index : Z;
  size : Z
}.

Record memory_allocator : Type := mk_allocator {
  free_list : list memory_block;
  strategy : MEMORY_STRATEGY
}.

(** ** The list container

    [linked_list.c] is not part of the source tree; the operations on lists
    that [process_manager.c] calls are modelled here. *)

Module LinkedList.

(** Modelled from the spec: [list_insert_tail] of the missing
    [linked_list.c]; the queues are in insertion order and processes are
    re-enqueued at the tail. *)
Definition list_insert_tail {A : Type} (l : list A) (x : A) : list A :=
  l ++ [x].

(** Modelled from the spec: [list_insert_head] of the missing
    [linked_list.c], used once, on the empty free list. *)
Definition list_insert_head {A : Type} (l : list A) (x : A) : list A :=
  x :: l.

(** Modelled from the spec: [list_pop_node] of the missing [linked_list.c]
    unlinks the node at a position. Both loops of [process_manager.c] that
    call it carry on with its return value, and the spec has them keep
    scanning from that point, so the node returned is the successor of the
    removed one: after the removal it sits at the same position. *)
Fixpoint list_pop_node {A : Type} (l : list A) (pos : nat) : list A :=
  match l, pos with
  | [], _ => []
  | _ :: rest, O => rest
  | x :: rest, S pos' => x :: list_pop_node rest pos'
  end.

(** The comparator of [list_insert_sorted] is [mem_block_cmp], which never
    answers 0: it only tells whether its first argument has the strictly
    greater start offset. Where a block lands among entries of equal start
    offset therefore depends on the order in which the container passes
    the two blocks to the comparator, which the spec leaves open. *)
Inductive tie_rule : Type :=
| NewBeforeEqual   (* walks while [cmp new node > 0] *)
| NewAfterEqual.   (* walks until [cmp node new > 0] *)

(** Modelled from the spec: [list_insert_sorted] of the missing
    [linked_list.c]; release reinserts the block into the free list in
    start-offset order, i.e. before the first entry that the comparator
    places after it. *)
Fixpoint list_insert_sorted {A : Type} (tie : tie_rule)
    (cmp : option A -> option A -> Z) (x : A) (l : list A) : list A :=
  match l with
  | [] => [x]
  | y :: rest =>
      let before :=
        match tie with
        | NewBeforeEqual => negb (0 <? cmp (Some x) (Some y))
        | NewAfterEqual => 0 <? cmp (Some y) (Some x)
        end in
      if before then x :: l
      else y :: list_insert_sorted tie cmp x rest
  end.

(** Overwriting the data a node points to. *)
Fixpoint set_nth {A : Type} (l : list A) (pos : nat) (x : A) : list A :=
  match l, pos with
  | [], _ => []
  | _ :: rest, O => x :: rest
  | y :: rest, S pos' => y :: set_nth rest pos' x
  end.

End LinkedList.
Import LinkedList.

(** ** The memory allocator *)

(** [mem_block_cmp]: both pointers may be [NULL]. *)
Definition mem_block_cmp (pData1 pData2 : option memory_block) : Z :=
  match pData1, pData2 with
  | None, _ => -1
  | Some _, None => 1
  | Some pBlock1, Some pBlock2 =>
      if index pBlock2 <? index pBlock1 then 1 else -1
  end.

(** [allocator_initialise]. *)
Definition allocator_initialise (s : MEMORY_STRATEGY) : memory_allocator :=
  match s with
  | INFINITE => mk_allocator [] INFINITE
  | BEST_FIT =>
      mk_allocator (list_insert_head [] (mk_block 0 BUFFER_SIZE)) BEST_FIT
  end.

(** The scan of [allocator_find_best_fit]: [pos] is the position of [pNode],
    [chosen] the position of [pChosenBlock] with [min_gap] its leftover. *)
Fixpoint best_fit_scan (sz : Z) (l : list memory_block) (pos : nat)
    (chosen : option nat) (min_gap : Z) : option nat :=
  match l with
  | [] => chosen
  | pBlock :: rest =>
      if size pBlock <? sz then best_fit_scan sz rest (S pos) chosen min_gap
      else
        let gap := u32 (size pBlock - sz) in
        match chosen with
        | None => best_fit_scan sz rest (S pos) (Some pos) gap
        | Some _ =>
            if gap <? min_gap
            then best_fit_scan sz rest (S pos) (Some pos) gap
            else best_fit_scan sz rest (S pos) chosen min_gap
        end
  end.

(** [allocator_find_best_fit]: the block handed out (if any) and the
    allocator afterwards. The [assert] on the head of the free list is the
    first [Fault]; the second stands for a [pChosenBlock] that points
    nowhere, which the scan never produces. *)
Definition allocator_find_best_fit (a : memory_allocator) (sz : Z)
    : result (option memory_block * memory_allocator) :=
  match strategy a with
  | INFINITE => Ok (None, a)
  | BEST_FIT =>
      match free_list a with
      | [] => Fault
      | _ :: _ =>
          match best_fit_scan sz (free_list a) 0 None 0 with
          | None => Ok (None, a)
          | Some pos =>
              match nth_error (free_list a) pos with
              | None => Fault
              | Some pChosenBlock =>
                  let pAllocation := mk_block (index pChosenBlock) sz in
                  let adjusted := mk_block (u32 (index pChosenBlock + sz))
                                           (u32 (size pChosenBlock - sz)) in
                  Ok (Some pAllocation,
                      mk_allocator (set_nth (free_list a) pos adjusted)
                                   (strategy a))
              end
          end
      end
  end.

(** The adjacency pass of [allocater_free_memory]: [pBlock1] is the data of
    [pNode], [rest] the nodes after it. A merge rewrites the later block and
    unlinks the earlier one; the pass carries on from the later block. *)
Fixpoint merge_pass (pBlock1 : memory_block) (rest : list memory_block)
    : list memory_block :=
  match rest with
  | [] => [pBlock1]
  | pBlock2 :: rest' =>
      if u32 (index pBlock1 + size pBlock1) =? index pBlock2
      then merge_pass (mk_block (u32 (index pBlock2 - size pBlock1))
                                (u32 (size pBlock2 + size pBlock1))) rest'
      else pBlock1 :: merge_pass pBlock2 rest'
  end.

(** [allocater_free_memory], on the free list and the block of the process. *)
Definition allocater_free_memory (tie : tie_rule) (fl : list memory_block)
    (pBlock : memory_block) : list memory_block :=
  match list_insert_sorted tie mem_block_cmp pBlock fl with
  | [] => []
  | pBlock1 :: rest => merge_pass pBlock1 rest
  end.

(** ** Processes *)

Record process : Type := mk_process {
  pProgram : program;
  run_time : Z;
  state : PROCESS_STATE;
  pBlock : option memory_block;
  child_pid : Z;
  sha_buf : string
}.

Definition set_state (p : process) (s : PROCESS_STATE) : process :=
  mk_process (pProgram p) (run_time p) s (pBlock p) (child_pid p) (sha_buf p).
Definition set_run_time (p : process) (t : Z) : process :=
  mk_process (pProgram p) t (state p) (pBlock p) (child_pid p) (sha_buf p).
Definition set_pBlock (p : process) (b : option memory_block) : process :=
  mk_process (pProgram p) (run_time p) (state p) b (child_pid p) (sha_buf p).
Definition set_child_pid (p : process) (c : Z) : process :=
  mk_process (pProgram p) (run_time p) (state p) (pBlock p) c (sha_buf p).
Definition set_sha_buf (p : process) (s : string) : process :=
  mk_process (pProgram p) (run_time p) (state p) (pBlock p) (child_pid p) s.

(** What the manager does to the worker subprocesses, in order. The worker
    program is not part of the source tree: it is taken to follow the
    protocol, so the [exit] calls on an I/O error or on a wrong
    acknowledgement byte are not taken. *)
Inductive signal : Type := SIGTERM | SIGTSTP | SIGCONT.

Inductive worker_event : Type :=
| EvSpawn (child : Z) (arg : string)      (* pipe, pipe, fork, execl *)
| EvTime (child : Z) (bytes : list Z)     (* fd_write of big_endian(time) *)
| EvKill (child : Z) (s : signal)
| EvAck (child : Z) (byte : Z)            (* fd_read of the verify byte *)
| EvStopped (child : Z)                   (* waitpid until WIFSTOPPED *)
| EvSha (child : Z) (sha : string).       (* fd_read of SHA_HASH_SIZE bytes *)

(** The four bytes [fd_write] sends for [big_endian(time)]; the last one is
    [last_byte_sent]. *)
Definition big_endian (t : Z) : list Z :=
  [ (t / 2 ^ 24) mod 256; (t / 2 ^ 16) mod 256; (t / 2 ^ 8) mod 256; t mod 256 ].

Definition last_byte_sent (t : Z) : Z := nth 3 (big_endian t) 0.

(** ** printf *)

Definition nl : string := String (ascii_of_nat 10) EmptyString.

(** [%d] applied to a [uint32_t]: the 32 bits read as an [int]. *)
Definition fmt_d (z : Z) : string :=
  let w := u32 z in
  NilZero.string_of_int (Z.to_int (if w <? 2 ^ 31 then w else w - 2 ^ 32)).

(** [strcmp]: only the sign of the answer is ever used. A C string ends at
    its first NUL byte. *)
Fixpoint strcmp (s1 s2 : string) : Z :=
  match s1, s2 with
  | EmptyString, EmptyString => 0
  | EmptyString, String c2 _ => - Z.of_nat (nat_of_ascii c2)
  | String c1 _, EmptyString => Z.of_nat (nat_of_ascii c1)
  | String c1 r1, String c2 r2 =>
      if Ascii.eqb c1 c2
      then (if Ascii.eqb c1 zero then 0 else strcmp r1 r2)
      else Z.of_nat (nat_of_ascii c1) - Z.of_nat (nat_of_ascii c2)
  end.

(** ** The process manager

    The static state of process_manager.c, gathered in one record:
    [instance] ([pPrograms], [pending_count], [type]; [program_count] is the
    length of [pPrograms]), the three lists, [pRunningProcess], [time], the
    allocator, the [static index] of [check_pending], standard output and
    the traffic with the workers. The floating-point statistics are left
    out. *)

Record manager : Type := mk_manager {
  time : Z;
  pPrograms : list program;
  pending_count : Z;
  type : SCHEDULER_TYPE;
  pending_index : nat;
  list_input : list program;
  list_active : list process;
  list_ready : list nat;
  pRunningProcess : option nat;
  allocator : memory_allocator;
  stdout : list string;
  workers : list worker_event
}.

Definition program_count (m : manager) : Z := Z.of_nat (List.length (pPrograms m)).

Definition set_time (m : manager) (t : Z) : manager :=
  mk_manager t (pPrograms m) (pending_count m) (type m) (pending_index m)
    (list_input m) (list_active m) (list_ready m) (pRunningProcess m)
    (allocator m) (stdout m) (workers m).
Definition set_pPrograms (m : manager) (ps : list program) : manager :=
  mk_manager (time m) ps (pending_count m) (type m) (pending_index m)
    (list_input m) (list_active m) (list_ready m) (pRunningProcess m)
    (allocator m) (stdout m) (workers m).
Definition set_pending_count (m : manager) (c : Z) : manager :=
  mk_manager (time m) (pPrograms m) c (type m) (pending_index m)
    (list_input m) (list_active m) (list_ready m) (pRunningProcess m)
    (allocator m) (stdout m) (workers m).
Definition set_pending_index (m : manager) (i : nat) : manager :=
  mk_manager (time m) (pPrograms m) (pending_count m) (type m) i
    (list_input m) (list_active m) (list_ready m) (pRunningProcess m)
    (allocator m) (stdout m) (workers m).
Definition set_list_input (m : manager) (l : list program) : manager :=
  mk_manager (time m) (pPrograms m) (pending_count m) (type m)
    (pending_index m) l (list_active m) (list_ready m) (pRunningProcess m)
    (allocator m) (stdout m) (workers m).
Definition set_list_active (m : manager) (l : list process) : manager :=
  mk_manager (time m) (pPrograms m) (pending_count m) (type m)
    (pending_index m) (list_input m) l (list_ready m) (pRunningProcess m)
    (allocator m) (stdout m) (workers m).
Definition set_list_ready (m : manager) (l : list nat) : manager :=
  mk_manager (time m) (pPrograms m) (pending_count m) (type m)
    (pending_index m) (list_input m) (list_active m) l (pRunningProcess m)
    (allocator m) (stdout m) (workers m).
Definition set_pRunningProcess (m : manager) (r : option nat) : manager :=
  mk_manager (time m) (pPrograms m) (pending_count m) (type m)
    (pending_index m) (list_input m) (list_active m) (list_ready m) r
    (allocator m) (stdout m) (workers m).
Definition set_allocator (m : manager) (a : memory_allocator) : manager :=
  mk_manager (time m) (pPrograms m) (pending_count m) (type m)
    (pending_index m) (list_input m) (list_active m) (list_ready m)
    (pRunningProcess m) a (stdout m) (workers m).
Definition printf (m : manager) (line : string) : manager :=
  mk_manager (time m) (pPrograms m) (pending_count m) (type m)
    (pending_index m) (list_input m) (list_active m) (list_ready m)
    (pRunningProcess m) (allocator m) (stdout m ++ [line]) (workers m).
Definition emit (m : manager) (evs : list worker_event) : manager :=
  mk_manager (time m) (pPrograms m) (pending_count m) (type m)
    (pending_index m) (list_input m) (list_active m) (list_ready m)
    (pRunningProcess m) (allocator m) (stdout m) (workers m ++ evs).

(** Reading and writing a process through a pointer. *)
Definition deref (m : manager) (p : nat) : result process :=
  of_option (nth_error (list_active m) p).
Definition store (m : manager) (p : nat) (v : process) : manager :=
  set_list_active m (set_nth (list_active m) p v).

(** [process_manager_initialise]. *)
Definition process_manager_initialise (t : SCHEDULER_TYPE)
    (s : MEMORY_STRATEGY) : manager :=
  mk_manager 0 [] 0 t 0 [] [] [] None (allocator_initialise s) [] [].

(** [program_add]. *)
Definition program_add (m : manager) (pProgram : program) : manager :=
  set_pPrograms m (pPrograms m ++ [pProgram]).

(** [process_log]. The [READY] case reads [pBlock->index]. *)
Definition process_log (m : manager) (pProcess : process) : result manager :=
  let who := name (pProgram pProcess) in
  match state pProcess with
  | READY =>
      b <- of_option (pBlock pProcess) ;;
      Ok (printf m (fmt_d (time m) ++ ",READY,process_name=" ++ who
                    ++ ",assigned_at=" ++ fmt_d (index b) ++ nl)%string)
  | RUNNING =>
      Ok (printf m (fmt_d (time m) ++ ",RUNNING,process_name=" ++ who
                    ++ ",remaining_time="
                    ++ fmt_d (u32 (service_time (pProgram pProcess)
                                   - run_time pProcess)) ++ nl)%string)
  | FINISHED =>
      let m1 := printf m (fmt_d (time m) ++ ",FINISHED,process_name=" ++ who
                          ++ ",proc_remaining=" ++ fmt_d (pending_count m)
                          ++ nl)%string in
      Ok (printf m1 (fmt_d (time m) ++ ",FINISHED-PROCESS,process_name="
                     ++ who ++ ",sha=" ++ sha_buf pProcess ++ nl)%string)
  end.

(** [process_try_create]. [malloc] leaves [state] and [sha_buf] undefined;
    [process_submit_ready] writes [state] before anything reads it, and
    [sha_buf] is written at termination. The model starts them at [READY]
    and the empty string. *)
Definition process_try_create (m : manager) (pProgram : program)
    : result (option process * manager) :=
  match strategy (allocator m) with
  | BEST_FIT =>
      ' (pBlock, a) <-
        allocator_find_best_fit (allocator m) (memory_required pProgram) ;;
      match pBlock with
      | None => Ok (None, m)
      | Some b =>
          Ok (Some (mk_process pProgram 0 READY (Some b) PID_NULL_HANDLE
                               EmptyString),
              set_allocator m a)
      end
  | INFINITE =>
      Ok (Some (mk_process pProgram 0 READY None PID_NULL_HANDLE EmptyString),
          m)
  end.

(** [process_submit_ready]. *)
Definition process_submit_ready (m : manager) (p : nat) : result manager :=
  pProcess <- deref m p ;;
  let m1 := store m p (set_state pProcess READY) in
  Ok (set_list_ready m1 (list_insert_tail (list_ready m1) p)).

(** [process_continue]. *)
Definition process_continue (m : manager) (p : nat) : result manager :=
  pProcess <- deref m p ;;
  let c := child_pid pProcess in
  Ok (emit m [EvTime c (big_endian (time m)); EvKill c SIGCONT;
              EvAck c (last_byte_sent (time m))]).

(** [process_suspend]. *)
Definition process_suspend (m : manager) (p : nat) : result manager :=
  pProcess <- deref m p ;;
  let c := child_pid pProcess in
  Ok (emit m [EvTime c (big_endian (time m)); EvKill c SIGTSTP; EvStopped c]).

(** [process_run]. The pid that [fork] returns is the choice of the
    operating system; the model takes the position of the process in the
    store plus one, which is likewise positive and proper to the process. *)
Definition process_run (m : manager) (p : nat) : result manager :=
  pProcess <- deref m p ;;
  let running := set_state pProcess RUNNING in
  m1 <- process_log (store m p running) running ;;
  if negb (child_pid running =? PID_NULL_HANDLE)
  then process_continue m1 p
  else
    let c := Z.of_nat p + 1 in
    let m2 := store m1 p (set_child_pid running c) in
    Ok (emit m2 [EvSpawn c (name (pProgram running));
                 EvTime c (big_endian (time m2));
                 EvAck c (last_byte_sent (time m2))]).

(** [shortest_job_first], on the processes the nodes of the list point to:
    [pos] is the position of [pNode], [chosen] that of [pChosen] together
    with the process it points to. *)
Fixpoint sjf_scan (l : list process) (pos : nat)
    (chosen : option (nat * process)) (min_time : Z) : option nat :=
  match l with
  | [] => option_map fst chosen
  | pProcess :: rest =>
      let service := service_time (pProgram pProcess) in
      match chosen with
      | None => sjf_scan rest (S pos) (Some (pos, pProcess)) service
      | Some (_, pChosenProcess) =>
          let take := sjf_scan rest (S pos) (Some (pos, pProcess)) service in
          let keep := sjf_scan rest (S pos) chosen min_time in
          if min_time =? service then
            if time_arrived (pProgram pChosenProcess)
               =? time_arrived (pProgram pProcess) then
              if 0 <? strcmp (name (pProgram pChosenProcess))
                             (name (pProgram pProcess))
              then take else keep
            else if time_arrived (pProgram pProcess)
                    <? time_arrived (pProgram pChosenProcess)
            then take else keep
          else if service <? min_time then take else keep
      end
  end.

Definition shortest_job_first (pList : list process) : option nat :=
  sjf_scan pList 0 None 0.

(** [round_robin]: the head node, [NULL] on the empty list. *)
Definition round_robin {A : Type} (pList : list A) : option nat :=
  match pList with
  | [] => None
  | _ :: _ => Some O
  end.

(** The processes behind the nodes of a list of pointers. *)
Fixpoint deref_all (m : manager) (l : list nat) : result (list process) :=
  match l with
  | [] => Ok []
  | p :: rest =>
      pProcess <- deref m p ;;
      others <- deref_all m rest ;;
      Ok (pProcess :: others)
  end.

(** [switch_process]. *)
Definition switch_process (m : manager) : result manager :=
  pReady <- match type m with
            | SJF => ready <- deref_all m (list_ready m) ;;
                     Ok (shortest_job_first ready)
            | RR => Ok (round_robin (list_ready m))
            end ;;
  match pReady with
  | None => Ok m
  | Some pos =>
      p <- of_option (nth_error (list_ready m) pos) ;;
      m1 <- process_run (set_pRunningProcess m (Some p)) p ;;
      Ok (set_list_ready m1 (list_pop_node (list_ready m1) pos))
  end.

(** [keep_process_running]. *)
Definition keep_process_running (m : manager) : result (bool * manager) :=
  match pRunningProcess m with
  | None => Ok (false, m)
  | Some p =>
      match type m with
      | SJF => m1 <- process_continue m p ;; Ok (true, m1)
      | RR =>
          match list_ready m with
          | _ :: _ =>
              m1 <- process_suspend m p ;;
              m2 <- process_submit_ready m1 p ;;
              Ok (false, set_pRunningProcess m2 None)
          | [] => m1 <- process_continue m p ;; Ok (true, m1)
          end
      end
  end.

(** The first loop of [check_pending], over the programs from the static
    [index] on. *)
Fixpoint pending_arrivals (m : manager) (progs : list program) : manager :=
  match progs with
  | [] => m
  | pProgram :: rest =>
      if time m <? time_arrived pProgram then m
      else
        let m1 := set_list_input m (list_insert_tail (list_input m) pProgram) in
        let m2 := set_pending_count m1 (u32 (pending_count m1 + 1)) in
        pending_arrivals (set_pending_index m2 (S (pending_index m2))) rest
  end.

(** The body of [if (pProcess != NULL)] in the second loop of
    [check_pending], up to the removal of the node: the new process enters
    [list_active] and the ready list, and is logged when it has a block. *)
Definition enlist_process (m : manager) (pProcess : process) : result manager :=
  let p := List.length (list_active m) in
  let m1 := set_list_active m (list_insert_tail (list_active m) pProcess) in
  m2 <- process_submit_ready m1 p ;;
  match pBlock pProcess with
  | Some _ => ready <- deref m2 p ;; process_log m2 ready
  | None => Ok m2
  end.

(** The second loop of [check_pending]: [nodes] are the entries of
    [list_input] from [pNode] on, [pos] is the position of [pNode]. *)
Fixpoint pending_scan (m : manager) (pos : nat) (nodes : list program)
    : result manager :=
  match nodes with
  | [] => Ok m
  | pProgram :: rest =>
      ' (created, m1) <- process_try_create m pProgram ;;
      match created with
      | Some pProcess =>
          m2 <- enlist_process m1 pProcess ;;
          pending_scan (set_list_input m2 (list_pop_node (list_input m2) pos))
                       pos rest
      | None => pending_scan m1 (S pos) rest
      end
  end.

(** [check_pending]. *)
Definition check_pending (m : manager) : result manager :=
  let m1 := pending_arrivals m (skipn (pending_index m) (pPrograms m)) in
  pending_scan m1 0 (list_input m1).

Section Worker.

(** How [list_insert_sorted] treats equal keys, and the result string each
    worker writes when it is told to terminate. *)
Variable tie : tie_rule.
Variable worker_sha : string -> string.

(** [process_terminate], without the floating-point statistics. *)
Definition process_terminate (m : manager) (p : nat) : result manager :=
  pProcess <- deref m p ;;
  let c := child_pid pProcess in
  let sha := worker_sha (name (pProgram pProcess)) in
  let m1 := emit m [EvTime c (big_endian (time m)); EvKill c SIGTERM;
                    EvSha c sha] in
  Ok (store m1 p (set_state (set_sha_buf pProcess sha) FINISHED)).

(** [allocater_free_memory], on the process: its block goes back to the
    free list and [pBlock] becomes [NULL]. *)
Definition free_memory_of (m : manager) (p : nat) : result manager :=
  pProcess <- deref m p ;;
  b <- of_option (pBlock pProcess) ;;
  let a := allocator m in
  let m1 := set_allocator m
              (mk_allocator (allocater_free_memory tie (free_list a) b)
                            (strategy a)) in
  Ok (store m1 p (set_pBlock pProcess None)).

(** [update]. *)
Definition update (m : manager) (delta_time : Z) : result manager :=
  let m1 := set_time m (u32 (time m + delta_time)) in
  match pRunningProcess m1 with
  | None => Ok m1
  | Some p =>
      pProcess <- deref m1 p ;;
      let ran := set_run_time pProcess (u32 (run_time pProcess + delta_time)) in
      let m2 := store m1 p ran in
      if service_time (pProgram ran) <=? run_time ran then
        let m3 := set_pending_count m2 (u32 (pending_count m2 - 1)) in
        m4 <- process_terminate m3 p ;;
        m5 <- match strategy (allocator m4) with
              | BEST_FIT => free_memory_of m4 p
              | INFINITE => Ok m4
              end ;;
        finished <- deref m5 p ;;
        m6 <- process_log m5 finished ;;
        Ok (set_pRunningProcess m6 None)
      else Ok m2
  end.

(** [should_terminate]. *)
Definition should_terminate (m : manager) : bool :=
  match list_active m with
  | [] => negb (0 <? program_count m)
  | _ :: _ =>
      forallb (fun pProcess => match state pProcess with
                               | FINISHED => true
                               | _ => false
                               end) (list_active m)
      && (u32 (Z.of_nat (List.length (list_active m))) =? program_count m)
  end.

(** The body of the execution loop of [main]. *)
Definition step (quantum : Z) (m : manager) : result manager :=
  m1 <- check_pending m ;;
  ' (keep, m2) <- keep_process_running m1 ;;
  m3 <- (if keep then Ok m2 else switch_process m2) ;;
  update m3 quantum.

End Worker.

(** ** The reading loop of main.c

    [fscanf] belongs to the C library; the model follows ISO C 7.21.6.2 for
    the one format string of [main], ["%u %s %u %hu\n"], on a stream given
    as the string of the characters still unread. A value too large for its
    field is reduced modulo the width of the field, and the name is kept
    whole even when it is longer than the buffer [name]. *)

Definition isspace (c : ascii) : bool :=
  let n := nat_of_ascii c in
  (((9 <=? n) && (n <=? 13)) || (n =? 32))%nat.

Definition isdigit (c : ascii) : bool :=
  let n := nat_of_ascii c in
  ((48 <=? n) && (n <=? 57))%nat.

(** A white-space directive, also the first act of [%u] and [%s]. *)
Fixpoint skip_space (s : string) : string :=
  match s with
  | EmptyString => EmptyString
  | String c rest => if isspace c then skip_space rest else s
  end.

Fixpoint scan_digits (s : string) (acc : Z) : Z * string :=
  match s with
  | EmptyString => (acc, EmptyString)
  | String c rest =>
      if isdigit c
      then scan_digits rest (10 * acc + (Z.of_nat (nat_of_ascii c) - 48))
      else (acc, s)
  end.

Fixpoint scan_word (s : string) : string * string :=
  match s with
  | EmptyString => (EmptyString, EmptyString)
  | String c rest =>
      if isspace c then (EmptyString, s)
      else let (w, rest') := scan_word rest in (String c w, rest')
  end.

(** The outcome of one conversion: a value and the unread input, a matching
    failure with the unread input, or an input failure (end of file). *)
Inductive conversion (A : Type) : Type :=
| Matched (v : A) (rest : string)
| MatchingFailure (rest : string)
| InputFailure.
Arguments MatchingFailure {A} rest.
Arguments InputFailure {A}.

(** [%u] and [%hu]: an optionally signed run of decimal digits. *)
Definition scan_u (s : string) : conversion Z :=
  match skip_space s with
  | EmptyString => InputFailure
  | String c rest =>
      let minus := Ascii.eqb c "-"%char in
      let body := if minus || Ascii.eqb c "+"%char then rest
                  else String c rest in
      match body with
      | EmptyString => MatchingFailure EmptyString
      | String d _ =>
          if isdigit d
          then let (v, rest') := scan_digits body 0 in
               Matched (if minus then - v else v) rest'
          else MatchingFailure body
      end
  end.

(** [%s]: a run of characters that are not white space. *)
Definition scan_s (s : string) : conversion string :=
  match skip_space s with
  | EmptyString => InputFailure
  | String c rest => let (w, rest') := scan_word (String c rest) in
                     Matched w rest'
  end.

(** [fscanf(fp, "%u %s %u %hu\n", ...)] on a zeroed [new_program]: the
    value returned, the record as the call leaves it and the unread input. *)
Definition fscanf_program (fp : string) : Z * program * string :=
  let p0 := mk_program EmptyString 0 0 0 in
  match scan_u fp with
  | InputFailure => (EOF, p0, EmptyString)
  | MatchingFailure rest => (0, p0, rest)
  | Matched t r1 =>
      let p1 := mk_program EmptyString (u32 t) 0 0 in
      match scan_s r1 with
      | InputFailure => (1, p1, EmptyString)
      | MatchingFailure rest => (1, p1, rest)
      | Matched w r2 =>
          let p2 := mk_program w (u32 t) 0 0 in
          match scan_u r2 with
          | InputFailure => (2, p2, EmptyString)
          | MatchingFailure rest => (2, p2, rest)
          | Matched s r3 =>
              let p3 := mk_program w (u32 t) (u32 s) 0 in
              match scan_u r3 with
              | InputFailure => (3, p3, EmptyString)
              | MatchingFailure rest => (3, p3, rest)
              | Matched q r4 =>
                  (4, mk_program w (u32 t) (u32 s) (u16 q), skip_space r4)
              end
          end
      end
  end.

(** Where the loop [while(TRUE)] of [main] stands after at most [fuel]
    iterations: past its [break], or still reading, with the manager as it
    is then. *)
Inductive reading : Type :=
| ReadAll (m : manager)
| StillReading (m : manager).

Fixpoint read_programs (fuel : nat) (fp : string) (m : manager) : reading :=
  match fuel with
  | O => StillReading m
  | S fuel' =>
      let '(ret, new_program, fp') := fscanf_program fp in
      if ret =? EOF then ReadAll m
      else read_programs fuel' fp' (program_add m new_program)
  end.

(** ** The execution loop of main.c

    Where the loop [while(!should_terminate(manager))] stands after at most
    [fuel] iterations: past its exit, still running, or stopped by a failed
    [assert] or a dereference of [NULL]. *)

Inductive running : Type :=
| Exited (m : manager)
| StillRunning (m : manager)
| Aborted.

Fixpoint execution_loop (tie : tie_rule) (worker_sha : string -> string)
    (fuel : nat) (quantum : Z) (m : manager) : running :=
  match fuel with
  | O => StillRunning m
  | S fuel' =>
      if should_terminate m then Exited m
      else
        match step tie worker_sha quantum m with
        | Ok m' => execution_loop tie worker_sha fuel' quantum m'
        | Fault => Aborted
        end
  end.

(** ** Byte order

    [big_endian] of process_manager.c returns a [uint32_t]; the model above
    of the same name gives the four bytes of that value as [fd_write] sends
    them. Here is the function itself, on a host of either byte order. *)

Module ByteOrder.

(** [bswap_32] of <byteswap.h>. *)
Definition bswap_32 (x : Z) : Z :=
  Z.lor (Z.lor (Z.shiftl (Z.land x 255) 24)
               (Z.shiftl (Z.land (Z.shiftr x 8) 255) 16))
        (Z.lor (Z.shiftl (Z.land (Z.shiftr x 16) 255) 8)
               (Z.land (Z.shiftr x 24) 255)).

(** The bytes of a [uint32_t] object, at increasing addresses. *)
Definition object_bytes (little_endian : bool) (x : Z) : list Z :=
  let low_first := [Z.land x 255; Z.land (Z.shiftr x 8) 255;
                    Z.land (Z.shiftr x 16) 255; Z.land (Z.shiftr x 24) 255] in
  if little_endian then low_first else rev low_first.

(** [big_endian]: the first byte of the object [x = 1] tells the byte order
    of the host. *)
Definition big_endian (little_endian : bool) (integer : Z) : Z :=
  let x := 1 in
  let c := nth 0 (object_bytes little_endian x) 0 in
  if c =? 0 then integer else bswap_32 integer.

End ByteOrder.

(** ** Pipes

    [write] and [read] belong to the operating system: the model is given
    what their successive calls answer. The loops of [fd_write] and
    [fd_read] have no bound of their own; the model stops with [Waiting]
    when the answers given run out. *)

Definition u64 (z : Z) : Z := z mod 2 ^ 64.

Inductive transfer : Type :=
| Transferred (bytes : list Z)     (* the loop is over *)
| ExitFailure (bytes : list Z)     (* [err(EXIT_FAILURE, ...)] *)
| Waiting (bytes : list Z).        (* still in the loop *)

(** [fd_write]: [answers] are the values [write] returns, [pBuffer] the
    bytes from the pointer on, [sent] the bytes the pipe has taken. *)
Fixpoint fd_write (answers : list Z) (pBuffer : list Z) (bytes_remaining : Z)
    (sent : list Z) : transfer :=
  if 0 <? bytes_remaining then
    match answers with
    | [] => Waiting sent
    | bytes_written :: later =>
        if bytes_written =? -1 then ExitFailure sent
        else fd_write later (skipn (Z.to_nat bytes_written) pBuffer)
                      (u64 (bytes_remaining - bytes_written))
                      (sent ++ firstn (Z.to_nat bytes_written) pBuffer)
    end
  else Transferred sent.

(** What one call of [read] answers: -1, or the number of the bytes it has
    stored, none at the end of the file. *)
Inductive read_answer : Type :=
| ReadError
| ReadBytes (bytes : list Z).

(** [fd_read]: [stored] are the bytes the buffer holds so far. *)
Fixpoint fd_read (answers : list read_answer) (bytes_remaining : Z)
    (stored : list Z) : transfer :=
  if 0 <? bytes_remaining then
    match answers with
    | [] => Waiting stored
    | ReadError :: _ => ExitFailure stored
    | ReadBytes bytes :: later =>
        let bytes_read := Z.of_nat (List.length bytes) in
        fd_read later (u64 (bytes_remaining - bytes_read)) (stored ++ bytes)
    end
  else Transferred stored.

(* ================================================================== *)
(** * Part II: the vocabulary of the properties                        *)
(* ================================================================== *)

Unset Implicit Arguments.

(** ** Memory blocks *)

Definition block_end (b : memory_block) : Z := index b + size b.

(** A block that lies below [lim]. *)
Definition fits_below (lim : Z) (b : memory_block) : Prop :=
  0 <= index b /\ 0 <= size b /\ block_end b <= lim.

(** A block whose fields and end offset are values of [uint32_t]. *)
Definition block_ok (b : memory_block) : Prop := fits_below (2 ^ 32 - 1) b.

(** A block inside the pool. *)
Definition within_pool (b : memory_block) : Prop := fits_below BUFFER_SIZE b.

Definition index_le (b1 b2 : memory_block) : Prop := index b1 <= index b2.

(** Sorted by ascending start offset: every entry starts no later than all
    the entries after it. *)
Definition ascending (l : list memory_block) : Prop :=
  ForallOrdPairs index_le l.

(** The end offset of the first block is the start offset of the second. *)
Definition touches (b1 b2 : memory_block) : Prop := block_end b1 = index b2.

(** No two entries of the list touch, in either direction. *)
Definition coalesced (l : list memory_block) : Prop :=
  ForallOrdPairs (fun b1 b2 => ~ touches b1 b2 /\ ~ touches b2 b1) l.

(** No entry touches the entry that follows it in the list. *)
Fixpoint no_touching_neighbours (l : list memory_block) : Prop :=
  match l with
  | [] => True
  | b1 :: rest =>
      match rest with
      | [] => True
      | b2 :: _ => ~ touches b1 b2
      end /\ no_touching_neighbours rest
  end.

(** The address [a] belongs to the block. *)
Definition covers (a : Z) (b : memory_block) : bool :=
  (index b <=? a) && (a <? block_end b).

(** Two blocks overlap when they share an address; a block of size 0 has no
    address and overlaps nothing. *)
Definition overlap (b1 b2 : memory_block) : Prop :=
  exists a, covers a b1 = true /\ covers a b2 = true.

Definition disjoint (l : list memory_block) : Prop :=
  ForallOrdPairs (fun b1 b2 => ~ overlap b1 b2) l.

(** How many blocks of the list the address belongs to. *)
Definition cover (a : Z) (l : list memory_block) : nat :=
  List.length (filter (covers a) l).

Fixpoint sum_sizes (l : list memory_block) : Z :=
  match l with
  | [] => 0
  | b :: rest => size b + sum_sizes rest
  end.

(** The request can be served from the block, and what is left of it. *)
Definition fits (sz : Z) (b : memory_block) : Prop := sz <= size b.
Definition leftover (sz : Z) (b : memory_block) : Z := size b - sz.

(** The entry at [pos] is the best fit of the scan: it serves the request,
    no entry leaves less, and every entry before it leaves more. *)
Definition best_fit_at (sz : Z) (l : list memory_block) (pos : nat)
    (b : memory_block) : Prop :=
  nth_error l pos = Some b /\ fits sz b /\
  (forall b', In b' l -> fits sz b' -> leftover sz b <= leftover sz b') /\
  (forall pos' b', (pos' < pos)%nat -> nth_error l pos' = Some b' ->
                   fits sz b' -> leftover sz b < leftover sz b').

(** What the allocator owes: the free list and the blocks handed out. *)
Record pool_invariant (fl owned : list memory_block) : Prop := {
  pool_free_within : Forall within_pool fl;
  pool_owned_within : Forall within_pool owned;
  pool_sum : sum_sizes fl + sum_sizes owned = BUFFER_SIZE;
  pool_cover : forall a, (cover a fl + cover a owned <= 1)%nat;
  pool_nonempty : fl <> []
}.

(** The state of the scan of [allocator_find_best_fit] once the entries of
    [pre] have been visited. *)
Definition scan_acc (sz : Z) (pre : list memory_block) (chosen : option nat)
    (min_gap : Z) : Prop :=
  match chosen with
  | None => forall b, In b pre -> size b < sz
  | Some cp => exists cb, best_fit_at sz pre cp cb /\ min_gap = leftover sz cb
  end.

(** ** The allocator seen from outside

    A client of the allocator asks for blocks and gives them back. The only
    client in the program is the process manager, which gives a block back
    once, when its process finishes. *)

Inductive pool_op : Type :=
| Allocate (sz : Z)       (* [allocator_find_best_fit(sz)] *)
| Release (k : nat).      (* [allocater_free_memory] of the [k]-th block held *)

(** The free list and the blocks held. *)
Definition pool_state : Type := list memory_block * list memory_block.

Definition pool_init : pool_state :=
  (free_list (allocator_initialise BEST_FIT), []).

Definition pool_step (tie : tie_rule) (s : pool_state) (op : pool_op)
    : result pool_state :=
  let (fl, held) := s in
  match op with
  | Allocate sz =>
      ' (granted, a) <- allocator_find_best_fit (mk_allocator fl BEST_FIT) sz ;;
      match granted with
      | Some b => Ok (free_list a, held ++ [b])
      | None => Ok (free_list a, held)
      end
  | Release k =>
      match nth_error held k with
      | Some b => Ok (allocater_free_memory tie fl b, list_pop_node held k)
      | None => Ok s
      end
  end.

Fixpoint pool_run (tie : tie_rule) (ops : list pool_op) (s : pool_state)
    : result pool_state :=
  match ops with
  | [] => Ok s
  | op :: rest => s' <- pool_step tie s op ;; pool_run tie rest s'
  end.

(** The sizes asked for are values of [uint32_t]. *)
Definition pool_op_ok (op : pool_op) : Prop :=
  match op with
  | Allocate sz => in_u32 sz
  | Release _ => True
  end.

Definition pool_reachable (tie : tie_rule) (s : pool_state) : Prop :=
  exists ops, Forall pool_op_ok ops /\ pool_run tie ops pool_init = Ok s.

(** ** The process manager *)

(** The fields of a program as C can hold them. *)
Definition program_ok (p : program) : Prop :=
  in_u32 (time_arrived p) /\ in_u32 (service_time p) /\
  0 <= memory_required p < 2 ^ 16.

(** The manager once [main] has added the programs of the input file. *)
Definition boot (t : SCHEDULER_TYPE) (s : MEMORY_STRATEGY)
    (progs : list program) : manager :=
  fold_left program_add progs (process_manager_initialise t s).

(** The states of the manager at the top of the execution loop. *)
Inductive reachable (tie : tie_rule) (worker_sha : string -> string)
    (quantum : Z) (m0 : manager) : manager -> Prop :=
| reach_boot : reachable tie worker_sha quantum m0 m0
| reach_step (m m' : manager) :
    reachable tie worker_sha quantum m0 m ->
    step tie worker_sha quantum m = Ok m' ->
    reachable tie worker_sha quantum m0 m'.

(** The block of a process, if it has one. *)
Definition block_list (pr : process) : list memory_block :=
  match pBlock pr with
  | Some b => [b]
  | None => []
  end.

(** The blocks of all the processes, and the blocks of those that have not
    finished. *)
Definition held_blocks (m : manager) : list memory_block :=
  flat_map block_list (list_active m).

Definition owned_blocks (m : manager) : list memory_block :=
  flat_map (fun pr => match state pr with
                      | FINISHED => []
                      | _ => block_list pr
                      end) (list_active m).

(** The ready list holds distinct pointers to [READY] processes. *)
Definition ready_ok (m : manager) : Prop :=
  NoDup (list_ready m) /\
  forall p, In p (list_ready m) ->
            exists pr, nth_error (list_active m) p = Some pr /\ state pr = READY.

(** [pRunningProcess] is [NULL] or points to a [RUNNING] process. *)
Definition running_ok (m : manager) : Prop :=
  forall r, pRunningProcess m = Some r ->
            exists pr, nth_error (list_active m) r = Some pr /\
                       state pr = RUNNING.

(** A program whose service time is positive and small enough for the
    run-time of its process not to wrap around. *)
Definition timed (quantum : Z) (p : program) : Prop :=
  1 <= service_time p /\ service_time p + quantum <= 2 ^ 32.

(** What holds of every process between two steps: its program is one of
    those added to the manager; its run-time is a [uint32_t], and when its
    program is [timed], it is below the service time until the process
    finishes and less than one quantum above it afterwards; under best fit
    the process has a block until it finishes, with unbounded memory it has
    none. *)
Definition process_ok (quantum : Z) (progs : list program)
    (s : MEMORY_STRATEGY) (pr : process) : Prop :=
  In (pProgram pr) progs /\
  in_u32 (run_time pr) /\
  (timed quantum (pProgram pr) ->
   run_time pr < service_time (pProgram pr) + quantum /\
   (state pr <> FINISHED -> run_time pr < service_time (pProgram pr))) /\
  match s with
  | BEST_FIT => state pr = FINISHED <-> pBlock pr = None
  | INFINITE => pBlock pr = None
  end.

Record engine_invariant (quantum : Z) (m : manager) : Prop := {
  inv_ready : ready_ok m;
  inv_running : running_ok m;
  inv_pool : strategy (allocator m) = BEST_FIT ->
             pool_invariant (free_list (allocator m)) (held_blocks m);
  inv_programs : Forall program_ok (pPrograms m);
  inv_input : incl (list_input m) (pPrograms m);
  inv_processes :
    Forall (process_ok quantum (pPrograms m) (strategy (allocator m)))
           (list_active m)
}.

(** What a step may do to the processes that exist: they stay where they
    are in the store, keep their program, and the run-time of a process
    whose program is [timed] does not decrease. The programs, the policy
    and the memory strategy stay as they are. *)
Definition advances (quantum : Z) (m m' : manager) : Prop :=
  pPrograms m' = pPrograms m /\
  type m' = type m /\
  strategy (allocator m') = strategy (allocator m) /\
  forall p pr, nth_error (list_active m) p = Some pr ->
    exists pr', nth_error (list_active m') p = Some pr' /\
                pProgram pr' = pProgram pr /\
                (timed quantum (pProgram pr) -> run_time pr <= run_time pr').

(** ** Shortest job first *)

(** A C string has no NUL byte inside. *)
Fixpoint no_nul (s : string) : Prop :=
  match s with
  | EmptyString => True
  | String c rest => c <> zero /\ no_nul rest
  end.

(** The order of shortest job first: by service time, then by arrival time,
    then by name in the lexicographic order of the Standard Library. *)
Definition sjf_compare (p1 p2 : process) : comparison :=
  match service_time (pProgram p1) ?= service_time (pProgram p2) with
  | Eq =>
      match time_arrived (pProgram p1) ?= time_arrived (pProgram p2) with
      | Eq => String.compare (name (pProgram p1)) (name (pProgram p2))
      | c => c
      end
  | c => c
  end.

(** The state of the scan of [shortest_job_first] once the entries of [pre]
    have been visited: [pChosen] is the first of the least entries. *)
Definition sjf_acc (pre : list process) (chosen : option (nat * process))
    (min_time : Z) : Prop :=
  match chosen with
  | None => pre = []
  | Some (c, cp) =>
      nth_error pre c = Some cp /\
      min_time = service_time (pProgram cp) /\
      (forall p, In p pre -> sjf_compare p cp <> Lt) /\
      (forall j p, (j < c)%nat -> nth_error pre j = Some p ->
                   sjf_compare cp p = Lt)
  end.

(** The name of the program of the process is a C string. *)
Definition named (pr : process) : Prop := no_nul (name (pProgram pr)).

(** The free list and the blocks held in a reachable state: reached by
    some interleaving of allocations and releases, or found in the manager
    at the top of the execution loop under best fit. *)
Definition pool_reached (tie : tie_rule) (fl held : list memory_block)
    : Prop :=
  pool_reachable tie (fl, held) \/
  exists sha q t progs m,
    in_u32 q /\ Forall program_ok progs /\
    reachable tie sha q (boot t BEST_FIT progs) m /\
    fl = free_list (allocator m) /\ held = owned_blocks m.



(** [n] iterations of the execution loop. *)
Fixpoint run_steps (tie : tie_rule) (worker_sha : string -> string)
    (quantum : Z) (n : nat) (m : manager) : result manager :=
  match n with
  | O => Ok m
  | S k => m' <- step tie worker_sha quantum m ;;
           run_steps tie worker_sha quantum k m'
  end.

(** ** Concrete runs *)

(** A worker that answers the empty string. *)
Definition silent : string -> string := fun _ => EmptyString.

(** One program of service time 5, run with a quantum of 3 under shortest
    job first and unbounded memory, and the manager after two iterations. *)
Definition overrun_boot : manager :=
  boot SJF INFINITE [mk_program "P1" 0 5 0].

Definition overrun_state : manager :=
  Eval vm_compute in
    match run_steps NewAfterEqual silent 3 2 overrun_boot with
    | Ok m => m
    | Fault => overrun_boot
    end.

(** ** Admission, in the words of the specification

    These two definitions follow the specification, not the code; the code
    is compared with them. *)

(** "Move every program whose arrival time is at most the current time". *)
Definition arrived (now : Z) (p : program) : bool := time_arrived p <=? now.

Definition arrivals_spec (now : Z) (unseen : list program) : list program :=
  filter (arrived now) unseen.

(** "Scan the admission queue head to tail, attempting allocation for each
    entry; on success the process is created and its entry removed; on
    failure the entry remains and scanning continues": the programs
    accepted with their blocks, the entries that remain, and the allocator
    afterwards. With unbounded memory every entry is accepted. *)
Fixpoint admission_spec (a : memory_allocator) (queue : list program)
    : result (list (program * option memory_block) * list program
              * memory_allocator) :=
  match queue with
  | [] => Ok ([], [], a)
  | prog :: rest =>
      match strategy a with
      | INFINITE =>
          ' (accepted, kept, a') <- admission_spec a rest ;;
          Ok ((prog, None) :: accepted, kept, a')
      | BEST_FIT =>
          ' (granted, a1) <-
            allocator_find_best_fit a (memory_required prog) ;;
          match granted with
          | Some b =>
              ' (accepted, kept, a') <- admission_spec a1 rest ;;
              Ok ((prog, Some b) :: accepted, kept, a')
          | None =>
              ' (accepted, kept, a') <- admission_spec a rest ;;
              Ok (accepted, prog :: kept, a')
          end
      end
  end.

(** The process created for an accepted program, as [check_pending] leaves
    it in the store. *)
Definition new_process (entry : program * option memory_block) : process :=
  mk_process (fst entry) 0 READY (snd entry) PID_NULL_HANDLE EmptyString.

(** ** The log lines, in the shapes of the specification *)

Definition ready_line (now : Z) (who : string) (offset : Z) : string :=
  (fmt_d now ++ ",READY,process_name=" ++ who ++ ",assigned_at="
   ++ fmt_d offset ++ nl)%string.

Definition running_line (now : Z) (who : string) (remaining : Z) : string :=
  (fmt_d now ++ ",RUNNING,process_name=" ++ who ++ ",remaining_time="
   ++ fmt_d remaining ++ nl)%string.

Definition finished_line (now : Z) (who : string) (pending : Z) : string :=
  (fmt_d now ++ ",FINISHED,process_name=" ++ who ++ ",proc_remaining="
   ++ fmt_d pending ++ nl)%string.

(** The second line of a termination, with the key the code prints and
    with the key the specification gives. *)
Definition finished_process_line (now : Z) (who sha : string) : string :=
  (fmt_d now ++ ",FINISHED-PROCESS,process_name=" ++ who ++ ",sha="
   ++ sha ++ nl)%string.

Definition finished_process_line_spec (now : Z) (who result : string)
    : string :=
  (fmt_d now ++ ",FINISHED-PROCESS,process_name=" ++ who ++ ",result="
   ++ result ++ nl)%string.

(** The lines [check_pending] prints for the programs accepted: one for
    each program that was given a block. *)
Definition ready_lines (now : Z)
    (accepted : list (program * option memory_block)) : list string :=
  flat_map (fun entry =>
              match snd entry with
              | Some b => [ready_line now (name (fst entry)) (index b)]
              | None => []
              end) accepted.

(** Programs in the order of their arrival times. *)
Definition by_arrival (l : list program) : Prop :=
  ForallOrdPairs (fun p1 p2 => time_arrived p1 <= time_arrived p2) l.

(** An input file whose second record arrives before its first. *)
Definition unsorted_boot : manager :=
  boot SJF INFINITE [mk_program "late" 5 1 0; mk_program "early" 0 1 0].

(** Three programs arriving together under best fit: the second does not
    fit once the first is accepted, the third does. *)
Definition contended_boot : manager :=
  boot RR BEST_FIT [mk_program "P1" 0 6 1500; mk_program "P2" 0 6 600;
                    mk_program "P3" 0 6 500].

(** Four programs arriving together under shortest job first, two of them
    identical, and the manager once [check_pending] has accepted them. *)
Definition sjf_boot : manager :=
  boot SJF INFINITE [mk_program "P1" 0 10 0; mk_program "P3" 0 5 0;
                     mk_program "P2" 0 5 0; mk_program "P2" 0 5 0].

Definition sjf_state : manager :=
  Eval vm_compute in
    match check_pending sjf_boot with
    | Ok m => m
    | Fault => sjf_boot
    end.

(** The contended run after one iteration under round robin with a quantum
    of 3: "P1" is running, "P3" is ready, "P2" waits for memory. *)
Definition rotation_state : manager :=
  Eval vm_compute in
    match run_steps NewAfterEqual silent 3 1 contended_boot with
    | Ok m => m
    | Fault => contended_boot
    end.

Definition rotation_running : process :=
  Eval vm_compute in
    nth 0 (list_active rotation_state)
        (new_process (mk_program EmptyString 0 0 0, None)).

(** ** Input files *)

(** A file whose second record does not start with a number, and a file
    whose second record is cut short. *)
Definition malformed_file : string :=
  ("0 P1 10 600" ++ nl ++ "abc P2 3 4" ++ nl)%string.

Definition truncated_file : string :=
  ("0 P1 10 600" ++ nl ++ "3 P2")%string.

(** The record [main] zeroes before each call of [fscanf]. *)
Definition blank_program : program := mk_program EmptyString 0 0 0.

(** Four programs under shortest job first and best fit, with a quantum of
    1: "A" finishes at 1, "C" then takes the block "A" gave back, "B"
    finishes at 6, "D", which needs no memory, arrives at 6 and finishes at
    7. [fragmented] is the manager after seven iterations. *)
Definition fragmenting_boot : manager :=
  boot SJF BEST_FIT [mk_program "A" 0 1 100; mk_program "B" 0 5 50;
                     mk_program "C" 1 10 100; mk_program "D" 6 1 0].

Definition fragmented (tie : tie_rule) : manager :=
  match run_steps tie silent 1 7 fragmenting_boot with
  | Ok m => m
  | Fault => fragmenting_boot
  end.

(** ** The ledger of the process manager

    What the manager keeps true, besides [engine_invariant], of the
    programs it was given, of its counters and of the states of its
    processes. *)

(** The process has not finished. *)
Definition unfinished (pr : process) : bool :=
  match state pr with
  | FINISHED => false
  | _ => true
  end.

(** The subprocess an event is about. *)
Definition event_child (ev : worker_event) : Z :=
  match ev with
  | EvSpawn c _ | EvTime c _ | EvKill c _ | EvAck c _ | EvStopped c
  | EvSha c _ => c
  end.

(** The process at position [p] of the store: it is [READY] exactly when
    the ready list points to it, [RUNNING] exactly when [pRunningProcess]
    does; it is [FINISHED] only with its service time behind it; its
    subprocess, once spawned, keeps its pid, and a [RUNNING] process has
    one; under best fit its program fits the pool. *)
Definition cell_ok (m : manager) (p : nat) (pr : process) : Prop :=
  (state pr = READY <-> In p (list_ready m)) /\
  (state pr = RUNNING <-> pRunningProcess m = Some p) /\
  (state pr = FINISHED -> service_time (pProgram pr) <= run_time pr) /\
  (child_pid pr = PID_NULL_HANDLE \/ child_pid pr = Z.of_nat p + 1) /\
  (state pr = RUNNING -> child_pid pr = Z.of_nat p + 1) /\
  (strategy (allocator m) = BEST_FIT ->
   memory_required (pProgram pr) <= BUFFER_SIZE).

Record ledger (m : manager) : Prop := {
  led_few : Z.of_nat (List.length (pPrograms m)) < 2 ^ 32;
  led_index : (pending_index m <= List.length (pPrograms m))%nat;
  led_programs :
    Permutation (map pProgram (list_active m) ++ list_input m)
                (firstn (pending_index m) (pPrograms m));
  led_unbounded :
    strategy (allocator m) = INFINITE ->
    list_input m = [] /\
    map pProgram (list_active m) = firstn (pending_index m) (pPrograms m);
  led_count :
    pending_count m =
    Z.of_nat (List.length (list_input m))
    + Z.of_nat (List.length (filter unfinished (list_active m)));
  led_cells :
    forall p pr, nth_error (list_active m) p = Some pr -> cell_ok m p pr;
  led_workers : Forall (fun ev => 0 < event_child ev) (workers m)
}.

(** The process of the run of [overrun_state]. *)
Definition overrun_process : process :=
  Eval vm_compute in
    nth 0 (list_active overrun_state)
        (new_process (mk_program EmptyString 0 0 0, None)).

(** Two programs under best fit, the second asking for more memory than
    the pool holds. *)
Definition oversize_boot : manager :=
  boot SJF BEST_FIT [mk_program "small" 0 1 10; mk_program "big" 0 1 3000].

(** ** The work left

    The number of quanta a program of the given service time takes, the
    number a process still needs, and the number all the processes and all
    the programs not yet seen need together. *)

Definition quanta (quantum service : Z) : Z := (service + quantum - 1) / quantum.

Definition quanta_left (quantum : Z) (pr : process) : Z :=
  if unfinished pr
  then quanta quantum (service_time (pProgram pr) - run_time pr)
  else 0.

Fixpoint total (l : list Z) : Z :=
  match l with
  | [] => 0
  | z :: rest => z + total rest
  end.

Definition work (quantum : Z) (m : manager) : Z :=
  total (map (quanta_left quantum) (list_active m))
  + total (map (fun p => quanta quantum (service_time p))
               (skipn (pending_index m) (pPrograms m))).

(** A program that [timed] accepts and that arrives early enough for the
    clock to reach its arrival time before wrapping around. *)
Definition schedulable (quantum : Z) (p : program) : Prop :=
  timed quantum p /\ time_arrived p + quantum <= 2 ^ 32.

(** The latest arrival time of the input. *)
Definition last_arrival (progs : list program) : Z :=
  fold_right Z.max 0 (map time_arrived progs).

(** The quanta the programs of the input take together. *)
Definition total_quanta (quantum : Z) (progs : list program) : Z :=
  total (map (fun p => quanta quantum (service_time p)) progs).

(** ** Bytes on the pipe *)

(** The number a reader builds from bytes that arrive most significant
    first. *)
Definition read_big_endian (bytes : list Z) : Z :=
  fold_left (fun acc b => acc * 256 + b) bytes 0.

(** ** Well-formed input files *)

(** A number as [printf("%u")] writes it. *)
Definition fmt_u (z : Z) : string :=
  NilZero.string_of_uint (N.to_uint (Z.to_N z)).

(** A name that [%s] reads whole into [name]: not empty, without white
    space, of at most [MAX_NAME_LEN] characters. *)
Definition word (s : string) : Prop :=
  s <> EmptyString /\
  Forall (fun c => isspace c = false) (list_ascii_of_string s) /\
  Z.of_nat (String.length s) <= MAX_NAME_LEN.

(** The line of a program in the input file, and the file of a list of
    programs. *)
Definition record_text (p : program) : string :=
  (fmt_u (time_arrived p) ++ " " ++ name p ++ " " ++ fmt_u (service_time p)
   ++ " " ++ fmt_u (memory_required p) ++ nl)%string.

Fixpoint file_text (progs : list program) : string :=
  match progs with
  | [] => EmptyString
  | p :: rest => (record_text p ++ file_text rest)%string
  end.

(** The value of a run of decimal digits read after [acc]. *)
Fixpoint digits_value (d : Decimal.uint) (acc : Z) : Z :=
  match d with
  | Decimal.Nil => acc
  | Decimal.D0 l => digits_value l (10 * acc + 0)
  | Decimal.D1 l => digits_value l (10 * acc + 1)
  | Decimal.D2 l => digits_value l (10 * acc + 2)
  | Decimal.D3 l => digits_value l (10 * acc + 3)
  | Decimal.D4 l => digits_value l (10 * acc + 4)
  | Decimal.D5 l => digits_value l (10 * acc + 5)
  | Decimal.D6 l => digits_value l (10 * acc + 6)
  | Decimal.D7 l => digits_value l (10 * acc + 7)
  | Decimal.D8 l => digits_value l (10 * acc + 8)
  | Decimal.D9 l => digits_value l (10 * acc + 9)
  end.

(** The string does not start with a digit. *)
Definition no_digit_ahead (s : string) : Prop :=
  match s with
  | EmptyString => True
  | String c _ => isdigit c = false
  end.

(** The contended run after its second iteration: "P3" is running, "P1"
    is ready again, "P2" still waits for memory. *)
Definition rotation_next : manager :=
  Eval vm_compute in
    match step NewAfterEqual silent 3 rotation_state with
    | Ok m => m
    | Fault => rotation_state
    end.

(** ** The conversation with a subprocess

    What the manager sends to one subprocess and reads from it, from the
    first to the last event, and where the conversation stands. *)

Inductive link : Type :=
| NotSpawned      (* no subprocess yet *)
| Live            (* spawned or continued, and acknowledged *)
| Stopped         (* suspended *)
| Ended.          (* terminated, result read *)

(** Where the conversation of a process stands, by its fields. *)
Definition link_of (pr : process) : link :=
  match state pr with
  | FINISHED => Ended
  | RUNNING => Live
  | READY => if child_pid pr =? PID_NULL_HANDLE then NotSpawned else Stopped
  end.

(** The events about the subprocess [c], in order. *)
Definition events_of (c : Z) (ws : list worker_event) : list worker_event :=
  filter (fun ev => event_child ev =? c) ws.

(** The rounds of [process_run] (first run), [process_continue],
    [process_suspend] and [process_terminate]. *)
Definition round_spawn (c : Z) (arg : string) (now : Z) : list worker_event :=
  [EvSpawn c arg; EvTime c (big_endian now); EvAck c (last_byte_sent now)].
Definition round_continue (c : Z) (now : Z) : list worker_event :=
  [EvTime c (big_endian now); EvKill c SIGCONT; EvAck c (last_byte_sent now)].
Definition round_suspend (c : Z) (now : Z) : list worker_event :=
  [EvTime c (big_endian now); EvKill c SIGTSTP; EvStopped c].
Definition round_terminate (c : Z) (now : Z) (sha : string)
    : list worker_event :=
  [EvTime c (big_endian now); EvKill c SIGTERM; EvSha c sha].

(** The conversations the protocol allows with the subprocess [c] of a
    program called [arg]: it is spawned once, with the name of the program;
    it is continued only when live or stopped, suspended and terminated
    only when live; nothing follows its termination. *)
Inductive conversation (c : Z) (arg : string)
    : link -> list worker_event -> Prop :=
| conv_none : conversation c arg NotSpawned []
| conv_spawn (now : Z) :
    conversation c arg Live (round_spawn c arg now)
| conv_continue (t : list worker_event) (now : Z) :
    conversation c arg Live t ->
    conversation c arg Live (t ++ round_continue c now)
| conv_suspend (t : list worker_event) (now : Z) :
    conversation c arg Live t ->
    conversation c arg Stopped (t ++ round_suspend c now)
| conv_resume (t : list worker_event) (now : Z) :
    conversation c arg Stopped t ->
    conversation c arg Live (t ++ round_continue c now)
| conv_terminate (t : list worker_event) (now : Z) (sha : string) :
    conversation c arg Live t ->
    conversation c arg Ended (t ++ round_terminate c now sha).

(** Every process is in a conversation the protocol allows, at the point
    its fields tell, and the events are about the processes of the store
    only. *)
Definition protocol_kept (m : manager) : Prop :=
  (forall p pr, nth_error (list_active m) p = Some pr ->
     conversation (Z.of_nat p + 1) (name (pProgram pr)) (link_of pr)
                  (events_of (Z.of_nat p + 1) (workers m))) /\
  Forall (fun ev => 1 <= event_child ev
                    <= Z.of_nat (List.length (list_active m))) (workers m).

(** The events that create a subprocess, and those that end one. *)
Definition is_spawn (ev : worker_event) : bool :=
  match ev with
  | EvSpawn _ _ => true
  | _ => false
  end.

Definition is_sigterm (ev : worker_event) : bool :=
  match ev with
  | EvKill _ SIGTERM => true
  | _ => false
  end.

(** ** Room at the end of the pool

    The free list has an entry that reaches the end of the pool and starts
    no later than [used]; with all its entries inside the pool, the free
    list is [roomy]. *)

Definition tail_room (fl : list memory_block) (used : Z) : Prop :=
  exists b, In b fl /\ block_end b = BUFFER_SIZE /\ index b <= used.

Definition roomy (fl : list memory_block) (used : Z) : Prop :=
  Forall within_pool fl /\ tail_room fl used.

(** The sizes that a list of operations asks for. *)
Fixpoint asked (ops : list pool_op) : Z :=
  match ops with
  | [] => 0
  | Allocate sz :: rest => sz + asked rest
  | Release _ :: rest => asked rest
  end.

(** The memory the programs ask for. *)
Definition memory_asked (progs : list program) : Z :=
  total (map memory_required progs).

(** The part of the pool that one iteration may have given out: what the
    programs seen so far ask for. *)
Definition memory_seen (m : manager) : Z :=
  memory_asked (firstn (pending_index m) (pPrograms m)).

(** Two programs that fit the pool together. *)
Definition fitting_programs : list program :=
  [mk_program "P1" 0 5 1000; mk_program "P2" 2 4 1048].

(* ================================================================== *)
(** * Part III: properties                                             *)
(* ================================================================== *)

(** ** Arithmetic of [uint32_t] *)

Lemma u32_small (z : Z) : 0 <= z < 2 ^ 32 -> u32 z = z.
Proof. intros H. unfold u32. apply Z.mod_small. exact H. Qed.

Lemma u32_range (z : Z) : 0 <= u32 z < 2 ^ 32.
Proof. unfold u32. apply Z.mod_pos_bound. reflexivity. Qed.

Lemma fits_below_mono (lim lim' : Z) (b : memory_block) :
  lim <= lim' -> fits_below lim b -> fits_below lim' b.
Proof. unfold fits_below. intros Hl (H1 & H2 & H3). repeat split; lia. Qed.

Lemma within_pool_ok (b : memory_block) : within_pool b -> block_ok b.
Proof. apply fits_below_mono. unfold BUFFER_SIZE. lia. Qed.

(** ** The best-fit scan *)

Lemma nth_error_snoc {A : Type} (l : list A) (x : A) :
  nth_error (l ++ [x]) (List.length l) = Some x.
Proof. induction l; simpl; auto. Qed.

Lemma scan_acc_step (sz : Z) (pre : list memory_block) (b : memory_block)
    (chosen : option nat) (g : Z) :
  in_u32 sz -> block_ok b -> scan_acc sz pre chosen g ->
  ((size b <? sz) = true /\ scan_acc sz (pre ++ [b]) chosen g) \/
  ((size b <? sz) = false /\
   match chosen with
   | None => scan_acc sz (pre ++ [b]) (Some (List.length pre)) (u32 (size b - sz))
   | Some _ =>
       if u32 (size b - sz) <? g
       then scan_acc sz (pre ++ [b]) (Some (List.length pre)) (u32 (size b - sz))
       else scan_acc sz (pre ++ [b]) chosen g
   end).
Proof.
  intros Hsz (Hi & Hs & He) Hacc. unfold block_end in He.
  destruct (size b <? sz) eqn:E; [left | right]; split; trivial.
  - apply Z.ltb_lt in E. destruct chosen as [cp|]; simpl in *.
    + destruct Hacc as (cb & (Hn & Hf & Hmin & Hfirst) & Hg).
      exists cb. split; trivial. repeat split; trivial.
      * rewrite nth_error_app1; trivial. apply nth_error_Some. congruence.
      * intros b' Hin Hfit. apply in_app_iff in Hin. destruct Hin as [Hin|[<-|[]]].
        -- auto.
        -- unfold fits in Hfit. lia.
      * intros pos' b' Hlt Hn' Hfit. apply (Hfirst pos' b'); trivial.
        rewrite nth_error_app1 in Hn'; trivial.
        assert (cp < List.length pre)%nat by (apply nth_error_Some; congruence). lia.
    + intros b' Hin. apply in_app_iff in Hin. destruct Hin as [Hin|[<-|[]]]; auto.
  - apply Z.ltb_ge in E.
    assert (Hgap : u32 (size b - sz) = leftover sz b).
    { unfold leftover. apply u32_small. unfold in_u32 in Hsz. lia. }
    assert (Hnew : (forall b', In b' pre -> fits sz b' -> leftover sz b < leftover sz b') ->
              scan_acc sz (pre ++ [b]) (Some (List.length pre)) (u32 (size b - sz))).
    { intros Hall. simpl. exists b. split; trivial. repeat split.
      - apply nth_error_snoc.
      - exact E.
      - intros b' Hin Hfit. apply in_app_iff in Hin. destruct Hin as [Hin|[<-|[]]].
        + specialize (Hall b' Hin Hfit). lia.
        + lia.
      - intros pos' b' Hlt Hn' Hfit. rewrite nth_error_app1 in Hn' by trivial.
        apply Hall; trivial. eapply nth_error_In; eauto. }
    destruct chosen as [cp|]; simpl in Hacc.
    + destruct Hacc as (cb & (Hn & Hf & Hmin & Hfirst) & Hg).
      destruct (u32 (size b - sz) <? g) eqn:G.
      * apply Z.ltb_lt in G. apply Hnew. intros b' Hin Hfit.
        specialize (Hmin b' Hin Hfit). lia.
      * apply Z.ltb_ge in G. simpl. exists cb. split; trivial. repeat split; trivial.
        -- rewrite nth_error_app1; trivial. apply nth_error_Some. congruence.
        -- intros b' Hin Hfit. apply in_app_iff in Hin. destruct Hin as [Hin|[<-|[]]]; auto. lia.
        -- intros pos' b' Hlt Hn' Hfit. apply (Hfirst pos' b'); trivial.
           rewrite nth_error_app1 in Hn'; trivial.
           assert (cp < List.length pre)%nat by (apply nth_error_Some; congruence). lia.
    + apply Hnew. intros b' Hin Hfit. specialize (Hacc b' Hin). unfold fits in Hfit. lia.
Qed.

Lemma best_fit_scan_acc (sz : Z) (l : list memory_block) :
  in_u32 sz -> Forall block_ok l ->
  forall pre chosen g, scan_acc sz pre chosen g ->
  scan_acc sz (pre ++ l) (best_fit_scan sz l (List.length pre) chosen g)
           (match best_fit_scan sz l (List.length pre) chosen g with
            | Some p => match nth_error (pre ++ l) p with
                        | Some cb => leftover sz cb
                        | None => 0
                        end
            | None => 0
            end).
Proof.
  intros Hsz Hok. induction Hok as [|b l Hb Hl IH]; intros pre chosen g Hacc.
  - simpl. rewrite app_nil_r. destruct chosen as [cp|]; simpl in *; trivial.
    destruct Hacc as (cb & Hbest & Hg). exists cb. split; trivial.
    destruct Hbest as (-> & _). reflexivity.
  - replace (pre ++ b :: l) with ((pre ++ [b]) ++ l) by (rewrite <- app_assoc; reflexivity).
    assert (Hlen : S (List.length pre) = List.length (pre ++ [b])).
    { rewrite length_app. simpl. lia. }
    simpl best_fit_scan.
    destruct (scan_acc_step sz pre b chosen g Hsz Hb Hacc) as [(E & H1)|(E & H1)]; rewrite E.
    + rewrite Hlen. apply IH, H1.
    + cbv zeta. destruct chosen as [cp|].
      * destruct (u32 (size b - sz) <? g); rewrite Hlen; apply IH, H1.
      * rewrite Hlen; apply IH, H1.
Qed.

Lemma ordered_pairs_nth {A : Type} (R : A -> A -> Prop) (l : list A) :
  ForallOrdPairs R l ->
  forall i j a b, (i < j)%nat -> nth_error l i = Some a ->
                  nth_error l j = Some b -> R a b.
Proof.
  induction 1 as [|x l Hx Hl IH]; intros i j a b Hij Ha Hb.
  - destruct i; discriminate.
  - destruct j as [|j]; [lia|]. simpl in Hb. destruct i as [|i]; simpl in Ha.
    + injection Ha as <-. rewrite Forall_forall in Hx. apply Hx.
      eapply nth_error_In; eauto.
    + apply (IH i j); trivial. lia.
Qed.

Lemma best_fit_scan_finds (sz : Z) (fl : list memory_block) :
  in_u32 sz -> Forall block_ok fl ->
  match best_fit_scan sz fl 0 None 0 with
  | None => forall b, In b fl -> size b < sz
  | Some pos => exists chosen, best_fit_at sz fl pos chosen
  end.
Proof.
  intros Hsz Hok.
  pose proof (best_fit_scan_acc sz fl Hsz Hok [] None 0) as H.
  simpl in H. specialize (H (fun b (F : False) => match F with end)).
  destruct (best_fit_scan sz fl 0 None 0) as [pos|]; simpl in H; trivial.
  destruct H as (cb & Hbest & _). now exists cb.
Qed.

(** What [allocator_find_best_fit] answers on a non-empty free list. *)
Lemma allocator_find_best_fit_cases (fl : list memory_block) (sz : Z) :
  fl <> [] -> Forall block_ok fl -> in_u32 sz ->
  (exists pos chosen,
     best_fit_at sz fl pos chosen /\
     allocator_find_best_fit (mk_allocator fl BEST_FIT) sz =
       Ok (Some (mk_block (index chosen) sz),
           mk_allocator
             (set_nth fl pos (mk_block (index chosen + sz) (size chosen - sz)))
             BEST_FIT)) \/
  ((forall b, In b fl -> size b < sz) /\
   allocator_find_best_fit (mk_allocator fl BEST_FIT) sz =
     Ok (None, mk_allocator fl BEST_FIT)).
Proof.
  intros Hne Hok Hsz.
  pose proof (best_fit_scan_finds sz fl Hsz Hok) as Hscan.
  unfold allocator_find_best_fit. simpl.
  destruct fl as [|b0 fl0] eqn:Efl; [congruence|]. rewrite <- Efl in *.
  destruct (best_fit_scan sz fl 0 None 0) as [pos|].
  - left. destruct Hscan as (chosen & Hbest). exists pos, chosen.
    split; [exact Hbest|]. destruct Hbest as (Hn & Hf & _).
    rewrite Hn. rewrite Forall_forall in Hok.
    destruct (Hok chosen (nth_error_In _ _ Hn)) as (Hi & Hs & He).
    unfold block_end, fits, in_u32 in *.
    rewrite !u32_small by lia. reflexivity.
  - right. split; [exact Hscan | reflexivity].
Qed.



(** ** Lists: positions, insertion, removal *)

Lemma nth_error_split_at {A : Type} (l : list A) (pos : nat) (x : A) :
  nth_error l pos = Some x ->
  exists l1 l2, l = l1 ++ x :: l2 /\ List.length l1 = pos.
Proof.
  revert pos. induction l as [|y l IH]; intros [|pos] H; try discriminate.
  - injection H as ->. now exists [], l.
  - simpl in H. destruct (IH pos H) as (l1 & l2 & -> & Hlen).
    exists (y :: l1), l2. simpl. now rewrite Hlen.
Qed.

Lemma set_nth_app {A : Type} (l1 l2 : list A) (x y : A) :
  set_nth (l1 ++ x :: l2) (List.length l1) y = l1 ++ y :: l2.
Proof. induction l1 as [|z l1 IH]; simpl; [reflexivity | now rewrite IH]. Qed.

Lemma list_pop_node_app {A : Type} (l1 l2 : list A) (x : A) :
  list_pop_node (l1 ++ x :: l2) (List.length l1) = l1 ++ l2.
Proof. induction l1 as [|z l1 IH]; simpl; [reflexivity | now rewrite IH]. Qed.

Lemma set_nth_length {A : Type} (l : list A) (pos : nat) (x : A) :
  List.length (set_nth l pos x) = List.length l.
Proof.
  revert pos. induction l as [|y l IH]; intros [|pos]; simpl; auto.
Qed.

Lemma nth_error_set_nth {A : Type} (l : list A) (pos pos' : nat) (x : A) :
  nth_error (set_nth l pos x) pos' =
  if Nat.eqb pos pos'
  then match nth_error l pos with Some _ => Some x | None => None end
  else nth_error l pos'.
Proof.
  revert pos pos'. induction l as [|y l IH]; intros [|pos] [|pos']; simpl; auto.
  destruct (Nat.eqb pos pos'); reflexivity.
Qed.

Lemma ordered_pairs_app {A : Type} (R : A -> A -> Prop) (l1 l2 : list A) :
  ForallOrdPairs R (l1 ++ l2) <->
  ForallOrdPairs R l1 /\ ForallOrdPairs R l2 /\
  (forall a b, In a l1 -> In b l2 -> R a b).
Proof.
  induction l1 as [|x l1 IH]; simpl.
  - split.
    + intros H. repeat split; trivial. constructor. intros a b [].
    + now intros (_ & H & _).
  - split.
    + intros H. inversion H as [|? ? Hx Hl]; subst.
      apply IH in Hl. destruct Hl as (H1 & H2 & H12).
      rewrite Forall_app in Hx. destruct Hx as (Hx1 & Hx2).
      repeat split; trivial.
      * now constructor.
      * intros a b [<-|Ha] Hb; [|auto].
        rewrite Forall_forall in Hx2. auto.
    + intros (H1 & H2 & H12). inversion H1 as [|? ? Hx Hl]; subst.
      constructor.
      * rewrite Forall_app. split; trivial.
        rewrite Forall_forall. intros b Hb. apply H12; auto.
      * apply IH. repeat split; trivial. intros a b Ha Hb. apply H12; auto.
Qed.

Lemma ordered_pairs_cons_inv {A : Type} (R : A -> A -> Prop) (x : A)
    (l : list A) :
  ForallOrdPairs R (x :: l) -> Forall (R x) l /\ ForallOrdPairs R l.
Proof. intros H. inversion H; subst. now split. Qed.

(** Where [list_insert_sorted] puts a block: after entries that do not start
    later, before an entry that does not start earlier. *)
Lemma list_insert_sorted_split (tie : tie_rule) (x : memory_block)
    (l : list memory_block) :
  exists l1 l2,
    l = l1 ++ l2 /\
    list_insert_sorted tie mem_block_cmp x l = l1 ++ x :: l2 /\
    Forall (fun y => index y <= index x) l1 /\
    match l2 with
    | [] => True
    | y :: _ => index x <= index y
    end.
Proof.
  induction l as [|y l IH].
  - exists [], []. simpl. auto.
  - destruct tie; simpl.
    + destruct (index y <? index x) eqn:E; simpl.
      * apply Z.ltb_lt in E. destruct IH as (l1 & l2 & -> & Hins & H1 & H2).
        exists (y :: l1), l2. rewrite Hins. repeat split; trivial.
        constructor; [lia | trivial].
      * apply Z.ltb_ge in E. exists [], (y :: l). simpl. auto.
    + destruct (index x <? index y) eqn:E; simpl.
      * apply Z.ltb_lt in E. exists [], (y :: l). simpl. repeat split; auto. lia.
      * apply Z.ltb_ge in E. destruct IH as (l1 & l2 & -> & Hins & H1 & H2).
        exists (y :: l1), l2. rewrite Hins. repeat split; trivial.
        constructor; [lia | trivial].
Qed.

Lemma list_insert_sorted_ascending (tie : tie_rule) (x : memory_block)
    (l : list memory_block) :
  ascending l -> ascending (list_insert_sorted tie mem_block_cmp x l).
Proof.
  intros Hasc.
  destruct (list_insert_sorted_split tie x l) as (l1 & l2 & -> & -> & H1 & H2).
  unfold ascending in *. apply ordered_pairs_app in Hasc.
  destruct Hasc as (Ha1 & Ha2 & H12). apply ordered_pairs_app.
  assert (Hx2 : Forall (index_le x) l2).
  { destruct l2 as [|y l2]; [constructor|].
    apply ordered_pairs_cons_inv in Ha2. destruct Ha2 as (Hy & _).
    constructor; [exact H2|]. rewrite Forall_forall in *. intros z Hz.
    specialize (Hy z Hz). unfold index_le in *. lia. }
  repeat split; trivial.
  - now constructor.
  - intros a b Ha [<-|Hb]; [|auto].
    rewrite Forall_forall in H1. apply H1, Ha.
Qed.

(** ** Sums of sizes and cover counts *)

Lemma sum_sizes_app (l1 l2 : list memory_block) :
  sum_sizes (l1 ++ l2) = sum_sizes l1 + sum_sizes l2.
Proof. induction l1 as [|b l1 IH]; simpl; lia. Qed.

Lemma cover_app (a : Z) (l1 l2 : list memory_block) :
  cover a (l1 ++ l2) = (cover a l1 + cover a l2)%nat.
Proof. unfold cover. now rewrite filter_app, length_app. Qed.

Lemma cover_cons (a : Z) (b : memory_block) (l : list memory_block) :
  cover a (b :: l) = (cover a [b] + cover a l)%nat.
Proof. apply (cover_app a [b] l). Qed.

Lemma cover_one (a : Z) (b : memory_block) :
  cover a [b] = if covers a b then 1%nat else 0%nat.
Proof. unfold cover. simpl. now destruct (covers a b). Qed.

Lemma cover_in (a : Z) (b : memory_block) (l : list memory_block) :
  In b l -> covers a b = true -> (1 <= cover a l)%nat.
Proof.
  intros Hin Hc. apply in_split in Hin. destruct Hin as (l1 & l2 & ->).
  rewrite cover_app, cover_cons, cover_one, Hc. lia.
Qed.

(** Splitting a block in two at [sz], and joining two touching blocks,
    leave the addresses covered unchanged. *)
Lemma cover_carve (a : Z) (b : memory_block) (sz : Z) :
  0 <= sz <= size b ->
  cover a [b] =
  (cover a [mk_block (index b) sz]
   + cover a [mk_block (index b + sz) (size b - sz)])%nat.
Proof.
  intros H. rewrite !cover_one. unfold covers, block_end. simpl.
  destruct (index b <=? a) eqn:E1, (a <? index b + size b) eqn:E2,
           (a <? index b + sz) eqn:E3, (index b + sz <=? a) eqn:E4,
           (a <? index b + sz + (size b - sz)) eqn:E5; simpl; trivial;
  exfalso;
  repeat match goal with
         | H : (_ <=? _) = true |- _ => apply Z.leb_le in H
         | H : (_ <=? _) = false |- _ => apply Z.leb_gt in H
         | H : (_ <? _) = true |- _ => apply Z.ltb_lt in H
         | H : (_ <? _) = false |- _ => apply Z.ltb_ge in H
         end; lia.
Qed.

Lemma cover_join (a : Z) (b1 b2 : memory_block) :
  0 <= size b1 -> 0 <= size b2 -> touches b1 b2 ->
  cover a [mk_block (index b1) (size b1 + size b2)] =
  (cover a [b1] + cover a [b2])%nat.
Proof.
  intros H1 H2 Ht. unfold touches, block_end in Ht.
  rewrite (cover_carve a (mk_block (index b1) (size b1 + size b2)) (size b1))
    by (simpl; lia).
  simpl. rewrite !cover_one. unfold covers, block_end. simpl.
  rewrite Ht. replace (size b1 + size b2 - size b1) with (size b2) by lia.
  reflexivity.
Qed.

Lemma cover_disjoint (l : list memory_block) :
  (forall a, (cover a l <= 1)%nat) -> disjoint l.
Proof.
  induction l as [|b l IH]; intros H; [constructor|].
  constructor.
  - rewrite Forall_forall. intros b' Hin (a & Ha & Ha').
    specialize (H a). rewrite cover_cons, cover_one, Ha in H.
    pose proof (cover_in a b' l Hin Ha'). lia.
  - apply IH. intros a. specialize (H a). rewrite cover_cons in H. lia.
Qed.

(** ** The adjacency pass *)

(** On blocks that are values of [uint32_t] the pass does exact arithmetic:
    it joins a block with the next one when they touch, and moves on
    otherwise. *)
Lemma merge_pass_ind (P : memory_block -> list memory_block ->
                          list memory_block -> Prop) :
  (forall b, block_ok b -> P b [] [b]) ->
  (forall b1 b2 rest r,
      block_ok b1 -> block_ok b2 -> touches b1 b2 ->
      block_ok (mk_block (index b1) (size b1 + size b2)) ->
      P (mk_block (index b1) (size b1 + size b2)) rest r ->
      P b1 (b2 :: rest) r) ->
  (forall b1 b2 rest r,
      block_ok b1 -> block_ok b2 -> ~ touches b1 b2 ->
      P b2 rest r -> P b1 (b2 :: rest) (b1 :: r)) ->
  forall b rest, Forall block_ok (b :: rest) -> P b rest (merge_pass b rest).
Proof.
  intros Hnil Hjoin Hskip b rest. revert b.
  induction rest as [|b2 rest IH]; intros b1 Hok.
  - apply Hnil. now inversion Hok.
  - inversion Hok as [|? ? H1 Hok']; subst.
    inversion Hok' as [|? ? H2 Hrest]; subst.
    pose proof H1 as (Hi1 & Hs1 & He1). pose proof H2 as (Hi2 & Hs2 & He2).
    unfold block_end in *. simpl.
    rewrite (u32_small (index b1 + size b1)) by lia.
    destruct (index b1 + size b1 =? index b2) eqn:E.
    + apply Z.eqb_eq in E.
      assert (Hm : block_ok (mk_block (index b1) (size b1 + size b2))).
      { unfold block_ok, fits_below, block_end. simpl. lia. }
      rewrite !u32_small by lia.
      replace (index b2 - size b1) with (index b1) by lia.
      replace (size b2 + size b1) with (size b1 + size b2) by lia.
      apply Hjoin; trivial. apply IH. now constructor.
    + apply Z.eqb_neq in E. apply Hskip; trivial. now apply IH.
Qed.

Lemma merge_pass_nonempty (b : memory_block) (rest : list memory_block) :
  merge_pass b rest <> [].
Proof.
  revert b. induction rest as [|b2 rest IH]; intros b; simpl; [discriminate|].
  destruct (_ =? _); [apply IH | discriminate].
Qed.

Lemma merge_pass_sum (b : memory_block) (rest : list memory_block) :
  Forall block_ok (b :: rest) ->
  sum_sizes (merge_pass b rest) = sum_sizes (b :: rest).
Proof.
  apply (merge_pass_ind (fun b rest r => sum_sizes r = sum_sizes (b :: rest))).
  - reflexivity.
  - intros b1 b2 rest' r _ _ _ _ IH. rewrite IH. simpl. lia.
  - intros b1 b2 rest' r _ _ _ IH. simpl in *. lia.
Qed.

Lemma merge_pass_cover (a : Z) (b : memory_block) (rest : list memory_block) :
  Forall block_ok (b :: rest) ->
  cover a (merge_pass b rest) = cover a (b :: rest).
Proof.
  apply (merge_pass_ind (fun b rest r => cover a r = cover a (b :: rest))).
  - reflexivity.
  - intros b1 b2 rest' r (_ & H1 & _) (_ & H2 & _) Ht _ IH.
    rewrite IH.
    rewrite (cover_cons a (mk_block (index b1) (size b1 + size b2)) rest').
    rewrite (cover_join a b1 b2) by trivial.
    rewrite (cover_cons a b1 (b2 :: rest')), (cover_cons a b2 rest'). lia.
  - intros b1 b2 rest' r _ _ _ IH.
    rewrite (cover_cons a b1 r), IH, <- cover_cons. reflexivity.
Qed.

Lemma merge_pass_fits_below (lim : Z) (b : memory_block)
    (rest : list memory_block) :
  Forall block_ok (b :: rest) ->
  Forall (fits_below lim) (b :: rest) ->
  Forall (fits_below lim) (merge_pass b rest).
Proof.
  apply (merge_pass_ind (fun b rest r =>
           Forall (fits_below lim) (b :: rest) -> Forall (fits_below lim) r)).
  - trivial.
  - intros b1 b2 rest' r _ _ Ht _ IH H.
    inversion H as [|? ? H1 H']; subst. inversion H' as [|? ? H2 H'']; subst.
    apply IH. constructor; trivial.
    destruct H1 as (? & ? & ?), H2 as (? & ? & ?).
    unfold touches, fits_below, block_end in *. simpl. lia.
  - intros b1 b2 rest' r _ _ _ IH H. inversion H; subst. constructor; auto.
Qed.

(** The pass keeps the start offset of the block it starts from, and every
    entry of its result starts where some entry of its input starts. *)
Lemma merge_pass_head (b : memory_block) (rest : list memory_block) :
  Forall block_ok (b :: rest) ->
  exists b' r, merge_pass b rest = b' :: r /\ index b' = index b.
Proof.
  apply (merge_pass_ind (fun b rest r =>
           exists b' r', r = b' :: r' /\ index b' = index b)).
  - intros b0 _. now exists b0, [].
  - intros b1 b2 rest' r _ _ _ _ (b' & r' & -> & Hi). now exists b', r'.
  - intros b1 b2 rest' r _ _ _ _. now exists b1, r.
Qed.

Lemma merge_pass_indices (b : memory_block) (rest : list memory_block) :
  Forall block_ok (b :: rest) ->
  forall x, In x (merge_pass b rest) ->
            exists y, In y (b :: rest) /\ index x = index y.
Proof.
  apply (merge_pass_ind (fun b rest r =>
           forall x, In x r -> exists y, In y (b :: rest) /\ index x = index y)).
  - intros b0 _ x [<-|[]]. exists b0. simpl. auto.
  - intros b1 b2 rest' r _ _ _ _ IH x Hx.
    destruct (IH x Hx) as (y & [<-|Hy] & Hi).
    + exists b1. simpl in *. auto.
    + exists y. simpl. auto.
  - intros b1 b2 rest' r _ _ _ IH x [<-|Hx].
    + exists b1. simpl. auto.
    + destruct (IH x Hx) as (y & Hy & Hi). exists y. simpl in *. auto.
Qed.

Lemma merge_pass_ascending_above (b : memory_block)
    (rest : list memory_block) :
  Forall block_ok (b :: rest) ->
  forall lo, Forall (fun y => lo <= index y) (b :: rest) ->
             ascending (b :: rest) ->
             ascending (merge_pass b rest) /\
             Forall (fun y => lo <= index y) (merge_pass b rest).
Proof.
  apply (merge_pass_ind (fun b rest r =>
           forall lo, Forall (fun y => lo <= index y) (b :: rest) ->
                      ascending (b :: rest) ->
                      ascending r /\ Forall (fun y => lo <= index y) r)).
  - auto.
  - intros b1 b2 rest' r _ _ _ _ IH lo Hlo Hasc. apply IH.
    + inversion Hlo as [|? ? H1 H']; subst. inversion H'; subst.
      now constructor.
    + apply ordered_pairs_cons_inv in Hasc. destruct Hasc as (H1 & H2).
      apply ordered_pairs_cons_inv in H2. destruct H2 as (_ & H2).
      inversion H1; subst. now constructor.
  - intros b1 b2 rest' r _ _ _ IH lo Hlo Hasc.
    apply ordered_pairs_cons_inv in Hasc. destruct Hasc as (H1 & H2).
    inversion Hlo as [|? ? Hb1 Hlo']; subst.
    destruct (IH (index b1) H1 H2) as (Hr & Hr1).
    destruct (IH lo Hlo' H2) as (_ & Hr2).
    split; constructor; trivial.
Qed.

Lemma merge_pass_ascending (b : memory_block) (rest : list memory_block) :
  Forall block_ok (b :: rest) ->
  ascending (b :: rest) -> ascending (merge_pass b rest).
Proof.
  intros Hok Hasc.
  apply (merge_pass_ascending_above b rest Hok (index b)); trivial.
  apply ordered_pairs_cons_inv in Hasc. destruct Hasc as (H1 & _).
  constructor; [lia | exact H1].
Qed.

Lemma merge_pass_neighbours (b : memory_block) (rest : list memory_block) :
  Forall block_ok (b :: rest) ->
  no_touching_neighbours (merge_pass b rest).
Proof.
  intros Hok.
  enough (H : no_touching_neighbours (merge_pass b rest) /\
              exists b' r', merge_pass b rest = b' :: r' /\ index b' = index b)
    by apply H.
  revert b rest Hok.
  apply (merge_pass_ind (fun b rest r =>
           no_touching_neighbours r /\
           exists b' r', r = b' :: r' /\ index b' = index b)).
  - intros b0 _. split; [simpl; auto | now exists b0, []].
  - intros b1 b2 rest' r _ _ _ _ (IH & b' & r' & -> & Hi).
    split; [exact IH | now exists b', r'].
  - intros b1 b2 rest' r _ _ Hnt (IH & b' & r' & -> & Hi).
    split; [| now exists b1, (b' :: r')].
    split; [| exact IH]. unfold touches in *. now rewrite Hi.
Qed.

Lemma merge_pass_positive (b : memory_block) (rest : list memory_block) :
  Forall block_ok (b :: rest) ->
  Forall (fun x => 0 < size x) (b :: rest) ->
  Forall (fun x => 0 < size x) (merge_pass b rest).
Proof.
  apply (merge_pass_ind (fun b rest r =>
           Forall (fun x => 0 < size x) (b :: rest) ->
           Forall (fun x => 0 < size x) r)).
  - trivial.
  - intros b1 b2 rest' r _ _ _ _ IH H.
    inversion H as [|? ? H1 H']; subst. inversion H' as [|? ? H2 H'']; subst.
    apply IH. constructor; trivial. simpl. lia.
  - intros b1 b2 rest' r _ _ _ IH H. inversion H; subst. constructor; auto.
Qed.

(** ** From neighbours to all pairs *)

Lemma cover_zero (a : Z) (l : list memory_block) :
  (forall b, In b l -> covers a b = false) -> cover a l = 0%nat.
Proof.
  induction l as [|b l IH]; intros H; [reflexivity|].
  rewrite cover_cons, cover_one, (H b) by (simpl; auto).
  rewrite IH; [reflexivity|]. intros b' Hb'. apply H. simpl. auto.
Qed.

Lemma disjoint_cover (l : list memory_block) :
  disjoint l -> forall a, (cover a l <= 1)%nat.
Proof.
  induction 1 as [|b l Hb Hl IH]; intros a; [unfold cover; simpl; lia|].
  rewrite cover_cons, cover_one. destruct (covers a b) eqn:E.
  - rewrite cover_zero; [lia|]. intros b' Hb'.
    rewrite Forall_forall in Hb. specialize (Hb b' Hb').
    destruct (covers a b') eqn:E'; trivial. exfalso. apply Hb. now exists a.
  - specialize (IH a). lia.
Qed.

(** In a list that is sorted by start offset, of blocks of positive size
    that do not overlap, blocks that are not neighbours cannot touch. *)
Lemma coalesced_of_neighbours (l : list memory_block) :
  Forall (fun x => 0 < size x) l -> ascending l -> disjoint l ->
  no_touching_neighbours l -> coalesced l.
Proof.
  intros Hpos Hasc Hdis Hnt.
  assert (Hsep : forall b1 b2, 0 < size b2 -> index b1 <= index b2 ->
                               ~ overlap b1 b2 -> block_end b1 <= index b2).
  { intros b1 b2 Hs Hle Hno.
    destruct (Z_le_gt_dec (block_end b1) (index b2)) as [|Hgt]; trivial.
    exfalso. apply Hno. exists (index b2). unfold covers, block_end in *.
    rewrite !andb_true_iff, !Z.leb_le, !Z.ltb_lt. lia. }
  induction l as [|b l IH]; [constructor|].
  inversion Hpos as [|? ? Hb Hpos']; subst.
  apply ordered_pairs_cons_inv in Hasc. destruct Hasc as (Ha & Hasc').
  apply ordered_pairs_cons_inv in Hdis. destruct Hdis as (Hd & Hdis').
  destruct Hnt as (Hn & Hnt').
  constructor; [|apply IH; trivial].
  rewrite Forall_forall in *. intros b2 Hin.
  pose proof (Hpos' b2 Hin) as Hs2.
  assert (Hend : block_end b <= index b2).
  { apply Hsep; [exact Hs2 | apply (Ha b2 Hin) | apply (Hd b2 Hin)]. }
  split.
  - destruct l as [|b' l']; [destruct Hin|].
    destruct Hin as [<-|Hin]; [exact Hn|].
    apply ordered_pairs_cons_inv in Hasc'. destruct Hasc' as (Ha' & _).
    apply ordered_pairs_cons_inv in Hdis'. destruct Hdis' as (Hd' & _).
    rewrite Forall_forall in *.
    assert (0 < size b') by (apply Hpos'; simpl; auto).
    assert (block_end b' <= index b2).
    { apply Hsep; [exact Hs2 | apply (Ha' b2 Hin) | apply (Hd' b2 Hin)]. }
    assert (block_end b <= index b').
    { apply Hsep; [trivial | apply Ha; simpl; auto | apply Hd; simpl; auto]. }
    unfold touches, block_end in *. lia.
  - unfold touches, block_end in *. lia.
Qed.

(** ** Release *)

Lemma list_insert_sorted_ok (tie : tie_rule) (P : memory_block -> Prop)
    (x : memory_block) (l : list memory_block) :
  Forall P (x :: l) -> Forall P (list_insert_sorted tie mem_block_cmp x l).
Proof.
  intros H. inversion H as [|? ? Hx Hl]; subst.
  destruct (list_insert_sorted_split tie x l) as (l1 & l2 & -> & -> & _).
  apply Forall_app in Hl. destruct Hl as (H1 & H2).
  apply Forall_app. split; [exact H1 | now constructor].
Qed.

Lemma list_insert_sorted_cover (tie : tie_rule) (a : Z) (x : memory_block)
    (l : list memory_block) :
  cover a (list_insert_sorted tie mem_block_cmp x l) = cover a (x :: l).
Proof.
  destruct (list_insert_sorted_split tie x l) as (l1 & l2 & -> & -> & _).
  rewrite (cover_cons a x (l1 ++ l2)), !cover_app, (cover_cons a x l2). lia.
Qed.

Lemma list_insert_sorted_sum (tie : tie_rule) (x : memory_block)
    (l : list memory_block) :
  sum_sizes (list_insert_sorted tie mem_block_cmp x l) = sum_sizes (x :: l).
Proof.
  destruct (list_insert_sorted_split tie x l) as (l1 & l2 & -> & -> & _).
  simpl. rewrite !sum_sizes_app. simpl. lia.
Qed.

Lemma list_insert_sorted_cons (tie : tie_rule) (x : memory_block)
    (l : list memory_block) :
  exists b rest, list_insert_sorted tie mem_block_cmp x l = b :: rest.
Proof.
  destruct (list_insert_sorted_split tie x l) as (l1 & l2 & _ & -> & _).
  destruct l1 as [|y l1]; simpl; eauto.
Qed.

(** What a release guarantees. For a free list sorted by ascending start
    offset and a released block, all of them values of [uint32_t]: after
    the release the free list is again sorted by ascending start offset and
    no entry's end offset is the start offset of the entry that follows it.
    When moreover the blocks have positive size and do not overlap, no two
    entries of the list touch at all. *)
Lemma release_sorted_merged (tie : tie_rule) (fl : list memory_block)
    (b : memory_block) :
  Forall block_ok (b :: fl) -> ascending fl ->
  ascending (allocater_free_memory tie fl b) /\
  no_touching_neighbours (allocater_free_memory tie fl b) /\
  (Forall (fun x => 0 < size x) (b :: fl) -> disjoint (b :: fl) ->
   coalesced (allocater_free_memory tie fl b)).
Proof.
  intros Hok Hasc. unfold allocater_free_memory.
  pose proof (list_insert_sorted_ok tie block_ok b fl Hok) as Hok'.
  pose proof (list_insert_sorted_ascending tie b fl Hasc) as Hasc'.
  assert (Hcov : forall a, cover a (list_insert_sorted tie mem_block_cmp b fl)
                           = cover a (b :: fl))
    by (intros a; apply list_insert_sorted_cover).
  assert (Hpos : Forall (fun x => 0 < size x) (b :: fl) ->
                 Forall (fun x => 0 < size x)
                        (list_insert_sorted tie mem_block_cmp b fl))
    by apply list_insert_sorted_ok.
  destruct (list_insert_sorted_cons tie b fl) as (b1 & rest & E).
  rewrite E in *.
  pose proof (merge_pass_ascending b1 rest Hok' Hasc') as H1.
  pose proof (merge_pass_neighbours b1 rest Hok') as H2.
  repeat split; trivial.
  intros Hp Hd. apply coalesced_of_neighbours; trivial.
  - apply merge_pass_positive; auto.
  - apply cover_disjoint. intros a.
    rewrite merge_pass_cover, Hcov by trivial. now apply disjoint_cover.
Qed.

(** A release that joins the block with both its neighbours. *)
Example release_joins_both_neighbours :
  allocater_free_memory NewAfterEqual
    [mk_block 0 100; mk_block 300 50] (mk_block 100 200)
  = [mk_block 0 350].
Proof. reflexivity. Qed.

Lemma coalesced_nth (l : list memory_block) (i j : nat) (b1 b2 : memory_block) :
  coalesced l -> (i < j)%nat ->
  nth_error l i = Some b1 -> nth_error l j = Some b2 ->
  ~ touches b1 b2 /\ ~ touches b2 b1.
Proof.
  intros H. apply (ordered_pairs_nth _ l H).
Qed.

(** C2 (full coalescing after a release) fails on the code. An allocation
    that takes a whole block leaves a block of size 0 in the free list, and
    the adjacency pass only compares an entry with its successor. On the
    input of [fragmenting_boot], once "D" has finished at time 7, the free
    list holds two blocks that touch: the blocks at 100 and 150, kept apart
    by the empty block at 100, when [list_insert_sorted] puts a new block
    before equal keys; the block at 100 and the empty block "D" gave back,
    when it puts it after. In both cases the last release was made on a
    free list sorted by ascending start offset. *)
Theorem release_leaves_touching_blocks :
  (free_list (allocator (fragmented NewBeforeEqual)) =
     [mk_block 100 50; mk_block 100 0; mk_block 150 1898] /\
   ascending [mk_block 100 50; mk_block 100 0; mk_block 150 1898] /\
   allocater_free_memory NewBeforeEqual
     [mk_block 100 50; mk_block 100 0; mk_block 150 1898] (mk_block 100 0) =
     [mk_block 100 50; mk_block 100 0; mk_block 150 1898] /\
   touches (mk_block 100 50) (mk_block 150 1898) /\
   ~ coalesced (free_list (allocator (fragmented NewBeforeEqual)))) /\
  (free_list (allocator (fragmented NewAfterEqual)) =
     [mk_block 100 1948; mk_block 100 0] /\
   ascending [mk_block 100 1948] /\
   allocater_free_memory NewAfterEqual [mk_block 100 1948] (mk_block 100 0) =
     [mk_block 100 1948; mk_block 100 0] /\
   touches (mk_block 100 0) (mk_block 100 1948) /\
   ~ coalesced (free_list (allocator (fragmented NewAfterEqual)))).
Proof.
  split; (split; [reflexivity|]);
    (split; [repeat constructor; unfold index_le; simpl; lia|]);
    (split; [reflexivity|]); (split; [reflexivity|]); intros H.
  - destruct (coalesced_nth _ 0 2 (mk_block 100 50) (mk_block 150 1898) H)
      as (Ht & _); [lia | reflexivity | reflexivity |].
    apply Ht. reflexivity.
  - destruct (coalesced_nth _ 0 1 (mk_block 100 1948) (mk_block 100 0) H)
      as (_ & Ht); [lia | reflexivity | reflexivity |].
    apply Ht. reflexivity.
Qed.

(** Without the program that needs no memory the first case arises all the
    same, one iteration earlier, when "B" gives its block back. *)
Example release_behind_empty_block :
  pool_run NewBeforeEqual
    [Allocate 100; Allocate 50; Release 0; Allocate 100; Release 0] pool_init
  = Ok ([mk_block 100 50; mk_block 100 0; mk_block 150 1898],
        [mk_block 0 100]).
Proof. reflexivity. Qed.

(** ** The pool invariant *)

Lemma sum_sizes_perm (l l' : list memory_block) :
  Permutation l l' -> sum_sizes l = sum_sizes l'.
Proof. induction 1; simpl; lia. Qed.

Lemma cover_perm (a : Z) (l l' : list memory_block) :
  Permutation l l' -> cover a l = cover a l'.
Proof.
  induction 1 as [|x l l' _ IH|x y l|l l' l'' _ IH1 _ IH2].
  - reflexivity.
  - rewrite (cover_cons a x l), (cover_cons a x l'). lia.
  - rewrite (cover_cons a y (x :: l)), (cover_cons a x l),
            (cover_cons a x (y :: l)), (cover_cons a y l). lia.
  - lia.
Qed.

Lemma pool_invariant_perm (fl held held' : list memory_block) :
  Permutation held held' -> pool_invariant fl held -> pool_invariant fl held'.
Proof.
  intros Hp [H1 H2 H3 H4 H5]. constructor; trivial.
  - eapply Permutation_Forall; eauto.
  - rewrite <- (sum_sizes_perm _ _ Hp). exact H3.
  - intros a. rewrite <- (cover_perm a _ _ Hp). apply H4.
Qed.

Lemma pool_invariant_init :
  pool_invariant (fst pool_init) (snd pool_init).
Proof.
  constructor; simpl.
  - repeat constructor; unfold block_end, BUFFER_SIZE; simpl; lia.
  - constructor.
  - reflexivity.
  - intros a. unfold cover. simpl.
    destruct (covers a _); simpl; lia.
  - discriminate.
Qed.

Lemma pool_free_ok (fl held : list memory_block) :
  pool_invariant fl held -> Forall block_ok fl.
Proof.
  intros [H _ _ _ _]. eapply Forall_impl; [|exact H].
  intros b. apply within_pool_ok.
Qed.

(** Allocation under the invariant: it never trips the assertion, it keeps
    the number of entries of the free list, and the block handed out joins
    the blocks held. *)
Lemma pool_invariant_allocate (fl held : list memory_block) (sz : Z) :
  pool_invariant fl held -> in_u32 sz ->
  exists granted fl',
    allocator_find_best_fit (mk_allocator fl BEST_FIT) sz =
      Ok (granted, mk_allocator fl' BEST_FIT) /\
    List.length fl' = List.length fl /\
    match granted with
    | Some b => size b = sz /\ pool_invariant fl' (b :: held)
    | None => fl' = fl
    end.
Proof.
  intros Hinv Hsz. pose proof (pool_free_ok fl held Hinv) as Hok.
  destruct Hinv as [Hf Hh Hsum Hcov Hne].
  destruct (allocator_find_best_fit_cases fl sz Hne Hok Hsz)
    as [(pos & chosen & (Hn & Hfit & _) & Heq)|(_ & Heq)].
  - eexists _, _. split; [exact Heq|]. split; [apply set_nth_length|].
    split; [reflexivity|].
    destruct (nth_error_split_at fl pos chosen Hn) as (l1 & l2 & -> & Hlen).
    rewrite <- Hlen, set_nth_app.
    apply Forall_app in Hf. destruct Hf as (Hf1 & Hf2).
    inversion Hf2 as [|? ? Hc Hf2']; subst.
    destruct Hc as (Hi & Hs & He). unfold fits, in_u32, block_end in *.
    constructor.
    + apply Forall_app. split; trivial. constructor; trivial.
      unfold within_pool, fits_below, block_end. simpl. lia.
    + constructor; trivial.
      unfold within_pool, fits_below, block_end. simpl. lia.
    + rewrite sum_sizes_app in *. simpl in *. lia.
    + intros a. specialize (Hcov a).
      rewrite cover_app, (cover_cons a chosen l2) in Hcov.
      rewrite (cover_carve a chosen sz) in Hcov by lia.
      rewrite cover_app, (cover_cons a _ l2), (cover_cons a _ held). lia.
    + destruct l1; discriminate.
  - exists None, fl. auto.
Qed.

(** Release of a block held, under the invariant. *)
Lemma pool_invariant_release (tie : tie_rule) (fl held held' : list memory_block)
    (b : memory_block) :
  pool_invariant fl held -> Permutation held (b :: held') ->
  pool_invariant (allocater_free_memory tie fl b) held'.
Proof.
  intros Hinv Hp. apply (pool_invariant_perm _ _ _ Hp) in Hinv.
  destruct Hinv as [Hf Hh Hsum Hcov Hne].
  inversion Hh as [|? ? Hb Hh']; subst.
  assert (Hw : Forall within_pool (list_insert_sorted tie mem_block_cmp b fl))
    by (apply list_insert_sorted_ok; now constructor).
  assert (Hok : Forall block_ok (list_insert_sorted tie mem_block_cmp b fl)).
  { eapply Forall_impl; [|exact Hw]. intros x. apply within_pool_ok. }
  pose proof (list_insert_sorted_sum tie b fl) as Hs.
  pose proof (fun a => list_insert_sorted_cover tie a b fl) as Hc.
  unfold allocater_free_memory.
  destruct (list_insert_sorted_cons tie b fl) as (b1 & rest & E).
  rewrite E in *. constructor; trivial.
  - now apply merge_pass_fits_below.
  - rewrite merge_pass_sum, Hs by trivial. simpl in *. lia.
  - intros a. rewrite merge_pass_cover, Hc by trivial.
    specialize (Hcov a). rewrite (cover_cons a b fl).
    rewrite (cover_cons a b held') in Hcov. lia.
  - apply merge_pass_nonempty.
Qed.

Lemma nth_error_pop_perm {A : Type} (l : list A) (k : nat) (x : A) :
  nth_error l k = Some x -> Permutation l (x :: list_pop_node l k).
Proof.
  intros H. destruct (nth_error_split_at l k x H) as (l1 & l2 & -> & <-).
  rewrite list_pop_node_app. symmetry. apply Permutation_middle.
Qed.

Lemma pool_step_invariant (tie : tie_rule) (s : pool_state) (op : pool_op) :
  pool_invariant (fst s) (snd s) -> pool_op_ok op ->
  exists s', pool_step tie s op = Ok s' /\ pool_invariant (fst s') (snd s').
Proof.
  destruct s as (fl, held). simpl. intros Hinv Hop.
  destruct op as [sz|k]; simpl.
  - destruct (pool_invariant_allocate fl held sz Hinv Hop)
      as (granted & fl' & -> & _ & H). simpl.
    destruct granted as [b|].
    + eexists. split; [reflexivity|]. simpl. destruct H as (_ & H).
      eapply pool_invariant_perm; [|exact H].
      change (b :: held) with ([b] ++ held). apply Permutation_app_comm.
    + subst. eexists. split; [reflexivity|]. exact Hinv.
  - destruct (nth_error held k) as [b|] eqn:E.
    + eexists. split; [reflexivity|]. simpl.
      eapply pool_invariant_release; eauto. now apply nth_error_pop_perm.
    + eexists. split; [reflexivity|]. exact Hinv.
Qed.

Lemma pool_run_invariant (tie : tie_rule) (ops : list pool_op) :
  Forall pool_op_ok ops ->
  forall s, pool_invariant (fst s) (snd s) ->
  exists s', pool_run tie ops s = Ok s' /\ pool_invariant (fst s') (snd s').
Proof.
  induction 1 as [|op ops Hop _ IH]; intros s Hinv; simpl.
  - now exists s.
  - destruct (pool_step_invariant tie s op Hinv Hop) as (s1 & -> & H1).
    simpl. apply IH, H1.
Qed.

Lemma pool_reachable_invariant (tie : tie_rule) (s : pool_state) :
  pool_reachable tie s -> pool_invariant (fst s) (snd s).
Proof.
  intros (ops & Hops & Hrun).
  destruct (pool_run_invariant tie ops Hops pool_init pool_invariant_init)
    as (s' & Hrun' & Hinv).
  rewrite Hrun in Hrun'. now injection Hrun' as <-.
Qed.

Lemma pool_invariant_disjoint (fl held : list memory_block) :
  pool_invariant fl held -> disjoint (fl ++ held).
Proof.
  intros [_ _ _ Hcov _]. apply cover_disjoint. intros a.
  rewrite cover_app. apply Hcov.
Qed.

(** ** The store of processes *)

Lemma nth_error_set_nth_eq {A : Type} (l : list A) (p : nat) (x y : A) :
  nth_error l p = Some x -> nth_error (set_nth l p y) p = Some y.
Proof.
  intros H. rewrite nth_error_set_nth, Nat.eqb_refl, H. reflexivity.
Qed.

Lemma nth_error_set_nth_neq {A : Type} (l : list A) (p p' : nat) (y : A) :
  p <> p' -> nth_error (set_nth l p y) p' = nth_error l p'.
Proof.
  intros H. rewrite nth_error_set_nth.
  apply Nat.eqb_neq in H. now rewrite H.
Qed.

Lemma set_nth_split {A : Type} (l : list A) (p : nat) (x : A) :
  nth_error l p = Some x ->
  exists l1 l2, l = l1 ++ x :: l2 /\
                forall y, set_nth l p y = l1 ++ y :: l2.
Proof.
  intros H. destruct (nth_error_split_at l p x H) as (l1 & l2 & -> & <-).
  exists l1, l2. split; [reflexivity|]. intros y. apply set_nth_app.
Qed.

Lemma Forall_set_nth {A : Type} (P : A -> Prop) (l : list A) (p : nat) (y : A) :
  Forall P l -> P y -> Forall P (set_nth l p y).
Proof.
  intros H Hy. revert p. induction H as [|x l Hx Hl IH]; intros [|p]; simpl;
    constructor; auto.
Qed.

Lemma held_set_nth_same (l : list process) (p : nat) (pr pr' : process) :
  nth_error l p = Some pr -> pBlock pr' = pBlock pr ->
  flat_map block_list (set_nth l p pr') = flat_map block_list l.
Proof.
  intros H Hb. destruct (set_nth_split l p pr H) as (l1 & l2 & -> & ->).
  rewrite !flat_map_app. cbn [flat_map]. unfold block_list.
  now rewrite Hb.
Qed.

Lemma held_set_nth_free (l : list process) (p : nat) (pr pr' : process)
    (b : memory_block) :
  nth_error l p = Some pr -> pBlock pr = Some b -> pBlock pr' = None ->
  Permutation (flat_map block_list l)
              (b :: flat_map block_list (set_nth l p pr')).
Proof.
  intros H Hb Hb'. destruct (set_nth_split l p pr H) as (l1 & l2 & -> & ->).
  rewrite !flat_map_app. cbn [flat_map]. unfold block_list.
  rewrite Hb, Hb'. simpl. symmetry. apply Permutation_middle.
Qed.

Lemma advances_refl (q : Z) (m : manager) : advances q m m.
Proof.
  repeat split; trivial. intros p pr H. exists pr. repeat split; trivial. lia.
Qed.

Lemma advances_trans (q : Z) (m1 m2 m3 : manager) :
  advances q m1 m2 -> advances q m2 m3 -> advances q m1 m3.
Proof.
  intros (Hp & Ht & Hs & H) (Hp' & Ht' & Hs' & H').
  repeat split; try congruence.
  intros p pr Hn. destruct (H p pr Hn) as (pr1 & Hn1 & Hprog1 & Hrt1).
  destruct (H' p pr1 Hn1) as (pr2 & Hn2 & Hprog2 & Hrt2).
  exists pr2. repeat split; try congruence.
  intros Ht0. specialize (Hrt1 Ht0). rewrite <- Hprog1 in Ht0.
  specialize (Hrt2 Ht0). lia.
Qed.

Ltac conjs := repeat match goal with |- _ /\ _ => split end.

(** A manager that differs only by what was printed and sent. *)
Lemma invariant_quiet (q : Z) (m m' : manager) :
  list_active m' = list_active m -> list_ready m' = list_ready m ->
  pRunningProcess m' = pRunningProcess m -> allocator m' = allocator m ->
  pPrograms m' = pPrograms m -> list_input m' = list_input m ->
  engine_invariant q m -> engine_invariant q m'.
Proof.
  intros Ha Hr Hrun Hal Hp Hi [H1 H2 H3 H4 H5 H6].
  constructor; unfold ready_ok, running_ok, held_blocks in *;
    rewrite ?Ha, ?Hr, ?Hrun, ?Hal, ?Hp, ?Hi; trivial.
Qed.

Lemma advances_same (q : Z) (m m' : manager) :
  pPrograms m' = pPrograms m -> type m' = type m ->
  strategy (allocator m') = strategy (allocator m) ->
  list_active m' = list_active m -> advances q m m'.
Proof.
  intros Hp Ht Hs Ha. unfold advances. conjs; trivial.
  intros p pr H. exists pr. rewrite Ha. conjs; trivial. lia.
Qed.

(** Rewriting one process of the store without touching its program or
    its run-time. *)
Lemma advances_store (q : Z) (m m' : manager) (p : nat) (pr pr' : process) :
  pPrograms m' = pPrograms m -> type m' = type m ->
  strategy (allocator m') = strategy (allocator m) ->
  nth_error (list_active m) p = Some pr ->
  list_active m' = set_nth (list_active m) p pr' ->
  pProgram pr' = pProgram pr ->
  (timed q (pProgram pr) -> run_time pr <= run_time pr') ->
  advances q m m'.
Proof.
  intros Hp Ht Hs Hn Ha Hprog Hrt. unfold advances. conjs; trivial.
  intros p0 pr0 H0. rewrite Ha. destruct (Nat.eq_dec p p0) as [<-|Hne].
  - rewrite (nth_error_set_nth_eq _ _ pr pr' Hn). exists pr'.
    rewrite Hn in H0. injection H0 as <-. conjs; trivial.
  - rewrite nth_error_set_nth_neq by trivial. exists pr0. conjs; trivial. lia.
Qed.

(** ** [keep_process_running] *)

Lemma keep_process_running_invariant (q : Z) (m : manager) :
  engine_invariant q m ->
  exists keep m',
    keep_process_running m = Ok (keep, m') /\
    engine_invariant q m' /\ advances q m m' /\
    time m' = time m /\
    (keep = false -> pRunningProcess m' = None) /\
    (keep = true -> pRunningProcess m' = pRunningProcess m /\
                    list_active m' = list_active m).
Proof.
  intros Hinv. pose proof Hinv as [Hready Hrun Hpool Hprogs Hinput Hproc].
  unfold keep_process_running.
  destruct (pRunningProcess m) as [r|] eqn:Er.
  2:{ exists false, m. conjs; auto using advances_refl. }
  destruct (Hrun r Er) as (pr & Hn & Hst).
  assert (Hcont : exists m', process_continue m r = Ok m' /\
            engine_invariant q m' /\ advances q m m' /\ time m' = time m /\
            pRunningProcess m' = pRunningProcess m /\
            list_active m' = list_active m).
  { unfold process_continue, deref. rewrite Hn. simpl.
    eexists. split; [reflexivity|]. conjs; trivial.
    - apply (invariant_quiet q m); trivial.
    - apply advances_same; trivial. }
  destruct (type m) eqn:Et.
  - destruct Hcont as (m' & -> & Hi & Ha & Htime & Hr' & Hact). simpl.
    exists true, m'. rewrite <- Er.
      conjs; trivial; try discriminate. intros _. now split.
  - destruct (list_ready m) as [|p0 ready0] eqn:Erd.
    + destruct Hcont as (m' & -> & Hi & Ha & Htime & Hr' & Hact). simpl.
      exists true, m'. rewrite <- Er.
      conjs; trivial; try discriminate. intros _. now split.
    + clear Hcont.
      unfold process_suspend, process_submit_ready, deref.
      rewrite Hn. simpl. rewrite Hn. simpl.
      eexists false, _. split; [reflexivity|].
      assert (Hnotin : ~ In r (list_ready m)).
      { intros Hin. destruct Hready as (_ & Hr).
        destruct (Hr r Hin) as (pr0 & Hn0 & Hst0). congruence. }
      rewrite Forall_forall in Hproc.
      pose proof (Hproc pr (nth_error_In _ _ Hn)) as (Ho & Hu & Hrt & Hblk).
      split; [|conjs; trivial; simpl].
      * constructor; simpl.
        -- destruct Hready as (Hnd & Hr). split; simpl.
           ++ unfold list_insert_tail. apply NoDup_rev in Hnd.
              rewrite <- (rev_involutive (list_ready m ++ [r])).
              apply NoDup_rev. rewrite rev_app_distr. simpl.
              constructor; trivial. now rewrite <- in_rev.
           ++ intros p Hin. apply in_app_iff in Hin.
              destruct Hin as [Hin|[<-|[]]].
              ** destruct (Hr p Hin) as (pr0 & Hn0 & Hst0). exists pr0.
                 rewrite nth_error_set_nth_neq; [auto|].
                 intros ->. contradiction.
              ** exists (set_state pr READY).
                 now rewrite (nth_error_set_nth_eq _ _ pr _ Hn).
        -- intros r0 H0. discriminate.
        -- intros Hs. unfold held_blocks. simpl.
           rewrite (held_set_nth_same _ r pr); trivial. now apply Hpool.
        -- trivial.
        -- trivial.
        -- apply Forall_set_nth; [now apply Forall_forall|].
           unfold process_ok. simpl. conjs; trivial.
           ++ intros Ht0. destruct (Hrt Ht0) as (H1 & H2).
              split; trivial. intros _. apply H2. congruence.
           ++ destruct (strategy (allocator m)); trivial.
              split; [discriminate|]. intros Hnone.
              apply Hblk in Hnone. congruence.
      * eapply advances_store with (pr' := set_state pr READY); eauto.
        simpl. lia.
      * discriminate.
Qed.

(** ** The order of shortest job first *)

Lemma ascii_compare_lt_le (a b c : ascii) :
  Ascii.compare a b <> Gt -> Ascii.compare b c <> Gt ->
  Ascii.compare a c <> Gt /\
  (Ascii.compare a b = Lt \/ Ascii.compare b c = Lt -> Ascii.compare a c = Lt).
Proof.
  unfold Ascii.compare.
  destruct (N.compare_spec (N_of_ascii a) (N_of_ascii b)),
           (N.compare_spec (N_of_ascii b) (N_of_ascii c)),
           (N.compare_spec (N_of_ascii a) (N_of_ascii c));
    intros Hab Hbc; split; try congruence; try lia;
    intros [Hx|Hx]; congruence || lia.
Qed.

Lemma string_compare_refl (s : string) : String.compare s s = Eq.
Proof.
  induction s as [|c s IH]; simpl; trivial.
  unfold Ascii.compare. now rewrite N.compare_refl.
Qed.

Lemma string_compare_lt_le (a : string) :
  forall b c,
    String.compare a b <> Gt -> String.compare b c <> Gt ->
    String.compare a c <> Gt /\
    (String.compare a b = Lt \/ String.compare b c = Lt ->
     String.compare a c = Lt).
Proof.
  induction a as [|x a IH]; intros [|y b] [|z c]; simpl;
    try (intros H1 H2; split; [congruence|intros [H|H]; congruence]).
  intros H1 H2.
  destruct (Ascii.compare x y) eqn:Exy; try congruence;
  destruct (Ascii.compare y z) eqn:Eyz; try congruence;
  assert (Hxy : Ascii.compare x y <> Gt) by congruence;
  assert (Hyz : Ascii.compare y z <> Gt) by congruence;
  destruct (ascii_compare_lt_le x y z Hxy Hyz) as (Hle & Hlt).
  - apply Ascii.compare_eq_iff in Exy, Eyz. subst.
    unfold Ascii.compare at 1 2. rewrite N.compare_refl. apply IH; trivial.
  - rewrite Hlt by auto. split; [congruence | trivial].
  - rewrite Hlt by auto. split; [congruence | trivial].
  - rewrite Hlt by auto. split; [congruence | trivial].
Qed.

Lemma Z_compare_lt_le (a b c : Z) :
  (a ?= b) <> Gt -> (b ?= c) <> Gt ->
  (a ?= c) <> Gt /\ ((a ?= b) = Lt \/ (b ?= c) = Lt -> (a ?= c) = Lt).
Proof.
  destruct (Z.compare_spec a b), (Z.compare_spec b c), (Z.compare_spec a c);
    intros Hab Hbc; split; try congruence; try lia;
    intros [Hx|Hx]; congruence || lia.
Qed.

Lemma sjf_compare_antisym (p1 p2 : process) :
  sjf_compare p1 p2 = CompOpp (sjf_compare p2 p1).
Proof.
  unfold sjf_compare.
  rewrite (Z.compare_antisym (service_time (pProgram p1))).
  rewrite (Z.compare_antisym (time_arrived (pProgram p1))).
  rewrite String.compare_antisym.
  destruct (service_time (pProgram p1) ?= service_time (pProgram p2));
    simpl; trivial.
  destruct (time_arrived (pProgram p1) ?= time_arrived (pProgram p2));
    simpl; trivial.
Qed.

Lemma sjf_compare_lt_le (p1 p2 p3 : process) :
  sjf_compare p1 p2 <> Gt -> sjf_compare p2 p3 <> Gt ->
  sjf_compare p1 p3 <> Gt /\
  (sjf_compare p1 p2 = Lt \/ sjf_compare p2 p3 = Lt -> sjf_compare p1 p3 = Lt).
Proof.
  unfold sjf_compare. intros H12 H23.
  set (s1 := service_time (pProgram p1)) in *.
  set (s2 := service_time (pProgram p2)) in *.
  set (s3 := service_time (pProgram p3)) in *.
  set (a1 := time_arrived (pProgram p1)) in *.
  set (a2 := time_arrived (pProgram p2)) in *.
  set (a3 := time_arrived (pProgram p3)) in *.
  assert (Hs12 : (s1 ?= s2) <> Gt) by (destruct (s1 ?= s2); congruence).
  assert (Hs23 : (s2 ?= s3) <> Gt) by (destruct (s2 ?= s3); congruence).
  destruct (Z_compare_lt_le s1 s2 s3 Hs12 Hs23) as (Hsle & Hslt).
  destruct (s1 ?= s2) eqn:E12; try congruence;
  destruct (s2 ?= s3) eqn:E23; try congruence;
    try (rewrite Hslt by auto; split; [congruence | trivial]).
  apply Z.compare_eq in E12, E23.
  replace (s1 ?= s3) with Eq by (symmetry; apply Z.compare_eq_iff; lia).
  assert (Ha12 : (a1 ?= a2) <> Gt) by (destruct (a1 ?= a2); congruence).
  assert (Ha23 : (a2 ?= a3) <> Gt) by (destruct (a2 ?= a3); congruence).
  destruct (Z_compare_lt_le a1 a2 a3 Ha12 Ha23) as (Hale & Halt).
  destruct (a1 ?= a2) eqn:A12; try congruence;
  destruct (a2 ?= a3) eqn:A23; try congruence;
    try (rewrite Halt by auto; split; [congruence | trivial]).
  apply Z.compare_eq in A12, A23.
  replace (a1 ?= a3) with Eq by (symmetry; apply Z.compare_eq_iff; lia).
  now apply string_compare_lt_le.
Qed.

(** [strcmp] on C strings agrees with the lexicographic order. *)
Lemma strcmp_compare (s1 : string) :
  forall s2, no_nul s1 -> no_nul s2 ->
  match String.compare s1 s2 with
  | Eq => strcmp s1 s2 = 0
  | Lt => strcmp s1 s2 < 0
  | Gt => 0 < strcmp s1 s2
  end.
Proof.
  assert (Hpos : forall c, c <> zero -> 0 < Z.of_nat (nat_of_ascii c)).
  { intros c Hc. destruct (nat_of_ascii c) eqn:E; [|lia].
    exfalso. apply Hc. rewrite <- (ascii_nat_embedding c), E. reflexivity. }
  induction s1 as [|c1 s1 IH]; intros [|c2 s2]; simpl; trivial.
  - intros _ (Hc & _). specialize (Hpos c2 Hc). lia.
  - intros (Hc & _) _. now apply Hpos.
  - intros (Hc1 & H1) (Hc2 & H2).
    unfold Ascii.compare. rewrite N2Nat.inj_compare.
    fold (nat_of_ascii c1). fold (nat_of_ascii c2).
    destruct (Ascii.eqb c1 c2) eqn:E.
    + apply Ascii.eqb_eq in E. subst c2. rewrite Nat.compare_refl.
      destruct (Ascii.eqb c1 zero) eqn:Ez.
      * apply Ascii.eqb_eq in Ez. contradiction.
      * apply IH; trivial.
    + destruct (Nat.compare_spec (nat_of_ascii c1) (nat_of_ascii c2)) as [H|H|H];
        try lia.
      exfalso. apply Ascii.eqb_neq in E. apply E.
      rewrite <- (ascii_nat_embedding c1), <- (ascii_nat_embedding c2).
      now rewrite H.
Qed.

(** The test by which the scan replaces [pChosen] is "strictly before". *)
Lemma sjf_take (x cp : process) :
  named x -> named cp ->
  (if service_time (pProgram cp) =? service_time (pProgram x) then
     if time_arrived (pProgram cp) =? time_arrived (pProgram x) then
       0 <? strcmp (name (pProgram cp)) (name (pProgram x))
     else time_arrived (pProgram x) <? time_arrived (pProgram cp)
   else service_time (pProgram x) <? service_time (pProgram cp)) =
  match sjf_compare x cp with Lt => true | _ => false end.
Proof.
  intros Hx Hcp. unfold sjf_compare.
  destruct (Z.compare_spec (service_time (pProgram x))
                           (service_time (pProgram cp))) as [E|E|E].
  - rewrite E, Z.eqb_refl.
    destruct (Z.compare_spec (time_arrived (pProgram x))
                             (time_arrived (pProgram cp))) as [A|A|A].
    + rewrite A, Z.eqb_refl.
      pose proof (strcmp_compare (name (pProgram cp)) (name (pProgram x))
                                 Hcp Hx) as H.
      rewrite (String.compare_antisym (name (pProgram cp))) in H.
      destruct (String.compare (name (pProgram x)) (name (pProgram cp)));
        simpl in H.
      * rewrite H. reflexivity.
      * apply Z.ltb_lt. lia.
      * apply Z.ltb_ge. lia.
    + replace (time_arrived (pProgram cp) =? time_arrived (pProgram x))
        with false by (symmetry; apply Z.eqb_neq; lia).
      apply Z.ltb_lt. lia.
    + replace (time_arrived (pProgram cp) =? time_arrived (pProgram x))
        with false by (symmetry; apply Z.eqb_neq; lia).
      apply Z.ltb_ge. lia.
  - replace (service_time (pProgram cp) =? service_time (pProgram x))
      with false by (symmetry; apply Z.eqb_neq; lia).
    apply Z.ltb_lt. lia.
  - replace (service_time (pProgram cp) =? service_time (pProgram x))
      with false by (symmetry; apply Z.eqb_neq; lia).
    apply Z.ltb_ge. lia.
Qed.

Lemma sjf_decide {T : Type} (x cp : process) (take keep : T) :
  named x -> named cp ->
  (if service_time (pProgram cp) =? service_time (pProgram x) then
     if time_arrived (pProgram cp) =? time_arrived (pProgram x) then
       if 0 <? strcmp (name (pProgram cp)) (name (pProgram x))
       then take else keep
     else if time_arrived (pProgram x) <? time_arrived (pProgram cp)
          then take else keep
   else if service_time (pProgram x) <? service_time (pProgram cp)
        then take else keep) =
  match sjf_compare x cp with Lt => take | _ => keep end.
Proof.
  intros Hx Hcp. pose proof (sjf_take x cp Hx Hcp) as H.
  destruct (service_time (pProgram cp) =? service_time (pProgram x)),
           (time_arrived (pProgram cp) =? time_arrived (pProgram x)),
           (sjf_compare x cp); rewrite H; reflexivity.
Qed.

Lemma sjf_compare_refl (p : process) : sjf_compare p p = Eq.
Proof.
  unfold sjf_compare. rewrite !Z.compare_refl. apply string_compare_refl.
Qed.

Lemma sjf_acc_take (pre : list process) (x : process)
    (chosen : option (nat * process)) (mt : Z) :
  sjf_acc pre chosen mt ->
  match chosen with
  | None => True
  | Some (_, cp) => sjf_compare x cp = Lt
  end ->
  sjf_acc (pre ++ [x]) (Some (List.length pre, x)) (service_time (pProgram x)).
Proof.
  intros Hacc Hlt. simpl. split; [apply nth_error_snoc|].
  split; [reflexivity|].
  destruct chosen as [(c, cp)|]; simpl in Hacc.
  - destruct Hacc as (Hn & Hmt & Hmin & Hfirst). split.
    + intros p Hin Hp. apply in_app_iff in Hin. destruct Hin as [Hin|[<-|[]]].
      * apply (Hmin p Hin).
        apply (sjf_compare_lt_le p x cp); auto; congruence.
      * rewrite sjf_compare_refl in Hp. discriminate.
    + intros j p Hj Hnj. rewrite nth_error_app1 in Hnj by trivial.
      assert (Hp : sjf_compare cp p <> Gt).
      { rewrite sjf_compare_antisym.
        pose proof (Hmin p (nth_error_In _ _ Hnj)).
        destruct (sjf_compare p cp); simpl; congruence. }
      apply (sjf_compare_lt_le x cp p); auto; congruence.
  - subst pre. split.
    + intros p [<-|[]]. rewrite sjf_compare_refl. discriminate.
    + intros j p Hj. simpl in Hj. lia.
Qed.

Lemma sjf_acc_keep (pre : list process) (x : process) (c : nat)
    (cp : process) (mt : Z) :
  sjf_acc pre (Some (c, cp)) mt -> sjf_compare x cp <> Lt ->
  sjf_acc (pre ++ [x]) (Some (c, cp)) mt.
Proof.
  simpl. intros (Hn & Hmt & Hmin & Hfirst) Hge.
  assert (Hc : (c < List.length pre)%nat) by (apply nth_error_Some; congruence).
  split; [rewrite nth_error_app1; trivial|]. split; trivial. split.
  - intros p Hin. apply in_app_iff in Hin. destruct Hin as [Hin|[<-|[]]]; auto.
  - intros j p Hj Hnj. rewrite nth_error_app1 in Hnj by lia. eauto.
Qed.

Lemma sjf_scan_acc (l : list process) :
  Forall named l ->
  forall pre chosen mt,
    match chosen with Some (_, cp) => named cp | None => True end ->
    sjf_acc pre chosen mt ->
    match sjf_scan l (List.length pre) chosen mt with
    | Some pos => exists cp, sjf_acc (pre ++ l) (Some (pos, cp))
                                     (service_time (pProgram cp))
    | None => pre ++ l = []
    end.
Proof.
  induction 1 as [|x l Hx Hl IH]; intros pre chosen mt Hnamed Hacc.
  - simpl. rewrite app_nil_r. destruct chosen as [(c, cp)|]; simpl in *; trivial.
    exists cp. destruct Hacc as (? & -> & ? & ?). auto.
  - replace (pre ++ x :: l) with ((pre ++ [x]) ++ l)
      by (rewrite <- app_assoc; reflexivity).
    assert (Hlen : S (List.length pre) = List.length (pre ++ [x])).
    { rewrite length_app. simpl. lia. }
    simpl sjf_scan. destruct chosen as [(c, cp)|].
    + pose proof Hacc as (_ & Hmt & _). rewrite Hmt.
      rewrite (sjf_decide x cp _ _ Hx Hnamed). rewrite Hlen.
      destruct (sjf_compare x cp) eqn:E.
      * apply IH; trivial. apply sjf_acc_keep; [now rewrite <- Hmt|congruence].
      * apply IH; trivial. apply (sjf_acc_take pre x (Some (c, cp)) mt); trivial.
      * apply IH; trivial. apply sjf_acc_keep; [now rewrite <- Hmt|congruence].
    + rewrite Hlen. apply IH; trivial.
      apply (sjf_acc_take pre x None mt); trivial.
Qed.

(** What [shortest_job_first] returns on a list of processes with proper
    names: nothing on the empty list, otherwise the position of the first of
    the least entries. *)
Lemma shortest_job_first_spec (l : list process) :
  Forall named l ->
  match shortest_job_first l with
  | Some pos =>
      exists chosen,
        nth_error l pos = Some chosen /\
        (forall p, In p l -> sjf_compare p chosen <> Lt) /\
        (forall j p, (j < pos)%nat -> nth_error l j = Some p ->
                     sjf_compare chosen p = Lt)
  | None => l = []
  end.
Proof.
  intros Hl. pose proof (sjf_scan_acc l Hl [] None 0 I eq_refl) as H.
  unfold shortest_job_first. simpl in H.
  destruct (sjf_scan l 0 None 0) as [pos|]; trivial.
  destruct H as (cp & Hn & _ & Hmin & Hfirst). now exists cp.
Qed.

(** The position returned is in the list, whatever the names. *)
Lemma sjf_scan_bound (l : list process) :
  forall pos0 chosen mt pos,
    sjf_scan l pos0 chosen mt = Some pos ->
    (exists cp, chosen = Some (pos, cp)) \/
    (pos0 <= pos < pos0 + List.length l)%nat.
Proof.
  induction l as [|x l IH]; intros pos0 chosen mt pos; simpl.
  - destruct chosen as [(c, cp)|]; simpl; [|discriminate].
    intros H. injection H as ->. left. now exists cp.
  - assert (Hstep : forall ch mt',
              sjf_scan l (S pos0) ch mt' = Some pos ->
              (ch = chosen \/ ch = Some (pos0, x)) ->
              (exists cp, chosen = Some (pos, cp)) \/
              (pos0 <= pos < pos0 + S (List.length l))%nat).
    { intros ch mt' H Hch. destruct (IH _ _ _ _ H) as [(cp & Hcp)|Hb].
      - destruct Hch as [->| ->].
        + left. now exists cp.
        + injection Hcp as -> _. right. lia.
      - right. lia. }
    destruct chosen as [(c, cp)|].
    + repeat match goal with
             | |- context [if ?b then _ else _] => destruct b
             end; intros H; eapply Hstep; eauto.
    + intros H; eapply Hstep; eauto.
Qed.

Lemma shortest_job_first_bound (l : list process) (pos : nat) :
  shortest_job_first l = Some pos -> (pos < List.length l)%nat.
Proof.
  intros H. destruct (sjf_scan_bound l 0 None 0 pos H) as [(cp & Hcp)|Hb].
  - discriminate.
  - lia.
Qed.

Lemma shortest_job_first_none (l : list process) :
  shortest_job_first l = None -> l = [].
Proof.
  unfold shortest_job_first. destruct l as [|x l]; trivial. simpl.
  assert (H : forall l pos0 c cp mt, sjf_scan l pos0 (Some (c, cp)) mt <> None).
  { clear. induction l as [|y l IH]; intros pos0 c cp mt; simpl; [discriminate|].
    repeat match goal with
           | |- context [if ?b then _ else _] => destruct b
           end; apply IH. }
  intros E. exfalso. eapply H; eauto.
Qed.

(** ** [switch_process] *)

Lemma deref_all_ok (m : manager) (l : list nat) :
  (forall p, In p l -> exists pr, nth_error (list_active m) p = Some pr) ->
  exists procs,
    deref_all m l = Ok procs /\
    Forall2 (fun p pr => nth_error (list_active m) p = Some pr) l procs.
Proof.
  induction l as [|p l IH]; intros H; simpl.
  - exists []. split; [reflexivity | constructor].
  - destruct (H p (or_introl eq_refl)) as (pr & Hn).
    destruct IH as (procs & -> & Hall); [intros p' Hp'; apply H; now right|].
    unfold deref. rewrite Hn. simpl. exists (pr :: procs).
    split; [reflexivity | now constructor].
Qed.

Lemma deref_all_inv (m : manager) (l : list nat) (procs : list process) :
  deref_all m l = Ok procs ->
  Forall2 (fun p pr => nth_error (list_active m) p = Some pr) l procs.
Proof.
  revert procs. induction l as [|p l IH]; intros procs; simpl.
  - intros H. injection H as <-. constructor.
  - unfold deref. destruct (nth_error (list_active m) p) as [pr|] eqn:E;
      simpl; [|discriminate].
    destruct (deref_all m l) as [others|]; simpl; [|discriminate].
    intros H. injection H as <-. constructor; auto.
Qed.

Lemma Forall2_nth_error {A B : Type} (R : A -> B -> Prop) (l : list A)
    (l' : list B) :
  Forall2 R l l' ->
  forall i b, nth_error l' i = Some b ->
              exists a, nth_error l i = Some a /\ R a b.
Proof.
  induction 1 as [|x y l l' Hxy _ IH]; intros [|i] b H; try discriminate.
  - injection H as <-. now exists x.
  - apply (IH i b H).
Qed.

Lemma list_pop_node_nodup {A : Type} (l : list A) (pos : nat) (x : A) :
  NoDup l -> nth_error l pos = Some x ->
  NoDup (list_pop_node l pos) /\ ~ In x (list_pop_node l pos) /\
  incl (list_pop_node l pos) l.
Proof.
  intros Hnd Hn. destruct (nth_error_split_at l pos x Hn) as (l1 & l2 & -> & <-).
  rewrite list_pop_node_app. split; [|split].
  - now apply NoDup_remove_1 in Hnd.
  - now apply NoDup_remove_2 in Hnd.
  - intros y Hy. apply in_app_iff in Hy. apply in_app_iff. simpl. tauto.
Qed.

Lemma list_pop_node_incl {A : Type} (l : list A) (pos : nat) :
  incl (list_pop_node l pos) l.
Proof.
  revert pos. induction l as [|x l IH]; intros [|pos]; simpl.
  - intros y [].
  - intros y [].
  - intros y Hy. now right.
  - intros y [<-|Hy]; [now left | right; now apply (IH pos)].
Qed.

Lemma set_nth_set_nth {A : Type} (l : list A) (p : nat) (x y : A) :
  set_nth (set_nth l p x) p y = set_nth l p y.
Proof.
  revert p. induction l as [|z l IH]; intros [|p]; simpl; trivial.
  now rewrite IH.
Qed.

(** What [process_run] does to the manager. *)
Lemma process_run_effect (m : manager) (p : nat) (pr : process) :
  nth_error (list_active m) p = Some pr ->
  exists m' pr',
    process_run m p = Ok m' /\
    list_active m' = set_nth (list_active m) p pr' /\
    pProgram pr' = pProgram pr /\ run_time pr' = run_time pr /\
    pBlock pr' = pBlock pr /\ state pr' = RUNNING /\
    list_ready m' = list_ready m /\
    pRunningProcess m' = pRunningProcess m /\
    allocator m' = allocator m /\ pPrograms m' = pPrograms m /\
    list_input m' = list_input m /\ time m' = time m /\ type m' = type m /\
    pending_count m' = pending_count m /\
    stdout m' =
      stdout m ++
      [(fmt_d (time m) ++ ",RUNNING,process_name=" ++ name (pProgram pr)
        ++ ",remaining_time="
        ++ fmt_d (u32 (service_time (pProgram pr) - run_time pr)) ++ nl)%string].
Proof.
  intros Hn. unfold process_run, deref. rewrite Hn. simpl.
  destruct (child_pid pr =? PID_NULL_HANDLE) eqn:E; simpl.
  - eexists _, (set_child_pid (set_state pr RUNNING) (Z.of_nat p + 1)).
    split; [reflexivity|]. simpl. rewrite set_nth_set_nth. conjs; trivial.
  - unfold process_continue, deref. simpl.
    rewrite (nth_error_set_nth_eq _ _ pr _ Hn). simpl.
    eexists _, (set_state pr RUNNING).
    split; [reflexivity|]. simpl. conjs; trivial.
Qed.

(** Once a node of the ready list is chosen, [switch_process] runs its
    process and unlinks the node. *)
Lemma switch_process_chosen (q : Z) (m : manager) (pos p : nat) :
  engine_invariant q m -> nth_error (list_ready m) pos = Some p ->
  exists m1 pr,
    nth_error (list_active m) p = Some pr /\
    process_run (set_pRunningProcess m (Some p)) p = Ok m1 /\
    engine_invariant q
      (set_list_ready m1 (list_pop_node (list_ready m1) pos)) /\
    advances q m (set_list_ready m1 (list_pop_node (list_ready m1) pos)) /\
    time m1 = time m /\ list_ready m1 = list_ready m /\
    pRunningProcess m1 = Some p /\
    (exists pr', nth_error (list_active m1) p = Some pr' /\
                 state pr' = RUNNING).
Proof.
  intros [Hready Hrun Hpool Hprogs Hinput Hproc] Hpos.
  destruct Hready as (Hnd & Hr).
  destruct (Hr p (nth_error_In _ _ Hpos)) as (pr & Hn & Hst).
  destruct (process_run_effect (set_pRunningProcess m (Some p)) p pr Hn)
    as (m1 & pr' & Hrun1 & Hact & Hprog & Hrt & Hblk & Hst' & Hrd & Hrn & Hal
        & Hpp & Hin & Htime & Htype & _).
  simpl in *. exists m1, pr. conjs; trivial.
  - destruct (list_pop_node_nodup _ pos p Hnd Hpos) as (Hnd' & Hnotin & Hincl).
    rewrite Forall_forall in Hproc.
    pose proof (Hproc pr (nth_error_In _ _ Hn)) as (Ho & Hu & Hrt0 & Hblk0).
    constructor; simpl.
    + split; simpl; rewrite Hrd; trivial.
      intros p' Hp'. destruct (Hr p' (Hincl p' Hp')) as (pr0 & Hn0 & Hst0).
      exists pr0. rewrite Hact, nth_error_set_nth_neq; [auto|].
      intros ->. contradiction.
    + intros r Hr0. simpl in Hr0. rewrite Hrn in Hr0. injection Hr0 as <-.
      exists pr'. simpl. rewrite Hact.
      now rewrite (nth_error_set_nth_eq _ _ pr _ Hn).
    + rewrite Hal. intros Hs. unfold held_blocks. simpl. rewrite Hact.
      rewrite (held_set_nth_same _ p pr); trivial. now apply Hpool.
    + now rewrite Hpp.
    + now rewrite Hin, Hpp.
    + rewrite Hact, Hpp, Hal. apply Forall_set_nth; [now apply Forall_forall|].
      unfold process_ok. rewrite Hprog, Hrt, Hblk, Hst'. conjs; trivial.
      * intros Ht0. destruct (Hrt0 Ht0) as (H1 & H2).
        split; trivial. intros _. apply H2. congruence.
      * destruct (strategy (allocator m)); trivial.
        split; [discriminate|]. intros Hnone. apply Hblk0 in Hnone. congruence.
  - eapply advances_store with (pr' := pr'); simpl; eauto.
    + now rewrite Hal.
    + rewrite Hrt. lia.
  - exists pr'. rewrite Hact. now rewrite (nth_error_set_nth_eq _ _ pr _ Hn).
Qed.

Lemma switch_process_invariant (q : Z) (m : manager) :
  engine_invariant q m ->
  exists m', switch_process m = Ok m' /\ engine_invariant q m' /\
             advances q m m' /\ time m' = time m.
Proof.
  intros Hinv. pose proof Hinv as [Hready Hrun Hpool Hprogs Hinput Hproc].
  unfold switch_process.
  assert (Hsel : exists pReady,
            match type m with
            | SJF => ready <- deref_all m (list_ready m) ;;
                     Ok (shortest_job_first ready)
            | RR => Ok (round_robin (list_ready m))
            end = Ok pReady /\
            match pReady with
            | Some pos => (pos < List.length (list_ready m))%nat
            | None => True
            end).
  { destruct (type m).
    - destruct (deref_all_ok m (list_ready m)) as (procs & -> & Hall).
      + intros p Hp. destruct Hready as (_ & Hr).
        destruct (Hr p Hp) as (pr & Hn & _). now exists pr.
      + simpl. eexists. split; [reflexivity|].
        destruct (shortest_job_first procs) as [pos|] eqn:E; trivial.
        apply shortest_job_first_bound in E.
        now rewrite (Forall2_length Hall).
    - eexists. split; [reflexivity|].
      destruct (list_ready m); simpl; trivial. lia. }
  destruct Hsel as (pReady & -> & Hb). simpl.
  destruct pReady as [pos|].
  - destruct (nth_error (list_ready m) pos) as [p|] eqn:Epos.
    2:{ apply nth_error_None in Epos. lia. }
    simpl.
    destruct (switch_process_chosen q m pos p Hinv Epos)
      as (m1 & pr & _ & -> & Hi & Ha & Ht & _). simpl.
    eexists. split; [reflexivity|]. conjs; trivial.
  - exists m. conjs; trivial. apply advances_refl.
Qed.

(** ** [update] *)

Ltac mgr :=
  unfold store, emit, printf, set_time, set_pPrograms, set_pending_count,
    set_pending_index, set_list_input, set_list_active, set_list_ready,
    set_pRunningProcess, set_allocator; simpl.

Lemma update_invariant (tie : tie_rule) (sha : string -> string) (q : Z)
    (m : manager) :
  in_u32 q -> engine_invariant q m ->
  exists m', update tie sha m q = Ok m' /\ engine_invariant q m' /\
             advances q m m' /\ time m' = u32 (time m + q).
Proof.
  intros Hq Hinv. pose proof Hinv as [Hready Hrun Hpool Hprogs Hinput Hproc].
  unfold update. simpl.
  destruct (pRunningProcess m) as [r|] eqn:Er.
  2:{ eexists. split; [reflexivity|]. conjs; trivial.
      - apply (invariant_quiet q m); trivial.
      - apply advances_same; trivial. }
  destruct (Hrun r Er) as (pr & Hn & Hst).
  unfold deref. simpl. rewrite Hn. simpl.
  assert (Hnotin : ~ In r (list_ready m)).
  { intros Hin. destruct Hready as (_ & Hr).
    destruct (Hr r Hin) as (pr0 & Hn0 & Hst0). congruence. }
  assert (Hready' : forall l pr', l = set_nth (list_active m) r pr' ->
            NoDup (list_ready m) /\
            forall p, In p (list_ready m) ->
                      exists pr0, nth_error l p = Some pr0 /\ state pr0 = READY).
  { intros l pr' ->. destruct Hready as (Hnd & Hr). split; trivial.
    intros p Hp. destruct (Hr p Hp) as (pr0 & Hn0 & Hst0). exists pr0.
    rewrite nth_error_set_nth_neq; [auto|]. intros ->. contradiction. }
  rewrite Forall_forall in Hproc.
  pose proof (Hproc pr (nth_error_In _ _ Hn)) as (Ho & Hu & Hrt & Hblk).
  pose proof (u32_range (run_time pr + q)) as Hrange.
  assert (Hnowrap : timed q (pProgram pr) ->
                    u32 (run_time pr + q) = run_time pr + q).
  { intros Ht. destruct (Hrt Ht) as (_ & H2). destruct Ht as (_ & Ht).
    apply u32_small. unfold in_u32 in *.
    assert (run_time pr < service_time (pProgram pr)) by (apply H2; congruence).
    lia. }
  destruct (service_time (pProgram pr) <=? u32 (run_time pr + q)) eqn:Efin.
  - (* the process finishes *)
    unfold process_terminate, deref. simpl.
    rewrite (nth_error_set_nth_eq _ _ pr _ Hn). mgr.
    rewrite set_nth_set_nth.
    set (fin := set_state (set_sha_buf (set_run_time pr (u32 (run_time pr + q)))
                                       (sha (name (pProgram pr)))) FINISHED).
    destruct (strategy (allocator m)) eqn:Es.
    + (* unbounded memory *)
      unfold deref. mgr. rewrite (nth_error_set_nth_eq _ _ pr _ Hn). mgr.
      eexists. split; [reflexivity|]. conjs; simpl; trivial.
      * constructor; simpl; trivial.
        -- apply (Hready' _ fin eq_refl).
        -- intros r0 H0. discriminate.
        -- rewrite Es. discriminate.
        -- rewrite Es. apply Forall_set_nth; [now apply Forall_forall|].
           unfold process_ok, fin. simpl. conjs; trivial.
           intros Ht. rewrite (Hnowrap Ht). destruct (Hrt Ht) as (_ & H2).
           split; [|congruence].
           assert (run_time pr < service_time (pProgram pr))
             by (apply H2; congruence).
           lia.
      * eapply advances_store with (pr' := fin); simpl; eauto.
        intros Ht. rewrite (Hnowrap Ht). unfold in_u32 in Hq. lia.
    + (* best fit: the block goes back to the free list *)
      destruct (pBlock pr) as [b|] eqn:Eb.
      2:{ exfalso. destruct Hblk as (_ & Hblk). specialize (Hblk eq_refl).
          congruence. }
      unfold free_memory_of, deref. mgr.
      rewrite (nth_error_set_nth_eq _ _ pr _ Hn). mgr. rewrite Eb. mgr.
      rewrite set_nth_set_nth, (nth_error_set_nth_eq _ _ pr _ Hn). mgr.
      eexists. split; [reflexivity|]. conjs; simpl; trivial.
      * constructor; simpl; trivial.
        -- apply (Hready' _ (set_pBlock fin None) eq_refl).
        -- intros r0 H0. discriminate.
        -- intros _. unfold held_blocks. simpl.
           apply (pool_invariant_release tie _ (held_blocks m)); auto.
           apply (held_set_nth_free _ r pr); trivial.
        -- rewrite Es. apply Forall_set_nth; [now apply Forall_forall|].
           unfold process_ok, fin. simpl. conjs; trivial; [|tauto].
           intros Ht. rewrite (Hnowrap Ht). destruct (Hrt Ht) as (_ & H2).
           split; [|congruence].
           assert (run_time pr < service_time (pProgram pr))
             by (apply H2; congruence).
           lia.
      * eapply advances_store with (pr' := set_pBlock fin None); simpl; eauto.
        intros Ht. rewrite (Hnowrap Ht). unfold in_u32 in Hq. lia.
  - (* the process goes on *)
    apply Z.leb_gt in Efin. mgr.
    eexists. split; [reflexivity|]. conjs; simpl; trivial.
    + constructor; simpl; trivial.
      * apply (Hready' _ (set_run_time pr (u32 (run_time pr + q))) eq_refl).
      * intros r0 H0. simpl in H0. rewrite Er in H0. injection H0 as <-.
        eexists. simpl. rewrite (nth_error_set_nth_eq _ _ pr _ Hn).
        split; eauto.
      * intros Hs. unfold held_blocks. simpl.
        rewrite (held_set_nth_same _ r pr); trivial. now apply Hpool.
      * apply Forall_set_nth; [now apply Forall_forall|].
        unfold process_ok. simpl. conjs; trivial.
        intros Ht. unfold in_u32 in Hq. split; [lia | intros _; lia].
    + eapply advances_store
        with (pr' := set_run_time pr (u32 (run_time pr + q))); simpl; eauto.
      intros Ht. rewrite (Hnowrap Ht). unfold in_u32 in Hq. lia.
Qed.

(** ** [check_pending] *)

Lemma nth_error_app_length {A : Type} (l : list A) (x : A) (l' : list A) :
  nth_error (l ++ x :: l') (List.length l) = Some x.
Proof. induction l; simpl; auto. Qed.

(** What [enlist_process] does to the manager: it cannot fail. *)
Lemma enlist_process_effect (m : manager) (pr : process) :
  exists m',
    enlist_process m pr = Ok m' /\
    list_active m' = list_active m ++ [set_state pr READY] /\
    list_ready m' = list_ready m ++ [List.length (list_active m)] /\
    pRunningProcess m' = pRunningProcess m /\
    allocator m' = allocator m /\ pPrograms m' = pPrograms m /\
    list_input m' = list_input m /\ time m' = time m /\ type m' = type m /\
    pending_count m' = pending_count m /\
    pending_index m' = pending_index m /\
    workers m' = workers m /\
    stdout m' =
      stdout m ++
      match pBlock pr with
      | Some b =>
          [(fmt_d (time m) ++ ",READY,process_name=" ++ name (pProgram pr)
            ++ ",assigned_at=" ++ fmt_d (index b) ++ nl)%string]
      | None => []
      end.
Proof.
  unfold enlist_process, process_submit_ready, deref, list_insert_tail. mgr.
  rewrite nth_error_app_length. mgr.
  replace (set_nth (list_active m ++ [pr]) (List.length (list_active m))
                   (set_state pr READY))
    with (list_active m ++ [set_state pr READY]) by (now rewrite set_nth_app).
  destruct (pBlock pr) as [b|] eqn:Eb.
  - rewrite nth_error_app_length. unfold process_log. mgr. rewrite Eb. mgr.
    eexists. split; [reflexivity|]. simpl. conjs; trivial.
  - eexists. split; [reflexivity|]. simpl. conjs; trivial.
    now rewrite app_nil_r.
Qed.

(** What [process_try_create] answers under the invariant. *)
Lemma process_try_create_cases (q : Z) (m : manager) (prog : program) :
  engine_invariant q m -> program_ok prog ->
  (exists blk a,
     process_try_create m prog =
       Ok (Some (mk_process prog 0 READY blk PID_NULL_HANDLE EmptyString),
           set_allocator m a) /\
     strategy a = strategy (allocator m) /\
     match strategy (allocator m) with
     | BEST_FIT =>
         exists b, blk = Some b /\
                   pool_invariant (free_list a) (b :: held_blocks m)
     | INFINITE => blk = None /\ a = allocator m
     end) \/
  (process_try_create m prog = Ok (None, m) /\
   strategy (allocator m) = BEST_FIT).
Proof.
  intros [_ _ Hpool _ _ _] (_ & _ & Hmem). unfold process_try_create.
  destruct (allocator m) as [fl s] eqn:Ea. simpl in *. destruct s.
  - left. exists None, (allocator m). rewrite Ea. split; [|simpl; auto].
    f_equal. f_equal. destruct m. simpl in *. now subst.
  - specialize (Hpool eq_refl).
    assert (Hsz : in_u32 (memory_required prog)) by (unfold in_u32; lia).
    destruct (pool_invariant_allocate fl (held_blocks m) _ Hpool Hsz)
      as (granted & fl' & -> & _ & H). simpl.
    destruct granted as [b|].
    + left. exists (Some b), (mk_allocator fl' BEST_FIT).
      split; [reflexivity|]. split; [reflexivity|].
      exists b. split; [reflexivity | apply H].
    + right. auto.
Qed.

Lemma invariant_enlist (q : Z) (m m' : manager) (prog : program)
    (blk : option memory_block) (a : memory_allocator) :
  in_u32 q ->
  engine_invariant q m -> In prog (pPrograms m) ->
  strategy a = strategy (allocator m) ->
  match strategy (allocator m) with
  | BEST_FIT => exists b, blk = Some b /\
                          pool_invariant (free_list a) (b :: held_blocks m)
  | INFINITE => blk = None /\ a = allocator m
  end ->
  list_active m' =
    list_active m ++ [mk_process prog 0 READY blk PID_NULL_HANDLE EmptyString] ->
  list_ready m' = list_ready m ++ [List.length (list_active m)] ->
  pRunningProcess m' = pRunningProcess m -> allocator m' = a ->
  pPrograms m' = pPrograms m -> incl (list_input m') (list_input m) ->
  engine_invariant q m'.
Proof.
  intros Hq [Hready Hrun Hpool Hprogs Hinput Hproc] Hin Hs Hblk Ha Hr Hrn Hal Hp Hi.
  destruct Hready as (Hnd & Hrdy).
  assert (Hvalid : forall p, In p (list_ready m) ->
                             (p < List.length (list_active m))%nat).
  { intros p Hp0. destruct (Hrdy p Hp0) as (pr0 & Hn0 & _).
    apply nth_error_Some. congruence. }
  constructor.
  - split; rewrite Hr.
    + apply NoDup_rev in Hnd.
      rewrite <- (rev_involutive (list_ready m ++ _)).
      apply NoDup_rev. rewrite rev_app_distr. simpl.
      constructor; trivial. rewrite <- in_rev. intros H0.
      specialize (Hvalid _ H0). lia.
    + intros p Hp0. rewrite Ha. apply in_app_iff in Hp0.
      destruct Hp0 as [Hp0|[<-|[]]].
      * destruct (Hrdy p Hp0) as (pr0 & Hn0 & Hst0). exists pr0.
        rewrite nth_error_app1 by auto. auto.
      * eexists. rewrite nth_error_app_length. split; reflexivity.
  - intros r Hr0. rewrite Hrn in Hr0. destruct (Hrun r Hr0) as (pr0 & Hn0 & Hst0).
    exists pr0. rewrite Ha, nth_error_app1; [auto|].
    apply nth_error_Some. congruence.
  - rewrite Hal. intros Hs'. rewrite Hs' in Hs. rewrite <- Hs in Hblk.
    destruct Hblk as (b & -> & Hpl). unfold held_blocks. rewrite Ha.
    rewrite flat_map_app. simpl. apply (pool_invariant_perm _ (b :: held_blocks m)).
    + change (b :: held_blocks m) with ([b] ++ held_blocks m).
      apply Permutation_app_comm.
    + exact Hpl.
  - now rewrite Hp.
  - rewrite Hp. intros x Hx. apply Hinput, Hi, Hx.
  - rewrite Ha, Hp, Hal, Hs. apply Forall_app. split; trivial.
    constructor; [|constructor]. unfold process_ok. simpl. conjs; trivial.
    + unfold in_u32. lia.
    + intros (H1 & H2). unfold in_u32 in Hq. split; [lia | intros _; lia].
    + destruct (strategy (allocator m)).
      * apply Hblk.
      * destruct Hblk as (b & -> & _). split; discriminate.
Qed.

Lemma advances_app (q : Z) (m m' : manager) (l : list process) :
  pPrograms m' = pPrograms m -> type m' = type m ->
  strategy (allocator m') = strategy (allocator m) ->
  list_active m' = list_active m ++ l -> advances q m m'.
Proof.
  intros Hp Ht Hs Ha. unfold advances. conjs; trivial.
  intros p pr H. exists pr. rewrite Ha. conjs; trivial; [|lia].
  rewrite nth_error_app1; trivial. apply nth_error_Some. congruence.
Qed.

Lemma pending_scan_invariant (q : Z) (nodes : list program) :
  in_u32 q ->
  forall m pos,
    engine_invariant q m -> incl nodes (pPrograms m) ->
    exists m', pending_scan m pos nodes = Ok m' /\ engine_invariant q m' /\
               advances q m m' /\ time m' = time m /\
               pRunningProcess m' = pRunningProcess m.
Proof.
  intros Hq. induction nodes as [|prog rest IH]; intros m pos Hinv Hincl; simpl.
  - exists m. conjs; trivial. apply advances_refl.
  - assert (Hin : In prog (pPrograms m)) by (apply Hincl; now left).
    assert (Hrest : incl rest (pPrograms m))
      by (intros x Hx; apply Hincl; now right).
    assert (Hok : program_ok prog).
    { destruct Hinv as [_ _ _ Hprogs _ _]. rewrite Forall_forall in Hprogs. auto. }
    destruct (process_try_create_cases q m prog Hinv Hok)
      as [(blk & a & -> & Hs & Hblk)|(-> & _)]; simpl.
    + destruct (enlist_process_effect (set_allocator m a)
                  (mk_process prog 0 READY blk PID_NULL_HANDLE EmptyString))
        as (m2 & -> & Ha & Hr & Hrn & Hal & Hp & Hi & Ht & Hty & _).
      simpl in *.
      set (m3 := set_list_input m2 (list_pop_node (list_input m2) pos)).
      assert (Hinv3 : engine_invariant q m3).
      { apply (invariant_enlist q m m3 prog blk a); trivial.
        simpl. rewrite Hi. apply list_pop_node_incl. }
      destruct (IH m3 pos Hinv3) as (m' & -> & Hinv' & Hadv & Htime & Hrun).
      { simpl. now rewrite Hp. }
      exists m'. conjs; trivial.
      * eapply advances_trans; [|exact Hadv].
        eapply advances_app; simpl; eauto. now rewrite Hal.
      * simpl in Htime. congruence.
      * simpl in Hrun. congruence.
    + apply IH; trivial.
Qed.

(** The first loop of [check_pending] moves a prefix of the programs not
    yet seen to the tail of the input list; it stops at the first program
    that has not arrived. *)
Lemma pending_arrivals_effect (progs : list program) :
  forall m,
  exists moved rest,
    progs = moved ++ rest /\
    Forall (fun p => time_arrived p <= time m) moved /\
    match rest with
    | [] => True
    | p :: _ => time m < time_arrived p
    end /\
    list_input (pending_arrivals m progs) = list_input m ++ moved /\
    pending_index (pending_arrivals m progs) =
      (pending_index m + List.length moved)%nat /\
    list_active (pending_arrivals m progs) = list_active m /\
    list_ready (pending_arrivals m progs) = list_ready m /\
    pRunningProcess (pending_arrivals m progs) = pRunningProcess m /\
    allocator (pending_arrivals m progs) = allocator m /\
    pPrograms (pending_arrivals m progs) = pPrograms m /\
    time (pending_arrivals m progs) = time m /\
    type (pending_arrivals m progs) = type m /\
    stdout (pending_arrivals m progs) = stdout m.
Proof.
  induction progs as [|p progs IH]; intros m; simpl.
  - exists [], []. simpl. rewrite app_nil_r, Nat.add_0_r. conjs; trivial.
  - destruct (time m <? time_arrived p) eqn:E.
    + apply Z.ltb_lt in E. exists [], (p :: progs). simpl.
      rewrite app_nil_r, Nat.add_0_r. conjs; trivial.
    + apply Z.ltb_ge in E.
      match goal with |- context [pending_arrivals ?m1 progs] =>
        destruct (IH m1) as (moved & rest & -> & Hall & Hrest & Hi & Hx & H)
      end.
      simpl in *. exists (p :: moved), rest. rewrite Hi, Hx.
      unfold list_insert_tail. rewrite <- app_assoc. simpl.
      conjs; trivial; try apply H; try (now constructor); try lia.
Qed.

Lemma skipn_incl {A : Type} (l : list A) (n : nat) : incl (skipn n l) l.
Proof.
  intros x Hx. rewrite <- (firstn_skipn n l). apply in_app_iff. now right.
Qed.

Lemma check_pending_invariant (q : Z) (m : manager) :
  in_u32 q -> engine_invariant q m ->
  exists m', check_pending m = Ok m' /\ engine_invariant q m' /\
             advances q m m' /\ time m' = time m /\
             pRunningProcess m' = pRunningProcess m.
Proof.
  intros Hq Hinv. unfold check_pending.
  destruct (pending_arrivals_effect (skipn (pending_index m) (pPrograms m)) m)
    as (moved & rest & Hsplit & _ & _ & Hi & _ & Ha & Hr & Hrn & Hal & Hp
        & Ht & Hty & _).
  set (m1 := pending_arrivals m (skipn (pending_index m) (pPrograms m))) in *.
  assert (Hmoved : incl moved (pPrograms m)).
  { intros x Hx. apply (skipn_incl (pPrograms m) (pending_index m)).
    rewrite Hsplit. apply in_app_iff. now left. }
  assert (Hinv1 : engine_invariant q m1).
  { destruct Hinv as [H1 H2 H3 H4 H5 H6].
    constructor; unfold ready_ok, running_ok, held_blocks in *;
      rewrite ?Ha, ?Hr, ?Hrn, ?Hal, ?Hp; trivial.
    rewrite Hi. intros x Hx. apply in_app_iff in Hx. destruct Hx; auto. }
  destruct (pending_scan_invariant q (list_input m1) Hq m1 0 Hinv1)
    as (m' & -> & Hinv' & Hadv & Htime & Hrun).
  { destruct Hinv1 as [_ _ _ _ H5 _]. exact H5. }
  exists m'. conjs; trivial; try congruence.
  eapply advances_trans; [|exact Hadv].
  apply advances_same; trivial. now rewrite Hal.
Qed.

(** ** One iteration of the execution loop *)

Lemma step_invariant (tie : tie_rule) (sha : string -> string) (q : Z)
    (m : manager) :
  in_u32 q -> engine_invariant q m ->
  exists m', step tie sha q m = Ok m' /\ engine_invariant q m' /\
             advances q m m' /\ time m' = u32 (time m + q).
Proof.
  intros Hq Hinv. unfold step.
  destruct (check_pending_invariant q m Hq Hinv)
    as (m1 & -> & Hinv1 & Hadv1 & Ht1 & _). simpl.
  destruct (keep_process_running_invariant q m1 Hinv1)
    as (keep & m2 & -> & Hinv2 & Hadv2 & Ht2 & _). simpl.
  assert (H3 : exists m3, (if keep then Ok m2 else switch_process m2) = Ok m3 /\
                          engine_invariant q m3 /\ advances q m2 m3 /\
                          time m3 = time m2).
  { destruct keep.
    - exists m2. conjs; trivial. apply advances_refl.
    - apply switch_process_invariant, Hinv2. }
  destruct H3 as (m3 & -> & Hinv3 & Hadv3 & Ht3). simpl.
  destruct (update_invariant tie sha q m3 Hq Hinv3)
    as (m4 & -> & Hinv4 & Hadv4 & Ht4).
  exists m4. conjs; trivial.
  - eauto using advances_trans.
  - congruence.
Qed.

Lemma boot_effect (t : SCHEDULER_TYPE) (s : MEMORY_STRATEGY)
    (progs : list program) :
  boot t s progs =
  mk_manager 0 progs 0 t 0 [] [] [] None (allocator_initialise s) [] [].
Proof.
  unfold boot, process_manager_initialise.
  assert (H : forall l l0,
            fold_left program_add l
              (mk_manager 0 l0 0 t 0 [] [] [] None (allocator_initialise s) [] [])
            = mk_manager 0 (l0 ++ l) 0 t 0 [] [] [] None
                         (allocator_initialise s) [] []).
  { induction l as [|p l IH]; intros l0; simpl.
    - now rewrite app_nil_r.
    - unfold program_add at 2. mgr. rewrite IH, <- app_assoc. reflexivity. }
  apply (H progs []).
Qed.

Lemma boot_invariant (q : Z) (t : SCHEDULER_TYPE) (s : MEMORY_STRATEGY)
    (progs : list program) :
  Forall program_ok progs -> engine_invariant q (boot t s progs).
Proof.
  intros Hprogs. rewrite boot_effect. constructor; simpl; trivial.
  - split; simpl; [constructor | intros p []].
  - intros r H. discriminate.
  - intros Hs. destruct s; [discriminate|]. apply pool_invariant_init.
  - intros x [].
Qed.

Lemma reachable_invariant (tie : tie_rule) (sha : string -> string) (q : Z)
    (m0 m : manager) :
  in_u32 q -> engine_invariant q m0 ->
  reachable tie sha q m0 m -> engine_invariant q m /\ advances q m0 m.
Proof.
  intros Hq H0. induction 1 as [|m m' Hreach (IH & IHadv) Hstep].
  - split; [trivial | apply advances_refl].
  - destruct (step_invariant tie sha q m Hq IH) as (m'' & E & Hinv & Hadv & _).
    rewrite Hstep in E. injection E as <-.
    split; [trivial | eauto using advances_trans].
Qed.

(** ** The pool in the reachable states *)

Lemma owned_blocks_held (q : Z) (m : manager) :
  strategy (allocator m) = BEST_FIT -> engine_invariant q m ->
  owned_blocks m = held_blocks m.
Proof.
  intros Hs [_ _ _ _ _ Hproc]. rewrite Hs in Hproc.
  unfold owned_blocks, held_blocks.
  induction Hproc as [|pr l (_ & _ & _ & Hblk) _ IH]; simpl; trivial.
  rewrite IH. f_equal. destruct (state pr); trivial.
  unfold block_list. destruct Hblk as (Hblk & _). now rewrite Hblk.
Qed.

Lemma reachable_pool (tie : tie_rule) (sha : string -> string) (q : Z)
    (t : SCHEDULER_TYPE) (progs : list program) (m : manager) :
  in_u32 q -> Forall program_ok progs ->
  reachable tie sha q (boot t BEST_FIT progs) m ->
  pool_invariant (free_list (allocator m)) (owned_blocks m).
Proof.
  intros Hq Hprogs Hreach.
  destruct (reachable_invariant tie sha q _ m Hq
              (boot_invariant q t BEST_FIT progs Hprogs) Hreach)
    as (Hinv & _ & _ & Hs & _).
  rewrite boot_effect in Hs. simpl in Hs.
  rewrite (owned_blocks_held q m Hs Hinv). now apply (inv_pool q m Hinv).
Qed.

Lemma pool_reached_invariant (tie : tie_rule) (fl held : list memory_block) :
  pool_reached tie fl held -> pool_invariant fl held.
Proof.
  intros [H|(sha & q & t & progs & m & Hq & Hprogs & Hreach & -> & ->)].
  - apply (pool_reachable_invariant tie (fl, held) H).
  - eapply reachable_pool; eauto.
Qed.

(** C3 (conservation and no overlap). In every reachable state under best
    fit, the sizes of the free blocks and of the blocks owned by the
    processes that have not finished add up to the capacity of the pool,
    and no two of these blocks overlap. *)
Theorem pool_partition (tie : tie_rule) (fl held : list memory_block) :
  pool_reached tie fl held ->
  sum_sizes fl + sum_sizes held = BUFFER_SIZE /\ disjoint (fl ++ held).
Proof.
  intros H. apply pool_reached_invariant in H. split.
  - apply (pool_sum fl held H).
  - now apply pool_invariant_disjoint.
Qed.

Lemma pool_partition_witness :
  sum_sizes [mk_block 1500 548] + sum_sizes [mk_block 0 1500] = BUFFER_SIZE /\
  disjoint ([mk_block 1500 548] ++ [mk_block 0 1500]).
Proof.
  apply (pool_partition NewAfterEqual). right.
  exists (fun _ => EmptyString), 3, RR,
    [mk_program "P1" 0 6 1500; mk_program "P2" 0 6 600].
  eexists. split; [unfold in_u32; lia|]. split.
  - repeat constructor; simpl; unfold in_u32; lia.
  - split; [|split].
    + eapply reach_step; [apply reach_boot|]. vm_compute. reflexivity.
    + reflexivity.
    + reflexivity.
Defined.

(** ** Allocation followed by release *)









(** ** Run-time and termination *)

(** When the run-time of the running process reaches its service time,
    [update] terminates the process before it returns. *)
Lemma update_finishes (tie : tie_rule) (sha : string -> string)
    (m m' : manager) (q : Z) (r : nat) (pr : process) :
  pRunningProcess m = Some r -> nth_error (list_active m) r = Some pr ->
  service_time (pProgram pr) <= u32 (run_time pr + q) ->
  update tie sha m q = Ok m' ->
  pRunningProcess m' = None /\
  exists pr', nth_error (list_active m') r = Some pr' /\
              state pr' = FINISHED /\ pProgram pr' = pProgram pr /\
              run_time pr' = u32 (run_time pr + q).
Proof.
  intros Hr Hn Hfin. unfold update. mgr. rewrite Hr.
  unfold deref. mgr. rewrite Hn. mgr.
  apply Z.leb_le in Hfin. rewrite Hfin.
  unfold process_terminate, deref. mgr.
  rewrite (nth_error_set_nth_eq _ _ pr _ Hn). mgr. rewrite set_nth_set_nth.
  destruct (strategy (allocator m)).
  - unfold deref. mgr. rewrite (nth_error_set_nth_eq _ _ pr _ Hn). mgr.
    intros H. injection H as <-. simpl. split; trivial.
    eexists. rewrite (nth_error_set_nth_eq _ _ pr _ Hn). split; [reflexivity|].
    simpl. auto.
  - unfold free_memory_of, deref. mgr.
    rewrite (nth_error_set_nth_eq _ _ pr _ Hn). mgr.
    destruct (pBlock pr) as [b|]; mgr; [|discriminate].
    rewrite set_nth_set_nth, (nth_error_set_nth_eq _ _ pr _ Hn). mgr.
    intros H. injection H as <-. simpl. split; trivial.
    eexists. rewrite (nth_error_set_nth_eq _ _ pr _ Hn). split; [reflexivity|].
    simpl. auto.
Qed.

(** C7 (run-time), as the code has it. For programs with a positive service
    time that stays a [uint32_t] when a quantum is added: in every reachable
    state the run-time of a process is not negative and less than one
    quantum above its service time, and a process whose run-time has
    reached its service time is [FINISHED]; across a step no run-time
    decreases; and [update] terminates, before it returns, the running
    process whose run-time reaches its service time. *)
Theorem run_time_bounds (tie : tie_rule) (sha : string -> string) (q : Z)
    (t : SCHEDULER_TYPE) (s : MEMORY_STRATEGY) (progs : list program)
    (m : manager) :
  in_u32 q -> Forall program_ok progs -> Forall (timed q) progs ->
  reachable tie sha q (boot t s progs) m ->
  (forall pr, In pr (list_active m) ->
     0 <= run_time pr < service_time (pProgram pr) + q /\
     (service_time (pProgram pr) <= run_time pr -> state pr = FINISHED)) /\
  (forall m', step tie sha q m = Ok m' ->
     forall p pr, nth_error (list_active m) p = Some pr ->
       exists pr', nth_error (list_active m') p = Some pr' /\
                   pProgram pr' = pProgram pr /\
                   run_time pr <= run_time pr') /\
  (forall m3 m' r pr,
     pRunningProcess m3 = Some r -> nth_error (list_active m3) r = Some pr ->
     service_time (pProgram pr) <= u32 (run_time pr + q) ->
     update tie sha m3 q = Ok m' ->
     pRunningProcess m' = None /\
     exists pr', nth_error (list_active m') r = Some pr' /\
                 state pr' = FINISHED).
Proof.
  intros Hq Hprogs Htimed Hreach.
  destruct (reachable_invariant tie sha q _ m Hq
              (boot_invariant q t s progs Hprogs) Hreach)
    as (Hinv & Hpp & _).
  rewrite boot_effect in Hpp. simpl in Hpp.
  pose proof (inv_processes q m Hinv) as Hproc.
  rewrite Hpp, Forall_forall in Hproc. rewrite Forall_forall in Htimed.
  split; [|split].
  - intros pr Hin. destruct (Hproc pr Hin) as (Ho & (Hu & _) & Hrt & _).
    destruct (Hrt (Htimed _ Ho)) as (H1 & H2). split; [lia|].
    intros Hge. destruct (state pr) eqn:E; trivial;
      assert (run_time pr < service_time (pProgram pr))
        by (apply H2; discriminate); lia.
  - intros m' Hstep p pr Hn.
    destruct (step_invariant tie sha q m Hq Hinv) as (m'' & E & _ & Hadv & _).
    rewrite Hstep in E. injection E as <-.
    destruct Hadv as (_ & _ & _ & Hadv).
    destruct (Hadv p pr Hn) as (pr' & Hn' & Hprog & Hmono).
    exists pr'. conjs; trivial. apply Hmono.
    destruct (Hproc pr (nth_error_In _ _ Hn)) as (Ho & _). auto.
  - intros m3 m' r pr Hr Hn Hfin Hup.
    destruct (update_finishes tie sha m3 m' q r pr Hr Hn Hfin Hup)
      as (Hnone & pr' & Hn' & Hst & _).
    split; trivial. now exists pr'.
Qed.

Lemma run_steps_reachable (tie : tie_rule) (sha : string -> string) (q : Z)
    (m0 : manager) (n : nat) :
  forall m m', reachable tie sha q m0 m ->
               run_steps tie sha q n m = Ok m' ->
               reachable tie sha q m0 m'.
Proof.
  induction n as [|n IH]; intros m m' Hreach; simpl.
  - intros H. now injection H as <-.
  - destruct (step tie sha q m) as [m1|] eqn:E; simpl; [|discriminate].
    apply IH. eapply reach_step; eauto.
Qed.

Lemma overrun_reachable :
  reachable NewAfterEqual silent 3 overrun_boot overrun_state.
Proof.
  apply (run_steps_reachable NewAfterEqual silent 3 overrun_boot 2
           overrun_boot); [apply reach_boot | reflexivity].
Qed.

Lemma run_time_bounds_witness :
  (forall pr, In pr (list_active overrun_state) ->
     0 <= run_time pr < service_time (pProgram pr) + 3 /\
     (service_time (pProgram pr) <= run_time pr -> state pr = FINISHED)) /\
  (forall m', step NewAfterEqual silent 3 overrun_state = Ok m' ->
     forall p pr, nth_error (list_active overrun_state) p = Some pr ->
       exists pr', nth_error (list_active m') p = Some pr' /\
                   pProgram pr' = pProgram pr /\
                   run_time pr <= run_time pr') /\
  (forall m3 m' r pr,
     pRunningProcess m3 = Some r -> nth_error (list_active m3) r = Some pr ->
     service_time (pProgram pr) <= u32 (run_time pr + 3) ->
     update NewAfterEqual silent m3 3 = Ok m' ->
     pRunningProcess m' = None /\
     exists pr', nth_error (list_active m') r = Some pr' /\
                 state pr' = FINISHED).
Proof.
  apply (run_time_bounds NewAfterEqual silent 3 SJF INFINITE
           [mk_program "P1" 0 5 0] overrun_state).
  - unfold in_u32. lia.
  - repeat constructor; simpl; unfold in_u32; lia.
  - repeat constructor; simpl; lia.
  - exact overrun_reachable.
Defined.

(** C7 as stated fails: with a quantum of 3, a process of service time 5
    has run for 6 ticks when it finishes, at the second iteration. *)
Lemma run_time_exceeds_service_time :
  reachable NewAfterEqual silent 3 overrun_boot overrun_state /\
  map (fun pr => (service_time (pProgram pr), run_time pr, state pr))
      (list_active overrun_state) = [(5, 6, FINISHED)] /\
  ~ (forall pr, In pr (list_active overrun_state) ->
                run_time pr <= service_time (pProgram pr)).
Proof.
  split; [|split].
  - exact overrun_reachable.
  - reflexivity.
  - intros H.
    specialize (H _ (or_introl eq_refl : In _ (list_active overrun_state))).
    simpl in H. lia.
Qed.

(** ** Admission *)

(** The second loop of [check_pending] is the admission scan of the
    specification, carried out in place on [list_input]: [before] are the
    entries already passed. *)
Lemma pending_scan_effect (nodes : list program) :
  forall m before m',
    list_input m = before ++ nodes ->
    pending_scan m (List.length before) nodes = Ok m' ->
    exists accepted kept,
      admission_spec (allocator m) nodes = Ok (accepted, kept, allocator m') /\
      list_input m' = before ++ kept /\
      list_active m' = list_active m ++ map new_process accepted /\
      list_ready m' =
        list_ready m ++
        seq (List.length (list_active m)) (List.length accepted) /\
      stdout m' = stdout m ++ ready_lines (time m) accepted /\
      pRunningProcess m' = pRunningProcess m /\ pPrograms m' = pPrograms m /\
      time m' = time m /\ type m' = type m /\
      pending_count m' = pending_count m /\
      pending_index m' = pending_index m /\ workers m' = workers m.
Proof.
  induction nodes as [|prog rest IH]; intros m before m' Hin; simpl.
  - intros H. injection H as <-. exists [], []. simpl.
    rewrite !app_nil_r. conjs; trivial. now rewrite Hin, app_nil_r.
  - assert (Henlist : forall blk a,
              (m2 <- enlist_process (set_allocator m a)
                       (mk_process prog 0 READY blk PID_NULL_HANDLE EmptyString) ;;
               pending_scan
                 (set_list_input m2
                    (list_pop_node (list_input m2) (List.length before)))
                 (List.length before) rest) = Ok m' ->
              exists accepted kept,
                admission_spec a rest = Ok (accepted, kept, allocator m') /\
                list_input m' = before ++ kept /\
                list_active m' =
                  list_active m ++ map new_process ((prog, blk) :: accepted) /\
                list_ready m' =
                  list_ready m ++
                  seq (List.length (list_active m)) (S (List.length accepted)) /\
                stdout m' =
                  stdout m ++ ready_lines (time m) ((prog, blk) :: accepted) /\
                pRunningProcess m' = pRunningProcess m /\
                pPrograms m' = pPrograms m /\
                time m' = time m /\ type m' = type m /\
                pending_count m' = pending_count m /\
                pending_index m' = pending_index m /\ workers m' = workers m).
    { intros blk a.
      destruct (enlist_process_effect (set_allocator m a)
                  (mk_process prog 0 READY blk PID_NULL_HANDLE EmptyString))
        as (m2 & -> & Ha & Hr & Hrn & Hal & Hp & Hi & Ht & Hty & Hpc & Hpi & Hw
            & Hout).
      simpl in *. intros Hscan.
      apply IH in Hscan.
      2:{ simpl. now rewrite Hi, Hin, list_pop_node_app. }
      destruct Hscan as (adm & kept & Hspec & Hi' & Ha' & Hr' & Hout' & Hrest).
      simpl in *. rewrite Hal in Hspec.
      exists adm, kept. split; [exact Hspec|].
      rewrite Hi', Ha', Hr', Hout', Ha, Hr, Hout, Ht.
      rewrite length_app, <- !app_assoc. simpl. rewrite Nat.add_1_r.
      destruct Hrest as (? & ? & ? & ? & ? & ? & ?).
      conjs; try reflexivity; congruence. }
    unfold process_try_create.
    destruct (strategy (allocator m)) eqn:Es.
    + simpl. intros Hscan.
      destruct (Henlist None (allocator m)) as (adm & kept & Hspec & Hrest).
      { replace (set_allocator m (allocator m)) with m; [exact Hscan|].
        now destruct m. }
      rewrite Hspec. simpl. exists ((prog, None) :: adm), kept.
      split; [reflexivity | exact Hrest].
    + destruct (allocator_find_best_fit (allocator m) (memory_required prog))
        as [(granted, a1)|] eqn:Ealloc; simpl; [|discriminate].
      destruct granted as [b|]; simpl.
      * intros Hscan.
        destruct (Henlist (Some b) a1 Hscan) as (adm & kept & Hspec & Hrest).
        rewrite Hspec. simpl. exists ((prog, Some b) :: adm), kept.
        split; [reflexivity | exact Hrest].
      * intros Hscan.
        replace (S (List.length before)) with (List.length (before ++ [prog]))
          in Hscan by (rewrite length_app; simpl; lia).
        apply IH in Hscan; [|now rewrite <- app_assoc].
        destruct Hscan as (adm & kept & Hspec & Hi' & Hrest).
        rewrite Hspec. simpl. exists adm, (prog :: kept).
        split; [reflexivity|]. split; [|exact Hrest].
        now rewrite Hi', <- app_assoc.
Qed.

Lemma arrivals_prefix_filter (now : Z) (moved rest : list program) :
  Forall (fun p => time_arrived p <= now) moved ->
  match rest with [] => True | p :: _ => now < time_arrived p end ->
  by_arrival (moved ++ rest) ->
  moved = arrivals_spec now (moved ++ rest).
Proof.
  intros Hmoved Hrest Hsorted. unfold arrivals_spec. rewrite filter_app.
  apply ordered_pairs_app in Hsorted. destruct Hsorted as (_ & Hr & _).
  assert (H1 : filter (arrived now) moved = moved).
  { clear Hrest Hr. induction Hmoved as [|p l Hp _ IH]; simpl; trivial.
    unfold arrived at 1. apply Z.leb_le in Hp. rewrite Hp. now f_equal. }
  assert (H2 : filter (arrived now) rest = []).
  { destruct rest as [|p rest]; trivial.
    apply ordered_pairs_cons_inv in Hr. destruct Hr as (Hp & _).
    assert (Hall : Forall (fun p' => now < time_arrived p') (p :: rest)).
    { constructor; trivial. rewrite Forall_forall in *. intros p' Hp'.
      specialize (Hp p' Hp'). simpl in Hp. lia. }
    clear Hrest Hp. induction Hall as [|p' l Hp' _ IH]; simpl; trivial.
    unfold arrived at 1. apply Z.leb_gt in Hp'. now rewrite Hp'. }
  now rewrite H1, H2, app_nil_r.
Qed.

(** C6 (admission), as the code has it. On a state that satisfies the
    invariant of the engine, [check_pending] returns; the programs not yet
    seen are moved to the admission queue in input order up to the first one
    that has not arrived, which for an input in the order of arrival times
    is every program that has arrived; the queue is then scanned as the
    specification says: entries whose allocation succeeds leave the queue
    for the registry and the ready list, the others stay and do not stop
    the scan. *)
Theorem check_pending_accepts (q : Z) (m : manager) :
  in_u32 q -> engine_invariant q m ->
  exists m' moved rest accepted kept,
    check_pending m = Ok m' /\
    skipn (pending_index m) (pPrograms m) = moved ++ rest /\
    Forall (fun p => time_arrived p <= time m) moved /\
    match rest with [] => True | p :: _ => time m < time_arrived p end /\
    (by_arrival (skipn (pending_index m) (pPrograms m)) ->
     moved = arrivals_spec (time m) (skipn (pending_index m) (pPrograms m))) /\
    pending_index m' = (pending_index m + List.length moved)%nat /\
    admission_spec (allocator m) (list_input m ++ moved) =
      Ok (accepted, kept, allocator m') /\
    list_input m' = kept /\
    list_active m' = list_active m ++ map new_process accepted /\
    list_ready m' =
      list_ready m ++ seq (List.length (list_active m)) (List.length accepted).
Proof.
  intros Hq Hinv.
  destruct (check_pending_invariant q m Hq Hinv) as (m' & Hcheck & _).
  exists m'. unfold check_pending in *.
  destruct (pending_arrivals_effect (skipn (pending_index m) (pPrograms m)) m)
    as (moved & rest & Hsplit & Hmoved & Hrest & Hi & Hpi & Ha & Hr & _ & Hal
        & _).
  set (m1 := pending_arrivals m (skipn (pending_index m) (pPrograms m))) in *.
  destruct (pending_scan_effect (list_input m1) m1 [] m' eq_refl Hcheck)
    as (accepted & kept & Hspec & Hi' & Ha' & Hr' & _ & _ & _ & _ & _ & _
        & Hpi' & _).
  exists moved, rest, accepted, kept. conjs; trivial; try congruence.
  all: try (now rewrite <- Hi, <- Hal).
  intros Hsorted. rewrite Hsplit in *. now apply arrivals_prefix_filter.
Qed.

Lemma check_pending_accepts_witness :
  exists m' moved rest accepted kept,
    check_pending contended_boot = Ok m' /\
    skipn (pending_index contended_boot) (pPrograms contended_boot)
      = moved ++ rest /\
    Forall (fun p => time_arrived p <= time contended_boot) moved /\
    match rest with
    | [] => True
    | p :: _ => time contended_boot < time_arrived p
    end /\
    (by_arrival (skipn (pending_index contended_boot)
                       (pPrograms contended_boot)) ->
     moved = arrivals_spec (time contended_boot)
               (skipn (pending_index contended_boot)
                      (pPrograms contended_boot))) /\
    pending_index m' =
      (pending_index contended_boot + List.length moved)%nat /\
    admission_spec (allocator contended_boot)
                   (list_input contended_boot ++ moved) =
      Ok (accepted, kept, allocator m') /\
    list_input m' = kept /\
    list_active m' = list_active contended_boot ++ map new_process accepted /\
    list_ready m' =
      list_ready contended_boot ++
      seq (List.length (list_active contended_boot)) (List.length accepted).
Proof.
  apply (check_pending_accepts 3 contended_boot).
  - unfold in_u32. lia.
  - apply boot_invariant. repeat constructor; simpl; unfold in_u32; lia.
Defined.

(** No head-of-line blocking: "P2" stays in the queue and "P3", behind it,
    is accepted. *)
Example check_pending_passes_blocked_entry :
  match check_pending contended_boot with
  | Ok m' => (map name (list_input m'),
              map (fun pr => name (pProgram pr)) (list_active m'),
              list_ready m', free_list (allocator m'))
  | Fault => ([], [], [], [])
  end =
  (["P2"%string], ["P1"%string; "P3"%string], [0%nat; 1%nat],
   [mk_block 2000 48]).
Proof. reflexivity. Qed.

(** C6 as stated fails: at time 0 the program "early" has arrived, but it
    comes after "late" in the input, where the first loop of
    [check_pending] stops, so that it is neither queued nor accepted. *)
Lemma check_pending_stops_at_late_program :
  arrivals_spec (time unsorted_boot) (pPrograms unsorted_boot)
    = [mk_program "early" 0 1 0] /\
  check_pending unsorted_boot = Ok unsorted_boot /\
  list_input unsorted_boot = [] /\ list_active unsorted_boot = [].
Proof. repeat split. Qed.

(** ** Selection *)

(** What [switch_process] does once the policy has chosen the node at
    [pos]. *)
Lemma switch_process_effect (m : manager) (pos p : nat) (pr : process) :
  match type m with
  | SJF => ready <- deref_all m (list_ready m) ;; Ok (shortest_job_first ready)
  | RR => Ok (round_robin (list_ready m))
  end = Ok (Some pos) ->
  nth_error (list_ready m) pos = Some p ->
  nth_error (list_active m) p = Some pr ->
  exists m' pr',
    switch_process m = Ok m' /\
    pRunningProcess m' = Some p /\
    list_ready m' = list_pop_node (list_ready m) pos /\
    list_active m' = set_nth (list_active m) p pr' /\
    state pr' = RUNNING /\ pProgram pr' = pProgram pr /\
    run_time pr' = run_time pr /\
    stdout m' =
      stdout m ++
      [(fmt_d (time m) ++ ",RUNNING,process_name=" ++ name (pProgram pr)
        ++ ",remaining_time="
        ++ fmt_d (u32 (service_time (pProgram pr) - run_time pr)) ++ nl)%string].
Proof.
  intros Hsel Hpos Hn. unfold switch_process. rewrite Hsel. simpl.
  rewrite Hpos. simpl.
  destruct (process_run_effect (set_pRunningProcess m (Some p)) p pr Hn)
    as (m1 & pr' & -> & Hact & Hprog & Hrt & Hblk & Hst & Hrd & Hrn & Hal
        & Hpp & Hin & Htime & Htype & Hpc & Hout).
  simpl in *. exists (set_list_ready m1 (list_pop_node (list_ready m1) pos)), pr'.
  simpl. rewrite Hrd. conjs; trivial.
Qed.

Lemma sjf_compare_not_lt (p c : process) :
  sjf_compare p c <> Lt ->
  service_time (pProgram c) <= service_time (pProgram p) /\
  (service_time (pProgram p) = service_time (pProgram c) ->
   time_arrived (pProgram c) <= time_arrived (pProgram p) /\
   (time_arrived (pProgram p) = time_arrived (pProgram c) ->
    String.leb (name (pProgram c)) (name (pProgram p)) = true)).
Proof.
  unfold sjf_compare.
  destruct (Z.compare_spec (service_time (pProgram p))
                           (service_time (pProgram c))) as [E|E|E];
    intros H; try congruence; split; try lia. intros _.
  destruct (Z.compare_spec (time_arrived (pProgram p))
                           (time_arrived (pProgram c))) as [A|A|A];
    try congruence; split; try lia. intros _.
  unfold String.leb. rewrite String.compare_antisym.
  destruct (String.compare (name (pProgram p)) (name (pProgram c)));
    simpl; congruence.
Qed.

Lemma sjf_compare_lt_differs (c p : process) :
  sjf_compare c p = Lt ->
  ~ (service_time (pProgram p) = service_time (pProgram c) /\
     time_arrived (pProgram p) = time_arrived (pProgram c) /\
     name (pProgram p) = name (pProgram c)).
Proof.
  unfold sjf_compare. intros H (E1 & E2 & E3).
  rewrite E1, E2, E3, !Z.compare_refl, string_compare_refl in H. discriminate.
Qed.

(** C4 (shortest job first). On a ready list that is not empty, of
    processes [procs] whose names are C strings: the process selected has
    the least service time; among those of that service time, the earliest
    arrival; among those equal on both, the least name; every entry before
    it in the list differs from it on one of the three, so that the first of
    exact duplicates wins; [switch_process] makes it the running process and
    removes its entry from the ready list. *)
Theorem sjf_selects_shortest (m : manager) (procs : list process) :
  type m = SJF -> deref_all m (list_ready m) = Ok procs -> procs <> [] ->
  Forall named procs ->
  exists pos p chosen m',
    nth_error (list_ready m) pos = Some p /\
    nth_error procs pos = Some chosen /\
    shortest_job_first procs = Some pos /\
    (forall pr, In pr procs ->
       service_time (pProgram chosen) <= service_time (pProgram pr) /\
       (service_time (pProgram pr) = service_time (pProgram chosen) ->
        time_arrived (pProgram chosen) <= time_arrived (pProgram pr) /\
        (time_arrived (pProgram pr) = time_arrived (pProgram chosen) ->
         String.leb (name (pProgram chosen)) (name (pProgram pr)) = true))) /\
    (forall j pr, (j < pos)%nat -> nth_error procs j = Some pr ->
       ~ (service_time (pProgram pr) = service_time (pProgram chosen) /\
          time_arrived (pProgram pr) = time_arrived (pProgram chosen) /\
          name (pProgram pr) = name (pProgram chosen))) /\
    switch_process m = Ok m' /\
    pRunningProcess m' = Some p /\
    list_ready m' = list_pop_node (list_ready m) pos /\
    exists pr', nth_error (list_active m') p = Some pr' /\
                state pr' = RUNNING /\ pProgram pr' = pProgram chosen.
Proof.
  intros Htype Hderef Hne Hnamed.
  pose proof (shortest_job_first_spec procs Hnamed) as Hspec.
  destruct (shortest_job_first procs) as [pos|] eqn:Esjf; [|contradiction].
  destruct Hspec as (chosen & Hn & Hmin & Hfirst).
  pose proof (deref_all_inv m _ _ Hderef) as Hall.
  destruct (Forall2_nth_error _ _ _ Hall pos chosen Hn) as (p & Hp & Hpr).
  destruct (switch_process_effect m pos p chosen) as
    (m' & pr' & Hsw & Hrun & Hrd & Hact & Hst & Hprog & _); trivial.
  { rewrite Htype, Hderef. simpl. now rewrite Esjf. }
  exists pos, p, chosen, m'. conjs; trivial.
  - intros pr Hin. apply sjf_compare_not_lt. auto.
  - intros j pr Hj Hnj. apply sjf_compare_lt_differs. eauto.
  - exists pr'. rewrite Hact. rewrite (nth_error_set_nth_eq _ _ chosen _ Hpr).
    auto.
Qed.

Lemma sjf_selects_shortest_witness :
  exists pos p chosen m',
    nth_error (list_ready sjf_state) pos = Some p /\
    nth_error (list_active sjf_state) pos = Some chosen /\
    shortest_job_first (list_active sjf_state) = Some pos /\
    (forall pr, In pr (list_active sjf_state) ->
       service_time (pProgram chosen) <= service_time (pProgram pr) /\
       (service_time (pProgram pr) = service_time (pProgram chosen) ->
        time_arrived (pProgram chosen) <= time_arrived (pProgram pr) /\
        (time_arrived (pProgram pr) = time_arrived (pProgram chosen) ->
         String.leb (name (pProgram chosen)) (name (pProgram pr)) = true))) /\
    (forall j pr, (j < pos)%nat ->
       nth_error (list_active sjf_state) j = Some pr ->
       ~ (service_time (pProgram pr) = service_time (pProgram chosen) /\
          time_arrived (pProgram pr) = time_arrived (pProgram chosen) /\
          name (pProgram pr) = name (pProgram chosen))) /\
    switch_process sjf_state = Ok m' /\
    pRunningProcess m' = Some p /\
    list_ready m' = list_pop_node (list_ready sjf_state) pos /\
    exists pr', nth_error (list_active m') p = Some pr' /\
                state pr' = RUNNING /\ pProgram pr' = pProgram chosen.
Proof.
  apply (sjf_selects_shortest sjf_state (list_active sjf_state)).
  - reflexivity.
  - reflexivity.
  - discriminate.
  - repeat constructor; unfold named; simpl; repeat split; discriminate.
Defined.

(** The first of the two identical programs is selected, at position 2. *)
Example sjf_selects_first_duplicate :
  shortest_job_first (list_active sjf_state) = Some 2%nat /\
  match switch_process sjf_state with
  | Ok m' => (pRunningProcess m', list_ready m')
  | Fault => (None, [])
  end = (Some 2%nat, [0%nat; 1%nat; 3%nat]).
Proof. split; reflexivity. Qed.

(** ** Preemption *)

Lemma check_pending_frame (m m' : manager) :
  check_pending m = Ok m' ->
  pRunningProcess m' = pRunningProcess m /\ type m' = type m /\
  exists l, list_active m' = list_active m ++ l.
Proof.
  unfold check_pending. intros Hcheck.
  destruct (pending_arrivals_effect (skipn (pending_index m) (pPrograms m)) m)
    as (moved & rest & _ & _ & _ & _ & _ & Ha & _ & Hrn & _ & _ & _ & Hty & _).
  set (m1 := pending_arrivals m (skipn (pending_index m) (pPrograms m))) in *.
  destruct (pending_scan_effect (list_input m1) m1 [] m' eq_refl Hcheck)
    as (accepted & kept & _ & _ & Ha' & _ & _ & Hrn' & _ & _ & Hty' & _).
  conjs; try congruence. exists (map new_process accepted). congruence.
Qed.

Lemma update_running (tie : tie_rule) (sha : string -> string)
    (m m' : manager) (q : Z) (r : nat) (pr : process) :
  pRunningProcess m = Some r -> nth_error (list_active m) r = Some pr ->
  update tie sha m q = Ok m' ->
  pRunningProcess m' = Some r \/
  (pRunningProcess m' = None /\
   exists pr', nth_error (list_active m') r = Some pr' /\ state pr' = FINISHED).
Proof.
  intros Hr Hn Hup.
  destruct (Z_le_gt_dec (service_time (pProgram pr)) (u32 (run_time pr + q)))
    as [Hfin|Hgo].
  - right.
    destruct (update_finishes tie sha m m' q r pr Hr Hn Hfin Hup)
      as (Hnone & pr' & Hn' & Hst & _).
    split; trivial. now exists pr'.
  - left. revert Hup. unfold update. mgr. rewrite Hr.
    unfold deref. mgr. rewrite Hn. mgr.
    replace (service_time (pProgram pr) <=? u32 (run_time pr + q)) with false
      by (symmetry; apply Z.leb_gt; lia).
    intros H. injection H as <-. reflexivity.
Qed.

(** C5 (round robin and preemption). Under round robin [switch_process]
    takes the head of the ready list. With a running process, at the top of
    an iteration: under round robin, when the ready list is not empty the
    process is suspended and put at the tail of the ready list, and the
    former head is selected; when the ready list is empty the process is
    continued; under shortest job first the process is continued whatever
    the ready list holds, and after the iteration it is still the running
    process unless it has finished. *)
Theorem round_robin_rotation (tie : tie_rule) (sha : string -> string)
    (q : Z) (m : manager) (r : nat) (pr : process) :
  pRunningProcess m = Some r -> nth_error (list_active m) r = Some pr ->
  (forall m0 h rest prh,
     type m0 = RR -> list_ready m0 = h :: rest ->
     nth_error (list_active m0) h = Some prh ->
     exists m2 prh',
       switch_process m0 = Ok m2 /\ pRunningProcess m2 = Some h /\
       list_ready m2 = rest /\
       nth_error (list_active m2) h = Some prh' /\ state prh' = RUNNING) /\
  match type m with
  | RR =>
      match list_ready m with
      | h :: rest =>
          exists m1,
            keep_process_running m = Ok (false, m1) /\
            pRunningProcess m1 = None /\
            list_ready m1 = h :: rest ++ [r] /\
            list_active m1 = set_nth (list_active m) r (set_state pr READY) /\
            workers m1 =
              workers m ++
              [EvTime (child_pid pr) (big_endian (time m));
               EvKill (child_pid pr) SIGTSTP; EvStopped (child_pid pr)] /\
            (forall prh, nth_error (list_active m) h = Some prh ->
               exists m2,
                 switch_process m1 = Ok m2 /\
                 pRunningProcess m2 = Some h /\ list_ready m2 = rest ++ [r])
      | [] =>
          exists m1,
            keep_process_running m = Ok (true, m1) /\
            pRunningProcess m1 = Some r /\
            list_active m1 = list_active m /\ list_ready m1 = [] /\
            workers m1 =
              workers m ++
              [EvTime (child_pid pr) (big_endian (time m));
               EvKill (child_pid pr) SIGCONT;
               EvAck (child_pid pr) (last_byte_sent (time m))]
      end
  | SJF =>
      (exists m1,
         keep_process_running m = Ok (true, m1) /\
         pRunningProcess m1 = Some r /\
         list_active m1 = list_active m /\ list_ready m1 = list_ready m) /\
      (forall m', step tie sha q m = Ok m' ->
         pRunningProcess m' = Some r \/
         (pRunningProcess m' = None /\
          exists pr', nth_error (list_active m') r = Some pr' /\
                      state pr' = FINISHED))
  end.
Proof.
  intros Hr Hn. split.
  - intros m0 h rest prh Hty Hrd Hnh.
    destruct (switch_process_effect m0 0 h prh)
      as (m2 & prh' & Hsw & Hrun & Hrd' & Hact & Hst & _); trivial.
    + now rewrite Hty, Hrd.
    + now rewrite Hrd.
    + exists m2, prh'. rewrite Hrd in Hrd'. conjs; trivial.
      rewrite Hact. apply (nth_error_set_nth_eq _ _ prh _ Hnh).
  - assert (Hcont : process_continue m r =
              Ok (emit m [EvTime (child_pid pr) (big_endian (time m));
                          EvKill (child_pid pr) SIGCONT;
                          EvAck (child_pid pr) (last_byte_sent (time m))])).
    { unfold process_continue, deref. now rewrite Hn. }
    unfold keep_process_running. rewrite Hr.
    destruct (type m) eqn:Ety.
    + rewrite Hcont. simpl. split.
      * eexists. split; [reflexivity|]. simpl. auto.
      * intros m' Hstep. unfold step in Hstep.
        destruct (check_pending m) as [m1|] eqn:Echeck; simpl in Hstep;
          [|discriminate].
        destruct (check_pending_frame m m1 Echeck) as (Hr1 & Hty1 & l & Ha1).
        unfold keep_process_running in Hstep.
        rewrite Hr1, Hr, Hty1, Ety in Hstep.
        assert (Hn1 : nth_error (list_active m1) r = Some pr).
        { rewrite Ha1, nth_error_app1; trivial.
          apply nth_error_Some. congruence. }
        unfold process_continue, deref in Hstep. rewrite Hn1 in Hstep.
        simpl in Hstep.
        apply (update_running tie sha _ m' q r pr) in Hstep; trivial.
        simpl. now rewrite Hr1.
    + destruct (list_ready m) as [|h rest] eqn:Erd.
      * rewrite Hcont. simpl. eexists. split; [reflexivity|]. simpl. auto.
      * unfold process_suspend, process_submit_ready, deref.
        rewrite Hn. mgr. rewrite Hn. mgr.
        eexists. split; [reflexivity|]. simpl. rewrite Erd.
        unfold list_insert_tail. simpl. conjs; trivial.
        intros prh Hnh.
        assert (Hnh' : exists prh1,
                  nth_error (set_nth (list_active m) r (set_state pr READY)) h
                  = Some prh1).
        { rewrite nth_error_set_nth. destruct (Nat.eqb r h); [|eauto].
          rewrite Hn. eauto. }
        destruct Hnh' as (prh1 & Hnh1).
        match goal with |- exists m2, switch_process ?m1 = _ /\ _ =>
          destruct (switch_process_effect m1 0 h prh1)
            as (m2 & prh' & Hsw & Hrun & Hrd' & _)
        end; simpl; trivial.
        { now rewrite Ety. }
        exists m2. simpl in Hrd'. auto.
Qed.

Lemma round_robin_rotation_witness :
  exists m1 m2,
    keep_process_running rotation_state = Ok (false, m1) /\
    pRunningProcess m1 = None /\ list_ready m1 = [1%nat; 0%nat] /\
    switch_process m1 = Ok m2 /\
    pRunningProcess m2 = Some 1%nat /\ list_ready m2 = [0%nat].
Proof.
  destruct (round_robin_rotation NewAfterEqual silent 3 rotation_state 0
              rotation_running eq_refl eq_refl) as (_ & H).
  simpl in H. destruct H as (m1 & Hkeep & Hrun & Hrd & _ & _ & Hsw).
  destruct (Hsw _ eq_refl) as (m2 & Hsw2 & Hrun2 & Hrd2).
  exists m1, m2. repeat split; assumption.
Defined.


(** ** Logging *)

Lemma allocator_find_best_fit_strategy (a a' : memory_allocator) (sz : Z)
    (granted : option memory_block) :
  allocator_find_best_fit a sz = Ok (granted, a') -> strategy a' = strategy a.
Proof.
  unfold allocator_find_best_fit.
  destruct (strategy a) eqn:Es.
  - intros H. injection H as _ <-. exact Es.
  - destruct (free_list a); [discriminate|].
    destruct (best_fit_scan _ _ _ _ _) as [pos|].
    + destruct (nth_error _ pos); [|discriminate].
      intros H. injection H as _ <-. reflexivity.
    + intros H. injection H as _ <-. exact Es.
Qed.

(** Under best fit every program accepted has a block, with unbounded
    memory none has. *)
Lemma admission_spec_blocks (queue : list program) :
  forall a accepted kept a',
    admission_spec a queue = Ok (accepted, kept, a') ->
    match strategy a with
    | BEST_FIT => Forall (fun entry => snd entry <> None) accepted
    | INFINITE => Forall (fun entry => snd entry = None) accepted
    end.
Proof.
  induction queue as [|prog rest IH]; intros a accepted kept a'; simpl.
  - intros H. injection H as <- _ _. destruct (strategy a); constructor.
  - destruct (strategy a) eqn:Es.
    + destruct (admission_spec a rest) as [((adm, kp), a1)|] eqn:E; simpl;
        [|discriminate].
      intros H. injection H as <- _ _. apply IH in E. rewrite Es in E.
      now constructor.
    + destruct (allocator_find_best_fit a (memory_required prog))
        as [(granted, a1)|] eqn:Ealloc; simpl; [|discriminate].
      destruct granted as [b|].
      * destruct (admission_spec a1 rest) as [((adm, kp), a2)|] eqn:E; simpl;
          [|discriminate].
        intros H. injection H as <- _ _. apply IH in E.
        rewrite (allocator_find_best_fit_strategy _ _ _ _ Ealloc), Es in E.
        constructor; [discriminate | trivial].
      * destruct (admission_spec a rest) as [((adm, kp), a2)|] eqn:E; simpl;
          [|discriminate].
        intros H. injection H as <- _ _. apply IH in E. now rewrite Es in E.
Qed.

Lemma ready_lines_none (now : Z)
    (accepted : list (program * option memory_block)) :
  Forall (fun entry => snd entry = None) accepted ->
  ready_lines now accepted = [].
Proof.
  induction 1 as [|e l He _ IH]; trivial.
  unfold ready_lines in *. simpl. now rewrite He.
Qed.

(** The two lines [update] prints when it terminates the running process. *)
Lemma update_finishes_log (tie : tie_rule) (sha : string -> string)
    (m m' : manager) (q : Z) (r : nat) (pr : process) :
  pRunningProcess m = Some r -> nth_error (list_active m) r = Some pr ->
  service_time (pProgram pr) <= u32 (run_time pr + q) ->
  update tie sha m q = Ok m' ->
  stdout m' =
    stdout m ++
    [finished_line (time m') (name (pProgram pr)) (pending_count m');
     finished_process_line (time m') (name (pProgram pr))
                           (sha (name (pProgram pr)))].
Proof.
  intros Hr Hn Hfin. unfold update. mgr. rewrite Hr.
  unfold deref. mgr. rewrite Hn. mgr.
  apply Z.leb_le in Hfin. rewrite Hfin.
  unfold process_terminate, deref. mgr.
  rewrite (nth_error_set_nth_eq _ _ pr _ Hn). mgr. rewrite set_nth_set_nth.
  destruct (strategy (allocator m)).
  - unfold deref. mgr. rewrite (nth_error_set_nth_eq _ _ pr _ Hn). mgr.
    intros H. injection H as <-. simpl. rewrite <- app_assoc. reflexivity.
  - unfold free_memory_of, deref. mgr.
    rewrite (nth_error_set_nth_eq _ _ pr _ Hn). mgr.
    destruct (pBlock pr) as [b|]; mgr; [|discriminate].
    rewrite set_nth_set_nth, (nth_error_set_nth_eq _ _ pr _ Hn). mgr.
    intros H. injection H as <-. simpl. rewrite <- app_assoc. reflexivity.
Qed.

(** C8 (log lines), as the code has it. An admission prints the [READY]
    line of the program when the program was given a block, that is under
    best fit, and nothing with unbounded memory; starting or resuming a
    process prints its [RUNNING] line; a termination prints two lines, the
    second with the key [sha]. *)
Theorem transitions_are_logged (tie : tie_rule) (sha : string -> string)
    (q : Z) :
  (forall m m',
     check_pending m = Ok m' ->
     exists accepted,
       list_active m' = list_active m ++ map new_process accepted /\
       stdout m' = stdout m ++ ready_lines (time m) accepted /\
       match strategy (allocator m) with
       | BEST_FIT => Forall (fun entry => snd entry <> None) accepted
       | INFINITE => stdout m' = stdout m
       end) /\
  (forall m pos p pr,
     match type m with
     | SJF => ready <- deref_all m (list_ready m) ;;
              Ok (shortest_job_first ready)
     | RR => Ok (round_robin (list_ready m))
     end = Ok (Some pos) ->
     nth_error (list_ready m) pos = Some p ->
     nth_error (list_active m) p = Some pr ->
     exists m',
       switch_process m = Ok m' /\
       stdout m' =
         stdout m ++
         [running_line (time m) (name (pProgram pr))
            (u32 (service_time (pProgram pr) - run_time pr))]) /\
  (forall m m' r pr,
     pRunningProcess m = Some r -> nth_error (list_active m) r = Some pr ->
     service_time (pProgram pr) <= u32 (run_time pr + q) ->
     update tie sha m q = Ok m' ->
     stdout m' =
       stdout m ++
       [finished_line (time m') (name (pProgram pr)) (pending_count m');
        finished_process_line (time m') (name (pProgram pr))
                              (sha (name (pProgram pr)))]).
Proof.
  split; [|split].
  - intros m m' Hcheck. unfold check_pending in Hcheck.
    destruct (pending_arrivals_effect (skipn (pending_index m) (pPrograms m)) m)
      as (moved & rest & _ & _ & _ & _ & _ & Ha & _ & _ & Hal & _ & Ht & _
          & Hout).
    set (m1 := pending_arrivals m (skipn (pending_index m) (pPrograms m))) in *.
    destruct (pending_scan_effect (list_input m1) m1 [] m' eq_refl Hcheck)
      as (accepted & kept & Hspec & _ & Ha' & _ & Hout' & _).
    exists accepted. rewrite Ha', Hout', Ha, Hout, Ht. conjs; trivial.
    apply admission_spec_blocks in Hspec. rewrite Hal in Hspec.
    destruct (strategy (allocator m)); trivial.
    now rewrite (ready_lines_none _ _ Hspec), app_nil_r.
  - intros m pos p pr Hsel Hpos Hn.
    destruct (switch_process_effect m pos p pr Hsel Hpos Hn)
      as (m' & pr' & Hsw & _ & _ & _ & _ & _ & _ & Hout).
    exists m'. split; trivial.
  - intros m m' r pr. apply update_finishes_log.
Qed.

(** The lines of the contended run under best fit: one [READY] line for
    each program accepted, then the [RUNNING] line of the first. *)
Example log_of_contended_run :
  stdout rotation_state =
  [("0,READY,process_name=P1,assigned_at=0" ++ nl)%string;
   ("0,READY,process_name=P3,assigned_at=1500" ++ nl)%string;
   ("0,RUNNING,process_name=P1,remaining_time=6" ++ nl)%string].
Proof. reflexivity. Qed.

(** C8 as stated fails twice. With unbounded memory the four programs of
    [sjf_boot] are accepted and nothing is printed. And the second line of a
    termination reads [sha=], not [result=]. *)
Lemma log_lines_differ_from_specification :
  match check_pending sjf_boot with
  | Ok m' => (map state (list_active m'), stdout m')
  | Fault => ([], [])
  end = ([READY; READY; READY; READY], []) /\
  stdout overrun_state =
    [("0,RUNNING,process_name=P1,remaining_time=5" ++ nl)%string;
     ("6,FINISHED,process_name=P1,proc_remaining=0" ++ nl)%string;
     ("6,FINISHED-PROCESS,process_name=P1,sha=" ++ nl)%string] /\
  nth 2 (stdout overrun_state) EmptyString
    <> finished_process_line_spec 6 "P1" (silent "P1").
Proof.
  split; [reflexivity|]. split; [reflexivity|]. discriminate.
Qed.

(** ** Reading the input file *)

(** On a record that does not start with a number [fscanf] reports a
    matching failure, not the end of the file, and reads nothing. *)
Lemma fscanf_program_stuck :
  fscanf_program ("abc P2 3 4" ++ nl)
  = (0, blank_program, ("abc P2 3 4" ++ nl)%string).
Proof. reflexivity. Qed.

Lemma read_programs_stuck (fuel : nat) :
  forall m,
    read_programs fuel ("abc P2 3 4" ++ nl) m =
    StillReading (set_pPrograms m (pPrograms m ++ repeat blank_program fuel)).
Proof.
  induction fuel as [|fuel IH]; intros m.
  - simpl. rewrite app_nil_r. now destruct m.
  - cbn [read_programs]. rewrite fscanf_program_stuck.
    change (0 =? EOF) with false. cbv iota. rewrite IH.
    unfold program_add. simpl. now rewrite <- app_assoc.
Qed.

(** C9 fails on the code: on [malformed_file] the loop never reaches its
    [break]. Whatever the number of iterations allowed, it is still
    reading, and it has added one blank record for each iteration spent on
    the malformed line. *)
Theorem reading_never_stops_on_malformed_record (fuel : nat) (m : manager) :
  read_programs (S fuel) malformed_file m =
  StillReading
    (set_pPrograms m (pPrograms m ++ mk_program "P1" 0 10 600
                                  :: repeat blank_program fuel)).
Proof.
  cbn [read_programs].
  change (fscanf_program malformed_file)
    with (4, mk_program "P1" 0 10 600, ("abc P2 3 4" ++ nl)%string).
  change (4 =? EOF) with false. cbv iota.
  rewrite read_programs_stuck. unfold program_add. simpl.
  now rewrite <- app_assoc.
Qed.

(** On a record cut short the loop ends, but the record read so far is
    added all the same. *)
Example reading_adds_truncated_record :
  read_programs 3 truncated_file (process_manager_initialise SJF INFINITE)
  = ReadAll (boot SJF INFINITE
               [mk_program "P1" 0 10 600; mk_program "P2" 3 0 0]).
Proof. reflexivity. Qed.

(** On a file of well-formed records the loop adds them all and ends. *)
Example reading_well_formed_file :
  read_programs 3 ("0 P1 10 600" ++ nl ++ "3 P2 5 20" ++ nl)
                (process_manager_initialise RR BEST_FIT)
  = ReadAll (boot RR BEST_FIT
               [mk_program "P1" 0 10 600; mk_program "P2" 3 5 20]).
Proof. reflexivity. Qed.

(** ** The stages of an iteration, field by field *)

Lemma map_set_nth_same {A B : Type} (f : A -> B) (l : list A) (p : nat)
    (x y : A) :
  nth_error l p = Some x -> f y = f x -> map f (set_nth l p y) = map f l.
Proof.
  intros Hn Hf. destruct (set_nth_split l p x Hn) as (l1 & l2 & -> & Hs).
  rewrite Hs, !map_app. simpl. now rewrite Hf.
Qed.

Lemma filter_set_nth_length {A : Type} (f : A -> bool) (l : list A) (p : nat)
    (x y : A) :
  nth_error l p = Some x ->
  Z.of_nat (List.length (filter f (set_nth l p y))) =
  Z.of_nat (List.length (filter f l))
  - (if f x then 1 else 0) + (if f y then 1 else 0).
Proof.
  intros Hn. destruct (set_nth_split l p x Hn) as (l1 & l2 & -> & Hs).
  rewrite Hs, !filter_app. simpl.
  destruct (f x), (f y); rewrite !length_app; simpl; lia.
Qed.

Lemma In_list_pop_node {A : Type} (l : list A) (pos : nat) (x y : A) :
  NoDup l -> nth_error l pos = Some x ->
  (In y (list_pop_node l pos) <-> In y l /\ y <> x).
Proof.
  intros Hnd Hn. destruct (nth_error_split_at l pos x Hn) as (l1 & l2 & -> & <-).
  rewrite list_pop_node_app. apply NoDup_remove in Hnd. destruct Hnd as (_ & Hnot).
  rewrite !in_app_iff. simpl. rewrite in_app_iff in Hnot. split.
  - intros H. split; [tauto|]. intros ->. tauto.
  - intros ([H|[H|H]] & Hne); auto. congruence.
Qed.

(** What [process_run] does to the process and to the traffic with the
    workers. *)
Lemma process_run_trace (m : manager) (p : nat) (pr : process) :
  nth_error (list_active m) p = Some pr ->
  exists m' pr' evs,
    process_run m p = Ok m' /\
    list_active m' = set_nth (list_active m) p pr' /\
    pProgram pr' = pProgram pr /\ run_time pr' = run_time pr /\
    pBlock pr' = pBlock pr /\ state pr' = RUNNING /\
    child_pid pr' = (if child_pid pr =? PID_NULL_HANDLE
                     then Z.of_nat p + 1 else child_pid pr) /\
    list_ready m' = list_ready m /\
    pRunningProcess m' = pRunningProcess m /\
    allocator m' = allocator m /\ pPrograms m' = pPrograms m /\
    list_input m' = list_input m /\ time m' = time m /\ type m' = type m /\
    pending_count m' = pending_count m /\
    pending_index m' = pending_index m /\
    workers m' = workers m ++ evs /\
    Forall (fun ev => event_child ev = child_pid pr') evs.
Proof.
  intros Hn. unfold process_run, deref. rewrite Hn. simpl.
  destruct (child_pid pr =? PID_NULL_HANDLE) eqn:E; simpl.
  - eexists _, (set_child_pid (set_state pr RUNNING) (Z.of_nat p + 1)), _.
    split; [reflexivity|]. simpl. rewrite set_nth_set_nth. conjs; trivial.
    repeat constructor.
  - unfold process_continue, deref. simpl.
    rewrite (nth_error_set_nth_eq _ _ pr _ Hn). simpl.
    eexists _, (set_state pr RUNNING), _.
    split; [reflexivity|]. simpl. conjs; trivial.
    repeat constructor.
Qed.

(** [switch_process] under the invariant: nothing happens when the ready
    list is empty; otherwise one of its nodes is unlinked and its process
    runs. *)
Lemma switch_process_trace (q : Z) (m : manager) :
  engine_invariant q m ->
  (list_ready m = [] /\ switch_process m = Ok m) \/
  (exists m' pos p pr pr' evs,
     switch_process m = Ok m' /\
     nth_error (list_ready m) pos = Some p /\
     nth_error (list_active m) p = Some pr /\
     list_active m' = set_nth (list_active m) p pr' /\
     pProgram pr' = pProgram pr /\ run_time pr' = run_time pr /\
     pBlock pr' = pBlock pr /\ state pr' = RUNNING /\
     child_pid pr' = (if child_pid pr =? PID_NULL_HANDLE
                      then Z.of_nat p + 1 else child_pid pr) /\
     list_ready m' = list_pop_node (list_ready m) pos /\
     pRunningProcess m' = Some p /\
     allocator m' = allocator m /\ pPrograms m' = pPrograms m /\
     list_input m' = list_input m /\ time m' = time m /\ type m' = type m /\
     pending_count m' = pending_count m /\
     pending_index m' = pending_index m /\
     workers m' = workers m ++ evs /\
     Forall (fun ev => event_child ev = child_pid pr') evs).
Proof.
  intros Hinv. pose proof Hinv as [Hready Hrun Hpool Hprogs Hinput Hproc].
  destruct Hready as (Hnd & Hrdy).
  destruct (list_ready m) as [|h rest] eqn:Erd.
  { left. split; trivial. unfold switch_process. rewrite Erd.
    destruct (type m); reflexivity. }
  right.
  assert (Hsel : exists pos,
            match type m with
            | SJF => ready <- deref_all m (list_ready m) ;;
                     Ok (shortest_job_first ready)
            | RR => Ok (round_robin (list_ready m))
            end = Ok (Some pos) /\ (pos < List.length (list_ready m))%nat).
  { destruct (type m).
    - destruct (deref_all_ok m (list_ready m)) as (procs & -> & Hall).
      + intros p Hp. rewrite Erd in Hp. destruct (Hrdy p Hp) as (pr & Hn & _).
        now exists pr.
      + simpl. destruct (shortest_job_first procs) as [pos|] eqn:E.
        * exists pos. split; trivial. apply shortest_job_first_bound in E.
          now rewrite (Forall2_length Hall).
        * apply shortest_job_first_none in E. subst procs.
          apply Forall2_length in Hall. rewrite Erd in Hall. discriminate.
    - rewrite Erd. exists 0%nat. simpl. split; trivial. lia. }
  destruct Hsel as (pos & Hsel & Hb).
  destruct (nth_error (list_ready m) pos) as [p|] eqn:Epos.
  2:{ apply nth_error_None in Epos. lia. }
  assert (Hin : In p (h :: rest)).
  { rewrite <- Erd. eapply nth_error_In; eauto. }
  destruct (Hrdy p Hin) as (pr & Hn & Hst).
  destruct (process_run_trace (set_pRunningProcess m (Some p)) p pr Hn)
    as (m1 & pr' & evs & Hrun1 & Hact & Hprog & Hrt & Hblk & Hst' & Hpid & Hrd
        & Hrn & Hal & Hpp & Hin' & Htime & Htype & Hpc & Hpi & Hw & Hev).
  simpl in *.
  exists (set_list_ready m1 (list_pop_node (list_ready m1) pos)),
    pos, p, pr, pr', evs.
  unfold switch_process. rewrite Hsel. simpl. rewrite Epos. simpl.
  rewrite Hrun1. simpl. rewrite Hrd, Erd. conjs; trivial.
  now rewrite <- Erd.
Qed.

(** [keep_process_running], case by case. *)
Lemma keep_process_running_trace (m : manager) :
  match pRunningProcess m with
  | None => keep_process_running m = Ok (false, m)
  | Some r =>
      forall pr, nth_error (list_active m) r = Some pr ->
      exists keep m',
        keep_process_running m = Ok (keep, m') /\
        allocator m' = allocator m /\ pPrograms m' = pPrograms m /\
        list_input m' = list_input m /\ time m' = time m /\ type m' = type m /\
        pending_count m' = pending_count m /\
        pending_index m' = pending_index m /\ stdout m' = stdout m /\
        (exists evs, workers m' = workers m ++ evs /\
                     Forall (fun ev => event_child ev = child_pid pr) evs) /\
        if keep
        then (type m = SJF \/ list_ready m = []) /\
             list_active m' = list_active m /\ list_ready m' = list_ready m /\
             pRunningProcess m' = Some r
        else type m = RR /\ list_ready m <> [] /\
             list_active m' = set_nth (list_active m) r (set_state pr READY) /\
             list_ready m' = list_ready m ++ [r] /\
             pRunningProcess m' = None
  end.
Proof.
  unfold keep_process_running.
  destruct (pRunningProcess m) as [r|] eqn:Er; trivial.
  intros pr Hn.
  assert (Hcont : exists m', process_continue m r = Ok m' /\
            allocator m' = allocator m /\ pPrograms m' = pPrograms m /\
            list_input m' = list_input m /\ time m' = time m /\
            type m' = type m /\ pending_count m' = pending_count m /\
            pending_index m' = pending_index m /\ stdout m' = stdout m /\
            (exists evs, workers m' = workers m ++ evs /\
                         Forall (fun ev => event_child ev = child_pid pr) evs) /\
            list_active m' = list_active m /\ list_ready m' = list_ready m /\
            pRunningProcess m' = Some r).
  { unfold process_continue, deref. rewrite Hn. simpl.
    eexists. split; [reflexivity|]. simpl. conjs; trivial.
    eexists. split; [reflexivity|]. repeat constructor. }
  destruct (type m) eqn:Et.
  - destruct Hcont as (m' & -> & H). simpl. exists true, m'.
    split; [reflexivity|]. decompose [and] H. conjs; auto.
  - destruct (list_ready m) as [|p0 ready0] eqn:Erd.
    + destruct Hcont as (m' & -> & H). simpl. exists true, m'.
      split; [reflexivity|]. decompose [and] H. conjs; auto.
    + clear Hcont. unfold process_suspend, process_submit_ready, deref.
      rewrite Hn. simpl. rewrite Hn. simpl.
      eexists false, _. split; [reflexivity|]. simpl. conjs; trivial.
      * eexists. split; [reflexivity|]. repeat constructor.
      * discriminate.
      * now rewrite Erd.
Qed.

(** [update], case by case. *)
Lemma update_trace (tie : tie_rule) (sha : string -> string) (m : manager)
    (q : Z) :
  match pRunningProcess m with
  | None => update tie sha m q = Ok (set_time m (u32 (time m + q)))
  | Some r =>
      forall pr, nth_error (list_active m) r = Some pr ->
      (strategy (allocator m) = BEST_FIT -> pBlock pr <> None) ->
      exists m' pr',
        update tie sha m q = Ok m' /\
        list_active m' = set_nth (list_active m) r pr' /\
        pProgram pr' = pProgram pr /\
        run_time pr' = u32 (run_time pr + q) /\
        child_pid pr' = child_pid pr /\
        list_ready m' = list_ready m /\ pPrograms m' = pPrograms m /\
        list_input m' = list_input m /\ time m' = u32 (time m + q) /\
        type m' = type m /\ pending_index m' = pending_index m /\
        strategy (allocator m') = strategy (allocator m) /\
        (exists evs, workers m' = workers m ++ evs /\
                     Forall (fun ev => event_child ev = child_pid pr) evs) /\
        if service_time (pProgram pr) <=? u32 (run_time pr + q)
        then state pr' = FINISHED /\ pRunningProcess m' = None /\
             pending_count m' = u32 (pending_count m - 1)
        else state pr' = state pr /\ pRunningProcess m' = Some r /\
             pending_count m' = pending_count m /\ pBlock pr' = pBlock pr /\
             allocator m' = allocator m /\ stdout m' = stdout m
  end.
Proof.
  unfold update. simpl. destruct (pRunningProcess m) as [r|] eqn:Er; trivial.
  intros pr Hn Hblk. unfold deref. simpl. rewrite Hn. simpl.
  destruct (service_time (pProgram pr) <=? u32 (run_time pr + q)) eqn:Efin.
  - unfold process_terminate, deref. simpl.
    rewrite (nth_error_set_nth_eq _ _ pr _ Hn). mgr.
    rewrite set_nth_set_nth.
    destruct (strategy (allocator m)) eqn:Es.
    + unfold deref. mgr. rewrite (nth_error_set_nth_eq _ _ pr _ Hn). mgr.
      eexists _, _. split; [reflexivity|]. simpl. conjs; trivial.
      eexists. split; [reflexivity|]. repeat constructor.
    + destruct (pBlock pr) as [b|] eqn:Eb.
      2:{ exfalso. now apply Hblk. }
      unfold free_memory_of, deref. mgr.
      rewrite (nth_error_set_nth_eq _ _ pr _ Hn). mgr. rewrite Eb. mgr.
      rewrite set_nth_set_nth, (nth_error_set_nth_eq _ _ pr _ Hn). mgr.
      eexists _, _. split; [reflexivity|]. simpl. conjs; trivial.
      eexists. split; [reflexivity|]. repeat constructor.
  - mgr. eexists _, _. split; [reflexivity|]. simpl. conjs; trivial.
    exists []. split; [now rewrite app_nil_r | constructor].
Qed.

(** The counter and the traffic across the first loop of [check_pending]. *)
Lemma pending_arrivals_count (progs : list program) :
  forall m,
  exists k : nat,
    pending_index (pending_arrivals m progs) = (pending_index m + k)%nat /\
    workers (pending_arrivals m progs) = workers m /\
    (0 <= pending_count m -> pending_count m + Z.of_nat k < 2 ^ 32 ->
     pending_count (pending_arrivals m progs) = pending_count m + Z.of_nat k).
Proof.
  induction progs as [|prog rest IH]; intros m; simpl.
  - exists 0%nat. conjs; trivial; lia.
  - destruct (time m <? time_arrived prog).
    + exists 0%nat. conjs; trivial; lia.
    + match goal with |- context [pending_arrivals ?m1 rest] =>
        destruct (IH m1) as (k & Hi & Hw & Hc) end.
      simpl in *. exists (S k). conjs; trivial; [lia|].
      intros H0 Hlt. rewrite Hc.
      * rewrite u32_small; lia.
      * apply u32_range.
      * rewrite u32_small; lia.
Qed.

(** The size of a block granted is the size asked for. *)
Lemma allocator_find_best_fit_size (a a' : memory_allocator) (sz : Z)
    (b : memory_block) :
  allocator_find_best_fit a sz = Ok (Some b, a') -> size b = sz.
Proof.
  unfold allocator_find_best_fit.
  destruct (strategy a); [discriminate|].
  destruct (free_list a); [discriminate|].
  destruct (best_fit_scan sz _ 0 None 0); [|discriminate].
  destruct (nth_error _ _); [|discriminate].
  intros H. injection H as <- _. reflexivity.
Qed.

(** What the scan of the specification accepts and keeps. *)
Lemma admission_spec_split (queue : list program) :
  forall a accepted kept a',
    admission_spec a queue = Ok (accepted, kept, a') ->
    Permutation (map fst accepted ++ kept) queue /\
    (List.length accepted + List.length kept = List.length queue)%nat /\
    strategy a' = strategy a /\
    (strategy a = INFINITE -> kept = [] /\ map fst accepted = queue) /\
    Forall (fun entry =>
              strategy a = BEST_FIT ->
              exists b, snd entry = Some b /\
                        size b = memory_required (fst entry)) accepted.
Proof.
  induction queue as [|prog rest IH]; intros a accepted kept a'; simpl.
  - intros H. injection H as <- <- <-. conjs; auto.
  - destruct (strategy a) eqn:Es.
    + destruct (admission_spec a rest) as [[[acc kp] a1]|] eqn:E; [|discriminate].
      simpl. intros H. injection H as <- <- <-.
      destruct (IH _ _ _ _ E) as (Hp & Hl & Hs & Hu & Hb). conjs.
      * simpl. now constructor.
      * simpl. lia.
      * congruence.
      * intros _. destruct (Hu Es) as (Hk & Hm). simpl. split; congruence.
      * constructor; [discriminate|].
        eapply Forall_impl; [|exact Hb]. intros e He Hbf. congruence.
    + destruct (allocator_find_best_fit a (memory_required prog))
        as [[granted a1]|] eqn:Ea; [|discriminate]. simpl.
      pose proof (allocator_find_best_fit_strategy _ _ _ _ Ea) as Hs1.
      destruct granted as [b|].
      * destruct (admission_spec a1 rest) as [[[acc kp] a2]|] eqn:E;
          [|discriminate].
        simpl. intros H. injection H as <- <- <-.
        destruct (IH _ _ _ _ E) as (Hp & Hl & Hs & Hu & Hb). conjs.
        -- simpl. now constructor.
        -- simpl. lia.
        -- congruence.
        -- intros Hi. congruence.
        -- constructor.
           ++ intros _. exists b. split; trivial. simpl.
              eapply allocator_find_best_fit_size; eauto.
           ++ eapply Forall_impl; [|exact Hb]. intros e He _. apply He.
              congruence.
      * destruct (admission_spec a rest) as [[[acc kp] a2]|] eqn:E;
          [|discriminate].
        simpl. intros H. injection H as <- <- <-.
        destruct (IH _ _ _ _ E) as (Hp & Hl & Hs & Hu & Hb). conjs.
        -- symmetry. apply Permutation_cons_app. symmetry. exact Hp.
        -- simpl. rewrite <- Hl. lia.
        -- congruence.
        -- intros Hi. congruence.
        -- eapply Forall_impl; [|exact Hb]. intros e He _. now apply He.
Qed.

(** A scan that keeps no program has accepted the queue in its order. *)
Lemma admission_spec_all (queue : list program) :
  forall a accepted a',
    admission_spec a queue = Ok (accepted, [], a') ->
    map fst accepted = queue.
Proof.
  induction queue as [|prog rest IH]; intros a accepted a'; simpl.
  - intros H. now injection H as <- <-.
  - destruct (strategy a).
    + destruct (admission_spec a rest) as [[[acc kp] a1]|] eqn:E; [|discriminate].
      simpl. intros H. injection H as <- -> <-. simpl. f_equal. eauto.
    + destruct (allocator_find_best_fit a (memory_required prog))
        as [[[b|] a1]|]; [| |discriminate]; simpl.
      * destruct (admission_spec a1 rest) as [[[acc kp] a2]|] eqn:E;
          [|discriminate].
        simpl. intros H. injection H as <- -> <-. simpl. f_equal. eauto.
      * destruct (admission_spec a rest) as [[[acc kp] a2]|]; [|discriminate].
        simpl. discriminate.
Qed.

(** [check_pending], field by field. *)
Lemma check_pending_trace (m m' : manager) :
  check_pending m = Ok m' ->
  exists moved rest accepted kept,
    skipn (pending_index m) (pPrograms m) = moved ++ rest /\
    Forall (fun p => time_arrived p <= time m) moved /\
    match rest with [] => True | p :: _ => time m < time_arrived p end /\
    admission_spec (allocator m) (list_input m ++ moved) =
      Ok (accepted, kept, allocator m') /\
    list_input m' = kept /\
    list_active m' = list_active m ++ map new_process accepted /\
    list_ready m' =
      list_ready m ++ seq (List.length (list_active m)) (List.length accepted) /\
    pRunningProcess m' = pRunningProcess m /\ pPrograms m' = pPrograms m /\
    time m' = time m /\ type m' = type m /\
    pending_index m' = (pending_index m + List.length moved)%nat /\
    workers m' = workers m /\
    stdout m' = stdout m ++ ready_lines (time m) accepted /\
    (0 <= pending_count m ->
     pending_count m + Z.of_nat (List.length moved) < 2 ^ 32 ->
     pending_count m' = pending_count m + Z.of_nat (List.length moved)).
Proof.
  unfold check_pending. intros H.
  set (progs := skipn (pending_index m) (pPrograms m)) in *.
  destruct (pending_arrivals_effect progs m)
    as (moved & rest & Hsplit & Hmoved & Hrest & Hin & Hidx & Hact & Hrd & Hrun
        & Hal & Hpp & Htime & Htype & Hout).
  destruct (pending_arrivals_count progs m) as (k & Hk & Hw & Hc).
  assert (k = List.length moved) by lia. subst k.
  destruct (pending_scan_effect (list_input (pending_arrivals m progs))
              (pending_arrivals m progs) [] m' eq_refl H)
    as (accepted & kept & Hspec & Hin' & Hact' & Hrd' & Hout' & Hrun' & Hpp'
        & Htime' & Htype' & Hpc' & Hpi' & Hw').
  exists moved, rest, accepted, kept. simpl in Hin'.
  rewrite Hal, Hin in Hspec. rewrite Hact in Hact', Hrd'. rewrite Hrd in Hrd'.
  rewrite Hout, Htime in Hout'.
  conjs; trivial; try congruence.
  intros H0 Hlt. rewrite Hpc'. now apply Hc.
Qed.

(** ** The ledger is kept *)

Lemma firstn_skipn_prefix {A : Type} (l : list A) (n : nat) (a b : list A) :
  (n <= List.length l)%nat -> skipn n l = a ++ b ->
  firstn (n + List.length a) l = firstn n l ++ a /\
  (n + List.length a <= List.length l)%nat.
Proof.
  intros Hn Hs. pose proof (firstn_skipn n l) as Hl. rewrite Hs in Hl.
  pose proof (firstn_length_le l Hn) as Hlen.
  split.
  - rewrite <- Hl at 1. rewrite <- Hlen at 1. rewrite firstn_app_2.
    f_equal. rewrite <- (Nat.add_0_r (List.length a)). rewrite firstn_app_2.
    simpl. now rewrite app_nil_r.
  - rewrite <- Hl. rewrite !length_app. lia.
Qed.

Lemma map_pProgram_new (accepted : list (program * option memory_block)) :
  map pProgram (map new_process accepted) = map fst accepted.
Proof. rewrite map_map. reflexivity. Qed.

Lemma filter_unfinished_new (accepted : list (program * option memory_block)) :
  filter unfinished (map new_process accepted) = map new_process accepted.
Proof. induction accepted as [|e l IH]; simpl; [|rewrite IH]; trivial. Qed.

Lemma unfinished_count_le (l : list process) :
  (List.length (filter unfinished l) <= List.length l)%nat.
Proof. apply filter_length_le. Qed.

(** The number of programs that have come in and not finished is at most
    the position of the static index. *)
Lemma ledger_bound (m : manager) :
  ledger m ->
  (List.length (list_active m) + List.length (list_input m)
   = pending_index m)%nat.
Proof.
  intros [_ Hi Hp _ _ _ _]. apply Permutation_length in Hp.
  rewrite length_app, length_map in Hp. rewrite Hp.
  now apply firstn_length_le.
Qed.

Lemma held_blocks_in (m : manager) (pr : process) (b : memory_block) :
  In pr (list_active m) -> pBlock pr = Some b -> In b (held_blocks m).
Proof.
  intros Hin Hb. unfold held_blocks. apply in_flat_map. exists pr.
  split; trivial. unfold block_list. rewrite Hb. now left.
Qed.

Lemma ledger_check_pending (q : Z) (m m' : manager) :
  engine_invariant q m -> engine_invariant q m' -> ledger m ->
  check_pending m = Ok m' -> ledger m'.
Proof.
  intros Hinv Hinv' Hled Hcp. pose proof (ledger_bound m Hled) as Hbound.
  destruct Hled as [Hfew Hidx Hperm Hunb Hcount Hcells Hwork].
  destruct (check_pending_trace m m' Hcp)
    as (moved & rest & accepted & kept & Hskip & Hmoved & Hrest & Hspec & Hin
        & Hact & Hrd & Hrun & Hpp & Htime & Htype & Hpi & Hw & Hout & Hpc).
  destruct (admission_spec_split _ _ _ _ _ Hspec)
    as (Hsplit & Hlen & Hstrat & Hinf & Hblocks).
  destruct (firstn_skipn_prefix _ _ _ _ Hidx Hskip) as (Hfirst & Hidx').
  pose proof (unfinished_count_le (list_active m)) as Hule.
  rewrite length_app in Hlen.
  constructor.
  - now rewrite Hpp.
  - now rewrite Hpp, Hpi.
  - rewrite Hpp, Hpi, Hfirst, Hact, Hin, map_app, map_pProgram_new.
    rewrite <- app_assoc. rewrite (Permutation_app_head _ Hsplit).
    rewrite !app_assoc. apply Permutation_app_tail. exact Hperm.
  - rewrite Hstrat. intros Hs. destruct (Hunb Hs) as (Hnil & Hmap).
    destruct (Hinf Hs) as (Hk & Hm). rewrite Hnil in Hm. simpl in Hm.
    rewrite Hin, Hact, Hpp, Hpi, Hfirst, map_app, map_pProgram_new.
    split; congruence.
  - rewrite Hpc, Hcount, Hin, Hact, filter_app, filter_unfinished_new,
      length_app, length_map; lia.
  - intros p pr Hn. rewrite Hact in Hn.
    destruct (Nat.lt_ge_cases p (List.length (list_active m))) as [Hlt|Hge].
    + rewrite nth_error_app1 in Hn by trivial.
      destruct (Hcells p pr Hn) as (H1 & H2 & H3 & H4 & H5 & H6).
      unfold cell_ok. rewrite Hrd, Hrun, Hstrat. conjs; trivial.
      rewrite H1, in_app_iff, in_seq. split; [auto|]. intros [H|H]; [trivial|lia].
    + rewrite nth_error_app2 in Hn by trivial.
      assert (Hp : (p - List.length (list_active m) < List.length accepted)%nat).
      { rewrite <- (length_map new_process). apply nth_error_Some. congruence. }
      apply nth_error_In in Hn. apply in_map_iff in Hn.
      destruct Hn as (e & <- & He). unfold cell_ok. simpl.
      rewrite Hrd, Hrun, Hstrat. conjs; try discriminate; auto.
      * split; [|trivial]. intros _. rewrite in_app_iff, in_seq.
        right. lia.
      * split; [discriminate|]. intros Hr.
        destruct Hinv as [_ Hrunning _ _ _ _].
        destruct (Hrunning p Hr) as (pr0 & Hn0 & _).
        assert (p < List.length (list_active m))%nat; [|lia].
        apply nth_error_Some. congruence.
      * intros Hs. rewrite Forall_forall in Hblocks.
        destruct (Hblocks e He Hs) as (b & Hb & Hsz). rewrite <- Hsz.
        destruct Hinv' as [_ _ Hpool _ _ _].
        rewrite Hstrat in Hpool. specialize (Hpool Hs).
        destruct Hpool as [_ Hown _ _ _]. rewrite Forall_forall in Hown.
        assert (Hwithin : within_pool b).
        { apply Hown. apply (held_blocks_in m' (new_process e)); trivial.
          rewrite Hact. apply in_app_iff. right. now apply in_map. }
        destruct Hwithin as (Hw1 & Hw2 & Hw3). unfold block_end in Hw3. lia.
  - now rewrite Hw.
Qed.

(** A stage that leaves the store, the queues and the counters alone. *)
Lemma ledger_quiet (m m' : manager) :
  ledger m ->
  list_active m' = list_active m -> list_ready m' = list_ready m ->
  pRunningProcess m' = pRunningProcess m ->
  strategy (allocator m') = strategy (allocator m) ->
  pPrograms m' = pPrograms m -> list_input m' = list_input m ->
  pending_count m' = pending_count m -> pending_index m' = pending_index m ->
  (exists evs, workers m' = workers m ++ evs /\
               Forall (fun ev => 0 < event_child ev) evs) ->
  ledger m'.
Proof.
  intros [H1 H2 H3 H4 H5 H6 H7] Ha Hr Hrun Hs Hp Hi Hc Hx (evs & Hw & Hev).
  constructor; unfold cell_ok in *;
    rewrite ?Ha, ?Hr, ?Hrun, ?Hs, ?Hp, ?Hi, ?Hc, ?Hx; trivial.
  rewrite Hw. apply Forall_app. now split.
Qed.

(** A stage that rewrites one process of the store. *)
Lemma ledger_store (m m' : manager) (r : nat) (pr pr' : process) :
  ledger m ->
  nth_error (list_active m) r = Some pr ->
  list_active m' = set_nth (list_active m) r pr' ->
  pProgram pr' = pProgram pr ->
  strategy (allocator m') = strategy (allocator m) ->
  pPrograms m' = pPrograms m -> list_input m' = list_input m ->
  pending_index m' = pending_index m ->
  pending_count m' =
    pending_count m - (if unfinished pr then 1 else 0)
    + (if unfinished pr' then 1 else 0) ->
  (exists evs, workers m' = workers m ++ evs /\
               Forall (fun ev => 0 < event_child ev) evs) ->
  cell_ok m' r pr' ->
  (forall p pr0, p <> r -> nth_error (list_active m) p = Some pr0 ->
     cell_ok m p pr0 ->
     (state pr0 = READY <-> In p (list_ready m')) /\
     (state pr0 = RUNNING <-> pRunningProcess m' = Some p)) ->
  ledger m'.
Proof.
  intros [H1 H2 H3 H4 H5 H6 H7] Hn Ha Hprog Hs Hp Hi Hx Hc (evs & Hw & Hev)
    Hcell Hothers.
  assert (Hmap : map pProgram (list_active m') = map pProgram (list_active m)).
  { rewrite Ha. now apply (map_set_nth_same pProgram _ r pr). }
  constructor.
  - now rewrite Hp.
  - now rewrite Hp, Hx.
  - now rewrite Hmap, Hi, Hp, Hx.
  - now rewrite Hs, Hmap, Hi, Hp, Hx.
  - rewrite Hc, Hi, Ha, (filter_set_nth_length unfinished _ r pr pr' Hn), H5.
    lia.
  - intros p pr0 Hn0. rewrite Ha in Hn0.
    destruct (Nat.eq_dec r p) as [<-|Hne].
    + rewrite (nth_error_set_nth_eq _ _ pr _ Hn) in Hn0. injection Hn0 as <-.
      exact Hcell.
    + rewrite nth_error_set_nth_neq in Hn0 by trivial.
      pose proof (H6 p pr0 Hn0) as Hc0.
      destruct (Hothers p pr0 (not_eq_sym Hne) Hn0 Hc0) as (Hr1 & Hr2).
      destruct Hc0 as (_ & _ & C3 & C4 & C5 & C6).
      unfold cell_ok. rewrite Hs. conjs; trivial.
  - rewrite Hw. apply Forall_app. now split.
Qed.

Lemma events_positive (c : Z) (evs : list worker_event) :
  0 < c -> Forall (fun ev => event_child ev = c) evs ->
  Forall (fun ev => 0 < event_child ev) evs.
Proof.
  intros Hc H. eapply Forall_impl; [|exact H]. simpl. intros ev ->. exact Hc.
Qed.

Lemma ledger_keep_process_running (q : Z) (m m' : manager) (keep : bool) :
  engine_invariant q m -> ledger m ->
  keep_process_running m = Ok (keep, m') -> ledger m'.
Proof.
  intros Hinv Hled Hk. pose proof (keep_process_running_trace m) as Ht.
  destruct (pRunningProcess m) as [r|] eqn:Er.
  2:{ rewrite Ht in Hk. now injection Hk as _ <-. }
  destruct Hinv as [Hready Hrunning _ _ _ _].
  destruct (Hrunning r Er) as (pr & Hn & Hst).
  destruct (Ht pr Hn) as (keep0 & m0 & Hk0 & Hal & Hpp & Hin & Htime & Htype
                          & Hpc & Hpi & Hout & (evs & Hw & Hev) & Hcase).
  rewrite Hk0 in Hk. injection Hk as <- <-.
  pose proof (led_cells m Hled r pr Hn) as (C1 & C2 & C3 & C4 & C5 & C6).
  assert (Hevs : exists evs, workers m0 = workers m ++ evs /\
                             Forall (fun ev => 0 < event_child ev) evs).
  { exists evs. split; trivial. apply (events_positive (child_pid pr)); trivial.
    rewrite (C5 Hst). lia. }
  destruct keep0.
  - destruct Hcase as (_ & Ha & Hr & Hrun).
    apply (ledger_quiet m); trivial; congruence.
  - destruct Hcase as (_ & _ & Ha & Hr & Hrun).
    apply (ledger_store m m0 r pr (set_state pr READY)); trivial; try congruence.
    + unfold unfinished. simpl. rewrite Hst. lia.
    + unfold cell_ok. simpl. rewrite Hr, Hrun, Hal. conjs; trivial;
        try discriminate.
      * split; trivial. intros _. apply in_app_iff. right. now left.
      * split; discriminate.
    + intros p pr0 Hne Hn0 (D1 & D2 & _). rewrite Hr, Hrun, in_app_iff.
      split.
      * rewrite D1. split; [auto|]. intros [H|[H|[]]]; trivial. congruence.
      * rewrite D2, Er. split; [|discriminate]. intros H. congruence.
Qed.

Lemma ledger_switch_process (q : Z) (m m' : manager) :
  engine_invariant q m -> ledger m -> pRunningProcess m = None ->
  switch_process m = Ok m' -> ledger m'.
Proof.
  intros Hinv Hled Hnone Hsw.
  destruct (switch_process_trace q m Hinv)
    as [(_ & Hsame)|(m0 & pos & p & pr & pr' & evs & Hsw0 & Hpos & Hn & Ha
                     & Hprog & Hrt & Hblk & Hst & Hpid & Hr & Hrun & Hal & Hpp
                     & Hin & Htime & Htype & Hpc & Hpi & Hw & Hev)].
  { rewrite Hsame in Hsw. now injection Hsw as <-. }
  rewrite Hsw0 in Hsw. injection Hsw as <-.
  destruct Hinv as [(Hnd & Hrdy) _ _ _ _ _].
  pose proof (led_cells m Hled p pr Hn) as (C1 & C2 & C3 & C4 & C5 & C6).
  assert (Hready : state pr = READY).
  { apply C1. eapply nth_error_In; eauto. }
  assert (Hchild : child_pid pr' = Z.of_nat p + 1).
  { rewrite Hpid. destruct (child_pid pr =? PID_NULL_HANDLE) eqn:E; trivial.
    apply Z.eqb_neq in E. destruct C4; congruence. }
  apply (ledger_store m m0 p pr pr'); trivial; try congruence.
  - unfold unfinished. rewrite Hst, Hready. lia.
  - exists evs. split; trivial. apply (events_positive (child_pid pr')); trivial.
    lia.
  - unfold cell_ok. rewrite Hr, Hrun, Hal, Hst, Hprog. conjs; trivial;
      try discriminate.
    + split; [discriminate|]. intros H.
      apply (In_list_pop_node _ pos p p Hnd Hpos) in H. now destruct H.
    + tauto.
    + now right.
  - intros p0 pr0 Hne Hn0 (D1 & D2 & _). rewrite Hr, Hrun.
    rewrite (In_list_pop_node _ pos p p0 Hnd Hpos). split.
    + rewrite D1. tauto.
    + rewrite D2, Hnone. split; [discriminate|]. intros H. congruence.
Qed.

Lemma ledger_update (tie : tie_rule) (sha : string -> string) (q : Z)
    (m m' : manager) :
  engine_invariant q m -> ledger m ->
  update tie sha m q = Ok m' -> ledger m'.
Proof.
  intros Hinv Hled Hup. pose proof (update_trace tie sha m q) as Ht.
  destruct (pRunningProcess m) as [r|] eqn:Er.
  2:{ rewrite Ht in Hup. injection Hup as <-.
      apply (ledger_quiet m); trivial. exists []. split; [|constructor].
      simpl. now rewrite app_nil_r. }
  pose proof Hinv as [Hready Hrunning _ _ _ Hproc].
  destruct (Hrunning r Er) as (pr & Hn & Hst).
  rewrite Forall_forall in Hproc.
  pose proof (Hproc pr (nth_error_In _ _ Hn)) as (_ & _ & _ & Hblock).
  destruct (Ht pr Hn) as (m0 & pr' & Hup0 & Ha & Hprog & Hrt & Hpid & Hr & Hpp
                          & Hin & Htime & Htype & Hpi & Hs & (evs & Hw & Hev)
                          & Hcase).
  { intros Hs. rewrite Hs in Hblock. intros Hnone. apply Hblock in Hnone.
    congruence. }
  rewrite Hup0 in Hup. injection Hup as <-.
  pose proof (led_cells m Hled r pr Hn) as (C1 & C2 & C3 & C4 & C5 & C6).
  assert (Hevs : exists evs, workers m0 = workers m ++ evs /\
                             Forall (fun ev => 0 < event_child ev) evs).
  { exists evs. split; trivial. apply (events_positive (child_pid pr)); trivial.
    rewrite (C5 Hst). lia. }
  assert (Hnotin : ~ In r (list_ready m)).
  { intros H. apply C1 in H. congruence. }
  destruct (service_time (pProgram pr) <=? u32 (run_time pr + q)) eqn:Efin.
  - destruct Hcase as (Hst' & Hrun & Hpc). apply Z.leb_le in Efin.
    assert (Hcount : 1 <= pending_count m < 2 ^ 32).
    { pose proof (ledger_bound m Hled) as Hb.
      pose proof (unfinished_count_le (list_active m)) as Hule.
      pose proof (filter_set_nth_length unfinished _ r pr pr' Hn) as Hf.
      unfold unfinished at 3 4 in Hf. rewrite Hst, Hst' in Hf.
      rewrite (led_count m Hled). destruct Hled as [Hfew Hidx _ _ _ _ _]. lia. }
    apply (ledger_store m m0 r pr pr'); trivial.
    + unfold unfinished. rewrite Hst, Hst', Hpc. rewrite u32_small; lia.
    + unfold cell_ok. rewrite Hr, Hrun, Hs, Hst', Hprog, Hrt, Hpid.
      conjs; trivial; try discriminate.
      * split; [discriminate|]. intros H. contradiction.
      * split; discriminate.
    + intros p pr0 Hne Hn0 (D1 & D2 & _). rewrite Hr, Hrun. split; trivial.
      rewrite D2, Er. split; [|discriminate]. intros H. congruence.
  - destruct Hcase as (Hst' & Hrun & Hpc & Hblk & Hal & Hout).
    apply (ledger_store m m0 r pr pr'); trivial.
    + unfold unfinished. rewrite Hst', Hpc. lia.
    + unfold cell_ok. rewrite Hr, Hrun, Hs, Hst', Hprog, Hpid, Hst.
      conjs; trivial; try discriminate.
      * split; [discriminate|]. intros H. contradiction.
      * tauto.
      * intros _. now apply C5.
    + intros p pr0 Hne Hn0 (D1 & D2 & _). rewrite Hr, Hrun. split; trivial.
      now rewrite D2, Er.
Qed.

(** One iteration of the execution loop, stage by stage. *)
Lemma step_stages (tie : tie_rule) (sha : string -> string) (q : Z)
    (m : manager) :
  in_u32 q -> engine_invariant q m ->
  exists m1 keep m2 m3 m',
    check_pending m = Ok m1 /\ engine_invariant q m1 /\
    keep_process_running m1 = Ok (keep, m2) /\ engine_invariant q m2 /\
    (if keep then m3 = m2 else switch_process m2 = Ok m3) /\
    engine_invariant q m3 /\
    (keep = false -> pRunningProcess m2 = None) /\
    update tie sha m3 q = Ok m' /\ engine_invariant q m' /\
    step tie sha q m = Ok m'.
Proof.
  intros Hq Hinv. unfold step.
  destruct (check_pending_invariant q m Hq Hinv) as (m1 & Hcp & Hinv1 & _).
  destruct (keep_process_running_invariant q m1 Hinv1)
    as (keep & m2 & Hk & Hinv2 & _ & _ & Hfalse & _).
  assert (Hsw : exists m3, (if keep then Ok m2 else switch_process m2) = Ok m3 /\
                           (if keep then m3 = m2 else switch_process m2 = Ok m3) /\
                           engine_invariant q m3).
  { destruct keep.
    - exists m2. auto.
    - destruct (switch_process_invariant q m2 Hinv2) as (m3 & Hs & Hinv3 & _).
      exists m3. auto. }
  destruct Hsw as (m3 & Hsw & Hsw' & Hinv3).
  destruct (update_invariant tie sha q m3 Hq Hinv3) as (m' & Hup & Hinv' & _).
  exists m1, keep, m2, m3, m'. rewrite Hcp. simpl. rewrite Hk. simpl.
  rewrite Hsw. simpl. conjs; trivial.
Qed.

Lemma step_ledger (tie : tie_rule) (sha : string -> string) (q : Z)
    (m m' : manager) :
  in_u32 q -> engine_invariant q m -> ledger m ->
  step tie sha q m = Ok m' -> ledger m'.
Proof.
  intros Hq Hinv Hled Hstep.
  destruct (step_stages tie sha q m Hq Hinv)
    as (m1 & keep & m2 & m3 & m0 & Hcp & Hinv1 & Hk & Hinv2 & Hsw & Hinv3
        & Hnone & Hup & _ & Hstep0).
  rewrite Hstep0 in Hstep. injection Hstep as <-.
  pose proof (ledger_check_pending q m m1 Hinv Hinv1 Hled Hcp) as Hled1.
  pose proof (ledger_keep_process_running q m1 m2 keep Hinv1 Hled1 Hk) as Hled2.
  assert (Hled3 : ledger m3).
  { destruct keep.
    - now subst m3.
    - apply (ledger_switch_process q m2 m3); auto. }
  exact (ledger_update tie sha q m3 m0 Hinv3 Hled3 Hup).
Qed.

Lemma boot_ledger (t : SCHEDULER_TYPE) (s : MEMORY_STRATEGY)
    (progs : list program) :
  Z.of_nat (List.length progs) < 2 ^ 32 -> ledger (boot t s progs).
Proof.
  intros Hfew. rewrite boot_effect. constructor; simpl; trivial.
  - lia.
  - intros _. auto.
  - intros [|p] pr H; discriminate.
Qed.

Lemma reachable_ledger (tie : tie_rule) (sha : string -> string) (q : Z)
    (t : SCHEDULER_TYPE) (s : MEMORY_STRATEGY) (progs : list program)
    (m : manager) :
  in_u32 q -> Forall program_ok progs ->
  Z.of_nat (List.length progs) < 2 ^ 32 ->
  reachable tie sha q (boot t s progs) m ->
  engine_invariant q m /\ ledger m /\
  pPrograms m = progs /\ type m = t /\ strategy (allocator m) = s.
Proof.
  intros Hq Hprogs Hfew Hreach. induction Hreach as [|m m' Hreach IH Hstep].
  - split; [now apply boot_invariant|]. split; [now apply boot_ledger|].
    rewrite boot_effect. simpl. conjs; trivial. now destruct s.
  - destruct IH as (Hinv & Hled & Hp & Ht & Hs).
    destruct (step_invariant tie sha q m Hq Hinv)
      as (m0 & Hstep0 & Hinv' & (Hp' & Ht' & Hs' & _) & _).
    rewrite Hstep0 in Hstep. injection Hstep as <-.
    conjs; try congruence. apply (step_ledger tie sha q m m0); trivial.
Qed.

(** ** The execution loop *)

Lemma u32_add_u32 (a b : Z) : u32 (u32 a + b) = u32 (a + b).
Proof. unfold u32. apply Zplus_mod_idemp_l. Qed.

Lemma run_steps_total (tie : tie_rule) (sha : string -> string) (q : Z)
    (n : nat) :
  in_u32 q ->
  forall m, engine_invariant q m -> in_u32 (time m) ->
  exists m', run_steps tie sha q n m = Ok m' /\ engine_invariant q m' /\
             time m' = u32 (time m + Z.of_nat n * q).
Proof.
  intros Hq. induction n as [|n IH]; intros m Hinv Htime.
  - exists m. simpl. conjs; trivial. rewrite Z.add_0_r.
    symmetry. now apply u32_small.
  - destruct (step_invariant tie sha q m Hq Hinv) as (m1 & Hstep & Hinv1 & _ & Ht).
    destruct (IH m1 Hinv1) as (m' & Hrun & Hinv' & Ht').
    { rewrite Ht. apply u32_range. }
    exists m'. rewrite Nat2Z.inj_succ. simpl run_steps. rewrite Hstep.
    unfold bind. conjs; trivial.
    rewrite Ht', Ht, u32_add_u32. f_equal. lia.
Qed.

Lemma execution_loop_safe (tie : tie_rule) (sha : string -> string) (q : Z)
    (fuel : nat) :
  in_u32 q ->
  forall m, engine_invariant q m ->
            execution_loop tie sha fuel q m <> Aborted.
Proof.
  intros Hq. induction fuel as [|fuel IH]; intros m Hinv; simpl.
  - discriminate.
  - destruct (should_terminate m); [discriminate|].
    destruct (step_invariant tie sha q m Hq Hinv) as (m1 & -> & Hinv1 & _).
    now apply IH.
Qed.

(** X1. No iteration of the execution loop fails an [assert] or dereferences
    [NULL], whatever the programs, the policy and the memory strategy: the
    first [n] iterations complete, and the clock then shows [n] quanta,
    modulo 2^32. *)
Theorem execution_loop_never_aborts (tie : tie_rule) (sha : string -> string)
    (q : Z) (t : SCHEDULER_TYPE) (s : MEMORY_STRATEGY) (progs : list program)
    (n : nat) :
  in_u32 q -> Forall program_ok progs ->
  (exists m, run_steps tie sha q n (boot t s progs) = Ok m /\
             time m = u32 (Z.of_nat n * q)) /\
  execution_loop tie sha n q (boot t s progs) <> Aborted.
Proof.
  intros Hq Hprogs. pose proof (boot_invariant q t s progs Hprogs) as Hinv.
  split; [|now apply execution_loop_safe].
  destruct (run_steps_total tie sha q n Hq (boot t s progs) Hinv)
    as (m & Hrun & _ & Ht).
  - rewrite boot_effect. simpl. unfold in_u32. lia.
  - exists m. split; trivial. rewrite Ht, boot_effect. reflexivity.
Qed.

Lemma execution_loop_never_aborts_witness :
  (exists m, run_steps NewAfterEqual silent 3 2 overrun_boot = Ok m /\
             time m = u32 (Z.of_nat 2 * 3)) /\
  execution_loop NewAfterEqual silent 2 3 overrun_boot <> Aborted.
Proof.
  apply (execution_loop_never_aborts NewAfterEqual silent 3 SJF INFINITE
           [mk_program "P1" 0 5 0] 2).
  - unfold in_u32. lia.
  - repeat constructor; simpl; lia.
Defined.

(** ** What the ledger says of the reachable states *)

Lemma rotation_reachable :
  reachable NewAfterEqual silent 3 contended_boot rotation_state.
Proof.
  apply (run_steps_reachable NewAfterEqual silent 3 contended_boot 1
           contended_boot); [apply reach_boot | reflexivity].
Qed.

Lemma contended_programs_ok :
  Forall program_ok [mk_program "P1" 0 6 1500; mk_program "P2" 0 6 600;
                     mk_program "P3" 0 6 500].
Proof. repeat constructor; simpl; lia. Qed.

(** X2. No program is lost and none is given two processes: the programs
    that the static index of [check_pending] has passed are, counted with
    their repetitions, those waiting in the input list and those of the
    processes. With unbounded memory none waits, and the processes are in
    the order of the input file. *)
Theorem programs_accounted (tie : tie_rule) (sha : string -> string) (q : Z)
    (t : SCHEDULER_TYPE) (s : MEMORY_STRATEGY) (progs : list program)
    (m : manager) :
  in_u32 q -> Forall program_ok progs ->
  Z.of_nat (List.length progs) < 2 ^ 32 ->
  reachable tie sha q (boot t s progs) m ->
  pPrograms m = progs /\
  (pending_index m <= List.length progs)%nat /\
  Permutation (map pProgram (list_active m) ++ list_input m)
              (firstn (pending_index m) progs) /\
  (s = INFINITE ->
   list_input m = [] /\
   map pProgram (list_active m) = firstn (pending_index m) progs).
Proof.
  intros Hq Hprogs Hfew Hreach.
  destruct (reachable_ledger tie sha q t s progs m Hq Hprogs Hfew Hreach)
    as (_ & [_ Hidx Hperm Hunb _ _ _] & Hp & _ & Hs).
  rewrite Hp in *. rewrite Hs in Hunb. auto.
Qed.

Lemma programs_accounted_witness :
  pPrograms rotation_state =
    [mk_program "P1" 0 6 1500; mk_program "P2" 0 6 600;
     mk_program "P3" 0 6 500] /\
  (pending_index rotation_state <= 3)%nat /\
  Permutation
    (map pProgram (list_active rotation_state) ++ list_input rotation_state)
    (firstn (pending_index rotation_state)
       [mk_program "P1" 0 6 1500; mk_program "P2" 0 6 600;
        mk_program "P3" 0 6 500]) /\
  (BEST_FIT = INFINITE ->
   list_input rotation_state = [] /\
   map pProgram (list_active rotation_state) =
   firstn (pending_index rotation_state)
     [mk_program "P1" 0 6 1500; mk_program "P2" 0 6 600;
      mk_program "P3" 0 6 500]).
Proof.
  apply (programs_accounted NewAfterEqual silent 3 RR BEST_FIT
           [mk_program "P1" 0 6 1500; mk_program "P2" 0 6 600;
            mk_program "P3" 0 6 500] rotation_state).
  - unfold in_u32. lia.
  - exact contended_programs_ok.
  - simpl. lia.
  - exact rotation_reachable.
Defined.

(** X3. [pending_count], the number printed as [proc_remaining], is the
    number of programs waiting in the input list plus the number of
    processes that have not finished; it never wraps around. *)
Theorem pending_count_counts_unfinished (tie : tie_rule)
    (sha : string -> string) (q : Z) (t : SCHEDULER_TYPE)
    (s : MEMORY_STRATEGY) (progs : list program) (m : manager) :
  in_u32 q -> Forall program_ok progs ->
  Z.of_nat (List.length progs) < 2 ^ 32 ->
  reachable tie sha q (boot t s progs) m ->
  pending_count m =
    Z.of_nat (List.length (list_input m))
    + Z.of_nat (List.length (filter unfinished (list_active m))) /\
  0 <= pending_count m <= Z.of_nat (List.length progs).
Proof.
  intros Hq Hprogs Hfew Hreach.
  destruct (reachable_ledger tie sha q t s progs m Hq Hprogs Hfew Hreach)
    as (_ & Hled & Hp & _ & _).
  pose proof (ledger_bound m Hled) as Hb.
  pose proof (unfinished_count_le (list_active m)) as Hule.
  destruct Hled as [_ Hidx _ _ Hcount _ _]. rewrite Hp in Hidx.
  split; trivial. lia.
Qed.

Lemma pending_count_counts_unfinished_witness :
  pending_count rotation_state =
    Z.of_nat (List.length (list_input rotation_state))
    + Z.of_nat (List.length (filter unfinished (list_active rotation_state))) /\
  0 <= pending_count rotation_state <= Z.of_nat 3.
Proof.
  apply (pending_count_counts_unfinished NewAfterEqual silent 3 RR BEST_FIT
           [mk_program "P1" 0 6 1500; mk_program "P2" 0 6 600;
            mk_program "P3" 0 6 500] rotation_state).
  - unfold in_u32. lia.
  - exact contended_programs_ok.
  - simpl. lia.
  - exact rotation_reachable.
Defined.

(** X4. The states of the processes follow the queues: a process is
    [READY] exactly when the ready list points to it, which it does at
    most once, and [RUNNING] exactly when [pRunningProcess] points to it;
    so at most one process is [RUNNING]. *)
Theorem states_follow_queues (tie : tie_rule) (sha : string -> string)
    (q : Z) (t : SCHEDULER_TYPE) (s : MEMORY_STRATEGY)
    (progs : list program) (m : manager) :
  in_u32 q -> Forall program_ok progs ->
  Z.of_nat (List.length progs) < 2 ^ 32 ->
  reachable tie sha q (boot t s progs) m ->
  NoDup (list_ready m) /\
  (forall p pr, nth_error (list_active m) p = Some pr ->
     (state pr = READY <-> In p (list_ready m)) /\
     (state pr = RUNNING <-> pRunningProcess m = Some p)) /\
  (forall p1 p2 pr1 pr2,
     nth_error (list_active m) p1 = Some pr1 ->
     nth_error (list_active m) p2 = Some pr2 ->
     state pr1 = RUNNING -> state pr2 = RUNNING -> p1 = p2).
Proof.
  intros Hq Hprogs Hfew Hreach.
  destruct (reachable_ledger tie sha q t s progs m Hq Hprogs Hfew Hreach)
    as ([(Hnd & _) _ _ _ _ _] & [_ _ _ _ _ Hcells _] & _).
  conjs; trivial.
  - intros p pr Hn. destruct (Hcells p pr Hn) as (H1 & H2 & _). now split.
  - intros p1 p2 pr1 pr2 Hn1 Hn2 Hs1 Hs2.
    destruct (Hcells p1 pr1 Hn1) as (_ & H1 & _).
    destruct (Hcells p2 pr2 Hn2) as (_ & H2 & _).
    apply H1 in Hs1. apply H2 in Hs2. congruence.
Qed.

Lemma states_follow_queues_witness :
  NoDup (list_ready rotation_state) /\
  (forall p pr, nth_error (list_active rotation_state) p = Some pr ->
     (state pr = READY <-> In p (list_ready rotation_state)) /\
     (state pr = RUNNING <-> pRunningProcess rotation_state = Some p)) /\
  (forall p1 p2 pr1 pr2,
     nth_error (list_active rotation_state) p1 = Some pr1 ->
     nth_error (list_active rotation_state) p2 = Some pr2 ->
     state pr1 = RUNNING -> state pr2 = RUNNING -> p1 = p2).
Proof.
  apply (states_follow_queues NewAfterEqual silent 3 RR BEST_FIT
           [mk_program "P1" 0 6 1500; mk_program "P2" 0 6 600;
            mk_program "P3" 0 6 500] rotation_state).
  - unfold in_u32. lia.
  - exact contended_programs_ok.
  - simpl. lia.
  - exact rotation_reachable.
Defined.

(** X5. A process is [FINISHED] only once its run-time has reached the
    service time of its program. Under best fit a process holds a block
    of the pool until it finishes and none afterwards; with unbounded
    memory it never holds one. *)
Theorem finished_after_service (tie : tie_rule) (sha : string -> string)
    (q : Z) (t : SCHEDULER_TYPE) (s : MEMORY_STRATEGY)
    (progs : list program) (m : manager) :
  in_u32 q -> Forall program_ok progs ->
  Z.of_nat (List.length progs) < 2 ^ 32 ->
  reachable tie sha q (boot t s progs) m ->
  forall pr, In pr (list_active m) ->
    (state pr = FINISHED -> service_time (pProgram pr) <= run_time pr) /\
    match s with
    | BEST_FIT => state pr = FINISHED <-> pBlock pr = None
    | INFINITE => pBlock pr = None
    end.
Proof.
  intros Hq Hprogs Hfew Hreach pr Hin.
  destruct (reachable_ledger tie sha q t s progs m Hq Hprogs Hfew Hreach)
    as ([_ _ _ _ _ Hproc] & [_ _ _ _ _ Hcells _] & _ & _ & Hs).
  destruct (In_nth_error _ _ Hin) as (p & Hn).
  destruct (Hcells p pr Hn) as (_ & _ & H3 & _).
  rewrite Forall_forall in Hproc. destruct (Hproc pr Hin) as (_ & _ & _ & Hb).
  rewrite Hs in Hb. now split.
Qed.

Lemma finished_after_service_witness :
  (state overrun_process = FINISHED ->
   service_time (pProgram overrun_process) <= run_time overrun_process) /\
  pBlock overrun_process = None.
Proof.
  apply (finished_after_service NewAfterEqual silent 3 SJF INFINITE
           [mk_program "P1" 0 5 0] overrun_state).
  - unfold in_u32. lia.
  - repeat constructor; simpl; lia.
  - simpl. lia.
  - exact overrun_reachable.
  - left. reflexivity.
Defined.

(** X6. Every message and every signal goes to a subprocess that [fork]
    has created: the pid is never [PID_NULL_HANDLE], which [kill] would
    take for a process group. A [RUNNING] process has its subprocess. *)
Theorem signals_reach_children (tie : tie_rule) (sha : string -> string)
    (q : Z) (t : SCHEDULER_TYPE) (s : MEMORY_STRATEGY)
    (progs : list program) (m : manager) :
  in_u32 q -> Forall program_ok progs ->
  Z.of_nat (List.length progs) < 2 ^ 32 ->
  reachable tie sha q (boot t s progs) m ->
  Forall (fun ev => 0 < event_child ev /\ event_child ev <> PID_NULL_HANDLE)
         (workers m) /\
  (forall pr, In pr (list_active m) -> state pr = RUNNING ->
              child_pid pr <> PID_NULL_HANDLE).
Proof.
  intros Hq Hprogs Hfew Hreach.
  destruct (reachable_ledger tie sha q t s progs m Hq Hprogs Hfew Hreach)
    as (_ & [_ _ _ _ _ Hcells Hw] & _).
  split.
  - eapply Forall_impl; [|exact Hw]. simpl. intros ev H.
    unfold PID_NULL_HANDLE. lia.
  - intros pr Hin Hst. destruct (In_nth_error _ _ Hin) as (p & Hn).
    destruct (Hcells p pr Hn) as (_ & _ & _ & _ & H5 & _).
    rewrite (H5 Hst). unfold PID_NULL_HANDLE. lia.
Qed.

Lemma signals_reach_children_witness :
  Forall (fun ev => 0 < event_child ev /\ event_child ev <> PID_NULL_HANDLE)
         (workers overrun_state) /\
  (forall pr, In pr (list_active overrun_state) -> state pr = RUNNING ->
              child_pid pr <> PID_NULL_HANDLE).
Proof.
  apply (signals_reach_children NewAfterEqual silent 3 SJF INFINITE
           [mk_program "P1" 0 5 0] overrun_state).
  - unfold in_u32. lia.
  - repeat constructor; simpl; lia.
  - simpl. lia.
  - exact overrun_reachable.
Defined.

(** ** Leaving the execution loop *)

Lemma should_terminate_true (m : manager) :
  should_terminate m = true ->
  Forall (fun pr => state pr = FINISHED) (list_active m) /\
  u32 (Z.of_nat (List.length (list_active m)))
  = Z.of_nat (List.length (pPrograms m)).
Proof.
  unfold should_terminate, program_count.
  destruct (list_active m) as [|pr l] eqn:E.
  - intros H. apply negb_true_iff, Z.ltb_ge in H. split; [constructor|].
    simpl. unfold u32. rewrite Z.mod_0_l by lia. lia.
  - rewrite <- E. intros H. apply andb_true_iff in H. destruct H as (H1 & H2).
    apply Z.eqb_eq in H2. split; trivial.
    rewrite forallb_forall in H1. apply Forall_forall. intros x Hx.
    specialize (H1 x Hx). now destruct (state x).
Qed.

Lemma filter_unfinished_finished (l : list process) :
  Forall (fun pr => state pr = FINISHED) l -> filter unfinished l = [].
Proof.
  induction 1 as [|pr l H _ IH]; simpl; trivial.
  unfold unfinished at 1. now rewrite H.
Qed.

(** The loop ends only with every program turned into a process. *)
Lemma should_terminate_ledger (m : manager) :
  ledger m -> should_terminate m = true ->
  Forall (fun pr => state pr = FINISHED) (list_active m) /\
  pending_index m = List.length (pPrograms m) /\ list_input m = [] /\
  Permutation (map pProgram (list_active m)) (pPrograms m).
Proof.
  intros Hled Hterm. destruct (should_terminate_true m Hterm) as (Hfin & Hlen).
  pose proof (ledger_bound m Hled) as Hb.
  destruct Hled as [Hfew Hidx Hperm _ _ _ _].
  rewrite u32_small in Hlen by lia.
  assert (Hi : list_input m = []).
  { destruct (list_input m); trivial. simpl in Hb. lia. }
  rewrite Hi in *. simpl in Hb. rewrite app_nil_r in Hperm.
  assert (Hx : pending_index m = List.length (pPrograms m)) by lia.
  rewrite Hx, firstn_all in Hperm. auto.
Qed.

(** While [should_terminate] answers no, the loop goes on. *)
Lemma execution_loop_spins (tie : tie_rule) (sha : string -> string) (q : Z)
    (m0 : manager) :
  in_u32 q -> engine_invariant q m0 ->
  (forall m, reachable tie sha q m0 m -> should_terminate m = false) ->
  forall fuel m, reachable tie sha q m0 m ->
    exists m', execution_loop tie sha fuel q m = StillRunning m'.
Proof.
  intros Hq Hinv0 Hnever. induction fuel as [|fuel IH]; intros m Hreach; simpl.
  - now exists m.
  - rewrite (Hnever m Hreach).
    destruct (reachable_invariant tie sha q m0 m Hq Hinv0 Hreach) as (Hinv & _).
    destruct (step_invariant tie sha q m Hq Hinv) as (m1 & Hstep & _).
    rewrite Hstep. apply IH. eapply reach_step; eauto.
Qed.

(** X7. Under best fit a program that asks for more than the 2048 units of
    the pool never gets a process, and the execution loop never ends:
    [should_terminate] waits for a process of every program. *)
Theorem oversize_program_never_runs (tie : tie_rule) (sha : string -> string)
    (q : Z) (t : SCHEDULER_TYPE) (progs : list program) (prog : program) :
  in_u32 q -> Forall program_ok progs ->
  Z.of_nat (List.length progs) < 2 ^ 32 ->
  In prog progs -> BUFFER_SIZE < memory_required prog ->
  (forall m, reachable tie sha q (boot t BEST_FIT progs) m ->
     ~ In prog (map pProgram (list_active m)) /\
     should_terminate m = false) /\
  (forall fuel,
     exists m, execution_loop tie sha fuel q (boot t BEST_FIT progs)
               = StillRunning m).
Proof.
  intros Hq Hprogs Hfew Hin Hbig.
  assert (Hnever : forall m, reachable tie sha q (boot t BEST_FIT progs) m ->
            ~ In prog (map pProgram (list_active m)) /\
            should_terminate m = false).
  { intros m Hreach.
    destruct (reachable_ledger tie sha q t BEST_FIT progs m Hq Hprogs Hfew
                Hreach) as (_ & Hled & Hp & _ & Hs).
    assert (Hnot : ~ In prog (map pProgram (list_active m))).
    { intros H. apply in_map_iff in H. destruct H as (pr & <- & Hpr).
      destruct (In_nth_error _ _ Hpr) as (p & Hn).
      destruct (led_cells m Hled p pr Hn) as (_ & _ & _ & _ & _ & H6).
      specialize (H6 Hs). lia. }
    split; trivial.
    destruct (should_terminate m) eqn:E; trivial. exfalso.
    destruct (should_terminate_ledger m Hled E) as (_ & _ & _ & Hperm).
    apply Hnot. apply (Permutation_in _ (Permutation_sym Hperm)).
    now rewrite Hp. }
  split; trivial. intros fuel.
  apply (execution_loop_spins tie sha q (boot t BEST_FIT progs)); trivial.
  - now apply boot_invariant.
  - intros m Hreach. now apply Hnever.
  - apply reach_boot.
Qed.

Lemma oversize_program_never_runs_witness :
  (forall m, reachable NewAfterEqual silent 1 oversize_boot m ->
     ~ In (mk_program "big" 0 1 3000) (map pProgram (list_active m)) /\
     should_terminate m = false) /\
  (forall fuel,
     exists m, execution_loop NewAfterEqual silent fuel 1 oversize_boot
               = StillRunning m).
Proof.
  apply (oversize_program_never_runs NewAfterEqual silent 1 SJF
           [mk_program "small" 0 1 10; mk_program "big" 0 1 3000]
           (mk_program "big" 0 1 3000)).
  - unfold in_u32. lia.
  - repeat constructor; simpl; lia.
  - simpl. lia.
  - simpl. auto.
  - simpl. unfold BUFFER_SIZE. lia.
Defined.

(** X8. With a quantum of 0, the value [main] starts from and keeps when
    no [-q] is given, the clock stays at 0 and no process ever finishes:
    if some program is given and all have a positive service time, the
    execution loop never ends. *)
Theorem zero_quantum_never_ends (tie : tie_rule) (sha : string -> string)
    (t : SCHEDULER_TYPE) (s : MEMORY_STRATEGY) (progs : list program) :
  Forall program_ok progs -> Z.of_nat (List.length progs) < 2 ^ 32 ->
  progs <> [] -> Forall (fun p => 1 <= service_time p) progs ->
  (forall m, reachable tie sha 0 (boot t s progs) m ->
     time m = 0 /\
     (forall pr, In pr (list_active m) -> state pr <> FINISHED) /\
     should_terminate m = false) /\
  (forall fuel,
     exists m, execution_loop tie sha fuel 0 (boot t s progs)
               = StillRunning m).
Proof.
  intros Hprogs Hfew Hne Hpos.
  assert (Hq : in_u32 0) by (unfold in_u32; lia).
  assert (Hnever : forall m, reachable tie sha 0 (boot t s progs) m ->
            time m = 0 /\
            (forall pr, In pr (list_active m) -> state pr <> FINISHED) /\
            should_terminate m = false).
  { intros m Hreach.
    assert (Htime : time m = 0).
    { clear Hne Hpos. induction Hreach as [|m m' Hreach IH Hstep].
      - now rewrite boot_effect.
      - destruct (reachable_invariant tie sha 0 _ m Hq
                    (boot_invariant 0 t s progs Hprogs) Hreach) as (Hinv & _).
        destruct (step_invariant tie sha 0 m Hq Hinv) as (m0 & Hstep0 & _ & _ & Ht).
        rewrite Hstep0 in Hstep. injection Hstep as <-.
        rewrite Ht, IH. reflexivity. }
    destruct (reachable_ledger tie sha 0 t s progs m Hq Hprogs Hfew Hreach)
      as ([_ _ _ _ _ Hproc] & Hled & Hp & _ & _).
    assert (Hunf : forall pr, In pr (list_active m) -> state pr <> FINISHED).
    { intros pr Hin Hfin. destruct (In_nth_error _ _ Hin) as (p & Hn).
      destruct (led_cells m Hled p pr Hn) as (_ & _ & H3 & _).
      specialize (H3 Hfin). rewrite Forall_forall in Hproc.
      destruct (Hproc pr Hin) as (Hprog & _ & Hrt & _). rewrite Hp in Hprog.
      rewrite Forall_forall in Hpos, Hprogs.
      destruct (Hprogs _ Hprog) as (_ & Hsv & _). unfold in_u32 in Hsv.
      destruct Hrt as (Hrt & _); [|lia].
      split; [now apply Hpos | lia]. }
    conjs; trivial.
    destruct (should_terminate m) eqn:E; trivial. exfalso.
    destruct (should_terminate_ledger m Hled E) as (Hfin & _ & _ & Hperm).
    rewrite Hp in Hperm. destruct (list_active m) as [|pr l] eqn:Ea.
    - apply Permutation_nil in Hperm. contradiction.
    - apply (Hunf pr); [now left|]. now inversion Hfin. }
  split; trivial. intros fuel.
  apply (execution_loop_spins tie sha 0 (boot t s progs)); trivial.
  - now apply boot_invariant.
  - intros m Hreach. now apply Hnever.
  - apply reach_boot.
Qed.

Lemma zero_quantum_never_ends_witness :
  (forall m, reachable NewAfterEqual silent 0 overrun_boot m ->
     time m = 0 /\
     (forall pr, In pr (list_active m) -> state pr <> FINISHED) /\
     should_terminate m = false) /\
  (forall fuel,
     exists m, execution_loop NewAfterEqual silent fuel 0 overrun_boot
               = StillRunning m).
Proof.
  apply (zero_quantum_never_ends NewAfterEqual silent SJF INFINITE
           [mk_program "P1" 0 5 0]).
  - repeat constructor; simpl; lia.
  - simpl. lia.
  - discriminate.
  - repeat constructor; simpl; lia.
Defined.

(** X9. When [should_terminate] answers yes, every program of the input
    has had one process, all the processes are [FINISHED], nothing waits,
    is ready or runs, [pending_count] is back to 0 and, under best fit,
    the free blocks add up to the whole pool. *)
Theorem exit_state_is_clean (tie : tie_rule) (sha : string -> string)
    (q : Z) (t : SCHEDULER_TYPE) (s : MEMORY_STRATEGY)
    (progs : list program) (m : manager) :
  in_u32 q -> Forall program_ok progs ->
  Z.of_nat (List.length progs) < 2 ^ 32 ->
  reachable tie sha q (boot t s progs) m -> should_terminate m = true ->
  Permutation (map pProgram (list_active m)) progs /\
  Forall (fun pr => state pr = FINISHED /\
                    service_time (pProgram pr) <= run_time pr /\
                    pBlock pr = None) (list_active m) /\
  list_input m = [] /\ list_ready m = [] /\ pRunningProcess m = None /\
  pending_count m = 0 /\
  (s = BEST_FIT -> sum_sizes (free_list (allocator m)) = BUFFER_SIZE).
Proof.
  intros Hq Hprogs Hfew Hreach Hterm.
  destruct (reachable_ledger tie sha q t s progs m Hq Hprogs Hfew Hreach)
    as (Hinv & Hled & Hp & _ & Hs).
  destruct (should_terminate_ledger m Hled Hterm) as (Hfin & Hidx & Hi & Hperm).
  destruct Hinv as [(_ & Hrdy) Hrun Hpool _ _ Hproc].
  rewrite Forall_forall in Hfin, Hproc.
  assert (Hblocks : forall pr, In pr (list_active m) -> pBlock pr = None).
  { intros pr Hin. destruct (Hproc pr Hin) as (_ & _ & _ & Hb).
    destruct (strategy (allocator m)); trivial. apply Hb. now apply Hfin. }
  conjs.
  - now rewrite <- Hp.
  - apply Forall_forall. intros pr Hin. conjs; auto.
    destruct (In_nth_error _ _ Hin) as (p & Hn).
    destruct (led_cells m Hled p pr Hn) as (_ & _ & H3 & _). auto.
  - exact Hi.
  - destruct (list_ready m) as [|p l]; trivial. exfalso.
    destruct (Hrdy p (or_introl eq_refl)) as (pr & Hn & Hst).
    rewrite (Hfin pr (nth_error_In _ _ Hn)) in Hst. discriminate.
  - destruct (pRunningProcess m) as [r|] eqn:Er; trivial. exfalso.
    destruct (Hrun r Er) as (pr & Hn & Hst).
    rewrite (Hfin pr (nth_error_In _ _ Hn)) in Hst. discriminate.
  - rewrite (led_count m Hled), Hi, filter_unfinished_finished; trivial.
    now apply Forall_forall.
  - intros Hbf. rewrite Hbf in Hs. destruct (Hpool Hs) as [_ _ Hsum _ _].
    assert (Hheld : held_blocks m = []).
    { unfold held_blocks. clear - Hblocks.
      induction (list_active m) as [|pr l IH]; simpl; trivial.
      unfold block_list at 1. rewrite (Hblocks pr (or_introl eq_refl)).
      simpl. apply IH. intros x Hx. apply Hblocks. now right. }
    rewrite Hheld in Hsum. simpl in Hsum. lia.
Qed.

Lemma exit_state_is_clean_witness :
  Permutation (map pProgram (list_active overrun_state))
              [mk_program "P1" 0 5 0] /\
  Forall (fun pr => state pr = FINISHED /\
                    service_time (pProgram pr) <= run_time pr /\
                    pBlock pr = None) (list_active overrun_state) /\
  list_input overrun_state = [] /\ list_ready overrun_state = [] /\
  pRunningProcess overrun_state = None /\
  pending_count overrun_state = 0 /\
  (INFINITE = BEST_FIT ->
   sum_sizes (free_list (allocator overrun_state)) = BUFFER_SIZE).
Proof.
  apply (exit_state_is_clean NewAfterEqual silent 3 SJF INFINITE
           [mk_program "P1" 0 5 0] overrun_state).
  - unfold in_u32. lia.
  - repeat constructor; simpl; lia.
  - simpl. lia.
  - exact overrun_reachable.
  - reflexivity.
Defined.

(** ** The work left decreases *)

Lemma total_app (l1 l2 : list Z) : total (l1 ++ l2) = total l1 + total l2.
Proof. induction l1 as [|z l IH]; simpl; lia. Qed.

Lemma total_set_nth {A : Type} (f : A -> Z) (l : list A) (p : nat) (x y : A) :
  nth_error l p = Some x ->
  total (map f (set_nth l p y)) = total (map f l) - f x + f y.
Proof.
  intros Hn. destruct (set_nth_split l p x Hn) as (l1 & l2 & -> & Hs).
  rewrite Hs, !map_app, !total_app. simpl. lia.
Qed.

Lemma quanta_nonneg (q sv : Z) : 1 <= q -> 0 <= sv -> 0 <= quanta q sv.
Proof. intros Hq Hs. unfold quanta. apply Z.div_pos; lia. Qed.

Lemma quanta_last (q left : Z) : 1 <= left <= q -> quanta q left = 1.
Proof.
  intros H. unfold quanta. symmetry. apply (Z.div_unique _ _ 1 (left - 1)); lia.
Qed.

Lemma quanta_next (q left : Z) :
  1 <= q -> quanta q (left - q) = quanta q left - 1.
Proof.
  intros H. unfold quanta.
  replace (left - q + q - 1) with (left + q - 1 + (-1) * q) by lia.
  rewrite Z.div_add by lia. lia.
Qed.

Lemma total_nonneg (l : list Z) : Forall (fun z => 0 <= z) l -> 0 <= total l.
Proof. induction 1; simpl; lia. Qed.

Lemma work_same (q : Z) (m m' : manager) :
  list_active m' = list_active m -> pending_index m' = pending_index m ->
  pPrograms m' = pPrograms m -> work q m' = work q m.
Proof. intros Ha Hi Hp. unfold work. now rewrite Ha, Hi, Hp. Qed.

Lemma work_store (q : Z) (m m' : manager) (r : nat) (pr pr' : process) :
  nth_error (list_active m) r = Some pr ->
  list_active m' = set_nth (list_active m) r pr' ->
  pending_index m' = pending_index m -> pPrograms m' = pPrograms m ->
  work q m' = work q m - quanta_left q pr + quanta_left q pr'.
Proof.
  intros Hn Ha Hi Hp. unfold work.
  rewrite Ha, Hi, Hp, (total_set_nth (quanta_left q) _ r pr pr' Hn). lia.
Qed.

Lemma skipn_prefix {A : Type} (l : list A) (n : nat) (a b : list A) :
  skipn n l = a ++ b -> skipn (n + List.length a) l = b.
Proof.
  intros H. rewrite Nat.add_comm, <- skipn_skipn, H.
  rewrite skipn_app, skipn_all, Nat.sub_diag. reflexivity.
Qed.

(** When no program waits for memory, before or after, [check_pending]
    turns the programs that have arrived into processes without changing
    the work left. *)
Lemma work_check_pending (q : Z) (m m' : manager) :
  ledger m -> list_input m = [] ->
  check_pending m = Ok m' -> list_input m' = [] ->
  work q m' = work q m /\
  pPrograms m' = pPrograms m /\
  (pending_index m <= pending_index m')%nat /\
  ((forall p, In p (skipn (pending_index m) (pPrograms m)) ->
              time_arrived p <= time m) ->
   pending_index m' = List.length (pPrograms m)).
Proof.
  intros Hled Hnil Hcp Hnil'.
  destruct (check_pending_trace m m' Hcp)
    as (moved & rest & accepted & kept & Hskip & Hmoved & Hrest & Hspec & Hin
        & Hact & Hrd & Hrun & Hpp & Htime & Htype & Hpi & Hw & Hout & Hpc).
  rewrite Hnil in Hspec. simpl in Hspec.
  rewrite Hnil' in Hin. subst kept.
  pose proof (admission_spec_all _ _ _ _ Hspec) as Hmap.
  conjs.
  2: exact Hpp.
  - unfold work. rewrite Hact, Hpp, Hpi, (skipn_prefix _ _ _ _ Hskip), Hskip.
    rewrite !map_app, !total_app, <- Hmap. rewrite !map_map.
    assert (Heq : map (fun x => quanta_left q (new_process x)) accepted =
                  map (fun x => quanta q (service_time (fst x))) accepted).
    { apply map_ext. intros e. unfold quanta_left. simpl.
      now rewrite Z.sub_0_r. }
    rewrite Heq. lia.
  - lia.
  - intros Hall. destruct rest as [|p rest'].
    + rewrite app_nil_r in Hskip. rewrite Hpi, <- Hskip, length_skipn.
      destruct (led_index m Hled). lia. lia.
    + exfalso. assert (time_arrived p <= time m); [|lia].
      apply Hall. rewrite Hskip. apply in_app_iff. right. now left.
Qed.

(** One iteration in which no program waits for memory: the static index
    moves on, past every program once all have arrived; and either some
    process runs for one quantum, or no process is left to run. *)
Lemma step_work (tie : tie_rule) (sha : string -> string) (q : Z)
    (m m' : manager) :
  in_u32 q -> 1 <= q -> engine_invariant q m -> ledger m ->
  list_input m = [] ->
  (forall m1, check_pending m = Ok m1 -> list_input m1 = []) ->
  Forall (timed q) (pPrograms m) ->
  step tie sha q m = Ok m' ->
  (pending_index m <= pending_index m')%nat /\
  ((forall p, In p (skipn (pending_index m) (pPrograms m)) ->
              time_arrived p <= time m) ->
   pending_index m' = List.length (pPrograms m)) /\
  (work q m' = work q m - 1 \/
   (work q m' = work q m /\
    Forall (fun pr => state pr = FINISHED) (list_active m'))).
Proof.
  intros Hq Hq1 Hinv Hled Hempty Hempty1 Htimed Hstep.
  destruct (step_stages tie sha q m Hq Hinv)
    as (m1 & keep & m2 & m3 & m0 & Hcp & Hinv1 & Hk & Hinv2 & Hsw & Hinv3
        & Hnone & Hup & _ & Hstep0).
  rewrite Hstep0 in Hstep. injection Hstep as <-.
  pose proof (ledger_check_pending q m m1 Hinv Hinv1 Hled Hcp) as Hled1.
  pose proof (ledger_keep_process_running q m1 m2 keep Hinv1 Hled1 Hk) as Hled2.
  destruct (work_check_pending q m m1 Hled Hempty Hcp (Hempty1 m1 Hcp))
    as (Hw1 & Hpp1 & Hi1 & Hall1).
  (* keep_process_running *)
  assert (Hkeep : work q m2 = work q m1 /\ pending_index m2 = pending_index m1 /\
                  pPrograms m2 = pPrograms m1 /\ allocator m2 = allocator m1 /\
                  (keep = true -> pRunningProcess m2 <> None)).
  { pose proof (keep_process_running_trace m1) as Ht.
    destruct (pRunningProcess m1) as [r|] eqn:Er.
    2:{ rewrite Ht in Hk. injection Hk as <- <-. conjs; trivial. discriminate. }
    destruct Hinv1 as [_ Hrunning _ _ _ _].
    destruct (Hrunning r Er) as (pr & Hn & Hst).
    destruct (Ht pr Hn) as (keep0 & m20 & Hk0 & Hal & Hpp & Hin & Htime & Htype
                            & Hpc & Hpi & Hout & _ & Hcase).
    rewrite Hk0 in Hk. injection Hk as <- <-.
    destruct keep0.
    - destruct Hcase as (_ & Ha & Hr & Hrun). conjs; trivial.
      + now apply work_same.
      + intros _. congruence.
    - destruct Hcase as (_ & _ & Ha & Hr & Hrun). conjs; trivial;
        [|discriminate].
      rewrite (work_store q m1 m20 r pr _ Hn Ha Hpi Hpp).
      unfold quanta_left, unfinished. simpl. rewrite Hst. lia. }
  destruct Hkeep as (Hw2 & Hi2 & Hp2 & Ha2 & Hkept).
  (* switch_process *)
  assert (Hled3 : ledger m3).
  { destruct keep; [now subst m3|].
    apply (ledger_switch_process q m2 m3); auto. }
  assert (Hswitch : work q m3 = work q m2 /\ pending_index m3 = pending_index m2 /\
                    pPrograms m3 = pPrograms m2 /\ allocator m3 = allocator m2 /\
                    (pRunningProcess m3 = None -> list_ready m3 = [])).
  { destruct keep.
    - subst m3. conjs; trivial. intros H. now destruct Hkept.
    - destruct (switch_process_trace q m2 Hinv2)
        as [(Hnil & Hsame)|(m30 & pos & p & pr & pr' & evs & Hsw0 & Hpos & Hn
                            & Ha & Hprog & Hrt & Hblk & Hst & Hpid & Hr & Hrun
                            & Hal & Hpp & Hin & Htime & Htype & Hpc & Hpi & _)].
      + rewrite Hsame in Hsw. injection Hsw as <-. conjs; trivial.
      + rewrite Hsw0 in Hsw. injection Hsw as <-. conjs; trivial;
          [|congruence].
        rewrite (work_store q m2 m30 p pr pr' Hn Ha Hpi Hpp).
        destruct Hinv2 as [(_ & Hrdy) _ _ _ _ _].
        destruct (Hrdy p (nth_error_In _ _ Hpos)) as (pr0 & Hn0 & Hst0).
        rewrite Hn in Hn0. injection Hn0 as <-.
        unfold quanta_left, unfinished. rewrite Hst, Hst0, Hprog, Hrt. lia. }
  destruct Hswitch as (Hw3 & Hi3 & Hp3 & Ha3 & Hidle).
  (* update *)
  pose proof (update_trace tie sha m3 q) as Ht.
  destruct (pRunningProcess m3) as [r|] eqn:Er.
  - destruct Hinv3 as [_ Hrunning _ _ _ Hproc].
    destruct (Hrunning r Er) as (pr & Hn & Hst).
    rewrite Forall_forall in Hproc, Htimed.
    destruct (Hproc pr (nth_error_In _ _ Hn)) as (Hprog0 & Hu & Hbound & Hblock).
    destruct (Ht pr Hn) as (m0' & pr' & Hup0 & Ha & Hprog & Hrt & Hpid & Hr & Hpp
                            & Hin & Htime & Htype & Hpi & Hs' & _ & Hcase).
    { intros H Hnb. rewrite H in Hblock. apply Hblock in Hnb. congruence. }
    rewrite Hup0 in Hup. injection Hup as <-.
    assert (Htm : timed q (pProgram pr)).
    { apply Htimed. congruence. }
    destruct (Hbound Htm) as (_ & Hlt). destruct Htm as (_ & Htm).
    assert (Hrun : run_time pr < service_time (pProgram pr))
      by (apply Hlt; congruence).
    unfold in_u32 in Hu.
    assert (Hnowrap : u32 (run_time pr + q) = run_time pr + q)
      by (apply u32_small; lia).
    conjs; [lia | intros H; rewrite Hpi, Hi3, Hi2; auto |].
    left. rewrite (work_store q m3 m0' r pr pr' Hn Ha Hpi Hpp), Hw3, Hw2, Hw1.
    unfold quanta_left at 1, unfinished. rewrite Hst.
    rewrite Hnowrap in Hcase, Hrt.
    destruct (service_time (pProgram pr) <=? run_time pr + q) eqn:Efin.
    + destruct Hcase as (Hst' & _). apply Z.leb_le in Efin.
      unfold quanta_left, unfinished. rewrite Hst'.
      rewrite quanta_last; lia.
    + destruct Hcase as (Hst' & _). apply Z.leb_gt in Efin.
      unfold quanta_left, unfinished. rewrite Hst', Hst, Hprog, Hrt.
      replace (service_time (pProgram pr) - (run_time pr + q))
        with (service_time (pProgram pr) - run_time pr - q) by lia.
      rewrite quanta_next; lia.
  - rewrite Ht in Hup. injection Hup as <-. simpl.
    conjs; [lia | intros H; rewrite Hi3, Hi2; auto |].
    right. split.
    + rewrite (work_same q m3 (set_time m3 _)); trivial. lia.
    + specialize (Hidle eq_refl). apply Forall_forall. intros pr Hin.
      destruct (In_nth_error _ _ Hin) as (p & Hn).
      destruct (led_cells m3 Hled3 p pr Hn) as (C1 & C2 & _).
      rewrite Hidle in C1. rewrite Er in C2.
      destruct (state pr); trivial.
      * exfalso. now apply C1.
      * exfalso. assert (None = Some p) by now apply C2. discriminate.
Qed.

(** ** The execution loop ends *)

Lemma last_arrival_bound (q : Z) (progs : list program) :
  in_u32 q -> Forall (schedulable q) progs ->
  0 <= last_arrival progs /\ last_arrival progs + q <= 2 ^ 32 /\
  forall p, In p progs -> time_arrived p <= last_arrival progs.
Proof.
  intros Hq H. unfold last_arrival. induction H as [|p l Hp _ IH]; simpl.
  - unfold in_u32 in Hq. conjs; [lia | lia | intros p []].
  - destruct IH as (H1 & H2 & H3). destruct Hp as (_ & Hp). conjs; try lia.
    intros p0 [<-|Hin]; [lia|]. specialize (H3 p0 Hin). lia.
Qed.

Lemma work_nonneg (q : Z) (m : manager) :
  1 <= q -> engine_invariant q m -> Forall (timed q) (pPrograms m) ->
  0 <= work q m.
Proof.
  intros Hq [_ _ _ Hprogs _ Hproc] Htimed. unfold work.
  assert (H1 : 0 <= total (map (quanta_left q) (list_active m))).
  { apply total_nonneg, Forall_map. eapply Forall_impl; [|exact Hproc].
    intros pr (Hin & _ & Hb & _). unfold quanta_left.
    destruct (unfinished pr) eqn:E; [|lia].
    rewrite Forall_forall in Htimed. destruct (Hb (Htimed _ Hin)) as (_ & Hlt).
    apply quanta_nonneg; trivial.
    assert (run_time pr < service_time (pProgram pr)); [|lia].
    apply Hlt. unfold unfinished in E. intros Hf. now rewrite Hf in E. }
  assert (H2 : 0 <= total (map (fun p => quanta q (service_time p))
                               (skipn (pending_index m) (pPrograms m)))).
  { apply total_nonneg, Forall_map. apply Forall_forall. intros p Hp.
    apply skipn_incl in Hp. rewrite Forall_forall in Hprogs.
    destruct (Hprogs p Hp) as (_ & Hsv & _). unfold in_u32 in Hsv.
    apply quanta_nonneg; lia. }
  lia.
Qed.

(** Where [execution_loop] exits. *)
Lemma execution_loop_exit (tie : tie_rule) (sha : string -> string) (q : Z)
    (fuel : nat) :
  forall m m', execution_loop tie sha fuel q m = Exited m' ->
    should_terminate m' = true /\
    exists n, run_steps tie sha q n m = Ok m'.
Proof.
  induction fuel as [|fuel IH]; intros m m'; simpl; [discriminate|].
  destruct (should_terminate m) eqn:E.
  - intros H. injection H as <-. split; trivial. now exists 0%nat.
  - destruct (step tie sha q m) as [m1|] eqn:Es; [|discriminate].
    intros H. destruct (IH m1 m' H) as (Ht & n & Hn). split; trivial.
    exists (S n). simpl. now rewrite Es.
Qed.

(** An exit after some iterations is an exit of the whole loop. *)
Lemma execution_loop_after (tie : tie_rule) (sha : string -> string) (q : Z)
    (n : nat) :
  forall m m', run_steps tie sha q n m = Ok m' ->
  forall fuel m'', execution_loop tie sha fuel q m' = Exited m'' ->
  exists fuel0 m0, (fuel0 <= n + fuel)%nat /\
                   execution_loop tie sha fuel0 q m = Exited m0.
Proof.
  induction n as [|n IH]; intros m m'; simpl.
  - intros H fuel m'' He. injection H as <-. exists fuel, m''. split; trivial.
  - destruct (step tie sha q m) as [m1|] eqn:Es; [|discriminate]. simpl.
    intros H fuel m'' He.
    destruct (IH m1 m' H fuel m'' He) as (fuel0 & m0 & Hle & He0).
    destruct (should_terminate m) eqn:E.
    + exists 1%nat, m. simpl. rewrite E. split; [lia|trivial].
    + exists (S fuel0), m0. simpl. rewrite E, Es. split; [lia|trivial].
Qed.

Lemma should_terminate_intro (m : manager) :
  ledger m -> Forall (fun pr => state pr = FINISHED) (list_active m) ->
  pending_index m = List.length (pPrograms m) -> list_input m = [] ->
  should_terminate m = true.
Proof.
  intros Hled Hfin Hidx Hi. pose proof (ledger_bound m Hled) as Hb.
  rewrite Hi in Hb. simpl in Hb. destruct Hled as [Hfew _ _ _ _ _ _].
  unfold should_terminate, program_count.
  destruct (list_active m) as [|pr l] eqn:E.
  - simpl in Hb. apply negb_true_iff, Z.ltb_ge. lia.
  - rewrite <- E in *. apply andb_true_iff. split.
    + apply forallb_forall. intros x Hx. rewrite Forall_forall in Hfin.
      now rewrite (Hfin x Hx).
    + apply Z.eqb_eq. rewrite u32_small; lia.
Qed.

Lemma quanta_covers (q a : Z) :
  1 <= q -> 0 <= a -> a <= quanta q a * q <= a + q - 1.
Proof.
  intros Hq Ha. unfold quanta.
  pose proof (Z.div_mod (a + q - 1) q ltac:(lia)) as Hd.
  pose proof (Z.mod_pos_bound (a + q - 1) q ltac:(lia)) as Hm. lia.
Qed.

Section NoProgramWaits.

Variable tie : tie_rule.
Variable sha : string -> string.
Variable q : Z.
Variable t : SCHEDULER_TYPE.
Variable s : MEMORY_STRATEGY.
Variable progs : list program.

Hypothesis Hq : in_u32 q.
Hypothesis Hq1 : 1 <= q.
Hypothesis Hprogs : Forall program_ok progs.
Hypothesis Hfew : Z.of_nat (List.length progs) < 2 ^ 32.
Hypothesis Htimed : Forall (timed q) progs.

(** No program is in the input queue between two iterations, nor after
    [check_pending]. *)
Hypothesis Hnowait :
  forall m, reachable tie sha q (boot t s progs) m ->
    list_input m = [] /\
    forall m1, check_pending m = Ok m1 -> list_input m1 = [].

Lemma nowait_step (m m' : manager) :
  reachable tie sha q (boot t s progs) m ->
  step tie sha q m = Ok m' ->
  (pending_index m <= pending_index m')%nat /\
  ((forall p, In p progs -> time_arrived p <= time m) ->
   pending_index m' = List.length progs) /\
  (work q m' = work q m - 1 \/
   (work q m' = work q m /\ should_terminate m' = true \/
    work q m' = work q m /\ pending_index m' <> List.length progs)) /\
  0 <= work q m'.
Proof.
  intros Hreach Hstep.
  destruct (reachable_ledger tie sha q t s progs m Hq Hprogs Hfew Hreach)
    as (Hinv & Hled & Hp & _ & Hs).
  assert (Hreach' : reachable tie sha q (boot t s progs) m')
    by (eapply reach_step; eauto).
  destruct (reachable_ledger tie sha q t s progs m' Hq Hprogs Hfew Hreach')
    as (Hinv' & Hled' & Hp' & _ & Hs').
  destruct (Hnowait m Hreach) as (Hnil & Hnil1).
  destruct (step_work tie sha q m m' Hq Hq1 Hinv Hled Hnil Hnil1)
    as (H1 & H2 & H3); trivial.
  { now rewrite Hp. }
  rewrite Hp in H2. conjs; trivial.
  - intros Hall. apply H2. intros p Hin. apply Hall. eapply skipn_incl; eauto.
  - destruct H3 as [H3|(H3 & Hfin)]; [now left|right].
    destruct (Nat.eq_dec (pending_index m') (List.length progs)) as [Hi|Hi];
      [left|right]; split; trivial.
    apply should_terminate_intro; trivial; [congruence|].
    now destruct (Hnowait m' Hreach').
  - apply work_nonneg; trivial. now rewrite Hp'.
Qed.

Lemma nowait_run (n : nat) :
  forall m m', reachable tie sha q (boot t s progs) m ->
    run_steps tie sha q n m = Ok m' ->
    (pending_index m <= pending_index m')%nat /\ work q m' <= work q m.
Proof.
  induction n as [|n IH]; intros m m' Hreach; simpl.
  - intros H. injection H as <-. split; lia.
  - destruct (step tie sha q m) as [m1|] eqn:Es; [|discriminate]. simpl.
    intros H. destruct (nowait_step m m1 Hreach Es) as (H1 & _ & H3 & _).
    destruct (IH m1 m' (reach_step _ _ _ _ _ _ Hreach Es) H) as (H4 & H5).
    split; [lia|]. destruct H3 as [H3|[(H3 & _)|(H3 & _)]]; lia.
Qed.

Lemma nowait_exit (k : nat) :
  forall m, reachable tie sha q (boot t s progs) m ->
    pending_index m = List.length progs -> work q m <= Z.of_nat k ->
    exists fuel m', (fuel <= k + 2)%nat /\
                    execution_loop tie sha fuel q m = Exited m'.
Proof.
  induction k as [|k IH]; intros m Hreach Hidx Hwork.
  - destruct (should_terminate m) eqn:E.
    { exists 1%nat, m. simpl. rewrite E. split; [lia|trivial]. }
    destruct (reachable_invariant tie sha q _ m Hq
                (boot_invariant q t s progs Hprogs) Hreach) as (Hinv & _).
    destruct (step_invariant tie sha q m Hq Hinv) as (m1 & Hstep & _).
    destruct (nowait_step m m1 Hreach Hstep) as (H1 & _ & H3 & H4).
    destruct H3 as [H3|[(H3 & Ht)|(H3 & Hne)]].
    + lia.
    + exists 2%nat, m1. simpl. rewrite E, Hstep, Ht. split; [lia|trivial].
    + exfalso. apply Hne.
      destruct (reachable_ledger tie sha q t s progs m1 Hq Hprogs Hfew
                  (reach_step _ _ _ _ _ _ Hreach Hstep))
        as (_ & [_ Hi _ _ _ _ _] & Hp & _). rewrite Hp in Hi. lia.
  - destruct (should_terminate m) eqn:E.
    { exists 1%nat, m. simpl. rewrite E. split; [lia|trivial]. }
    destruct (reachable_invariant tie sha q _ m Hq
                (boot_invariant q t s progs Hprogs) Hreach) as (Hinv & _).
    destruct (step_invariant tie sha q m Hq Hinv) as (m1 & Hstep & _).
    pose proof (reach_step _ _ _ _ _ _ Hreach Hstep) as Hreach1.
    destruct (nowait_step m m1 Hreach Hstep) as (H1 & _ & H3 & H4).
    assert (Hidx1 : pending_index m1 = List.length progs).
    { destruct (reachable_ledger tie sha q t s progs m1 Hq Hprogs Hfew
                  Hreach1) as (_ & [_ Hi _ _ _ _ _] & Hp & _).
      rewrite Hp in Hi. lia. }
    destruct H3 as [H3|[(H3 & Ht)|(H3 & Hne)]].
    + destruct (IH m1 Hreach1 Hidx1) as (fuel & m' & Hle & He); [lia|].
      exists (S fuel), m'. simpl. rewrite E, Hstep. split; [lia|trivial].
    + exists 2%nat, m1. simpl. rewrite E, Hstep, Ht. split; [lia|trivial].
    + contradiction.
Qed.

(** The run ends within the quanta of the last arrival and of the service
    times, and three more iterations. *)
Lemma nowait_run_ends :
  Forall (schedulable q) progs ->
  exists fuel m,
    (fuel <= Z.to_nat (quanta q (last_arrival progs))
             + Z.to_nat (total_quanta q progs) + 3)%nat /\
    execution_loop tie sha fuel q (boot t s progs) = Exited m /\
    Permutation (map pProgram (list_active m)) progs /\
    Forall (fun pr => state pr = FINISHED) (list_active m).
Proof.
  intros Hsched.
  destruct (last_arrival_bound q progs Hq Hsched) as (HA0 & HA & Harr).
  pose proof (quanta_covers q (last_arrival progs) Hq1 HA0) as Hcov.
  set (n0 := Z.to_nat (quanta q (last_arrival progs))).
  assert (Hn0 : Z.of_nat n0 = quanta q (last_arrival progs)).
  { unfold n0. apply Z2Nat.id. now apply quanta_nonneg. }
  pose proof (boot_invariant q t s progs Hprogs) as Hinv0.
  pose proof (reach_boot tie sha q (boot t s progs)) as Hreach0.
  destruct (run_steps_total tie sha q n0 Hq (boot t s progs) Hinv0)
    as (ma & Hruna & Hinva & Htimea).
  { rewrite boot_effect. simpl. unfold in_u32. lia. }
  rewrite boot_effect in Htimea. simpl in Htimea.
  rewrite Hn0, u32_small in Htimea by lia.
  pose proof (run_steps_reachable tie sha q _ n0 _ ma Hreach0 Hruna) as Hreacha.
  destruct (step_invariant tie sha q ma Hq Hinva) as (mb & Hstepb & _).
  pose proof (reach_step _ _ _ _ _ _ Hreacha Hstepb) as Hreachb.
  destruct (nowait_step ma mb Hreacha Hstepb) as (_ & Hall & Hwb & Hwb0).
  assert (Hidxb : pending_index mb = List.length progs).
  { apply Hall. intros p Hin. specialize (Harr p Hin). lia. }
  destruct (nowait_run n0 _ ma Hreach0 Hruna) as (_ & Hwa).
  assert (Hw0 : work q (boot t s progs) = total_quanta q progs).
  { rewrite boot_effect. reflexivity. }
  set (k := Z.to_nat (total_quanta q progs)).
  assert (Hk : work q mb <= Z.of_nat k).
  { unfold k. rewrite Z2Nat.id; [|lia].
    destruct Hwb as [H|[(H & _)|(H & _)]]; lia. }
  destruct (nowait_exit k mb Hreachb Hidxb Hk) as (fuelb & m' & Hle & Hexit).
  destruct (execution_loop_after tie sha q 1 ma mb) with (fuel := fuelb)
    (m'' := m') as (fuela & m1 & Hlea & Hexita); trivial.
  { simpl. now rewrite Hstepb. }
  destruct (execution_loop_after tie sha q n0 _ ma Hruna fuela m1 Hexita)
    as (fuel & m & Hle0 & Hexit0).
  exists fuel, m. split; [lia|]. split; trivial.
  destruct (execution_loop_exit tie sha q fuel _ m Hexit0) as (Hterm & n & Hn).
  pose proof (run_steps_reachable tie sha q _ n _ m Hreach0 Hn) as Hreach.
  destruct (reachable_ledger tie sha q t s progs m Hq Hprogs Hfew Hreach)
    as (_ & Hled & Hp & _).
  destruct (should_terminate_ledger m Hled Hterm) as (Hfin & _ & _ & Hperm).
  rewrite Hp in Hperm. now split.
Qed.

End NoProgramWaits.

(** With unbounded memory no program is ever in the input queue. *)
Lemma unbounded_never_waits (tie : tie_rule) (sha : string -> string)
    (q : Z) (t : SCHEDULER_TYPE) (progs : list program) (m : manager) :
  in_u32 q -> Forall program_ok progs ->
  Z.of_nat (List.length progs) < 2 ^ 32 ->
  reachable tie sha q (boot t INFINITE progs) m ->
  list_input m = [] /\
  forall m1, check_pending m = Ok m1 -> list_input m1 = [].
Proof.
  intros Hq Hprogs Hfew Hreach.
  destruct (reachable_ledger tie sha q t INFINITE progs m Hq Hprogs Hfew Hreach)
    as (_ & Hled & _ & _ & Hs).
  destruct (led_unbounded m Hled Hs) as (Hnil & _). split; trivial.
  intros m1 Hcp.
  destruct (check_pending_trace m m1 Hcp)
    as (moved & rest & accepted & kept & _ & _ & _ & Hspec & Hin & _).
  destruct (admission_spec_split _ _ _ _ _ Hspec) as (_ & _ & _ & Hinf & _).
  destruct (Hinf Hs) as (Hk & _). congruence.
Qed.

(** X10. With unbounded memory the execution loop ends: when the quantum
    is positive, every program has a positive service time and neither the
    run-times nor the clock, before the last arrival, wrap around 2^32,
    [should_terminate] answers yes after at most as many iterations as the
    last arrival and the service times take quanta, and three more; every
    program has then had its process, and every process is [FINISHED]. *)
Theorem unbounded_memory_run_ends (tie : tie_rule) (sha : string -> string)
    (q : Z) (t : SCHEDULER_TYPE) (progs : list program) :
  in_u32 q -> 1 <= q -> Forall program_ok progs ->
  Z.of_nat (List.length progs) < 2 ^ 32 ->
  Forall (schedulable q) progs ->
  exists fuel m,
    (fuel <= Z.to_nat (quanta q (last_arrival progs))
             + Z.to_nat (total_quanta q progs) + 3)%nat /\
    execution_loop tie sha fuel q (boot t INFINITE progs) = Exited m /\
    Permutation (map pProgram (list_active m)) progs /\
    Forall (fun pr => state pr = FINISHED) (list_active m).
Proof.
  intros Hq Hq1 Hprogs Hfew Hsched.
  apply nowait_run_ends; trivial.
  - eapply Forall_impl; [|exact Hsched]. now intros p (H & _).
  - intros m Hreach. now apply (unbounded_never_waits tie sha q t progs).
Qed.

Lemma unbounded_memory_run_ends_witness :
  exists fuel m,
    (fuel <= Z.to_nat (quanta 3 (last_arrival [mk_program "P1" 0 5 0]))
             + Z.to_nat (total_quanta 3 [mk_program "P1" 0 5 0]) + 3)%nat /\
    execution_loop NewAfterEqual silent fuel 3 overrun_boot = Exited m /\
    Permutation (map pProgram (list_active m)) [mk_program "P1" 0 5 0] /\
    Forall (fun pr => state pr = FINISHED) (list_active m).
Proof.
  apply (unbounded_memory_run_ends NewAfterEqual silent 3 SJF
           [mk_program "P1" 0 5 0]).
  - unfold in_u32. lia.
  - lia.
  - repeat constructor; simpl; lia.
  - simpl. lia.
  - repeat constructor; simpl; lia.
Defined.

(** ** The allocator at its bounds *)

Lemma set_nth_same {A : Type} (l : list A) (p : nat) (x : A) :
  nth_error l p = Some x -> set_nth l p x = l.
Proof.
  intros Hn. destruct (set_nth_split l p x Hn) as (l1 & l2 & E & Hs).
  rewrite Hs. now symmetry.
Qed.

(** X11. What a release does to any sorted free list of [uint32_t] blocks:
    the list stays sorted by start offset, no entry ends where the entry
    after it starts, the sizes add up to what they were plus the size of
    the block released, and every address belongs to as many blocks as
    before. When the blocks are not empty and do not overlap, no two
    entries touch at all. *)
Theorem release_merges_neighbours (tie : tie_rule) (fl : list memory_block)
    (b : memory_block) :
  Forall block_ok (b :: fl) -> ascending fl ->
  ascending (allocater_free_memory tie fl b) /\
  no_touching_neighbours (allocater_free_memory tie fl b) /\
  sum_sizes (allocater_free_memory tie fl b) = size b + sum_sizes fl /\
  (forall a, cover a (allocater_free_memory tie fl b) = cover a (b :: fl)) /\
  (Forall (fun x => 0 < size x) (b :: fl) -> disjoint (b :: fl) ->
   coalesced (allocater_free_memory tie fl b)).
Proof.
  intros Hok Hasc.
  destruct (release_sorted_merged tie fl b Hok Hasc) as (H1 & H2 & H3).
  conjs; trivial.
  - unfold allocater_free_memory.
    pose proof (list_insert_sorted_ok tie block_ok b fl Hok) as Hok'.
    pose proof (list_insert_sorted_sum tie b fl) as Hsum.
    destruct (list_insert_sorted_cons tie b fl) as (b1 & rest & E).
    rewrite E in *. rewrite merge_pass_sum by trivial. exact Hsum.
  - intros a. unfold allocater_free_memory.
    pose proof (list_insert_sorted_ok tie block_ok b fl Hok) as Hok'.
    pose proof (list_insert_sorted_cover tie a b fl) as Hcov.
    destruct (list_insert_sorted_cons tie b fl) as (b1 & rest & E).
    rewrite E in *. rewrite merge_pass_cover by trivial. exact Hcov.
Qed.

Lemma release_merges_neighbours_witness :
  ascending (allocater_free_memory NewAfterEqual
               [mk_block 0 100; mk_block 300 50] (mk_block 100 200)) /\
  no_touching_neighbours
    (allocater_free_memory NewAfterEqual
       [mk_block 0 100; mk_block 300 50] (mk_block 100 200)) /\
  sum_sizes (allocater_free_memory NewAfterEqual
               [mk_block 0 100; mk_block 300 50] (mk_block 100 200))
  = size (mk_block 100 200) + sum_sizes [mk_block 0 100; mk_block 300 50] /\
  (forall a, cover a (allocater_free_memory NewAfterEqual
                        [mk_block 0 100; mk_block 300 50] (mk_block 100 200))
             = cover a [mk_block 100 200; mk_block 0 100; mk_block 300 50]) /\
  (Forall (fun x => 0 < size x)
          [mk_block 100 200; mk_block 0 100; mk_block 300 50] ->
   disjoint [mk_block 100 200; mk_block 0 100; mk_block 300 50] ->
   coalesced (allocater_free_memory NewAfterEqual
                [mk_block 0 100; mk_block 300 50] (mk_block 100 200))).
Proof.
  apply (release_merges_neighbours NewAfterEqual
           [mk_block 0 100; mk_block 300 50] (mk_block 100 200)).
  - repeat constructor; simpl; unfold block_end; simpl; lia.
  - repeat constructor; unfold index_le; simpl; lia.
Defined.

(** X12. In every reachable state of the pool a request for more than the
    2048 units of the pool is refused, and the free list stays as it is. *)
Theorem oversize_request_refused (tie : tie_rule) (fl held : list memory_block)
    (sz : Z) :
  pool_reached tie fl held -> in_u32 sz -> BUFFER_SIZE < sz ->
  allocator_find_best_fit (mk_allocator fl BEST_FIT) sz
  = Ok (None, mk_allocator fl BEST_FIT).
Proof.
  intros Hreach Hsz Hbig.
  pose proof (pool_reached_invariant tie fl held Hreach) as Hinv.
  pose proof (pool_free_ok fl held Hinv) as Hok.
  destruct Hinv as [Hwithin _ _ _ Hne].
  destruct (allocator_find_best_fit_cases fl sz Hne Hok Hsz)
    as [(pos & chosen & (Hn & Hfit & _) & _)|(_ & H)]; trivial.
  exfalso. rewrite Forall_forall in Hwithin.
  destruct (Hwithin chosen (nth_error_In _ _ Hn)) as (H1 & H2 & H3).
  unfold fits in Hfit. unfold block_end in H3. lia.
Qed.

Lemma oversize_request_refused_witness :
  allocator_find_best_fit (mk_allocator [mk_block 0 2048] BEST_FIT) 2049
  = Ok (None, mk_allocator [mk_block 0 2048] BEST_FIT).
Proof.
  apply (oversize_request_refused NewBeforeEqual [mk_block 0 2048] [] 2049).
  - left. exists []. split; [constructor | reflexivity].
  - unfold in_u32. lia.
  - unfold BUFFER_SIZE. lia.
Defined.

(** X13. In every reachable state of the pool a request for no memory is
    granted: the block handed out is empty, it starts where the first of
    the smallest free blocks starts, and the free list stays as it is. *)
Theorem empty_request_granted (tie : tie_rule) (fl held : list memory_block) :
  pool_reached tie fl held ->
  exists pos chosen,
    nth_error fl pos = Some chosen /\
    (forall b, In b fl -> size chosen <= size b) /\
    (forall pos' b, (pos' < pos)%nat -> nth_error fl pos' = Some b ->
                    size chosen < size b) /\
    allocator_find_best_fit (mk_allocator fl BEST_FIT) 0
    = Ok (Some (mk_block (index chosen) 0), mk_allocator fl BEST_FIT).
Proof.
  intros Hreach.
  pose proof (pool_reached_invariant tie fl held Hreach) as Hinv.
  pose proof (pool_free_ok fl held Hinv) as Hok.
  destruct Hinv as [Hwithin _ _ _ Hne].
  assert (Hsz : in_u32 0) by (unfold in_u32; lia).
  rewrite Forall_forall in Hwithin.
  assert (Hfits : forall b, In b fl -> fits 0 b).
  { intros b Hb. destruct (Hwithin b Hb) as (_ & H & _). exact H. }
  destruct (allocator_find_best_fit_cases fl 0 Hne Hok Hsz)
    as [(pos & chosen & (Hn & Hfit & Hleast & Hfirst) & Heq)|(Hnone & _)].
  - exists pos, chosen. conjs; trivial.
    + intros b Hb. specialize (Hleast b Hb (Hfits b Hb)).
      unfold leftover in Hleast. lia.
    + intros pos' b Hlt Hn'.
      specialize (Hfirst pos' b Hlt Hn' (Hfits b (nth_error_In _ _ Hn'))).
      unfold leftover in Hfirst. lia.
    + rewrite Heq. rewrite Z.add_0_r, Z.sub_0_r.
      replace (mk_block (index chosen) (size chosen)) with chosen
        by now destruct chosen.
      now rewrite (set_nth_same fl pos chosen Hn).
  - exfalso. destruct fl as [|b fl']; [contradiction|].
    specialize (Hnone b (or_introl eq_refl)).
    specialize (Hfits b (or_introl eq_refl)). unfold fits in Hfits. lia.
Qed.

Lemma empty_request_granted_witness :
  exists pos chosen,
    nth_error [mk_block 0 2048] pos = Some chosen /\
    (forall b, In b [mk_block 0 2048] -> size chosen <= size b) /\
    (forall pos' b, (pos' < pos)%nat ->
                    nth_error [mk_block 0 2048] pos' = Some b ->
                    size chosen < size b) /\
    allocator_find_best_fit (mk_allocator [mk_block 0 2048] BEST_FIT) 0
    = Ok (Some (mk_block (index chosen) 0),
          mk_allocator [mk_block 0 2048] BEST_FIT).
Proof.
  apply (empty_request_granted NewBeforeEqual [mk_block 0 2048] []).
  left. exists []. split; [constructor | reflexivity].
Defined.

(** ** Byte order *)

Lemma land_255 (a : Z) : Z.land a 255 = a mod 256.
Proof. change 255 with (Z.ones 8). now rewrite Z.land_ones by lia. Qed.

Lemma lor_scaled (hi lo n : Z) :
  0 <= n -> 0 <= lo < 2 ^ n -> Z.lor (hi * 2 ^ n) lo = hi * 2 ^ n + lo.
Proof.
  intros Hn Hlo. rewrite <- (Z.shiftl_mul_pow2 hi n Hn).
  rewrite <- (Z.add_lor_land (Z.shiftl hi n) lo).
  assert (H : Z.land (Z.shiftl hi n) lo = 0); [|lia].
  apply Z.bits_inj'. intros m Hm. rewrite Z.land_spec, Z.bits_0.
  destruct (Z.lt_ge_cases m n) as [Hlt|Hge].
  - now rewrite Z.shiftl_spec_low.
  - destruct (Z.eq_dec lo 0) as [->|Hne].
    + now rewrite Z.bits_0, andb_false_r.
    + rewrite (Z.bits_above_log2 lo m), andb_false_r; trivial; [lia|].
      assert (Z.log2 lo < n) by (apply Z.log2_lt_pow2; lia). lia.
Qed.

Lemma bswap_32_value (x : Z) :
  ByteOrder.bswap_32 x =
  (x mod 256) * 2 ^ 24 + ((x / 2 ^ 8) mod 256) * 2 ^ 16
  + ((x / 2 ^ 16) mod 256) * 2 ^ 8 + (x / 2 ^ 24) mod 256.
Proof.
  unfold ByteOrder.bswap_32.
  rewrite !land_255, !Z.shiftr_div_pow2, !Z.shiftl_mul_pow2 by lia.
  pose proof (Z.mod_pos_bound x 256 ltac:(lia)) as H0.
  pose proof (Z.mod_pos_bound (x / 2 ^ 8) 256 ltac:(lia)) as H1.
  pose proof (Z.mod_pos_bound (x / 2 ^ 16) 256 ltac:(lia)) as H2.
  pose proof (Z.mod_pos_bound (x / 2 ^ 24) 256 ltac:(lia)) as H3.
  set (b0 := x mod 256) in *. set (b1 := (x / 2 ^ 8) mod 256) in *.
  set (b2 := (x / 2 ^ 16) mod 256) in *. set (b3 := (x / 2 ^ 24) mod 256) in *.
  rewrite (lor_scaled b2 b3 8) by lia.
  rewrite (lor_scaled b0 (b1 * 2 ^ 16) 24) by lia.
  replace (b0 * 2 ^ 24 + b1 * 2 ^ 16) with ((b0 * 2 ^ 8 + b1) * 2 ^ 16) by lia.
  rewrite (lor_scaled (b0 * 2 ^ 8 + b1) (b2 * 2 ^ 8 + b3) 16) by lia.
  lia.
Qed.

(** The bytes of a number below 2^32, most significant first, and back. *)
Lemma bytes_of_sum (b0 b1 b2 b3 : Z) :
  0 <= b0 < 256 -> 0 <= b1 < 256 -> 0 <= b2 < 256 -> 0 <= b3 < 256 ->
  let y := b0 * 2 ^ 24 + b1 * 2 ^ 16 + b2 * 2 ^ 8 + b3 in
  (y / 2 ^ 24) mod 256 = b0 /\ (y / 2 ^ 16) mod 256 = b1 /\
  (y / 2 ^ 8) mod 256 = b2 /\ y mod 256 = b3.
Proof.
  intros H0 H1 H2 H3 y. unfold y. conjs.
  - replace (b0 * 2 ^ 24 + b1 * 2 ^ 16 + b2 * 2 ^ 8 + b3)
      with (b0 * 2 ^ 24 + (b1 * 2 ^ 16 + b2 * 2 ^ 8 + b3)) by lia.
    rewrite Z.div_add_l, (Z.div_small (b1 * 2 ^ 16 + b2 * 2 ^ 8 + b3)) by lia.
    rewrite Z.add_0_r. apply Z.mod_small. lia.
  - replace (b0 * 2 ^ 24 + b1 * 2 ^ 16 + b2 * 2 ^ 8 + b3)
      with ((b0 * 2 ^ 8 + b1) * 2 ^ 16 + (b2 * 2 ^ 8 + b3)) by lia.
    rewrite Z.div_add_l, (Z.div_small (b2 * 2 ^ 8 + b3)) by lia.
    rewrite Z.add_0_r, Z.add_comm, Z.mod_add by lia. apply Z.mod_small. lia.
  - replace (b0 * 2 ^ 24 + b1 * 2 ^ 16 + b2 * 2 ^ 8 + b3)
      with ((b0 * 2 ^ 16 + b1 * 2 ^ 8 + b2) * 2 ^ 8 + b3) by lia.
    rewrite Z.div_add_l, (Z.div_small b3) by lia.
    rewrite Z.add_0_r.
    replace (b0 * 2 ^ 16 + b1 * 2 ^ 8 + b2)
      with (b2 + (b0 * 2 ^ 8 + b1) * 256) by lia.
    rewrite Z.mod_add by lia. apply Z.mod_small. lia.
  - replace (b0 * 2 ^ 24 + b1 * 2 ^ 16 + b2 * 2 ^ 8 + b3)
      with (b3 + (b0 * 2 ^ 16 + b1 * 2 ^ 8 + b2) * 256) by lia.
    rewrite Z.mod_add by lia. apply Z.mod_small. lia.
Qed.

Lemma sum_of_bytes (t : Z) :
  in_u32 t ->
  ((t / 2 ^ 24) mod 256) * 2 ^ 24 + ((t / 2 ^ 16) mod 256) * 2 ^ 16
  + ((t / 2 ^ 8) mod 256) * 2 ^ 8 + t mod 256 = t.
Proof.
  intros Ht. unfold in_u32 in Ht.
  pose proof (Z.div_mod t 256 ltac:(lia)) as E0.
  pose proof (Z.div_mod (t / 2 ^ 8) 256 ltac:(lia)) as E1.
  pose proof (Z.div_mod (t / 2 ^ 16) 256 ltac:(lia)) as E2.
  assert (D1 : t / 2 ^ 16 = t / 2 ^ 8 / 256).
  { rewrite Z.div_div by lia. reflexivity. }
  assert (D2 : t / 2 ^ 24 = t / 2 ^ 16 / 256).
  { rewrite Z.div_div by lia. reflexivity. }
  assert (D3 : (t / 2 ^ 24) mod 256 = t / 2 ^ 24).
  { apply Z.mod_small. split; [apply Z.div_pos; lia|].
    apply Z.div_lt_upper_bound; lia. }
  change (2 ^ 8) with 256 in *. lia.
Qed.

(** X14. Whatever the byte order of the host, the four bytes that
    [fd_write] takes from the value of [big_endian(time)] are the bytes
    of [time], most significant first: a reader that puts them together in
    that order finds [time] again, and the byte kept as [last_byte_sent]
    is [time] modulo 256. *)
Theorem big_endian_bytes (little_endian : bool) (t : Z) :
  in_u32 t ->
  ByteOrder.object_bytes little_endian (ByteOrder.big_endian little_endian t)
  = big_endian t /\
  Forall (fun b => 0 <= b < 256) (big_endian t) /\
  read_big_endian (big_endian t) = t /\
  last_byte_sent t = t mod 256.
Proof.
  intros Ht. conjs.
  - destruct little_endian.
    + change (ByteOrder.big_endian true t) with (ByteOrder.bswap_32 t).
      unfold ByteOrder.object_bytes, big_endian.
      rewrite !land_255, !Z.shiftr_div_pow2, bswap_32_value by lia.
      destruct (bytes_of_sum (t mod 256) ((t / 2 ^ 8) mod 256)
                  ((t / 2 ^ 16) mod 256) ((t / 2 ^ 24) mod 256))
        as (H0 & H1 & H2 & H3); try (apply Z.mod_pos_bound; lia).
      cbv zeta in H0, H1, H2, H3. now rewrite H0, H1, H2, H3.
    + change (ByteOrder.big_endian false t) with t.
      unfold ByteOrder.object_bytes, big_endian. simpl rev.
      now rewrite !land_255, !Z.shiftr_div_pow2 by lia.
  - unfold big_endian. repeat constructor; apply Z.mod_pos_bound; lia.
  - unfold read_big_endian, big_endian. simpl fold_left.
    rewrite <- (sum_of_bytes t Ht) at 5. lia.
  - reflexivity.
Qed.

Lemma big_endian_bytes_witness :
  ByteOrder.object_bytes true (ByteOrder.big_endian true 305419896)
  = big_endian 305419896 /\
  Forall (fun b => 0 <= b < 256) (big_endian 305419896) /\
  read_big_endian (big_endian 305419896) = 305419896 /\
  last_byte_sent 305419896 = 305419896 mod 256.
Proof.
  apply (big_endian_bytes true 305419896). unfold in_u32. lia.
Defined.

(** ** Pipes *)

Lemma firstn_add_skipn {A : Type} (l : list A) (a b : nat) :
  firstn (a + b) l = firstn a l ++ firstn b (skipn a l).
Proof.
  revert l. induction a as [|a IH]; intros l; simpl; trivial.
  destruct l as [|x l]; simpl.
  - now rewrite firstn_nil.
  - now rewrite IH.
Qed.

Lemma total_nonneg_all (l : list Z) : Forall (fun r => 0 <= r) l -> 0 <= total l.
Proof. apply total_nonneg. Qed.

Lemma fd_write_progress (answers : list Z) :
  Forall (fun r => 0 <= r) answers ->
  forall (pBuffer sent : list Z) (n : Z),
    n < 2 ^ 64 -> total answers <= n ->
    (total answers = n ->
     forall later,
       fd_write (answers ++ later) pBuffer n sent
       = Transferred (sent ++ firstn (Z.to_nat n) pBuffer)) /\
    (total answers < n ->
     fd_write answers pBuffer n sent
     = Waiting (sent ++ firstn (Z.to_nat (total answers)) pBuffer) /\
     forall later,
       fd_write (answers ++ -1 :: later) pBuffer n sent
       = ExitFailure (sent ++ firstn (Z.to_nat (total answers)) pBuffer)).
Proof.
  induction 1 as [|r rest Hr Hrest IH]; intros pBuffer sent n Hn Hle;
    simpl in Hle |- *.
  - split.
    + intros <- later. simpl. destruct later; simpl; now rewrite app_nil_r.
    + intros Hlt. assert (E : (0 <? n) = true) by (apply Z.ltb_lt; lia).
      rewrite E. simpl. now rewrite app_nil_r.
  - pose proof (total_nonneg_all rest Hrest) as Hpos.
    assert (Hneg : (r =? -1) = false) by (apply Z.eqb_neq; lia).
    assert (Hu : u64 (n - r) = n - r).
    { unfold u64. apply Z.mod_small. lia. }
    destruct (IH (skipn (Z.to_nat r) pBuffer)
                 (sent ++ firstn (Z.to_nat r) pBuffer) (n - r)) as (IH1 & IH2);
      [lia | lia |].
    assert (Hjoin : forall k, 0 <= k ->
              (sent ++ firstn (Z.to_nat r) pBuffer)
              ++ firstn (Z.to_nat k) (skipn (Z.to_nat r) pBuffer)
              = sent ++ firstn (Z.to_nat (r + k)) pBuffer).
    { intros k Hk. rewrite <- app_assoc, Z2Nat.inj_add by lia.
      now rewrite firstn_add_skipn. }
    split.
    + intros Heq later. destruct (0 <? n) eqn:E.
      * rewrite Hneg, Hu, IH1 by lia. rewrite Hjoin by lia.
        do 3 f_equal. lia.
      * apply Z.ltb_ge in E. assert (Hz : n = 0) by lia. rewrite Hz.
        simpl. now rewrite app_nil_r.
    + intros Hlt. assert (E : (0 <? n) = true) by (apply Z.ltb_lt; lia).
      rewrite E, Hneg, Hu. destruct (IH2 ltac:(lia)) as (IH3 & IH4).
      rewrite IH3, Hjoin by lia. split; trivial.
      intros later. now rewrite IH4, Hjoin by lia.
Qed.

(** X15. [fd_write] sends the whole buffer, in order, however the calls of
    [write] split it, calls that take nothing included; it is still in its
    loop while the calls have taken less, and it exits with a failure at
    the first call that answers -1 before that. *)
Theorem fd_write_sends_all (answers : list Z) (pBuffer sent : list Z)
    (nbytes : Z) :
  Forall (fun r => 0 <= r) answers -> nbytes < 2 ^ 64 ->
  total answers <= nbytes ->
  (total answers = nbytes ->
   forall later,
     fd_write (answers ++ later) pBuffer nbytes sent
     = Transferred (sent ++ firstn (Z.to_nat nbytes) pBuffer)) /\
  (total answers < nbytes ->
   fd_write answers pBuffer nbytes sent
   = Waiting (sent ++ firstn (Z.to_nat (total answers)) pBuffer) /\
   forall later,
     fd_write (answers ++ -1 :: later) pBuffer nbytes sent
     = ExitFailure (sent ++ firstn (Z.to_nat (total answers)) pBuffer)).
Proof.
  intros Hpos Hn Hle. now apply fd_write_progress.
Qed.

Lemma fd_write_sends_all_witness :
  (total [1; 0; 3] = 4 ->
   forall later,
     fd_write ([1; 0; 3] ++ later) [18; 52; 86; 120] 4 []
     = Transferred ([] ++ firstn (Z.to_nat 4) [18; 52; 86; 120])) /\
  (total [1; 0; 3] < 4 ->
   fd_write [1; 0; 3] [18; 52; 86; 120] 4 []
   = Waiting ([] ++ firstn (Z.to_nat (total [1; 0; 3])) [18; 52; 86; 120]) /\
   forall later,
     fd_write ([1; 0; 3] ++ -1 :: later) [18; 52; 86; 120] 4 []
     = ExitFailure
         ([] ++ firstn (Z.to_nat (total [1; 0; 3])) [18; 52; 86; 120])).
Proof.
  apply (fd_write_sends_all [1; 0; 3] [18; 52; 86; 120] [] 4).
  - repeat constructor; lia.
  - lia.
  - simpl. lia.
Defined.

Lemma fd_read_progress (chunks : list (list Z)) :
  forall (stored : list Z) (n : Z),
    n < 2 ^ 64 -> Z.of_nat (List.length (List.concat chunks)) <= n ->
    (Z.of_nat (List.length (List.concat chunks)) = n ->
     forall later,
       fd_read (map ReadBytes chunks ++ later) n stored
       = Transferred (stored ++ List.concat chunks)) /\
    (Z.of_nat (List.length (List.concat chunks)) < n ->
     fd_read (map ReadBytes chunks) n stored
     = Waiting (stored ++ List.concat chunks) /\
     forall later,
       fd_read (map ReadBytes chunks ++ ReadError :: later) n stored
       = ExitFailure (stored ++ List.concat chunks)).
Proof.
  induction chunks as [|bytes rest IH]; intros stored n Hn Hle;
    simpl in Hle |- *.
  - split.
    + intros <- later. simpl. destruct later; simpl; now rewrite app_nil_r.
    + intros Hlt. assert (E : (0 <? n) = true) by (apply Z.ltb_lt; lia).
      rewrite E. simpl. now rewrite app_nil_r.
  - rewrite length_app, Nat2Z.inj_add in *.
    assert (Hu : u64 (n - Z.of_nat (List.length bytes))
                 = n - Z.of_nat (List.length bytes)).
    { unfold u64. apply Z.mod_small. lia. }
    destruct (IH (stored ++ bytes) (n - Z.of_nat (List.length bytes)))
      as (IH1 & IH2); [lia | lia |].
    rewrite Hu, <- !app_assoc in *. split.
    + intros Heq later. destruct (0 <? n) eqn:E.
      * now rewrite IH1 by lia.
      * apply Z.ltb_ge in E.
        assert (Hnil : bytes ++ List.concat rest = []).
        { apply length_zero_iff_nil. rewrite length_app. lia. }
        now rewrite Hnil, app_nil_r.
    + intros Hlt. assert (E : (0 <? n) = true) by (apply Z.ltb_lt; lia).
      rewrite E. destruct (IH2 ltac:(lia)) as (IH3 & IH4).
      rewrite IH3. split; [reflexivity | exact IH4].
Qed.

Lemma concat_repeat_nil {A : Type} (k : nat) :
  List.concat (repeat (@nil A) k) = [].
Proof. induction k; simpl; trivial. Qed.

(** X16. [fd_read] fills the buffer with the bytes that the calls of
    [read] deliver, in order, however they are split, and exits with a
    failure at the first call that answers -1 before the buffer is full.
    At the end of the file, where [read] delivers nothing, it stays in its
    loop for good: a subprocess that closes its pipe without answering
    leaves the manager waiting. *)
Theorem fd_read_fills_buffer (chunks : list (list Z)) (stored : list Z)
    (nbytes : Z) :
  nbytes < 2 ^ 64 -> Z.of_nat (List.length (List.concat chunks)) <= nbytes ->
  (Z.of_nat (List.length (List.concat chunks)) = nbytes ->
   forall later,
     fd_read (map ReadBytes chunks ++ later) nbytes stored
     = Transferred (stored ++ List.concat chunks)) /\
  (Z.of_nat (List.length (List.concat chunks)) < nbytes ->
   (forall later,
      fd_read (map ReadBytes chunks ++ ReadError :: later) nbytes stored
      = ExitFailure (stored ++ List.concat chunks)) /\
   (forall k,
      fd_read (map ReadBytes chunks ++ repeat (ReadBytes []) k) nbytes stored
      = Waiting (stored ++ List.concat chunks))).
Proof.
  intros Hn Hle.
  destruct (fd_read_progress chunks stored nbytes Hn Hle) as (H1 & H2).
  split; trivial. intros Hlt. destruct (H2 Hlt) as (_ & H3). split; trivial.
  intros k.
  assert (Hmap : map ReadBytes chunks ++ repeat (ReadBytes []) k
                 = map ReadBytes (chunks ++ repeat [] k)).
  { rewrite map_app. f_equal. clear. induction k; simpl; congruence. }
  assert (Hcat : List.concat (chunks ++ repeat [] k) = List.concat chunks).
  { rewrite List.concat_app, concat_repeat_nil. apply app_nil_r. }
  rewrite Hmap.
  destruct (fd_read_progress (chunks ++ repeat [] k) stored nbytes Hn)
    as (_ & H4); rewrite Hcat in *; trivial.
  now destruct (H4 Hlt).
Qed.

Lemma fd_read_fills_buffer_witness :
  (Z.of_nat (List.length (List.concat [[18]; []; [52; 86]])) = 4 ->
   forall later,
     fd_read (map ReadBytes [[18]; []; [52; 86]] ++ later) 4 []
     = Transferred ([] ++ List.concat [[18]; []; [52; 86]])) /\
  (Z.of_nat (List.length (List.concat [[18]; []; [52; 86]])) < 4 ->
   (forall later,
      fd_read (map ReadBytes [[18]; []; [52; 86]] ++ ReadError :: later) 4 []
      = ExitFailure ([] ++ List.concat [[18]; []; [52; 86]])) /\
   (forall k,
      fd_read (map ReadBytes [[18]; []; [52; 86]] ++ repeat (ReadBytes []) k)
              4 []
      = Waiting ([] ++ List.concat [[18]; []; [52; 86]]))).
Proof.
  apply (fd_read_fills_buffer [[18]; []; [52; 86]] [] 4).
  - lia.
  - simpl. lia.
Defined.

(** ** Reading back what was written *)

Lemma string_app_assoc (a b c : string) :
  ((a ++ b) ++ c = a ++ (b ++ c))%string.
Proof. induction a as [|x a IH]; simpl; [|rewrite IH]; trivial. Qed.

Lemma scan_digits_written (d : Decimal.uint) :
  forall (acc : Z) (rest : string),
    no_digit_ahead rest ->
    scan_digits (NilEmpty.string_of_uint d ++ rest) acc
    = (digits_value d acc, rest).
Proof.
  induction d; intros acc rest Hrest;
    try (cbn [NilEmpty.string_of_uint String.append scan_digits digits_value];
         change (isdigit _) with true; cbv iota;
         rewrite IHd by trivial; reflexivity).
  simpl. destruct rest as [|c r]; simpl; trivial.
  simpl in Hrest. now rewrite Hrest.
Qed.

Lemma digits_value_acc (d : Decimal.uint) :
  forall acc : positive,
    digits_value d (Z.pos acc) = Z.pos (Pos.of_uint_acc d acc).
Proof.
  induction d; intros acc; cbn [digits_value Pos.of_uint_acc]; trivial;
    rewrite <- IHd; f_equal; lia.
Qed.

Lemma digits_value_of_uint (d : Decimal.uint) :
  digits_value d 0 = Z.of_N (N.of_uint d).
Proof.
  unfold N.of_uint.
  induction d; cbn [digits_value Pos.of_uint]; trivial;
    cbn [Z.of_N]; rewrite <- digits_value_acc; reflexivity.
Qed.

Lemma fmt_u_digits (z : Z) :
  0 <= z ->
  exists d, d <> Decimal.Nil /\ fmt_u z = NilEmpty.string_of_uint d /\
            digits_value d 0 = z.
Proof.
  intros Hz. exists (N.to_uint (Z.to_N z)).
  assert (Hne : N.to_uint (Z.to_N z) <> Decimal.Nil).
  { intros H. pose proof (DecimalN.Unsigned.of_to (Z.to_N z)) as E.
    rewrite H in E. simpl in E.
    destruct (Z.to_N z) eqn:En; [discriminate|discriminate]. }
  conjs; trivial.
  - unfold fmt_u, NilZero.string_of_uint.
    destruct (N.to_uint (Z.to_N z)); trivial. contradiction.
  - rewrite digits_value_of_uint, DecimalN.Unsigned.of_to. now apply Z2N.id.
Qed.

Lemma scan_u_digits (d : Decimal.uint) (rest : string) :
  d <> Decimal.Nil -> no_digit_ahead rest ->
  scan_u (NilEmpty.string_of_uint d ++ rest)
  = Matched (digits_value d 0) rest.
Proof.
  intros Hne Hrest.
  pose proof (scan_digits_written d 0 rest Hrest) as Hscan.
  destruct d; try contradiction;
    cbn [NilEmpty.string_of_uint String.append] in *;
    unfold scan_u; cbn [skip_space];
    change (isspace _) with false; cbv iota;
    change (Ascii.eqb _ "-") with false; change (Ascii.eqb _ "+") with false;
    cbn [orb]; cbv iota; change (isdigit _) with true; cbv iota;
    rewrite Hscan; reflexivity.
Qed.

Lemma scan_u_written (z : Z) (rest : string) :
  0 <= z -> no_digit_ahead rest ->
  scan_u (fmt_u z ++ rest) = Matched z rest.
Proof.
  intros Hz Hrest. destruct (fmt_u_digits z Hz) as (d & Hne & -> & <-).
  now apply scan_u_digits.
Qed.

Lemma skip_space_blank (rest : string) :
  skip_space (" " ++ rest) = skip_space rest.
Proof. reflexivity. Qed.

Lemma scan_u_blank (rest : string) : scan_u (" " ++ rest) = scan_u rest.
Proof. reflexivity. Qed.

Lemma scan_word_written (w : string) :
  forall rest,
    Forall (fun c => isspace c = false) (list_ascii_of_string w) ->
    scan_word (w ++ String " " rest) = (w, String " " rest).
Proof.
  induction w as [|c w IH]; intros rest Hw; simpl; trivial.
  simpl in Hw. inversion Hw as [|? ? Hc Hw']; subst.
  rewrite Hc. now rewrite IH.
Qed.

Lemma scan_s_written (w rest : string) :
  word w ->
  scan_s (String " " (w ++ String " " rest)) = Matched w (String " " rest).
Proof.
  intros (Hne & Hw & _). unfold scan_s.
  change (skip_space (String " " (w ++ String " " rest)))
    with (skip_space (w ++ String " " rest)).
  pose proof (scan_word_written w rest Hw) as Hscan.
  destruct w as [|c w]; [contradiction|].
  simpl in Hw. inversion Hw as [|? ? Hc Hw']; subst.
  cbn [String.append skip_space] in *. rewrite Hc.
  now rewrite Hscan.
Qed.

Lemma record_text_app (p : program) (rest : string) :
  (record_text p ++ rest)%string =
  (fmt_u (time_arrived p)
   ++ String " " (name p
   ++ String " " (fmt_u (service_time p)
   ++ String " " (fmt_u (memory_required p) ++ (nl ++ rest)))))%string.
Proof.
  unfold record_text. repeat (rewrite ?string_app_assoc; simpl).
  reflexivity.
Qed.

Lemma fscanf_program_written (p : program) (rest : string) :
  program_ok p -> word (name p) ->
  fscanf_program (record_text p ++ rest) = (4, p, skip_space rest).
Proof.
  intros (Ht & Hs & Hm) Hw. rewrite record_text_app. unfold fscanf_program.
  unfold in_u32 in *.
  rewrite scan_u_written by (simpl; trivial; lia).
  rewrite scan_s_written by trivial.
  change (scan_u (String " " ?x)) with (scan_u x).
  rewrite scan_u_written by (simpl; trivial; lia).
  change (scan_u (String " " ?x)) with (scan_u x).
  rewrite scan_u_written by (simpl; trivial; lia).
  rewrite !u32_small by (unfold in_u32; lia).
  unfold u16. rewrite Z.mod_small by lia.
  destruct p. reflexivity.
Qed.

Lemma skip_space_written (z : Z) (rest : string) :
  0 <= z -> skip_space (fmt_u z ++ rest) = (fmt_u z ++ rest)%string.
Proof.
  intros Hz. destruct (fmt_u_digits z Hz) as (d & Hne & -> & _).
  destruct d; try contradiction; reflexivity.
Qed.

Lemma skip_space_file_text (progs : list program) :
  Forall program_ok progs -> skip_space (file_text progs) = file_text progs.
Proof.
  intros H. destruct H as [|p l (Ht & _) _]; simpl; trivial.
  rewrite record_text_app. apply skip_space_written. unfold in_u32 in Ht. lia.
Qed.

Lemma read_programs_written (progs : list program) :
  Forall (fun p => program_ok p /\ word (name p)) progs ->
  forall fuel m,
    (List.length progs < fuel)%nat ->
    read_programs fuel (file_text progs) m
    = ReadAll (fold_left program_add progs m).
Proof.
  induction 1 as [|p l (Hok & Hw) Hl IH]; intros fuel m Hfuel;
    (destruct fuel as [|fuel]; [simpl in Hfuel; lia|]).
  - reflexivity.
  - cbn [file_text read_programs]. rewrite fscanf_program_written by trivial.
    change (4 =? EOF) with false. cbv iota.
    rewrite skip_space_file_text.
    + apply IH. simpl in Hfuel. lia.
    + eapply Forall_impl; [|exact Hl]. now intros q (H & _).
Qed.

(** X17. [fscanf] reads back a record that was written in the format of
    the input file: the call returns 4, fills the record with the four
    fields, and leaves the stream at the next record. The fields are
    values of their C types and the name is a word of at most
    [MAX_NAME_LEN] characters. *)
Theorem fscanf_reads_back_record (p : program) (rest : string) :
  program_ok p -> word (name p) ->
  fscanf_program (record_text p ++ rest) = (4, p, skip_space rest).
Proof. apply fscanf_program_written. Qed.

Lemma fscanf_reads_back_record_witness :
  fscanf_program (record_text (mk_program "P1" 3 10 600) ++ "7 P2 1 0")
  = (4, mk_program "P1" 3 10 600, skip_space "7 P2 1 0").
Proof.
  apply (fscanf_reads_back_record (mk_program "P1" 3 10 600) "7 P2 1 0").
  - repeat split; simpl; lia.
  - repeat split; simpl; try discriminate; try lia. repeat constructor.
Defined.

(** X18. The reading loop of [main] reads a well-formed input file to its
    end: it adds the programs to the manager in the order of the file, one
    for each record, and leaves at the end of the file. *)
Theorem well_formed_file_is_read (t : SCHEDULER_TYPE) (s : MEMORY_STRATEGY)
    (progs : list program) (fuel : nat) :
  Forall (fun p => program_ok p /\ word (name p)) progs ->
  (List.length progs < fuel)%nat ->
  read_programs fuel (file_text progs) (process_manager_initialise t s)
  = ReadAll (boot t s progs).
Proof.
  intros Hprogs Hfuel. unfold boot. now apply read_programs_written.
Qed.

Lemma well_formed_file_is_read_witness :
  read_programs 3
    (file_text [mk_program "P1" 0 10 600; mk_program "P2" 3 5 20])
    (process_manager_initialise RR BEST_FIT)
  = ReadAll (boot RR BEST_FIT
               [mk_program "P1" 0 10 600; mk_program "P2" 3 5 20]).
Proof.
  apply (well_formed_file_is_read RR BEST_FIT
           [mk_program "P1" 0 10 600; mk_program "P2" 3 5 20] 3).
  - repeat constructor; simpl; try discriminate; lia.
  - simpl. lia.
Defined.

(** X19. An input file that holds nothing but white space gives no
    program: the reading loop leaves at its first call of [fscanf], and
    the execution loop leaves before its first iteration. *)
Theorem blank_file_runs_nothing (tie : tie_rule) (sha : string -> string)
    (q : Z) (t : SCHEDULER_TYPE) (s : MEMORY_STRATEGY) (fp : string)
    (fuel fuel' : nat) :
  skip_space fp = EmptyString ->
  read_programs (S fuel) fp (process_manager_initialise t s)
  = ReadAll (boot t s []) /\
  execution_loop tie sha (S fuel') q (boot t s []) = Exited (boot t s []).
Proof.
  intros Hfp. split.
  - cbn [read_programs]. unfold fscanf_program, scan_u. rewrite Hfp.
    reflexivity.
  - reflexivity.
Qed.

Lemma blank_file_runs_nothing_witness :
  read_programs 1 (" " ++ nl) (process_manager_initialise SJF INFINITE)
  = ReadAll (boot SJF INFINITE []) /\
  execution_loop NewAfterEqual silent 1 3 (boot SJF INFINITE [])
  = Exited (boot SJF INFINITE []).
Proof.
  apply (blank_file_runs_nothing NewAfterEqual silent 3 SJF INFINITE
           (" " ++ nl)%string 0 0).
  reflexivity.
Defined.

(** ** The policies across a whole iteration *)

Lemma sjf_compare_eq (p1 p2 : process) :
  sjf_compare p1 p2 = Eq ->
  service_time (pProgram p1) = service_time (pProgram p2) /\
  time_arrived (pProgram p1) = time_arrived (pProgram p2) /\
  name (pProgram p1) = name (pProgram p2).
Proof.
  unfold sjf_compare.
  destruct (Z.compare_spec (service_time (pProgram p1))
                           (service_time (pProgram p2))) as [E1|E1|E1];
    try discriminate.
  destruct (Z.compare_spec (time_arrived (pProgram p1))
                           (time_arrived (pProgram p2))) as [E2|E2|E2];
    try discriminate.
  intros H. apply String.compare_eq_iff in H. auto.
Qed.

(** X20. The choice of shortest job first does not depend on the order of
    the ready list: when no two ready processes have the same service
    time, arrival time and name, the same process is chosen from any
    rearrangement of the list. *)
Theorem sjf_choice_ignores_order (l l' : list process) :
  Permutation l l' -> Forall named l -> l <> [] ->
  (forall p1 p2, In p1 l -> In p2 l ->
     service_time (pProgram p1) = service_time (pProgram p2) ->
     time_arrived (pProgram p1) = time_arrived (pProgram p2) ->
     name (pProgram p1) = name (pProgram p2) -> p1 = p2) ->
  exists pos pos' chosen,
    shortest_job_first l = Some pos /\ nth_error l pos = Some chosen /\
    shortest_job_first l' = Some pos' /\ nth_error l' pos' = Some chosen.
Proof.
  intros Hperm Hnamed Hne Hkeys.
  assert (Hnamed' : Forall named l').
  { apply Forall_forall. intros x Hx. rewrite Forall_forall in Hnamed.
    apply Hnamed. now apply (Permutation_in _ (Permutation_sym Hperm)). }
  pose proof (shortest_job_first_spec l Hnamed) as Hl.
  pose proof (shortest_job_first_spec l' Hnamed') as Hl'.
  destruct (shortest_job_first l) as [pos|]; [|contradiction].
  destruct (shortest_job_first l') as [pos'|].
  2:{ subst l'. apply Permutation_sym, Permutation_nil in Hperm.
      contradiction. }
  destruct Hl as (c & Hn & Hmin & _). destruct Hl' as (c' & Hn' & Hmin' & _).
  exists pos, pos', c. conjs; trivial. rewrite Hn'. f_equal.
  assert (Hc : In c l) by (eapply nth_error_In; eauto).
  assert (Hc' : In c' l).
  { apply (Permutation_in _ (Permutation_sym Hperm)).
    eapply nth_error_In; eauto. }
  pose proof (Hmin c' Hc') as H1.
  pose proof (Hmin' c (Permutation_in _ Hperm Hc)) as H2.
  rewrite sjf_compare_antisym in H2.
  destruct (sjf_compare c' c) eqn:E; try contradiction.
  destruct (sjf_compare_eq c' c E) as (E1 & E2 & E3). now apply Hkeys.
Qed.

Lemma sjf_choice_ignores_order_witness :
  exists pos pos' chosen,
    shortest_job_first
      [new_process (mk_program "P1" 0 10 0, None);
       new_process (mk_program "P2" 0 5 0, None)] = Some pos /\
    nth_error [new_process (mk_program "P1" 0 10 0, None);
               new_process (mk_program "P2" 0 5 0, None)] pos = Some chosen /\
    shortest_job_first
      [new_process (mk_program "P2" 0 5 0, None);
       new_process (mk_program "P1" 0 10 0, None)] = Some pos' /\
    nth_error [new_process (mk_program "P2" 0 5 0, None);
               new_process (mk_program "P1" 0 10 0, None)] pos' = Some chosen.
Proof.
  apply (sjf_choice_ignores_order
           [new_process (mk_program "P1" 0 10 0, None);
            new_process (mk_program "P2" 0 5 0, None)]
           [new_process (mk_program "P2" 0 5 0, None);
            new_process (mk_program "P1" 0 10 0, None)]).
  - apply perm_swap.
  - repeat constructor; discriminate.
  - discriminate.
  - simpl. intros p1 p2 [<-|[<-|[]]] [<-|[<-|[]]]; simpl; trivial;
      discriminate.
Defined.

(** What [update] leaves of the queue and of the running process. *)
Lemma update_queue (tie : tie_rule) (sha : string -> string) (q : Z)
    (m m' : manager) :
  engine_invariant q m -> update tie sha m q = Ok m' ->
  list_ready m' = list_ready m /\
  List.length (list_active m') = List.length (list_active m) /\
  match pRunningProcess m with
  | None => pRunningProcess m' = None
  | Some r =>
      pRunningProcess m' = Some r \/
      (pRunningProcess m' = None /\
       exists pr, nth_error (list_active m') r = Some pr /\ state pr = FINISHED)
  end.
Proof.
  intros Hinv Hup. pose proof (update_trace tie sha m q) as Ht.
  destruct (pRunningProcess m) as [r|] eqn:Er.
  2:{ rewrite Ht in Hup. injection Hup as <-. auto. }
  destruct Hinv as [_ Hrunning _ _ _ Hproc].
  destruct (Hrunning r Er) as (pr & Hn & Hst).
  rewrite Forall_forall in Hproc.
  pose proof (Hproc pr (nth_error_In _ _ Hn)) as (_ & _ & _ & Hblock).
  destruct (Ht pr Hn) as (m0 & pr' & Hup0 & Ha & Hprog & Hrt & Hpid & Hr & Hpp
                          & Hin & Htime & Htype & Hpi & Hs & _ & Hcase).
  { intros Hs. rewrite Hs in Hblock. intros Hnone. apply Hblock in Hnone.
    congruence. }
  rewrite Hup0 in Hup. injection Hup as <-. conjs; trivial.
  - now rewrite Ha, set_nth_length.
  - destruct (service_time (pProgram pr) <=? u32 (run_time pr + q)).
    + destruct Hcase as (Hst' & Hrun & _). right. split; trivial.
      exists pr'. split; trivial. rewrite Ha.
      now apply (nth_error_set_nth_eq _ _ pr).
    + destruct Hcase as (_ & Hrun & _). now left.
Qed.

(** X21. One iteration under round robin. The programs that
    [check_pending] accepts join the ready list first; then, when the
    list is not empty, the process that was running joins it behind them,
    the head of the list leaves it and runs for the quantum. When the list
    is empty the process that was running goes on. *)
Theorem round_robin_iteration (tie : tie_rule) (sha : string -> string)
    (q : Z) (s : MEMORY_STRATEGY) (progs : list program) (m m' : manager) :
  in_u32 q -> Forall program_ok progs ->
  reachable tie sha q (boot RR s progs) m ->
  step tie sha q m = Ok m' ->
  exists k,
    List.length (list_active m') = (List.length (list_active m) + k)%nat /\
    match list_ready m ++ seq (List.length (list_active m)) k with
    | [] =>
        list_ready m' = [] /\
        (pRunningProcess m' = pRunningProcess m \/ pRunningProcess m' = None)
    | h :: rest =>
        list_ready m' =
          rest ++ match pRunningProcess m with
                  | Some r => [r]
                  | None => []
                  end /\
        (pRunningProcess m' = Some h \/
         (pRunningProcess m' = None /\
          exists pr, nth_error (list_active m') h = Some pr /\
                     state pr = FINISHED))
    end.
Proof.
  intros Hq Hprogs Hreach Hstep.
  destruct (reachable_invariant tie sha q _ m Hq
              (boot_invariant q RR s progs Hprogs) Hreach)
    as (Hinv & (_ & Htype & _)).
  rewrite boot_effect in Htype. simpl in Htype.
  destruct (step_stages tie sha q m Hq Hinv)
    as (m1 & keep & m2 & m3 & m0 & Hcp & Hinv1 & Hk & Hinv2 & Hsw & Hinv3
        & Hnone & Hup & _ & Hstep0).
  rewrite Hstep0 in Hstep. injection Hstep as <-.
  destruct (check_pending_trace m m1 Hcp)
    as (moved & rest0 & accepted & kept & _ & _ & _ & _ & _ & Hact1 & Hrd1
        & Hrun1 & _ & _ & Htype1 & _).
  exists (List.length accepted).
  destruct (update_queue tie sha q m3 m0 Hinv3 Hup) as (Hrd0 & Hlen0 & Hrun0).
  (* the switch under round robin *)
  assert (Hswitch : forall m2' h rest,
            engine_invariant q m2' -> type m2' = RR ->
            list_ready m2' = h :: rest ->
            exists m3', switch_process m2' = Ok m3' /\
                        pRunningProcess m3' = Some h /\ list_ready m3' = rest /\
                        List.length (list_active m3')
                        = List.length (list_active m2')).
  { intros m2' h rest Hinv2' Ht2 Hr2.
    destruct Hinv2' as [(_ & Hrdy) _ _ _ _ _].
    destruct (Hrdy h) as (prh & Hnh & _); [rewrite Hr2; now left|].
    destruct (switch_process_effect m2' 0 h prh)
      as (m3' & pr' & Hs3 & Hrun3 & Hrd3 & Hact3 & _); trivial.
    - now rewrite Ht2, Hr2.
    - now rewrite Hr2.
    - exists m3'. rewrite Hr2 in Hrd3. conjs; trivial.
      now rewrite Hact3, set_nth_length. }
  pose proof (keep_process_running_trace m1) as Ht.
  rewrite Hrun1 in Ht.
  destruct (pRunningProcess m) as [r|] eqn:Er.
  - (* a process was running *)
    destruct Hinv1 as [Hready1 Hrunning1 Hpool1 Hp1 Hi1 Hproc1].
    destruct (Hrunning1 r) as (pr & Hn & Hst); [congruence|].
    destruct (Ht pr Hn) as (keep0 & m20 & Hk0 & _ & _ & _ & _ & Htype2 & _ & _
                            & _ & _ & Hcase).
    rewrite Hk0 in Hk. injection Hk as <- <-.
    destruct keep0.
    + destruct Hcase as ([Hsjf|Hnil] & Ha2 & Hr2 & Hrun2); [congruence|].
      subst m3. rewrite <- Hrd1, Hnil.
      rewrite Hrd0, Hr2, Hnil, Hlen0, Ha2, Hact1, length_app, length_map.
      split; trivial. split; trivial.
      rewrite Hrun2 in Hrun0. destruct Hrun0 as [H|(H & _)]; auto.
    + destruct Hcase as (_ & Hne & Ha2 & Hr2 & Hrun2).
      rewrite <- Hrd1. destruct (list_ready m1) as [|h rest] eqn:E1;
        [contradiction|].
      destruct (Hswitch m20 h (rest ++ [r]) Hinv2) as (m3' & Hs3 & Hrun3 & Hrd3
                                                      & Hlen3).
      { congruence. }
      { rewrite Hr2. reflexivity. }
      rewrite Hs3 in Hsw. injection Hsw as <-.
      rewrite Hrun3 in Hrun0. rewrite Hrd0, Hrd3, Hlen0, Hlen3, Ha2,
        set_nth_length, Hact1, length_app, length_map.
      split; trivial. split; trivial.
  - (* no process was running *)
    rewrite Ht in Hk. injection Hk as <- <-.
    rewrite <- Hrd1. destruct (list_ready m1) as [|h rest] eqn:E1.
    + destruct (switch_process_trace q m1 Hinv1)
        as [(_ & Hsame)|(? & pos & p & ? & ? & ? & _ & Hpos & _)].
      2:{ rewrite E1 in Hpos. destruct pos; discriminate. }
      rewrite Hsame in Hsw. injection Hsw as <-.
      rewrite Hrun1 in Hrun0.
      rewrite Hrd0, E1, Hlen0, Hact1, length_app, length_map. auto.
    + destruct (Hswitch m1 h rest Hinv1) as (m3' & Hs3 & Hrun3 & Hrd3 & Hlen3);
        trivial.
      { congruence. }
      rewrite Hs3 in Hsw. injection Hsw as <-.
      rewrite Hrun3 in Hrun0. rewrite Hrd0, Hrd3, Hlen0, Hlen3, Hact1,
        length_app, length_map, app_nil_r.
      split; trivial. split; trivial.
Qed.

Lemma round_robin_iteration_witness :
  exists k,
    List.length (list_active rotation_next)
    = (List.length (list_active rotation_state) + k)%nat /\
    match list_ready rotation_state
          ++ seq (List.length (list_active rotation_state)) k with
    | [] =>
        list_ready rotation_next = [] /\
        (pRunningProcess rotation_next = pRunningProcess rotation_state \/
         pRunningProcess rotation_next = None)
    | h :: rest =>
        list_ready rotation_next =
          rest ++ match pRunningProcess rotation_state with
                  | Some r => [r]
                  | None => []
                  end /\
        (pRunningProcess rotation_next = Some h \/
         (pRunningProcess rotation_next = None /\
          exists pr, nth_error (list_active rotation_next) h = Some pr /\
                     state pr = FINISHED))
    end.
Proof.
  apply (round_robin_iteration NewAfterEqual silent 3 BEST_FIT
           [mk_program "P1" 0 6 1500; mk_program "P2" 0 6 600;
            mk_program "P3" 0 6 500] rotation_state rotation_next).
  - unfold in_u32. lia.
  - exact contended_programs_ok.
  - exact rotation_reachable.
  - reflexivity.
Defined.

(** ** The traffic of each stage *)

Lemma process_run_events (m m' : manager) (p : nat) (pr : process) :
  nth_error (list_active m) p = Some pr -> process_run m p = Ok m' ->
  workers m' =
  workers m ++
  (if child_pid pr =? PID_NULL_HANDLE
   then round_spawn (Z.of_nat p + 1) (name (pProgram pr)) (time m)
   else round_continue (child_pid pr) (time m)).
Proof.
  intros Hn. unfold process_run, deref. rewrite Hn. simpl.
  destruct (child_pid pr =? PID_NULL_HANDLE) eqn:E; simpl.
  - intros H. injection H as <-. reflexivity.
  - unfold process_continue, deref. simpl.
    rewrite (nth_error_set_nth_eq _ _ pr _ Hn). simpl.
    intros H. injection H as <-. reflexivity.
Qed.

Lemma switch_process_events (m m' : manager) :
  switch_process m = Ok m' ->
  m' = m \/
  exists p pr,
    pRunningProcess m' = Some p /\ nth_error (list_active m) p = Some pr /\
    workers m' =
    workers m ++
    (if child_pid pr =? PID_NULL_HANDLE
     then round_spawn (Z.of_nat p + 1) (name (pProgram pr)) (time m)
     else round_continue (child_pid pr) (time m)).
Proof.
  unfold switch_process.
  destruct (match type m with
            | SJF => ready <- deref_all m (list_ready m) ;;
                     Ok (shortest_job_first ready)
            | RR => Ok (round_robin (list_ready m))
            end) as [[pos|]|]; simpl; try discriminate.
  2:{ intros H. injection H as <-. now left. }
  destruct (nth_error (list_ready m) pos) as [p|]; simpl; [|discriminate].
  destruct (process_run (set_pRunningProcess m (Some p)) p) as [m1|] eqn:E;
    simpl; [|discriminate].
  intros H. injection H as <-. right.
  assert (Hpr : exists pr, nth_error (list_active m) p = Some pr).
  { unfold process_run, deref in E. simpl in E.
    destruct (nth_error (list_active m) p) as [pr|]; [now exists pr|discriminate]. }
  destruct Hpr as (pr & Hn). exists p, pr.
  pose proof (process_run_events (set_pRunningProcess m (Some p)) m1 p pr Hn E)
    as Hw.
  destruct (process_run_trace (set_pRunningProcess m (Some p)) p pr Hn)
    as (m1' & pr' & evs & E' & _ & _ & _ & _ & _ & _ & _ & Hrun & _).
  rewrite E in E'. injection E' as <-. simpl in *. auto.
Qed.

Lemma keep_process_running_events (m m' : manager) (keep : bool) (r : nat)
    (pr : process) :
  pRunningProcess m = Some r -> nth_error (list_active m) r = Some pr ->
  keep_process_running m = Ok (keep, m') ->
  workers m' =
  workers m ++ (if keep then round_continue (child_pid pr) (time m)
                else round_suspend (child_pid pr) (time m)).
Proof.
  intros Er Hn. unfold keep_process_running. rewrite Er.
  assert (Hcont : forall m1, process_continue m r = Ok m1 ->
            workers m1 = workers m ++ round_continue (child_pid pr) (time m)).
  { unfold process_continue, deref. rewrite Hn. simpl.
    intros m1 H. injection H as <-. reflexivity. }
  destruct (type m).
  - destruct (process_continue m r) as [m1|] eqn:E; simpl; [|discriminate].
    intros H. injection H as <- <-. now apply Hcont.
  - destruct (list_ready m) as [|h rest].
    + destruct (process_continue m r) as [m1|] eqn:E; simpl; [|discriminate].
      intros H. injection H as <- <-. now apply Hcont.
    + unfold process_suspend, process_submit_ready, deref.
      rewrite Hn. simpl. rewrite Hn. simpl.
      intros H. injection H as <- <-. reflexivity.
Qed.

Lemma update_events (tie : tie_rule) (sha : string -> string) (q : Z)
    (m m' : manager) (r : nat) (pr : process) :
  pRunningProcess m = Some r -> nth_error (list_active m) r = Some pr ->
  update tie sha m q = Ok m' ->
  workers m' =
  workers m ++
  (if service_time (pProgram pr) <=? u32 (run_time pr + q)
   then round_terminate (child_pid pr) (u32 (time m + q))
                        (sha (name (pProgram pr)))
   else []).
Proof.
  intros Er Hn. unfold update. simpl. rewrite Er. unfold deref. simpl.
  rewrite Hn. simpl.
  destruct (service_time (pProgram pr) <=? u32 (run_time pr + q)) eqn:Efin.
  - unfold process_terminate, deref. simpl.
    rewrite (nth_error_set_nth_eq _ _ pr _ Hn). mgr.
    rewrite set_nth_set_nth.
    destruct (strategy (allocator m)) eqn:Es.
    + unfold deref. mgr. rewrite (nth_error_set_nth_eq _ _ pr _ Hn). mgr.
      intros H. injection H as <-. reflexivity.
    + unfold free_memory_of, deref. mgr.
      rewrite (nth_error_set_nth_eq _ _ pr _ Hn). mgr.
      destruct (pBlock pr) as [b|]; mgr; [|discriminate].
      rewrite set_nth_set_nth, (nth_error_set_nth_eq _ _ pr _ Hn). mgr.
      intros H. injection H as <-. reflexivity.
  - mgr. intros H. injection H as <-. simpl. now rewrite app_nil_r.
Qed.

(** ** The protocol is kept *)

Lemma events_of_app (c : Z) (ws evs : list worker_event) :
  events_of c (ws ++ evs) = events_of c ws ++ events_of c evs.
Proof. apply filter_app. Qed.

Lemma events_of_same (c : Z) (evs : list worker_event) :
  Forall (fun ev => event_child ev = c) evs -> events_of c evs = evs.
Proof.
  induction 1 as [|ev l H _ IH]; simpl; trivial.
  rewrite H, Z.eqb_refl. now f_equal.
Qed.

Lemma events_of_other (c c' : Z) (evs : list worker_event) :
  c <> c' -> Forall (fun ev => event_child ev = c) evs ->
  events_of c' evs = [].
Proof.
  intros Hne. induction 1 as [|ev l H _ IH]; simpl; trivial.
  rewrite H. now destruct (Z.eqb_spec c c').
Qed.

Lemma events_of_none (c : Z) (ws : list worker_event) :
  Forall (fun ev => event_child ev <> c) ws -> events_of c ws = [].
Proof.
  induction 1 as [|ev l H _ IH]; simpl; trivial.
  now destruct (Z.eqb_spec (event_child ev) c).
Qed.

(** A stage that rewrites the process at [r] and talks to its subprocess
    only. *)
Lemma protocol_store (m m' : manager) (r : nat) (pr pr' : process)
    (evs : list worker_event) :
  protocol_kept m ->
  nth_error (list_active m) r = Some pr ->
  list_active m' = set_nth (list_active m) r pr' ->
  workers m' = workers m ++ evs ->
  Forall (fun ev => event_child ev = Z.of_nat r + 1) evs ->
  conversation (Z.of_nat r + 1) (name (pProgram pr')) (link_of pr')
               (events_of (Z.of_nat r + 1) (workers m) ++ evs) ->
  protocol_kept m'.
Proof.
  intros (Hconv & Hrange) Hn Ha Hw Hev Hnew. split.
  - intros p pr0 Hn0. rewrite Ha in Hn0. rewrite Hw, events_of_app.
    destruct (Nat.eq_dec r p) as [<-|Hne].
    + rewrite (nth_error_set_nth_eq _ _ pr _ Hn) in Hn0. injection Hn0 as <-.
      now rewrite (events_of_same _ evs Hev).
    + rewrite nth_error_set_nth_neq in Hn0 by trivial.
      rewrite (events_of_other (Z.of_nat r + 1) (Z.of_nat p + 1) evs),
        app_nil_r; trivial; [|lia].
      now apply Hconv.
  - rewrite Ha, set_nth_length, Hw. apply Forall_app. split; trivial.
    eapply Forall_impl; [|exact Hev]. simpl. intros ev ->.
    assert (r < List.length (list_active m))%nat; [|lia].
    apply nth_error_Some. congruence.
Qed.

Lemma protocol_check_pending (m m' : manager) :
  protocol_kept m -> check_pending m = Ok m' -> protocol_kept m'.
Proof.
  intros (Hconv & Hrange) Hcp.
  destruct (check_pending_trace m m' Hcp)
    as (moved & rest & accepted & kept & _ & _ & _ & _ & _ & Hact & _ & _ & _
        & _ & _ & _ & Hw & _).
  split.
  - intros p pr Hn. rewrite Hact in Hn. rewrite Hw.
    destruct (Nat.lt_ge_cases p (List.length (list_active m))) as [Hlt|Hge].
    + rewrite nth_error_app1 in Hn by trivial. now apply Hconv.
    + rewrite nth_error_app2 in Hn by trivial.
      apply nth_error_In, in_map_iff in Hn. destruct Hn as (e & <- & _).
      rewrite events_of_none; [constructor|].
      eapply Forall_impl; [|exact Hrange]. simpl. intros ev H. lia.
  - rewrite Hw, Hact, length_app. eapply Forall_impl; [|exact Hrange].
    simpl. intros ev H. lia.
Qed.

Lemma protocol_keep_process_running (q : Z) (m m' : manager) (keep : bool) :
  engine_invariant q m -> ledger m -> protocol_kept m ->
  keep_process_running m = Ok (keep, m') -> protocol_kept m'.
Proof.
  intros Hinv Hled Hprot Hk. pose proof (keep_process_running_trace m) as Ht.
  destruct (pRunningProcess m) as [r|] eqn:Er.
  2:{ rewrite Ht in Hk. now injection Hk as _ <-. }
  destruct Hinv as [_ Hrunning _ _ _ _].
  destruct (Hrunning r Er) as (pr & Hn & Hst).
  pose proof (keep_process_running_events m m' keep r pr Er Hn Hk) as Hw.
  destruct (Ht pr Hn) as (keep0 & m0 & Hk0 & _ & _ & _ & _ & _ & _ & _ & _ & _
                          & Hcase).
  rewrite Hk0 in Hk. injection Hk as <- <-.
  pose proof (led_cells m Hled r pr Hn) as (_ & _ & _ & _ & C5 & _).
  specialize (C5 Hst). rewrite C5 in Hw.
  pose proof (proj1 Hprot r pr Hn) as Hc.
  unfold link_of in Hc. rewrite Hst in Hc.
  destruct keep0.
  - destruct Hcase as (_ & Ha & _).
    eapply (protocol_store m m0 r pr pr _ Hprot Hn).
    + now rewrite Ha, (set_nth_same _ r pr Hn).
    + exact Hw.
    + repeat constructor.
    + unfold link_of. rewrite Hst. now apply conv_continue.
  - destruct Hcase as (_ & _ & Ha & _).
    eapply (protocol_store m m0 r pr (set_state pr READY) _ Hprot Hn).
    + exact Ha.
    + exact Hw.
    + repeat constructor.
    + unfold link_of. simpl. rewrite C5.
      replace (Z.of_nat r + 1 =? PID_NULL_HANDLE) with false
        by (symmetry; apply Z.eqb_neq; unfold PID_NULL_HANDLE; lia).
      now apply conv_suspend.
Qed.

Lemma protocol_switch_process (q : Z) (m m' : manager) :
  engine_invariant q m -> ledger m -> protocol_kept m ->
  switch_process m = Ok m' -> protocol_kept m'.
Proof.
  intros Hinv Hled Hprot Hsw.
  destruct (switch_process_events m m' Hsw) as [->|(p & pr & Hrun & Hn & Hw)];
    trivial.
  destruct (switch_process_trace q m Hinv)
    as [(_ & Hsame)|(m0 & pos & p0 & pr0 & pr' & evs & Hsw0 & Hpos & Hn0 & Ha
                     & Hprog & _ & _ & Hst' & Hpid & _ & Hrun0 & _)].
  { rewrite Hsame in Hsw. now injection Hsw as <-. }
  rewrite Hsw0 in Hsw. injection Hsw as <-.
  assert (p0 = p) by congruence. subst p0.
  assert (pr0 = pr) by congruence. subst pr0.
  destruct Hinv as [(_ & Hrdy) _ _ _ _ _].
  destruct (Hrdy p (nth_error_In _ _ Hpos)) as (pr1 & Hn1 & Hst).
  assert (pr1 = pr) by congruence. subst pr1.
  pose proof (led_cells m Hled p pr Hn) as (_ & _ & _ & C4 & _).
  pose proof (proj1 Hprot p pr Hn) as Hc.
  unfold link_of in Hc. rewrite Hst in Hc.
  eapply (protocol_store m m0 p pr pr' _ Hprot Hn Ha Hw).
  - destruct (child_pid pr =? PID_NULL_HANDLE) eqn:E.
    + repeat constructor.
    + apply Z.eqb_neq in E. destruct C4 as [C4|C4]; [contradiction|].
      rewrite C4. repeat constructor.
  - unfold link_of. rewrite Hst', Hprog.
    destruct (child_pid pr =? PID_NULL_HANDLE) eqn:E.
    + inversion Hc as [Ht| | | | |]. simpl. apply conv_spawn.
    + apply Z.eqb_neq in E. destruct C4 as [C4|C4]; [contradiction|].
      rewrite C4. now apply conv_resume.
Qed.

Lemma protocol_update (tie : tie_rule) (sha : string -> string) (q : Z)
    (m m' : manager) :
  engine_invariant q m -> ledger m -> protocol_kept m ->
  update tie sha m q = Ok m' -> protocol_kept m'.
Proof.
  intros Hinv Hled Hprot Hup. pose proof (update_trace tie sha m q) as Ht.
  destruct (pRunningProcess m) as [r|] eqn:Er.
  2:{ rewrite Ht in Hup. injection Hup as <-. exact Hprot. }
  pose proof Hinv as [_ Hrunning _ _ _ Hproc].
  destruct (Hrunning r Er) as (pr & Hn & Hst).
  pose proof (update_events tie sha q m m' r pr Er Hn Hup) as Hw.
  rewrite Forall_forall in Hproc.
  pose proof (Hproc pr (nth_error_In _ _ Hn)) as (_ & _ & _ & Hblock).
  destruct (Ht pr Hn) as (m0 & pr' & Hup0 & Ha & Hprog & _ & Hpid & _ & _ & _
                          & _ & _ & _ & _ & _ & Hcase).
  { intros Hs. rewrite Hs in Hblock. intros Hnone. apply Hblock in Hnone.
    congruence. }
  rewrite Hup0 in Hup. injection Hup as <-.
  pose proof (led_cells m Hled r pr Hn) as (_ & _ & _ & _ & C5 & _).
  specialize (C5 Hst). rewrite C5 in Hw.
  pose proof (proj1 Hprot r pr Hn) as Hc.
  unfold link_of in Hc. rewrite Hst in Hc.
  eapply (protocol_store m m0 r pr pr' _ Hprot Hn Ha Hw).
  - destruct (service_time (pProgram pr) <=? u32 (run_time pr + q));
      repeat constructor.
  - unfold link_of. rewrite Hprog.
    destruct (service_time (pProgram pr) <=? u32 (run_time pr + q)).
    + destruct Hcase as (-> & _). now apply conv_terminate.
    + destruct Hcase as (-> & _). rewrite Hst, app_nil_r. exact Hc.
Qed.

Lemma step_protocol (tie : tie_rule) (sha : string -> string) (q : Z)
    (m m' : manager) :
  in_u32 q -> engine_invariant q m -> ledger m -> protocol_kept m ->
  step tie sha q m = Ok m' -> protocol_kept m'.
Proof.
  intros Hq Hinv Hled Hprot Hstep.
  destruct (step_stages tie sha q m Hq Hinv)
    as (m1 & keep & m2 & m3 & m0 & Hcp & Hinv1 & Hk & Hinv2 & Hsw & Hinv3
        & Hnone & Hup & _ & Hstep0).
  rewrite Hstep0 in Hstep. injection Hstep as <-.
  pose proof (ledger_check_pending q m m1 Hinv Hinv1 Hled Hcp) as Hled1.
  pose proof (ledger_keep_process_running q m1 m2 keep Hinv1 Hled1 Hk) as Hled2.
  pose proof (protocol_check_pending m m1 Hprot Hcp) as Hprot1.
  pose proof (protocol_keep_process_running q m1 m2 keep Hinv1 Hled1 Hprot1 Hk)
    as Hprot2.
  assert (H3 : ledger m3 /\ protocol_kept m3).
  { destruct keep.
    - now subst m3.
    - split.
      + apply (ledger_switch_process q m2 m3); auto.
      + apply (protocol_switch_process q m2 m3); auto. }
  destruct H3 as (Hled3 & Hprot3).
  exact (protocol_update tie sha q m3 m0 Hinv3 Hled3 Hprot3 Hup).
Qed.

Lemma reachable_protocol (tie : tie_rule) (sha : string -> string) (q : Z)
    (t : SCHEDULER_TYPE) (s : MEMORY_STRATEGY) (progs : list program)
    (m : manager) :
  in_u32 q -> Forall program_ok progs ->
  Z.of_nat (List.length progs) < 2 ^ 32 ->
  reachable tie sha q (boot t s progs) m -> protocol_kept m.
Proof.
  intros Hq Hprogs Hfew Hreach. induction Hreach as [|m m' Hreach IH Hstep].
  - rewrite boot_effect. split; simpl; [|constructor].
    intros [|p] pr H; discriminate.
  - destruct (reachable_ledger tie sha q t s progs m Hq Hprogs Hfew Hreach)
      as (Hinv & Hled & _).
    apply (step_protocol tie sha q m m'); trivial.
Qed.

Lemma conversation_counts (c : Z) (arg : string) (l : link)
    (t : list worker_event) :
  conversation c arg l t ->
  List.length (filter is_spawn t)
  = match l with NotSpawned => 0%nat | _ => 1%nat end /\
  List.length (filter is_sigterm t)
  = match l with Ended => 1%nat | _ => 0%nat end.
Proof.
  induction 1 as [|now|t now _ (IH1 & IH2)|t now _ (IH1 & IH2)
                  |t now _ (IH1 & IH2)|t now sha _ (IH1 & IH2)];
    rewrite ?filter_app, ?length_app; simpl; split; lia.
Qed.

(** X22. The traffic with each subprocess follows the protocol. The
    subprocess of a process is spawned once, with the name of the program
    as its argument, the first time the process runs; a process that runs
    again is continued, not spawned again; a subprocess is suspended and
    terminated only while it is live; it is sent [SIGTERM] once, when the
    process finishes, and nothing after its result has been read. Where
    the conversation stands shows in the fields of the process. *)
Theorem subprocess_protocol (tie : tie_rule) (sha : string -> string)
    (q : Z) (t : SCHEDULER_TYPE) (s : MEMORY_STRATEGY)
    (progs : list program) (m : manager) (p : nat) (pr : process) :
  in_u32 q -> Forall program_ok progs ->
  Z.of_nat (List.length progs) < 2 ^ 32 ->
  reachable tie sha q (boot t s progs) m ->
  nth_error (list_active m) p = Some pr ->
  conversation (Z.of_nat p + 1) (name (pProgram pr)) (link_of pr)
               (events_of (Z.of_nat p + 1) (workers m)) /\
  List.length (filter is_spawn (events_of (Z.of_nat p + 1) (workers m)))
  = match link_of pr with NotSpawned => 0%nat | _ => 1%nat end /\
  List.length (filter is_sigterm (events_of (Z.of_nat p + 1) (workers m)))
  = match link_of pr with Ended => 1%nat | _ => 0%nat end /\
  Forall (fun ev => 1 <= event_child ev
                    <= Z.of_nat (List.length (list_active m))) (workers m).
Proof.
  intros Hq Hprogs Hfew Hreach Hn.
  destruct (reachable_protocol tie sha q t s progs m Hq Hprogs Hfew Hreach)
    as (Hconv & Hrange).
  pose proof (Hconv p pr Hn) as Hc.
  destruct (conversation_counts _ _ _ _ Hc) as (H1 & H2). auto.
Qed.

Lemma subprocess_protocol_witness :
  conversation (Z.of_nat 0 + 1) (name (pProgram overrun_process))
               (link_of overrun_process)
               (events_of (Z.of_nat 0 + 1) (workers overrun_state)) /\
  List.length (filter is_spawn
                 (events_of (Z.of_nat 0 + 1) (workers overrun_state)))
  = match link_of overrun_process with NotSpawned => 0%nat | _ => 1%nat end /\
  List.length (filter is_sigterm
                 (events_of (Z.of_nat 0 + 1) (workers overrun_state)))
  = match link_of overrun_process with Ended => 1%nat | _ => 0%nat end /\
  Forall (fun ev => 1 <= event_child ev
                    <= Z.of_nat (List.length (list_active overrun_state)))
         (workers overrun_state).
Proof.
  apply (subprocess_protocol NewAfterEqual silent 3 SJF INFINITE
           [mk_program "P1" 0 5 0] overrun_state 0 overrun_process).
  - unfold in_u32. lia.
  - repeat constructor; simpl; lia.
  - simpl. lia.
  - exact overrun_reachable.
  - reflexivity.
Defined.

(** ** Requests that fit the pool together *)

Lemma roomy_allocate (fl : list memory_block) (used sz : Z) :
  roomy fl used -> 0 <= sz -> used + sz <= BUFFER_SIZE ->
  exists b fl',
    allocator_find_best_fit (mk_allocator fl BEST_FIT) sz
    = Ok (Some b, mk_allocator fl' BEST_FIT) /\
    size b = sz /\ roomy fl' (used + sz).
Proof.
  intros (Hwithin & (t & Ht & Hend & Hidx)) Hsz Hfit.
  assert (Hne : fl <> []) by (intros ->; contradiction).
  assert (Hok : Forall block_ok fl).
  { eapply Forall_impl; [|exact Hwithin]. apply within_pool_ok. }
  rewrite Forall_forall in Hwithin.
  assert (Hu : in_u32 sz).
  { destruct (Hwithin t Ht) as (T1 & _).
    unfold in_u32, BUFFER_SIZE in *. lia. }
  destruct (allocator_find_best_fit_cases fl sz Hne Hok Hu)
    as [(pos & chosen & (Hn & Hfits & _) & Heq)|(Hnone & _)].
  2:{ exfalso. specialize (Hnone t Ht). unfold block_end in Hend. lia. }
  eexists _, _. split; [exact Heq|]. split; [reflexivity|].
  destruct (Hwithin chosen (nth_error_In _ _ Hn)) as (C1 & C2 & C3).
  unfold fits in Hfits. unfold block_end in *.
  split.
  - apply Forall_set_nth; [now apply Forall_forall|].
    unfold within_pool, fits_below, block_end. simpl. lia.
  - destruct (In_nth_error _ _ Ht) as (pt & Hpt).
    destruct (Nat.eq_dec pos pt) as [<-|Hne'].
    + assert (chosen = t) by congruence. subst chosen.
      exists (mk_block (index t + sz) (size t - sz)). conjs.
      * eapply nth_error_In. now apply (nth_error_set_nth_eq _ _ t).
      * unfold block_end. simpl. lia.
      * simpl. lia.
    + exists t. conjs; trivial; [|lia].
      eapply nth_error_In. rewrite nth_error_set_nth_neq; eauto.
Qed.

Lemma merge_pass_tail (used : Z) (b : memory_block)
    (rest : list memory_block) :
  Forall block_ok (b :: rest) ->
  Forall within_pool (b :: rest) -> tail_room (b :: rest) used ->
  tail_room (merge_pass b rest) used.
Proof.
  apply (merge_pass_ind (fun b rest r =>
           Forall within_pool (b :: rest) -> tail_room (b :: rest) used ->
           tail_room r used)).
  - intros b0 _ _ H. exact H.
  - intros b1 b2 rest' r _ _ Htouch _ IH Hwithin (t & Ht & Hend & Hidx).
    inversion Hwithin as [|? ? (A1 & A2 & A3) Hw']; subst.
    inversion Hw' as [|? ? (B1 & B2 & B3) Hw'']; subst.
    unfold touches, block_end in *.
    apply IH.
    + constructor; trivial. unfold within_pool, fits_below, block_end. simpl. lia.
    + destruct Ht as [<-|[<-|Ht]].
      * exists (mk_block (index b1) (size b1 + size b2)).
        unfold block_end. simpl. conjs; [now left | lia | lia].
      * exists (mk_block (index b1) (size b1 + size b2)).
        unfold block_end. simpl. conjs; [now left | lia | lia].
      * exists t. conjs; trivial. now right.
  - intros b1 b2 rest' r _ _ _ IH Hwithin (t & Ht & Hend & Hidx).
    inversion Hwithin as [|? ? _ Hw']; subst.
    destruct Ht as [<-|Ht].
    + exists b1. conjs; trivial. now left.
    + destruct (IH Hw') as (t' & Ht' & Hend' & Hidx').
      * now exists t.
      * exists t'. conjs; trivial. now right.
Qed.

Lemma roomy_release (tie : tie_rule) (fl : list memory_block) (used : Z)
    (x : memory_block) :
  roomy fl used -> within_pool x -> roomy (allocater_free_memory tie fl x) used.
Proof.
  intros (Hwithin & (t & Ht & Hend & Hidx)) Hx. unfold allocater_free_memory.
  assert (Hall : Forall within_pool (x :: fl)) by now constructor.
  pose proof (list_insert_sorted_ok tie within_pool x fl Hall) as Hw'.
  assert (Hin : In t (list_insert_sorted tie mem_block_cmp x fl)).
  { destruct (list_insert_sorted_split tie x fl) as (l1 & l2 & -> & -> & _).
    apply in_app_iff in Ht. apply in_app_iff.
    destruct Ht; [now left | right; now right]. }
  destruct (list_insert_sorted_cons tie x fl) as (b1 & rest & E).
  rewrite E in *.
  assert (Hok : Forall block_ok (b1 :: rest)).
  { eapply Forall_impl; [|exact Hw']. apply within_pool_ok. }
  split.
  - now apply merge_pass_fits_below.
  - apply merge_pass_tail; trivial. now exists t.
Qed.

Lemma pool_run_roomy (tie : tie_rule) (ops : list pool_op) :
  Forall pool_op_ok ops ->
  forall (s : pool_state) (used : Z),
    pool_invariant (fst s) (snd s) -> roomy (fst s) used ->
    used + asked ops <= BUFFER_SIZE ->
    exists s' used',
      pool_run tie ops s = Ok s' /\ pool_invariant (fst s') (snd s') /\
      roomy (fst s') used' /\ used' <= used + asked ops.
Proof.
  induction 1 as [|op ops Hop Hops IH]; intros [fl held] used Hinv Hroomy Hfit;
    cbn [fst snd] in *.
  - exists (fl, held), used. simpl in *. conjs; trivial. lia.
  - destruct (pool_step_invariant tie (fl, held) op Hinv Hop)
      as (s1 & Hstep & Hinv1).
    assert (H1 : exists used1, roomy (fst s1) used1 /\
                               used1 + asked ops <= used + asked (op :: ops)).
    { destruct op as [sz|k]; simpl in *.
      - unfold in_u32 in Hop.
        assert (0 <= asked ops).
        { clear - Hops. induction Hops as [|o l Ho _ IHl]; simpl; [lia|].
          destruct o; simpl in *; unfold in_u32 in *; lia. }
        destruct (roomy_allocate fl used sz Hroomy) as (b & fl' & Heq & _ & Hr);
          [lia | lia |].
        rewrite Heq in Hstep. simpl in Hstep. injection Hstep as <-.
        exists (used + sz). split; trivial. lia.
      - exists used. split; [|lia].
        destruct (nth_error held k) as [b|] eqn:E.
        + injection Hstep as <-. simpl. apply roomy_release; trivial.
          destruct Hinv as [_ Hown _ _ _]. rewrite Forall_forall in Hown.
          apply Hown. eapply nth_error_In; eauto.
        + now injection Hstep as <-. }
    destruct H1 as (used1 & Hr1 & Hle).
    destruct (IH s1 used1 Hinv1 Hr1) as (s' & used' & Hrun & Hinv' & Hr' & Hle');
      [lia|].
    exists s', used'. cbn [pool_run]. unfold bind. rewrite Hstep.
    conjs; trivial. lia.
Qed.

(** X23. A request is granted whenever the sizes asked for so far,
    released or not, and the size asked for now add up to at most the
    2048 units of the pool: holes and empty entries of the free list never
    stand in the way of such a request. *)
Theorem request_that_fits_is_granted (tie : tie_rule) (ops : list pool_op)
    (fl held : list memory_block) (sz : Z) :
  Forall pool_op_ok ops -> pool_run tie ops pool_init = Ok (fl, held) ->
  0 <= sz -> asked ops + sz <= BUFFER_SIZE ->
  exists b fl',
    allocator_find_best_fit (mk_allocator fl BEST_FIT) sz
    = Ok (Some b, mk_allocator fl' BEST_FIT) /\
    b = mk_block (index b) sz /\ within_pool b.
Proof.
  intros Hops Hrun Hsz Hfit.
  assert (Hasked : 0 <= asked ops).
  { clear - Hops. induction Hops as [|o l Ho _ IHl]; simpl; [lia|].
    destruct o; simpl in *; unfold in_u32 in *; lia. }
  destruct (pool_run_roomy tie ops Hops pool_init 0)
    as (s' & used' & Hrun' & Hinv' & Hroomy & Hle).
  - apply pool_invariant_init.
  - split; [apply pool_invariant_init|].
    exists (mk_block 0 BUFFER_SIZE). conjs; [now left | reflexivity | simpl; lia].
  - lia.
  - rewrite Hrun in Hrun'. injection Hrun' as <-. simpl in *.
    destruct (roomy_allocate fl used' sz Hroomy Hsz) as (b & fl' & Heq & Hb & _);
      [lia|].
    exists b, fl'. split; trivial.
    destruct (pool_invariant_allocate fl held sz Hinv') as (g & fl2 & Heq2 & _ & Hg).
    { unfold in_u32, BUFFER_SIZE in *. lia. }
    rewrite Heq in Heq2. injection Heq2 as <- <-.
    destruct Hg as (_ & [_ Hown _ _ _]). inversion Hown; subst.
    split; trivial. destruct b. simpl in *. now subst.
Qed.

Lemma request_that_fits_is_granted_witness :
  exists b fl',
    allocator_find_best_fit
      (mk_allocator [mk_block 100 50; mk_block 100 0; mk_block 150 1898]
                    BEST_FIT) 1798
    = Ok (Some b, mk_allocator fl' BEST_FIT) /\
    b = mk_block (index b) 1798 /\ within_pool b.
Proof.
  apply (request_that_fits_is_granted NewBeforeEqual
           [Allocate 100; Allocate 50; Release 0; Allocate 100; Release 0]
           [mk_block 100 50; mk_block 100 0; mk_block 150 1898]
           [mk_block 0 100] 1798).
  - repeat constructor; unfold in_u32; lia.
  - reflexivity.
  - lia.
  - simpl. unfold BUFFER_SIZE. lia.
Defined.

Lemma memory_asked_app (l1 l2 : list program) :
  memory_asked (l1 ++ l2) = memory_asked l1 + memory_asked l2.
Proof. unfold memory_asked. now rewrite map_app, total_app. Qed.

Lemma memory_asked_nonneg (l : list program) :
  Forall program_ok l -> 0 <= memory_asked l.
Proof.
  intros H. apply total_nonneg, Forall_map.
  eapply Forall_impl; [|exact H]. intros p (_ & _ & Hm). lia.
Qed.

(** Under best fit a queue whose programs fit the room left is accepted
    whole. *)
Lemma admission_spec_roomy (queue : list program) :
  Forall program_ok queue ->
  forall a used,
    strategy a = BEST_FIT -> roomy (free_list a) used ->
    used + memory_asked queue <= BUFFER_SIZE ->
    exists accepted a',
      admission_spec a queue = Ok (accepted, [], a') /\
      roomy (free_list a') (used + memory_asked queue).
Proof.
  induction 1 as [|prog rest Hprog Hrest IH]; intros a used Hs Hroomy Hfit.
  - exists [], a. simpl. split; trivial.
    unfold memory_asked. simpl. now rewrite Z.add_0_r.
  - change (memory_asked (prog :: rest))
      with (memory_required prog + memory_asked rest) in *.
    pose proof (memory_asked_nonneg rest Hrest) as Hn.
    destruct Hprog as (_ & _ & Hm).
    destruct a as [fl s0]. simpl in Hs, Hroomy. subst s0.
    destruct (roomy_allocate fl used (memory_required prog) Hroomy)
      as (b & fl' & Heq & _ & Hr); [lia | lia |].
    destruct (IH (mk_allocator fl' BEST_FIT) (used + memory_required prog))
      as (accepted & a' & Hspec & Hr'); trivial; [lia|].
    exists ((prog, Some b) :: accepted), a'.
    simpl. rewrite Heq. simpl. rewrite Hspec. simpl. split; trivial.
    now rewrite Z.add_assoc.
Qed.

(** [update] gives a block back or leaves the free list alone. *)
Lemma update_roomy (tie : tie_rule) (sha : string -> string) (q : Z)
    (m m' : manager) (used : Z) :
  engine_invariant q m -> update tie sha m q = Ok m' ->
  roomy (free_list (allocator m)) used ->
  roomy (free_list (allocator m')) used.
Proof.
  intros [_ Hrunning Hpool _ _ _] Hup Hroomy. revert Hup.
  unfold update. simpl. destruct (pRunningProcess m) as [r|] eqn:Er.
  2:{ intros H. now injection H as <-. }
  destruct (Hrunning r Er) as (pr & Hn & Hst).
  unfold deref. simpl. rewrite Hn. simpl.
  destruct (service_time (pProgram pr) <=? u32 (run_time pr + q)).
  2:{ mgr. intros H. now injection H as <-. }
  unfold process_terminate, deref. simpl.
  rewrite (nth_error_set_nth_eq _ _ pr _ Hn). mgr.
  rewrite set_nth_set_nth.
  destruct (strategy (allocator m)) eqn:Es.
  - unfold deref. mgr. rewrite (nth_error_set_nth_eq _ _ pr _ Hn). mgr.
    intros H. now injection H as <-.
  - unfold free_memory_of, deref. mgr.
    rewrite (nth_error_set_nth_eq _ _ pr _ Hn). mgr.
    destruct (pBlock pr) as [b|] eqn:Eb; [|discriminate]. mgr.
    rewrite set_nth_set_nth, (nth_error_set_nth_eq _ _ pr _ Hn). mgr.
    intros H. injection H as <-. simpl. apply roomy_release; trivial.
    destruct (Hpool eq_refl) as [_ Hown _ _ _]. rewrite Forall_forall in Hown.
    apply Hown. unfold held_blocks. apply in_flat_map. exists pr.
    split; [eapply nth_error_In; eauto|]. unfold block_list. rewrite Eb.
    now left.
Qed.

Lemma check_pending_roomy (q : Z) (m m1 : manager) :
  engine_invariant q m -> ledger m ->
  strategy (allocator m) = BEST_FIT ->
  memory_asked (pPrograms m) <= BUFFER_SIZE ->
  list_input m = [] -> roomy (free_list (allocator m)) (memory_seen m) ->
  check_pending m = Ok m1 ->
  list_input m1 = [] /\ roomy (free_list (allocator m1)) (memory_seen m1).
Proof.
  intros Hinv Hled Hs Hfit Hnil Hroomy Hcp.
  destruct (check_pending_trace m m1 Hcp)
    as (moved & rest & accepted & kept & Hskip & _ & _ & Hspec & Hin
        & _ & _ & _ & Hpp & _ & _ & Hpi & _).
  rewrite Hnil in Hspec. simpl in Hspec.
  destruct (firstn_skipn_prefix _ _ _ _ (led_index m Hled) Hskip) as (Hfirst & _).
  pose proof (firstn_skipn (pending_index m) (pPrograms m)) as Hall.
  rewrite Hskip in Hall.
  destruct Hinv as [_ _ _ Hprogs _ _].
  rewrite <- Hall in Hprogs, Hfit.
  apply Forall_app in Hprogs. destruct Hprogs as (_ & Hprogs).
  apply Forall_app in Hprogs. destruct Hprogs as (Hmoved & Hrest).
  rewrite !memory_asked_app in Hfit.
  pose proof (memory_asked_nonneg rest Hrest) as Hn.
  destruct (admission_spec_roomy moved Hmoved (allocator m) (memory_seen m)
              Hs Hroomy) as (accepted' & a' & Hspec' & Hr').
  { unfold memory_seen. lia. }
  rewrite Hspec' in Hspec. injection Hspec as <- <- <-.
  split; [now symmetry|].
  unfold memory_seen. rewrite Hpp, Hpi, Hfirst, memory_asked_app. exact Hr'.
Qed.

Lemma step_roomy (tie : tie_rule) (sha : string -> string) (q : Z)
    (m m' : manager) :
  in_u32 q -> engine_invariant q m -> ledger m ->
  strategy (allocator m) = BEST_FIT ->
  memory_asked (pPrograms m) <= BUFFER_SIZE ->
  list_input m = [] -> roomy (free_list (allocator m)) (memory_seen m) ->
  step tie sha q m = Ok m' ->
  list_input m' = [] /\ roomy (free_list (allocator m')) (memory_seen m').
Proof.
  intros Hq Hinv Hled Hs Hfit Hnil Hroomy Hstep.
  destruct (step_stages tie sha q m Hq Hinv)
    as (m1 & keep & m2 & m3 & m0 & Hcp & Hinv1 & Hk & Hinv2 & Hsw & Hinv3
        & Hnone & Hup & _ & Hstep0).
  rewrite Hstep0 in Hstep. injection Hstep as <-.
  destruct (check_pending_roomy q m m1 Hinv Hled Hs Hfit Hnil Hroomy Hcp)
    as (Hnil1 & Hroomy1).
  (* keep_process_running *)
  assert (Hkeep : pending_index m2 = pending_index m1 /\
                  pPrograms m2 = pPrograms m1 /\ allocator m2 = allocator m1 /\
                  list_input m2 = list_input m1).
  { pose proof (keep_process_running_trace m1) as Ht.
    destruct (pRunningProcess m1) as [r|] eqn:Er.
    2:{ rewrite Ht in Hk. injection Hk as <- <-. conjs; trivial. }
    destruct Hinv1 as [_ Hrunning _ _ _ _].
    destruct (Hrunning r Er) as (pr & Hn & Hst).
    destruct (Ht pr Hn) as (keep0 & m20 & Hk0 & Hal & Hpp & Hin & Htime & Htype
                            & Hpc & Hpi & _).
    rewrite Hk0 in Hk. injection Hk as <- <-. conjs; trivial. }
  destruct Hkeep as (Hi2 & Hp2 & Ha2 & Hin2).
  (* switch_process *)
  assert (Hswitch : pending_index m3 = pending_index m2 /\
                    pPrograms m3 = pPrograms m2 /\ allocator m3 = allocator m2 /\
                    list_input m3 = list_input m2).
  { destruct keep.
    - subst m3. conjs; trivial.
    - destruct (switch_process_trace q m2 Hinv2)
        as [(_ & Hsame)|(m30 & pos & p & pr & pr' & evs & Hsw0 & Hpos & Hn
                         & Ha & Hprog & Hrt & Hblk & Hst & Hpid & Hr & Hrun
                         & Hal & Hpp & Hin & Htime & Htype & Hpc & Hpi & _)].
      + rewrite Hsame in Hsw. injection Hsw as <-. conjs; trivial.
      + rewrite Hsw0 in Hsw. injection Hsw as <-. conjs; trivial. }
  destruct Hswitch as (Hi3 & Hp3 & Ha3 & Hin3).
  assert (Hroomy3 : roomy (free_list (allocator m3)) (memory_seen m3)).
  { unfold memory_seen. rewrite Ha3, Ha2, Hi3, Hi2, Hp3, Hp2. exact Hroomy1. }
  pose proof (update_roomy tie sha q m3 m0 _ Hinv3 Hup Hroomy3) as Hroomy0.
  (* update *)
  pose proof (update_trace tie sha m3 q) as Ht.
  destruct (pRunningProcess m3) as [r|] eqn:Er.
  - destruct Hinv3 as [_ Hrunning _ _ _ Hproc].
    destruct (Hrunning r Er) as (pr & Hn & Hst).
    rewrite Forall_forall in Hproc.
    destruct (Hproc pr (nth_error_In _ _ Hn)) as (_ & _ & _ & Hblock).
    destruct (Ht pr Hn) as (m0' & pr' & Hup0 & Ha & Hprog & Hrt & Hpid & Hr & Hpp
                            & Hin & Htime & Htype & Hpi & _).
    { intros H Hnb. rewrite H in Hblock. apply Hblock in Hnb. congruence. }
    rewrite Hup0 in Hup. injection Hup as <-.
    split; [congruence|]. unfold memory_seen in *. now rewrite Hpp, Hpi.
  - rewrite Ht in Hup. injection Hup as <-. simpl.
    split; [congruence|]. exact Hroomy0.
Qed.

(** Under best fit, when the programs of the input file fit the pool
    together, no program is ever in the input queue. *)
Lemma fitting_never_waits (tie : tie_rule) (sha : string -> string)
    (q : Z) (t : SCHEDULER_TYPE) (progs : list program) (m : manager) :
  in_u32 q -> Forall program_ok progs ->
  Z.of_nat (List.length progs) < 2 ^ 32 ->
  memory_asked progs <= BUFFER_SIZE ->
  reachable tie sha q (boot t BEST_FIT progs) m ->
  list_input m = [] /\
  forall m1, check_pending m = Ok m1 -> list_input m1 = [].
Proof.
  intros Hq Hprogs Hfew Hfit Hreach.
  assert (H : list_input m = [] /\
              roomy (free_list (allocator m)) (memory_seen m)).
  { induction Hreach as [|m m' Hreach IH Hstep].
    - rewrite boot_effect. unfold memory_seen. simpl.
      unfold list_insert_head. split; trivial. split.
      + repeat constructor; unfold block_end, BUFFER_SIZE; simpl; lia.
      + exists (mk_block 0 BUFFER_SIZE).
        conjs; [now left | reflexivity | reflexivity].
    - destruct IH as (Hnil & Hroomy).
      destruct (reachable_ledger tie sha q t BEST_FIT progs m Hq Hprogs Hfew
                  Hreach) as (Hinv & Hled & Hp & _ & Hs).
      apply (step_roomy tie sha q m m'); trivial. now rewrite Hp. }
  destruct H as (Hnil & Hroomy). split; trivial. intros m1 Hcp.
  destruct (reachable_ledger tie sha q t BEST_FIT progs m Hq Hprogs Hfew
              Hreach) as (Hinv & Hled & Hp & _ & Hs).
  apply (check_pending_roomy q m m1); trivial. now rewrite Hp.
Qed.

(** X24. Under best fit, when the memory that the programs of the input
    file ask for adds up to at most the 2048 units of the pool, no program
    waits for memory and the execution loop ends: with a positive quantum,
    positive service times and no wrap-around of the run-times or of the
    clock before the last arrival, [should_terminate] answers yes after at
    most as many iterations as the last arrival and the service times take
    quanta, and three more; every program has then had its process, and
    every process is [FINISHED]. *)
Theorem fitting_programs_run_ends (tie : tie_rule) (sha : string -> string)
    (q : Z) (t : SCHEDULER_TYPE) (progs : list program) :
  in_u32 q -> 1 <= q -> Forall program_ok progs ->
  Z.of_nat (List.length progs) < 2 ^ 32 ->
  Forall (schedulable q) progs ->
  memory_asked progs <= BUFFER_SIZE ->
  exists fuel m,
    (fuel <= Z.to_nat (quanta q (last_arrival progs))
             + Z.to_nat (total_quanta q progs) + 3)%nat /\
    execution_loop tie sha fuel q (boot t BEST_FIT progs) = Exited m /\
    Permutation (map pProgram (list_active m)) progs /\
    Forall (fun pr => state pr = FINISHED) (list_active m) /\
    list_input m = [].
Proof.
  intros Hq Hq1 Hprogs Hfew Hsched Hfit.
  destruct (nowait_run_ends tie sha q t BEST_FIT progs Hq Hq1 Hprogs Hfew)
    as (fuel & m & Hle & Hexit & Hperm & Hfin); trivial.
  - eapply Forall_impl; [|exact Hsched]. now intros p (H & _).
  - intros m Hreach. now apply (fitting_never_waits tie sha q t progs).
  - exists fuel, m. conjs; trivial.
    destruct (execution_loop_exit tie sha q fuel _ m Hexit) as (_ & n & Hn).
    pose proof (run_steps_reachable tie sha q _ n _ m
                  (reach_boot tie sha q _) Hn) as Hreach.
    now destruct (fitting_never_waits tie sha q t progs m Hq Hprogs Hfew Hfit
                    Hreach).
Qed.

Lemma fitting_programs_run_ends_witness :
  exists fuel m,
    (fuel <= Z.to_nat (quanta 3 (last_arrival fitting_programs))
             + Z.to_nat (total_quanta 3 fitting_programs) + 3)%nat /\
    execution_loop NewAfterEqual silent fuel 3
      (boot RR BEST_FIT fitting_programs) = Exited m /\
    Permutation (map pProgram (list_active m)) fitting_programs /\
    Forall (fun pr => state pr = FINISHED) (list_active m) /\
    list_input m = [].
Proof.
  apply (fitting_programs_run_ends NewAfterEqual silent 3 RR fitting_programs).
  - unfold in_u32. lia.
  - lia.
  - repeat constructor; simpl; lia.
  - simpl. lia.
  - repeat constructor; simpl; lia.
  - vm_compute. discriminate.
Defined.
